(** * LessBoardGames: the synchronisation engine and the queue builder

    A shallow embedding of
    - [src/lib/server/expansion-cache.ts] (heuristic matcher, response parser,
      catalog client, cache store and sync coordinator of the expansion
      dataset),
    - [src/lib/server/dimension-cache.ts] (the same for box dimensions),
    - [src/lib/state.svelte.ts] ([buildQueue], [buildDefaultQueue], the
      derived values and the navigation of the application state),
    - [src/lib/server/persistence.ts] (the decisions file) and the routes of
      [src/routes/api/decisions],
    - [src/lib/server/bgg-api.ts] (the cookie store),
    - the handlers of [src/routes/+page.svelte] and of the components
      [InterviewForm.svelte] and [ReviewScreen.svelte],
    together with the properties stated about them.

    Conventions of the embedding.
    - A JavaScript [number] holding an identifier, a count or a time stamp is
      an integer of [Z] (exact as in the language up to [2^53]); another
      number is the rational of [Q] it stands for, and each arithmetic
      operation on such numbers rounds its result to the nearest binary64
      number ([Binary64.fl]); the non-finite values are outside the model.
    - A JavaScript string is a [string] of bytes; the case mapping and the
      white space of the model are the ASCII ones, and lengths and positions
      count bytes (what the sources count on ASCII text).
    - An object used as a map ([Record<number, T>]) is a [gmap Z T]; a [Map]
      whose iteration order is observed is an association list.
    - Module-level variables are the fields of a state record which every
      function takes and returns. *)

From Stdlib Require Import ZArith QArith Qround Qpower String Ascii List Lia Bool.
From Stdlib Require Import Sorted Permutation DecimalString DecimalPos Qcanon Lqa.
From stdpp Require Import gmap strings list fin_maps.

Import ListNotations.
Local Open Scope string_scope.
Local Open Scope list_scope.
Local Open Scope Z_scope.

(** ** The numbers of the language

    A finite [number] is a binary64 number: a significand of 53 bits and a
    power of two.  [fl x] is the binary64 number nearest to the rational
    [x], the one with the even significand when two are equally near: the
    result of an operation whose exact value is [x].  Values too small for
    a full significand (below [2^-1022]) or beyond the largest finite number
    are outside the model. *)

Module Binary64.
Local Open Scope Q_scope.

Definition pow2 (e : Z) : Q := 2 ^ e.

(** For [0 < x]: the exponent [e] with [2^e <= x < 2^(e+1)]. *)
Definition exponent (x : Q) : Z :=
  let e0 := (Z.log2 (Qnum x) - Z.log2 (Z.pos (Qden x)))%Z in
  if Qle_bool (pow2 e0) x then e0 else (e0 - 1)%Z.

(** The integer nearest to [q], the even one of two at the same distance. *)
Definition nearestEven (q : Q) : Z :=
  let f := Qfloor q in
  match Qcompare (q - inject_Z f) (1 # 2) with
  | Lt => f
  | Gt => (f + 1)%Z
  | Eq => if Z.even f then f else (f + 1)%Z
  end.

(** The number of 53 significant bits nearest to [0 < x]. *)
Definition nearest (x : Q) : Q :=
  let ulp := pow2 (exponent x - 52) in
  inject_Z (nearestEven (x / ulp)) * ulp.

Definition fl (x : Q) : Q :=
  match Qnum x with
  | Z0 => 0
  | Zpos _ => Qred (nearest x)
  | Zneg _ => Qred (- nearest (- x))
  end.

End Binary64.

(** ** JavaScript built-ins used by the sources *)

Module Js.

(** [String.prototype.toLowerCase], on the ASCII letters: the mapping of
    the language on ASCII text ([Text.isAscii]), which is where the
    properties which depend on it are stated. *)
Definition lowerAscii (c : ascii) : ascii :=
  let n := nat_of_ascii c in
  if ((65 <=? n)%nat && (n <=? 90)%nat)%bool then ascii_of_nat (n + 32) else c.

Fixpoint toLowerCase (s : string) : string :=
  match s with
  | EmptyString => EmptyString
  | String c r => String (lowerAscii c) (toLowerCase r)
  end.

(** White space of [\s] and of [trim]: TAB, LF, VT, FF, CR and SPACE. *)
Definition isSpace (c : ascii) : bool :=
  let n := nat_of_ascii c in
  (((9 <=? n)%nat && (n <=? 13)%nat) || (n =? 32)%nat)%bool.

Definition isDigit (c : ascii) : bool :=
  let n := nat_of_ascii c in ((48 <=? n)%nat && (n <=? 57)%nat)%bool.

Fixpoint trimStart (s : string) : string :=
  match s with
  | String c r => if isSpace c then trimStart r else s
  | EmptyString => EmptyString
  end.

Fixpoint trimEnd (s : string) : string :=
  match s with
  | EmptyString => EmptyString
  | String c r =>
      match trimEnd r with
      | EmptyString => if isSpace c then EmptyString else String c EmptyString
      | r' => String c r'
      end
  end.

Definition trim (s : string) : string := trimEnd (trimStart s).

(** [s.indexOf(needle)]: the first position of [needle], or [-1]. *)
Definition indexOf (s needle : string) : Z :=
  match String.index 0 needle s with
  | Some i => Z.of_nat i
  | None => -1
  end.

(** [s.substring(0, n)] for [0 <= n]. *)
Definition substring0 (s : string) (n : Z) : string :=
  String.substring 0 (Z.to_nat n) s.

(** [Math.min(...l)] of a non-empty list. *)
Definition Math_min (l : list Z) : Z :=
  match l with
  | [] => 0
  | x :: r => fold_left Z.min r x
  end.

(** [Array.prototype.sort] with a comparator: the stable sort, [le a b]
    telling that the comparator's value on [(a, b)] is not positive. *)
Section Sort.
Context {A : Type} (le : A -> A -> bool).

Fixpoint insertSorted (x : A) (l : list A) : list A :=
  match l with
  | [] => [x]
  | y :: r => if le x y then x :: y :: r else y :: insertSorted x r
  end.

Definition Array_sort (l : list A) : list A := foldr insertSorted [] l.
End Sort.

(** The double quote, which a string literal cannot hold as it is. *)
Definition dq : string := String (ascii_of_nat 34) EmptyString.
Definition quoted (s : string) : string := dq +:+ s +:+ dq.

(** [parseInt] of a run of decimal digits: the integer written, which is
    the number the language gives up to [2^53] (above, the language rounds
    to binary64). *)
Definition digitVal (c : ascii) : Z := Z.of_nat (nat_of_ascii c) - 48.

Fixpoint digitsAcc (acc : Z) (s : string) : Z :=
  match s with
  | String c r => if isDigit c then digitsAcc (10 * acc + digitVal c) r else acc
  | EmptyString => acc
  end.

Definition parseInt (s : string) : Z := digitsAcc 0 s.

(** *** Regular expressions

    The fragment of [RegExp] the sources use: literals, character classes
    under [+], [*] and [*?], concatenation and capture groups, with the
    backtracking order of the language (greedy: longest first, lazy:
    shortest first). *)
Inductive Re :=
| Lit (s : string)
| PlusC (p : ascii -> bool)
| StarC (p : ascii -> bool)
| LazyC (p : ascii -> bool)
| Cat (a b : Re)
| Group (a : Re).

Definition Seq (l : list Re) : Re := foldr Cat (Lit "") l.

Fixpoint stripPrefix (l s : string) : option string :=
  match l, s with
  | EmptyString, _ => Some s
  | String a l', String b s' => if Ascii.eqb a b then stripPrefix l' s' else None
  | String _ _, EmptyString => None
  end.

Section Match.
Context {X : Type}.

Fixpoint starGreedy (p : ascii -> bool) (k : string -> option X) (s : string)
    : option X :=
  match s with
  | String c r =>
      if p c then
        match starGreedy p k r with
        | Some x => Some x
        | None => k s
        end
      else k s
  | EmptyString => k s
  end.

Fixpoint starLazy (p : ascii -> bool) (k : string -> option X) (s : string)
    : option X :=
  match k s with
  | Some x => Some x
  | None =>
      match s with
      | String c r => if p c then starLazy p k r else None
      | EmptyString => None
      end
  end.

(** The text a sub-match took: what [s] has before [rest]. *)
Definition consumed (s rest : string) : string :=
  String.substring 0 (String.length s - String.length rest) s.

Fixpoint matchRe (r : Re) (s : string) (caps : list string)
    (k : string -> list string -> option X) : option X :=
  match r with
  | Lit l =>
      match stripPrefix l s with
      | Some rest => k rest caps
      | None => None
      end
  | PlusC p =>
      match s with
      | String c r' => if p c then starGreedy p (fun rest => k rest caps) r' else None
      | EmptyString => None
      end
  | StarC p => starGreedy p (fun rest => k rest caps) s
  | LazyC p => starLazy p (fun rest => k rest caps) s
  | Cat a b => matchRe a s caps (fun rest caps' => matchRe b rest caps' k)
  | Group a => matchRe a s caps (fun rest caps' => k rest (caps' ++ [consumed s rest]))
  end.
End Match.

(** A match anchored at the start of [s]: the captures and what follows. *)
Definition matchAt (r : Re) (s : string) : option (list string * string) :=
  matchRe r s [] (fun rest caps => Some (caps, rest)).

(** [s.match(r)] and one [r.exec(s)]: the leftmost match. *)
Fixpoint search (r : Re) (s : string) : option (list string * string) :=
  match matchAt r s with
  | Some m => Some m
  | None =>
      match s with
      | String _ s' => search r s'
      | EmptyString => None
      end
  end.

(** The successive results of [while ((m = r.exec(s)) !== null)] for a
    global [r] none of whose matches is empty. *)
Fixpoint execAllFuel (fuel : nat) (r : Re) (s : string) : list (list string) :=
  match fuel with
  | O => []
  | S n =>
      match search r s with
      | Some (caps, rest) => caps :: execAllFuel n r rest
      | None => []
      end
  end.

Definition execAll (r : Re) (s : string) : list (list string) :=
  execAllFuel (S (String.length s)) r s.

Definition anyChar (c : ascii) : bool := true.
Definition notChar (x : ascii) (c : ascii) : bool := negb (Ascii.eqb c x).

(** The [i]-th capture group of a match ([m[i]], counted from 1). *)
Definition group (i : nat) (caps : list string) : string :=
  nth (i - 1) caps "".




(** *** Numbers *)

Fixpoint spanDigits (s : string) : string * string :=
  match s with
  | String c r =>
      if isDigit c then let '(d, rest) := spanDigits r in (String c d, rest)
      else (EmptyString, s)
  | EmptyString => (EmptyString, EmptyString)
  end.

Definition isEmpty (s : string) : bool :=
  match s with EmptyString => true | _ => false end.

(** [m * 10^e] as a rational. *)
Definition scale10 (m e : Z) : Q :=
  if 0 <=? e then inject_Z (m * 10 ^ e) else Qmake m (Z.to_pos (10 ^ (- e))).

(** The exponent part [e[+-]digits] at the head of [s], if there is one. *)
Definition exponentPart (s : string) : Z :=
  match s with
  | String c r =>
      if (Ascii.eqb c "e" || Ascii.eqb c "E")%bool then
        let '(neg, r') :=
          match r with
          | String "-"%char t => (true, t)
          | String "+"%char t => (false, t)
          | _ => (false, r)
          end in
        let '(ds, _) := spanDigits r' in
        if isEmpty ds then 0 else if neg : bool then - parseInt ds else parseInt ds
      else 0
  | EmptyString => 0
  end.

(** [parseFloat]: the binary64 number nearest to the longest decimal
    literal at the head of the trimmed string; [None] is [NaN].  The
    literal [Infinity], a non-finite value, is outside the model. *)
Definition parseFloat (s : string) : option Q :=
  let s0 := trimStart s in
  let '(neg, s1) :=
    match s0 with
    | String "-"%char t => (true, t)
    | String "+"%char t => (false, t)
    | _ => (false, s0)
    end in
  let '(ip, s2) := spanDigits s1 in
  let '(fp, s3) :=
    match s2 with
    | String "."%char t => spanDigits t
    | _ => (EmptyString, s2)
    end in
  if (isEmpty ip && isEmpty fp)%bool then None
  else
    let m := parseInt (ip +:+ fp) in
    let e := exponentPart s3 - Z.of_nat (String.length fp) in
    Some (Binary64.fl (scale10 (if neg : bool then - m else m) e)).

(** [x > 0] on numbers, [NaN] comparing false. *)
Definition positive (x : option Q) : bool :=
  match x with
  | Some q => 0 <? Qnum q
  | None => false
  end.

(** [Math.round(x)]: the integer nearest to [x], halves going up. *)
Definition Math_round (x : Q) : Z := Qfloor (x + (1 # 2)).

End Js.

(** ** Data model ([src/lib/types.ts]) *)

(** The fields of [Game] which the modelled code reads.  [dateAdded] and
    [lastPlayed] are [None] for the empty string and [null], otherwise the
    time value of [new Date(...)] in milliseconds. *)
Record Game := mkGame {
  bggId : Z;
  collId : Z;
  name : string;
  dateAdded : option Z;
  playCount : Z;
  lastPlayed : option Z;
  userRating : option Q
}.

(** [ExpansionLink = { bggId, name }]: the owner is an expansion of [bggId]. *)
Record ExpansionLink := mkLink {
  link_bggId : Z;
  link_name : string
}.

(** ** Heuristic matcher ([analyzeByNamePrefix]) *)

Module Heuristic.

(** The two [Map]s built by the first loop: [nameToGame] is only looked
    up, [prefixGroups] is iterated in insertion order. *)
Record Tables := mkTables {
  nameToGame : gmap string Game;
  prefixGroups : list (string * list Game)
}.

Fixpoint groupPush (prefix : string) (g : Game)
    (groups : list (string * list Game)) : list (string * list Game) :=
  match groups with
  | [] => [(prefix, [g])]
  | (p, gs) :: rest =>
      if String.eqb p prefix then (p, gs ++ [g]) :: rest
      else (p, gs) :: groupPush prefix g rest
  end.

(** The candidate prefix of one name, when it has one. *)
Definition candidatePrefix (nm : string) : option string :=
  let colonIdx := Js.indexOf nm ":" in
  let dashIdx := Js.indexOf nm " – " in
  let hyphenIdx := Js.indexOf nm " - " in
  let separators := List.filter (fun i => 0 <? i) [colonIdx; dashIdx; hyphenIdx] in
  match separators with
  | [] => None
  | _ =>
      let splitAt := Js.Math_min separators in
      let prefix := Js.toLowerCase (Js.trim (Js.substring0 nm splitAt)) in
      if (String.length prefix <? 3)%nat then None else Some prefix
  end.

Definition scanGame (t : Tables) (game : Game) : Tables :=
  let n2g := <[Js.toLowerCase (name game) := game]> (nameToGame t) in
  match candidatePrefix (name game) with
  | None => mkTables n2g (prefixGroups t)
  | Some prefix => mkTables n2g (groupPush prefix game (prefixGroups t))
  end.

Definition buildTables (games : list Game) : Tables :=
  fold_left scanGame games (mkTables ∅ []).

Definition linkTo (base : Game) : list ExpansionLink :=
  [mkLink (bggId base) (name base)].

(** The inner loop flagging every member but the base. *)
Definition flagOthers (baseGame : Game) (groupGames : list Game)
    (result : gmap Z (list ExpansionLink)) : gmap Z (list ExpansionLink) :=
  fold_left (fun res game =>
               if bggId game =? bggId baseGame then res
               else <[bggId game := linkTo baseGame]> res)
            groupGames result.

Definition visitGroup (n2g : gmap string Game)
    (result : gmap Z (list ExpansionLink)) (entry : string * list Game)
    : gmap Z (list ExpansionLink) :=
  let '(prefix, groupGames) := entry in
  if (length groupGames <? 2)%nat then
    match n2g !! prefix, groupGames with
    | Some bareBase, g0 :: _ =>
        if negb (bggId bareBase =? bggId g0)
        then <[bggId g0 := linkTo bareBase]> result
        else result
    | _, _ => result
    end
  else
    let baseGame :=
      match n2g !! prefix with
      | Some bareBase => Some bareBase
      | None =>
          head (Js.Array_sort
                  (fun a b => Z.of_nat (String.length (name a))
                              - Z.of_nat (String.length (name b)) <=? 0)
                  groupGames)
      end in
    match baseGame with
    | None => result
    | Some base => flagOthers base groupGames result
    end.

Definition analyzeByNamePrefix (games : list Game) : gmap Z (list ExpansionLink) :=
  let t := buildTables games in
  fold_left (visitGroup (nameToGame t)) (prefixGroups t) ∅.

End Heuristic.


(** ** The part of the file system a cache store touches

    [DATA_DIR] and the one [CACHE_PATH] below it.  The operations are the
    synchronous ones of [fs]; they are taken not to fail.  [log] records the
    mutating calls in order. *)

Module Fs.

Inductive Op :=
| MkdirSync (path : string)
| WriteFileSync (path data : string)
| Rename (oldPath newPath : string).

Record t := mk {
  dataDir : bool;               (* existsSync(DATA_DIR) *)
  cacheFile : option string;    (* the content of CACHE_PATH, if it exists *)
  log : list Op
}.

Definition ensureDir (DATA_DIR : string) (fs : t) : t :=
  if dataDir fs then fs
  else mk true (cacheFile fs) (log fs ++ [MkdirSync DATA_DIR]).

Definition writeFileSync (CACHE_PATH data : string) (fs : t) : t :=
  mk (dataDir fs) (Some data) (log fs ++ [WriteFileSync CACHE_PATH data]).

End Fs.

(** ** Catalog client: the retry loop shared by [fetchBatchExpansions] and
    [fetchBatchDimensions] *)

(** What one [await fetch(url)] gives: a response (its body is read only on
    status 200) or a rejection. *)
Inductive FetchResult :=
| Response (status : Z) (body : string)
| NetworkError.

Module Client.

Definition backoff : list Z := [2000; 4000; 8000].

(** What the body of the [for] loop does with the response of attempt
    [attempt]: return a value ([None] is [null]) or sleep and go round. *)
Inductive Step (R : Type) :=
| Return (r : option R)
| Sleep (ms : Z).
Arguments Return {R} r.
Arguments Sleep {R} ms.

Definition onResponse {R : Type} (parse : string -> R) (empty : R)
    (attempt : nat) (status : Z) (body : string) : Step R :=
  if status =? 200 then Return (Some (parse body))
  else if status =? 401 then Return None
  else if ((status =? 202) && (attempt <? length backoff)%nat)%bool
       then Sleep (nth attempt backoff 0)
       else Return (Some empty).

(** The outcome of a whole call: the value returned or the rejection, and
    the delays slept through, in order. *)
Inductive Outcome (R : Type) :=
| Returned (r : option R)
| Rejected.
Arguments Returned {R} r.
Arguments Rejected {R}.

(** The loop [for (attempt = 0; attempt <= backoff.length; attempt++)],
    [n] being the number of iterations left and [net k] the result of the
    [k]-th [fetch] of the call. *)
Fixpoint attempts {R : Type} (parse : string -> R) (empty : R)
    (net : nat -> FetchResult) (n : nat) (attempt : nat) : Outcome R * list Z :=
  match n with
  | O => (Returned (Some empty), [])
  | S n' =>
      match net attempt with
      | NetworkError => (Rejected, [])
      | Response status body =>
          match onResponse parse empty attempt status body with
          | Return r => (Returned r, [])
          | Sleep ms =>
              let '(o, ds) := attempts parse empty net n' (S attempt) in
              (o, ms :: ds)
          end
      end
  end.

Definition fetchBatch {R : Type} (parse : string -> R) (empty : R)
    (ids : list Z) (net : nat -> FetchResult) : Outcome R * list Z :=
  attempts parse empty net (S (length backoff)) 0.

End Client.

(** What a suspended background run waits for, and what wakes it up. *)
Inductive Await :=
| AwaitFetch (attempt : nat)      (* [await fetch(url)] of attempt [attempt] *)
| AwaitBackoff (attempt : nat)    (* [await delay(backoff[attempt])] *)
| AwaitPacing.                    (* [await delay(DELAY_BETWEEN_BATCHES_MS)] *)

Inductive Event :=
| EvFetch (r : FetchResult)
| EvTimer.

(** What a run asks of the outside world. *)
Inductive Effect :=
| Fetch (ids : list Z)
| Delay (ms : Z).

(** A value of the object literal [getFetchStatus] returns. *)
Inductive JsVal :=
| JBool (b : bool)
| JNum (n : Z)
| JStr (s : string).

(** ** Expansion dataset ([src/lib/server/expansion-cache.ts]) *)

Module Expansion.

Definition DATA_DIR : string := "data".
Definition CACHE_PATH : string := "data/expansion-links.json".
Definition BATCH_SIZE : nat := 15.
Definition DELAY_BETWEEN_BATCHES_MS : Z := 2500.

Inductive Method := Api | NameMatch | NoMethod.

Definition methodName (m : Method) : string :=
  match m with
  | Api => "api"
  | NameMatch => "name-match"
  | NoMethod => "none"
  end.

(** *** Response parser *)

Definition gameRegex : Js.Re :=
  Js.Seq [Js.Lit "<item"; Js.PlusC Js.isSpace;
          Js.Lit ("type=" +:+ Js.quoted "boardgame"); Js.PlusC Js.isSpace;
          Js.Lit ("id=" +:+ Js.dq); Js.Group (Js.PlusC Js.isDigit);
          Js.Lit (Js.dq +:+ ">"); Js.Group (Js.LazyC Js.anyChar);
          Js.Lit "</item>"].

Definition linkRegex : Js.Re :=
  Js.Seq [Js.Lit "<link"; Js.PlusC Js.isSpace;
          Js.Lit ("type=" +:+ Js.quoted "boardgameexpansion"); Js.PlusC Js.isSpace;
          Js.Lit ("id=" +:+ Js.dq); Js.Group (Js.PlusC Js.isDigit); Js.Lit Js.dq;
          Js.PlusC Js.isSpace; Js.Lit ("value=" +:+ Js.dq);
          Js.Group (Js.StarC (Js.notChar (ascii_of_nat 34))); Js.Lit Js.dq].

Definition parseExpansionXml (xml : string) : gmap Z (list ExpansionLink) :=
  fold_left
    (fun result gameMatch =>
       let bggId := Js.parseInt (Js.group 1 gameMatch) in
       let gameInner := Js.group 2 gameMatch in
       let baseGames :=
         map (fun linkMatch =>
                mkLink (Js.parseInt (Js.group 1 linkMatch)) (Js.group 2 linkMatch))
             (Js.execAll linkRegex gameInner) in
       <[bggId := baseGames]> result)
    (Js.execAll gameRegex xml) ∅.

(** *** Catalog client *)

Definition fetchBatchExpansions (ids : list Z) (net : nat -> FetchResult)
    : Client.Outcome (gmap Z (list ExpansionLink)) * list Z :=
  Client.fetchBatch parseExpansionXml ∅ ids net.

(** *** Module state *)

(** Where the [for] loop over [remaining] stands. *)
Inductive Phase :=
| Trial
| Remaining (i : nat).

(** A background run suspended at an [await]: the variables it closes over
    and the point it resumes at. *)
Record Run := mkRun {
  run_bggIds : list Z;
  run_games : option (list Game);
  run_needed : list Z;
  run_phase : Phase;
  run_await : Await
}.

Record State := mkState {
  expansionCache : gmap Z (list ExpansionLink);
  fetchInProgress : bool;
  fetchedCount : Z;
  totalToFetch : Z;
  usedMethod : Method;
  fs : Fs.t;
  runs : list Run;        (* the runs started and not yet over *)
  effects : list Effect   (* the requests and timers issued so far *)
}.

Definition initial (disk : Fs.t) : State :=
  mkState ∅ false 0 0 NoMethod disk [] [].

Definition setCache (c : gmap Z (list ExpansionLink)) (st : State) : State :=
  mkState c (fetchInProgress st) (fetchedCount st) (totalToFetch st)
          (usedMethod st) (fs st) (runs st) (effects st).
Definition setInProgress (b : bool) (st : State) : State :=
  mkState (expansionCache st) b (fetchedCount st) (totalToFetch st)
          (usedMethod st) (fs st) (runs st) (effects st).
Definition setFetched (n : Z) (st : State) : State :=
  mkState (expansionCache st) (fetchInProgress st) n (totalToFetch st)
          (usedMethod st) (fs st) (runs st) (effects st).
Definition setTotal (n : Z) (st : State) : State :=
  mkState (expansionCache st) (fetchInProgress st) (fetchedCount st) n
          (usedMethod st) (fs st) (runs st) (effects st).
Definition setMethod (m : Method) (st : State) : State :=
  mkState (expansionCache st) (fetchInProgress st) (fetchedCount st)
          (totalToFetch st) m (fs st) (runs st) (effects st).
Definition setFs (f : Fs.t) (st : State) : State :=
  mkState (expansionCache st) (fetchInProgress st) (fetchedCount st)
          (totalToFetch st) (usedMethod st) f (runs st) (effects st).
Definition setRuns (r : list Run) (st : State) : State :=
  mkState (expansionCache st) (fetchInProgress st) (fetchedCount st)
          (totalToFetch st) (usedMethod st) (fs st) r (effects st).
Definition emit (e : Effect) (st : State) : State :=
  mkState (expansionCache st) (fetchInProgress st) (fetchedCount st)
          (totalToFetch st) (usedMethod st) (fs st) (runs st) (effects st ++ [e]).

Section WithJson.

(** [JSON.stringify(cache, null, '\t')] and [JSON.parse(raw)], the
    latter [None] when it throws. *)
Variable JSON_stringify : gmap Z (list ExpansionLink) -> string.
Variable JSON_parse : string -> option (gmap Z (list ExpansionLink)).

(** *** Cache store *)

Definition loadCache (st : State) : State :=
  match Fs.cacheFile (fs st) with
  | Some raw =>
      match JSON_parse raw with
      | Some c => setCache c st
      | None => setCache ∅ st
      end
  | None => st
  end.

Definition saveCache (st : State) : State :=
  setFs (Fs.writeFileSync CACHE_PATH (JSON_stringify (expansionCache st))
                          (Fs.ensureDir DATA_DIR (fs st))) st.

Definition getCachedExpansions (st : State) : State * gmap Z (list ExpansionLink) :=
  let st' := if (size (expansionCache st) =? 0)%nat then loadCache st else st in
  (st', expansionCache st').

Definition getFetchStatus (st : State) : list (string * JsVal) :=
  [("inProgress", JBool (fetchInProgress st));
   ("fetched", JNum (fetchedCount st));
   ("total", JNum (totalToFetch st));
   ("cached", JNum (Z.of_nat (size (expansionCache st))));
   ("method", JStr (methodName (usedMethod st)))].

(** [for (const [id, links] of Object.entries(res)) cache[parseInt(id)] = links] *)
Definition mergeEntries (res : gmap Z (list ExpansionLink)) (st : State) : State :=
  setCache (res ∪ expansionCache st) st.

(** [for (const id of bggIds) cache[id] = nameMatches[id] ?? []] *)
Definition mergeNameMatches (nameMatches : gmap Z (list ExpansionLink))
    (bggIds : list Z) (st : State) : State :=
  setCache (fold_left (fun c id => <[id := default [] (nameMatches !! id)]> c)
                      bggIds (expansionCache st)) st.

(** *** Sync coordinator *)

Definition removeRun (n : nat) (st : State) : State :=
  setRuns (take n (runs st) ++ drop (S n) (runs st)) st.

Definition updateRun (n : nat) (r : Run) (st : State) : State :=
  setRuns (<[n := r]> (runs st)) st.

(** The [finally] block, after which run [n] is over. *)
Definition finish (n : nat) (st : State) : State :=
  removeRun n (saveCache (setInProgress false st)).

Definition remaining (r : Run) : list Z := drop BATCH_SIZE (run_needed r).

Definition batchAt (r : Run) (i : nat) : list Z :=
  take BATCH_SIZE (drop i (remaining r)).

Definition testBatch (needed : list Z) : list Z :=
  take (Nat.min BATCH_SIZE (length needed)) needed.

(** Run [n], of closure [r], at the head of the loop over [remaining]
    with index [i]: fetch the next batch or leave the loop. *)
Definition loopHead (n : nat) (r : Run) (i : nat) (st : State) : State :=
  if (i <? length (remaining r))%nat then
    updateRun n (mkRun (run_bggIds r) (run_games r) (run_needed r)
                       (Remaining i) (AwaitFetch 0))
              (emit (Fetch (batchAt r i)) st)
  else finish n st.

(** Run [n] once [fetchBatchExpansions] has returned [res]. *)
Definition onBatch (n : nat) (r : Run)
    (res : option (gmap Z (list ExpansionLink))) (st : State) : State :=
  match run_phase r, res with
  | Trial, None =>
      let st1 :=
        match run_games r with
        | Some (g :: gs) =>
            let nameMatches := Heuristic.analyzeByNamePrefix (g :: gs) in
            setMethod NameMatch (mergeNameMatches nameMatches (run_bggIds r) st)
        | _ => st
        end in
      finish n (saveCache (setFetched (totalToFetch st1) st1))
  | Trial, Some testResult =>
      let st1 := mergeEntries testResult (setMethod Api st) in
      let st2 := saveCache
                   (setFetched (Z.of_nat (length (testBatch (run_needed r)))) st1) in
      loopHead n r 0 st2
  | Remaining i, None => finish n st
  | Remaining i, Some links =>
      let st1 := mergeEntries links st in
      let st2 := saveCache
                   (setFetched (Z.of_nat BATCH_SIZE
                                + Z.min (Z.of_nat (i + BATCH_SIZE))
                                        (Z.of_nat (length (remaining r)))) st1) in
      if (i + BATCH_SIZE <? length (remaining r))%nat then
        updateRun n (mkRun (run_bggIds r) (run_games r) (run_needed r)
                           (Remaining i) AwaitPacing)
                  (emit (Delay DELAY_BETWEEN_BATCHES_MS) st2)
      else loopHead n r (i + BATCH_SIZE) st2
  end.

Definition currentBatch (r : Run) : list Z :=
  match run_phase r with
  | Trial => testBatch (run_needed r)
  | Remaining i => batchAt r i
  end.

(** Run [n] woken up by [ev]; [None] when there is no such run or it
    does not wait for [ev]. *)
Definition resume (n : nat) (ev : Event) (st : State) : option State :=
  match runs st !! n with
  | None => None
  | Some r =>
      match run_await r, ev with
      | AwaitFetch attempt, EvFetch NetworkError => Some (finish n st)
      | AwaitFetch attempt, EvFetch (Response status body) =>
          match Client.onResponse parseExpansionXml ∅ attempt status body with
          | Client.Return res => Some (onBatch n r res st)
          | Client.Sleep ms =>
              Some (updateRun n (mkRun (run_bggIds r) (run_games r) (run_needed r)
                                       (run_phase r) (AwaitBackoff attempt))
                              (emit (Delay ms) st))
          end
      | AwaitBackoff attempt, EvTimer =>
          if (S attempt <=? length Client.backoff)%nat then
            Some (updateRun n (mkRun (run_bggIds r) (run_games r) (run_needed r)
                                     (run_phase r) (AwaitFetch (S attempt)))
                            (emit (Fetch (currentBatch r)) st))
          else Some (onBatch n r (Some ∅) st)
      | AwaitPacing, EvTimer =>
          match run_phase r with
          | Remaining i => Some (loopHead n r (i + BATCH_SIZE) st)
          | Trial => None
          end
      | _, _ => None
      end
  end.

Definition startBackgroundFetch (bggIds : list Z) (games : option (list Game))
    (st : State) : State :=
  if fetchInProgress st then st
  else
    let st1 := loadCache st in
    let needed :=
      List.filter (fun id => negb (bool_decide (is_Some (expansionCache st1 !! id))))
                  bggIds in
    if (length needed =? 0)%nat then st1
    else
      let st2 := setTotal (Z.of_nat (length needed))
                   (setFetched 0 (setInProgress true st1)) in
      setRuns (runs st2 ++ [mkRun bggIds games needed Trial (AwaitFetch 0)])
              (emit (Fetch (testBatch needed)) st2).

(** The [POST] handler of [routes/api/bgg/expansions]: [None] is the 400
    answer, otherwise the status sent back. *)
Definition POST (bggIds : option (list Z)) (games : option (list Game))
    (st : State) : State * option (list (string * JsVal)) :=
  match bggIds with
  | Some (id :: ids) =>
      let st' := startBackgroundFetch (id :: ids) games st in
      (st', Some (getFetchStatus st'))
  | _ => (st, None)
  end.

(** What can happen to the module: a start request, a read of the cache,
    or the wake-up of a suspended run. *)
Inductive Input :=
| InStart (bggIds : list Z) (games : option (list Game))
| InGetCached
| InResume (n : nat) (ev : Event).

Definition step (inp : Input) (st : State) : option State :=
  match inp with
  | InStart bggIds games => Some (startBackgroundFetch bggIds games st)
  | InGetCached => Some (fst (getCachedExpansions st))
  | InResume n ev => resume n ev st
  end.

Inductive reachable : State -> Prop :=
| reach_initial disk : reachable (initial disk)
| reach_step st inp st' : reachable st -> step inp st = Some st' -> reachable st'.

(** The events of a list delivered one after the other to run [0]. *)
Fixpoint deliver (evs : list Event) (st : State) : option State :=
  match evs with
  | [] => Some st
  | ev :: rest =>
      match resume 0 ev st with
      | Some st' => deliver rest st'
      | None => None
      end
  end.

End WithJson.

(** The single-flight invariant: a run is suspended exactly when the flag
    is up, and then there is one. *)
Definition singleFlight (st : State) : Prop :=
  if fetchInProgress st then exists r, runs st = [r] else runs st = [].

(** The events of a trial batch answered 202 once per element of [bodies]
    (each followed by the end of the backoff delay) and then 401. *)
Definition retries (bodies : list string) : list Event :=
  flat_map (fun b => [EvFetch (Response 202 b); EvTimer]) bodies.

Definition unauthorizedTrial (bodies : list string) (body : string) : list Event :=
  retries bodies ++ [EvFetch (Response 401 body)].

(** The identifiers of a start request which the loaded cache lacks. *)
Definition neededOf (cache : gmap Z (list ExpansionLink)) (bggIds : list Z) : list Z :=
  List.filter (fun id => negb (bool_decide (is_Some (cache !! id)))) bggIds.

End Expansion.

(** ** Dimension dataset ([src/lib/server/dimension-cache.ts]) *)

(** [BoxDimensions = { width, length, depth, volume }], in inches. *)
Record BoxDimensions := mkBox {
  b_width : Q;
  b_length : Q;
  b_depth : Q;
  b_volume : Q
}.

Module Dimension.

Definition DATA_DIR : string := "data".
Definition CACHE_PATH : string := "data/dimensions.json".
Definition BATCH_SIZE : nat := 15.
Definition DELAY_BETWEEN_BATCHES_MS : Z := 2000.
Definition DEFAULT_VOLUME : Z := 12 * 12 * 3.

(** *** Response parser *)

Definition gameRegex : Js.Re :=
  Js.Seq [Js.Lit "<item"; Js.PlusC Js.isSpace;
          Js.Lit ("type=" +:+ Js.quoted "boardgame"); Js.PlusC Js.isSpace;
          Js.Lit ("id=" +:+ Js.dq); Js.Group (Js.PlusC Js.isDigit);
          Js.Lit (Js.dq +:+ ">"); Js.Group (Js.LazyC Js.anyChar);
          Js.Lit "</item>"].

Definition versionsRegex : Js.Re :=
  Js.Seq [Js.Lit "<versions>"; Js.Group (Js.LazyC Js.anyChar); Js.Lit "</versions>"].

Definition versionRegex : Js.Re :=
  Js.Seq [Js.Lit "<item"; Js.PlusC Js.isSpace;
          Js.Lit ("type=" +:+ Js.quoted "boardgameversion");
          Js.StarC (Js.notChar ">"); Js.Lit ">";
          Js.Group (Js.LazyC Js.anyChar); Js.Lit "</item>"].

(** The pattern of one measurement: the tag, white space, and the
    attribute [value] with its text captured up to the closing quote. *)
Definition valueRegex (tag : string) : Js.Re :=
  Js.Seq [Js.Lit ("<" +:+ tag); Js.PlusC Js.isSpace; Js.Lit ("value=" +:+ Js.dq);
          Js.Group (Js.StarC (Js.notChar (ascii_of_nat 34))); Js.Lit Js.dq].

(** [parseFloat] of the captured text of the first match in [vInner], or
    of ['0'] when there is none. *)
Definition measurement (tag vInner : string) : option Q :=
  Js.parseFloat
    match Js.search (valueRegex tag) vInner with
    | Some (caps, _) => Js.group 1 caps
    | None => "0"
    end.

(** [Math.round(x * 100) / 100], the product and the quotient rounded to
    binary64 as the language does. *)
Definition round2 (x : Q) : Q :=
  Binary64.fl (inject_Z (Js.Math_round (Binary64.fl (x * 100))) / 100).

(** The body of the loop over the versions: the record which the version
    of inner text [vInner] gives, if its measurements are real. *)
Definition versionDims (vInner : string) : option BoxDimensions :=
  let width := measurement "width" vInner in
  let length := measurement "length" vInner in
  let depth := measurement "depth" vInner in
  if (Js.positive width && Js.positive length && Js.positive depth)%bool then
    match width, length, depth with
    | Some w, Some l, Some d =>
        Some (mkBox (round2 w) (round2 l) (round2 d)
                    (round2 (Binary64.fl (Binary64.fl (w * l) * d))))
    | _, _, _ => None
    end
  else None.

(** The loop over the versions, left by [break] at the first record. *)
Fixpoint firstVersionDims (versions : list string) : option BoxDimensions :=
  match versions with
  | [] => None
  | vInner :: rest =>
      match versionDims vInner with
      | Some d => Some d
      | None => firstVersionDims rest
      end
  end.

Definition versionInners (versionsInner : string) : list string :=
  map (Js.group 1) (Js.execAll versionRegex versionsInner).

Definition parseDimensionsXml (xml : string) : gmap Z BoxDimensions :=
  fold_left
    (fun result gameMatch =>
       let bggId := Js.parseInt (Js.group 1 gameMatch) in
       let gameInner := Js.group 2 gameMatch in
       match Js.search versionsRegex gameInner with
       | None => result
       | Some (versionsMatch, _) =>
           match firstVersionDims (versionInners (Js.group 1 versionsMatch)) with
           | Some d => <[bggId := d]> result
           | None => result
           end
       end)
    (Js.execAll gameRegex xml) ∅.

(** *** Catalog client *)

Definition fetchBatchDimensions (ids : list Z) (net : nat -> FetchResult)
    : Client.Outcome (gmap Z BoxDimensions) * list Z :=
  Client.fetchBatch parseDimensionsXml ∅ ids net.

(** *** Module state *)

(** A background run suspended at an [await]: [needed], the loop index
    and the point it resumes at. *)
Record Run := mkRun {
  run_needed : list Z;
  run_i : nat;
  run_await : Await
}.

Record State := mkState {
  dimensionCache : gmap Z BoxDimensions;
  fetchInProgress : bool;
  fetchedCount : Z;
  totalToFetch : Z;
  fs : Fs.t;
  runs : list Run;
  effects : list Effect
}.

Definition initial (disk : Fs.t) : State := mkState ∅ false 0 0 disk [] [].

Definition setCache (c : gmap Z BoxDimensions) (st : State) : State :=
  mkState c (fetchInProgress st) (fetchedCount st) (totalToFetch st)
          (fs st) (runs st) (effects st).
Definition setInProgress (b : bool) (st : State) : State :=
  mkState (dimensionCache st) b (fetchedCount st) (totalToFetch st)
          (fs st) (runs st) (effects st).
Definition setFetched (n : Z) (st : State) : State :=
  mkState (dimensionCache st) (fetchInProgress st) n (totalToFetch st)
          (fs st) (runs st) (effects st).
Definition setTotal (n : Z) (st : State) : State :=
  mkState (dimensionCache st) (fetchInProgress st) (fetchedCount st) n
          (fs st) (runs st) (effects st).
Definition setFs (f : Fs.t) (st : State) : State :=
  mkState (dimensionCache st) (fetchInProgress st) (fetchedCount st)
          (totalToFetch st) f (runs st) (effects st).
Definition setRuns (r : list Run) (st : State) : State :=
  mkState (dimensionCache st) (fetchInProgress st) (fetchedCount st)
          (totalToFetch st) (fs st) r (effects st).
Definition emit (e : Effect) (st : State) : State :=
  mkState (dimensionCache st) (fetchInProgress st) (fetchedCount st)
          (totalToFetch st) (fs st) (runs st) (effects st ++ [e]).

Section WithJson.

Variable JSON_stringify : gmap Z BoxDimensions -> string.
Variable JSON_parse : string -> option (gmap Z BoxDimensions).

(** *** Cache store *)

Definition loadCache (st : State) : State :=
  match Fs.cacheFile (fs st) with
  | Some raw =>
      match JSON_parse raw with
      | Some c => setCache c st
      | None => setCache ∅ st
      end
  | None => st
  end.

Definition saveCache (st : State) : State :=
  setFs (Fs.writeFileSync CACHE_PATH (JSON_stringify (dimensionCache st))
                          (Fs.ensureDir DATA_DIR (fs st))) st.

Definition getCachedDimensions (st : State) : State * gmap Z BoxDimensions :=
  let st' := if (size (dimensionCache st) =? 0)%nat then loadCache st else st in
  (st', dimensionCache st').

Definition getFetchStatus (st : State) : list (string * JsVal) :=
  [("inProgress", JBool (fetchInProgress st));
   ("fetched", JNum (fetchedCount st));
   ("total", JNum (totalToFetch st));
   ("cached", JNum (Z.of_nat (size (dimensionCache st))))].

Definition getDefaultVolume : Z := DEFAULT_VOLUME.

Definition mergeEntries (dims : gmap Z BoxDimensions) (st : State) : State :=
  setCache (dims ∪ dimensionCache st) st.

(** *** Sync coordinator *)

Definition removeRun (n : nat) (st : State) : State :=
  setRuns (take n (runs st) ++ drop (S n) (runs st)) st.

Definition updateRun (n : nat) (r : Run) (st : State) : State :=
  setRuns (<[n := r]> (runs st)) st.

Definition finish (n : nat) (st : State) : State :=
  removeRun n (saveCache (setInProgress false st)).

Definition batchAt (needed : list Z) (i : nat) : list Z :=
  take BATCH_SIZE (drop i needed).

Definition loopHead (n : nat) (needed : list Z) (i : nat) (st : State) : State :=
  if (i <? length needed)%nat then
    updateRun n (mkRun needed i (AwaitFetch 0)) (emit (Fetch (batchAt needed i)) st)
  else finish n st.

Definition onBatch (n : nat) (r : Run) (dims : option (gmap Z BoxDimensions))
    (st : State) : State :=
  let needed := run_needed r in
  let i := run_i r in
  match dims with
  | None => finish n st
  | Some dims =>
      let st1 := mergeEntries dims st in
      let st2 := saveCache
                   (setFetched (Z.min (Z.of_nat (i + BATCH_SIZE))
                                      (Z.of_nat (length needed))) st1) in
      if (i + BATCH_SIZE <? length needed)%nat then
        updateRun n (mkRun needed i AwaitPacing)
                  (emit (Delay DELAY_BETWEEN_BATCHES_MS) st2)
      else loopHead n needed (i + BATCH_SIZE) st2
  end.

Definition resume (n : nat) (ev : Event) (st : State) : option State :=
  match runs st !! n with
  | None => None
  | Some r =>
      match run_await r, ev with
      | AwaitFetch attempt, EvFetch NetworkError => Some (finish n st)
      | AwaitFetch attempt, EvFetch (Response status body) =>
          match Client.onResponse parseDimensionsXml ∅ attempt status body with
          | Client.Return res => Some (onBatch n r res st)
          | Client.Sleep ms =>
              Some (updateRun n (mkRun (run_needed r) (run_i r) (AwaitBackoff attempt))
                              (emit (Delay ms) st))
          end
      | AwaitBackoff attempt, EvTimer =>
          if (S attempt <=? length Client.backoff)%nat then
            Some (updateRun n (mkRun (run_needed r) (run_i r) (AwaitFetch (S attempt)))
                            (emit (Fetch (batchAt (run_needed r) (run_i r))) st))
          else Some (onBatch n r (Some ∅) st)
      | AwaitPacing, EvTimer =>
          Some (loopHead n (run_needed r) (run_i r + BATCH_SIZE) st)
      | _, _ => None
      end
  end.

Definition startBackgroundFetch (bggIds : list Z) (st : State) : State :=
  if fetchInProgress st then st
  else
    let st1 := loadCache st in
    let needed :=
      List.filter (fun id => negb (bool_decide (is_Some (dimensionCache st1 !! id))))
                  bggIds in
    if (length needed =? 0)%nat then st1
    else
      let st2 := setTotal (Z.of_nat (length needed))
                   (setFetched 0 (setInProgress true st1)) in
      setRuns (runs st2 ++ [mkRun needed 0 (AwaitFetch 0)])
              (emit (Fetch (batchAt needed 0)) st2).

Inductive Input :=
| InStart (bggIds : list Z)
| InGetCached
| InResume (n : nat) (ev : Event).

Definition step (inp : Input) (st : State) : option State :=
  match inp with
  | InStart bggIds => Some (startBackgroundFetch bggIds st)
  | InGetCached => Some (fst (getCachedDimensions st))
  | InResume n ev => resume n ev st
  end.

Inductive reachable : State -> Prop :=
| reach_initial disk : reachable (initial disk)
| reach_step st inp st' : reachable st -> step inp st = Some st' -> reachable st'.

End WithJson.

Definition singleFlight (st : State) : Prop :=
  if fetchInProgress st then exists r, runs st = [r] else runs st = [].

End Dimension.

(** ** Queue builder ([src/lib/state.svelte.ts]) *)

Inductive SortMode := Default | Shuffle | Alphabetical | Rating.

(** The field of [Decision] the queue builder reads. *)
Record Decision := mkDecision {
  d_bggId : Z
}.

Module Queue.

Section WithEnv.

(** [String.prototype.localeCompare], which depends on the locale. *)
Variable localeCompare : string -> string -> Z.

(** The state the builder reads: the collection, the decisions taken and
    the expansion links polled from the server. *)
Variable games : list Game.
Variable decisions : list Decision.
Variable expansionOf : gmap Z (list ExpansionLink).

(** The time values of the two [Date] objects which [buildDefaultQueue]
    derives from the clock: now minus three years, now minus one year. *)
Variable threeYearsAgo oneYearAgo : Z.

Definition collectionBggIds : gset Z := list_to_set (map bggId games).

Definition idSet (l : list Game) : gset Z := list_to_set (map bggId l).

Definition has (ids : gset Z) (id : Z) : bool := bool_decide (id ∈ ids).

Definition isExpansionInCollection (game : Game) : bool :=
  match expansionOf !! bggId game with
  | Some links => existsb (fun base => has collectionBggIds (link_bggId base)) links
  | None => false
  end.

Definition compareDates (a b : option Z) : Z :=
  let aTime := match a with Some t => t | None => 0 end in
  let bTime := match b with Some t => t | None => 0 end in
  aTime - bTime.

(** [(a.userRating ?? 0) - (b.userRating ?? 0)] *)
Definition compareRatings (a b : Game) : Q :=
  (match userRating a with Some r => r | None => 0 end
   - match userRating b with Some r => r | None => 0 end)%Q.

Definition byDateAdded (a b : Game) : bool :=
  compareDates (dateAdded a) (dateAdded b) <=? 0.
Definition byLastPlayed (a b : Game) : bool :=
  compareDates (lastPlayed a) (lastPlayed b) <=? 0.
Definition byRating (a b : Game) : bool := Qle_bool (compareRatings a b) 0.
Definition byName (a b : Game) : bool := localeCompare (name a) (name b) <=? 0.

Definition buildDefaultQueue (undecided : list Game) : list Game :=
  let recentCutoff :=
    List.filter (fun g => match dateAdded g with
                          | None => false
                          | Some t => oneYearAgo <=? t
                          end) undecided in
  let recentIds := idSet recentCutoff in
  let eligible := List.filter (fun g => negb (has recentIds (bggId g))) undecided in
  let expansions :=
    Js.Array_sort byName (List.filter isExpansionInCollection eligible) in
  let expansionIds := idSet expansions in
  let standalone := List.filter (fun g => negb (has expansionIds (bggId g))) eligible in
  let neverPlayed :=
    Js.Array_sort byDateAdded (List.filter (fun g => playCount g =? 0) standalone) in
  let neverPlayedIds := idSet neverPlayed in
  let stale :=
    Js.Array_sort byRating
      (List.filter
         (fun g =>
            if has neverPlayedIds (bggId g) then false
            else if playCount g =? 0 then false
            else match lastPlayed g with
                 | None => true
                 | Some t => t <? threeYearsAgo
                 end)
         standalone) in
  let staleIds := idSet stale in
  let rest :=
    Js.Array_sort byLastPlayed
      (List.filter (fun g => (negb (has neverPlayedIds (bggId g))
                              && negb (has staleIds (bggId g)))%bool)
                   standalone) in
  neverPlayed ++ stale ++ rest ++ expansions.

(** [shuffleArray], [draw i] being [Math.floor(Math.random() * (i + 1))]
    at index [i]. *)
Fixpoint shuffleFrom (draw : nat -> nat) (i : nat) (shuffled : list Game)
    : list Game :=
  match i with
  | O => shuffled
  | S i' =>
      let j := draw i in
      match shuffled !! i, shuffled !! j with
      | Some x, Some y => shuffleFrom draw i' (<[j := x]> (<[i := y]> shuffled))
      | _, _ => shuffleFrom draw i' shuffled
      end
  end.

Definition shuffleArray (draw : nat -> nat) (arr : list Game) : list Game :=
  shuffleFrom draw (length arr - 1) arr.

Definition undecidedGames : list Game :=
  let decided : gset Z := list_to_set (map d_bggId decisions) in
  List.filter (fun g => negb (has decided (bggId g))) games.

(** [buildQueue(sortMode)]: the new [queue]; [currentIndex] becomes 0. *)
Definition buildQueue (draw : nat -> nat) (sortMode : SortMode) : list Game :=
  let undecided := undecidedGames in
  match sortMode with
  | Shuffle => shuffleArray draw undecided
  | Alphabetical => Js.Array_sort byName undecided
  | Rating => Js.Array_sort byRating undecided
  | Default => buildDefaultQueue undecided
  end.

(** *** The ordering as the specification words it

    Each item is placed by its own fields. *)

Definition addedWithinLastYear (g : Game) : bool :=
  match dateAdded g with
  | Some t => oneYearAgo <=? t
  | None => false
  end.

Definition isNeverPlayed (g : Game) : bool := playCount g =? 0.

Definition isStale (g : Game) : bool :=
  (negb (playCount g =? 0)
   && match lastPlayed g with
      | None => true
      | Some t => t <? threeYearsAgo
      end)%bool.

Definition pastGrace (undecided : list Game) : list Game :=
  List.filter (fun g => negb (addedWithinLastYear g)) undecided.

Definition standaloneOf (undecided : list Game) : list Game :=
  List.filter (fun g => negb (isExpansionInCollection g)) (pastGrace undecided).

Definition tier1 (undecided : list Game) : list Game :=
  List.filter isNeverPlayed (standaloneOf undecided).
Definition tier2 (undecided : list Game) : list Game :=
  List.filter isStale (standaloneOf undecided).
Definition tier3 (undecided : list Game) : list Game :=
  List.filter (fun g => (negb (isNeverPlayed g) && negb (isStale g))%bool)
              (standaloneOf undecided).
Definition deferred (undecided : list Game) : list Game :=
  List.filter isExpansionInCollection (pastGrace undecided).

(** The keys of the three sorts, a missing date counting as the epoch
    and a missing rating as 0. *)
Definition timeOf (d : option Z) : Z :=
  match d with Some t => t | None => 0 end.
Definition ratingOf (g : Game) : Q :=
  match userRating g with Some r => r | None => 0 end.

(** [queue] is the default ordering of [undecided]: no item added within
    the last year is in it, and it is the never-played items by date of
    acquisition, then the stale ones by rating, then the others by date
    of last play, then the expansions of owned games by name. *)
Definition tiered (undecided queue : list Game) : Prop :=
  (forall g, In g undecided -> addedWithinLastYear g = true -> ~ In g queue)
  /\ exists t1 t2 t3 ex,
       queue = t1 ++ t2 ++ t3 ++ ex
       /\ Permutation t1 (tier1 undecided)
       /\ Sorted (fun a b => timeOf (dateAdded a) <= timeOf (dateAdded b)) t1
       /\ Permutation t2 (tier2 undecided)
       /\ Sorted (fun a b => (ratingOf a <= ratingOf b)%Q) t2
       /\ Permutation t3 (tier3 undecided)
       /\ Sorted (fun a b => timeOf (lastPlayed a) <= timeOf (lastPlayed b)) t3
       /\ Permutation ex (deferred undecided)
       /\ Sorted (fun a b => localeCompare (name a) (name b) <= 0) ex.

End WithEnv.

End Queue.

(** ** [JSON.stringify(x, null, '\t')] and [JSON.parse] on the two caches

    An executable model of the two built-ins on the documents the cache
    stores hold: objects, arrays, strings and finite decimal numbers.  A
    document which is not of the type of the cache is taken as one which
    does not parse. *)

Module Json.

#[local] Unset Elimination Schemes.
Inductive value :=
| Num (q : Q)
| Str (s : string)
| Arr (items : list value)
| Obj (members : list (string * value)).
#[local] Set Elimination Schemes.

Definition bs : string := String (ascii_of_nat 92) EmptyString.
Definition nl : string := String (ascii_of_nat 10) EmptyString.
Definition tab : string := String (ascii_of_nat 9) EmptyString.

(** *** Printing *)

Definition showZ (z : Z) : string := NilZero.string_of_int (Z.to_int z).

Fixpoint fracDigits (fuel : nat) (r den : Z) : string :=
  match fuel with
  | O => EmptyString
  | S n =>
      if r =? 0 then EmptyString
      else String (ascii_of_nat (48 + Z.to_nat (10 * r / den)))
                  (fracDigits n (10 * r mod den) den)
  end.

Definition showQ (q : Q) : string :=
  let n := Qnum q in
  let d := Z.pos (Qden q) in
  let a := Z.abs n in
  (if n <? 0 then "-" else "")
  +:+ showZ (a / d)
  +:+ (if a mod d =? 0 then "" else "." +:+ fracDigits 20 (a mod d) d).

Definition hexDigit (n : nat) : ascii :=
  if (n <? 10)%nat then ascii_of_nat (48 + n) else ascii_of_nat (87 + n).

Definition escapeChar (c : ascii) : string :=
  let n := nat_of_ascii c in
  if (n =? 34)%nat then bs +:+ Js.dq
  else if (n =? 92)%nat then bs +:+ bs
  else if (n =? 8)%nat then bs +:+ "b"
  else if (n =? 12)%nat then bs +:+ "f"
  else if (n =? 10)%nat then bs +:+ "n"
  else if (n =? 13)%nat then bs +:+ "r"
  else if (n =? 9)%nat then bs +:+ "t"
  else if (n <? 32)%nat then
    bs +:+ "u00" +:+ String (hexDigit (n / 16)) (String (hexDigit (n mod 16)) EmptyString)
  else String c EmptyString.

Fixpoint escape (s : string) : string :=
  match s with
  | EmptyString => EmptyString
  | String c r => escapeChar c +:+ escape r
  end.

Definition showString (s : string) : string := Js.quoted (escape s).

Fixpoint tabs (n : nat) : string :=
  match n with
  | O => EmptyString
  | S k => tab +:+ tabs k
  end.

Fixpoint joinLines (l : list string) : string :=
  match l with
  | [] => EmptyString
  | [x] => x
  | x :: r => x +:+ "," +:+ nl +:+ joinLines r
  end.

Fixpoint print (ind : nat) (v : value) : string :=
  match v with
  | Num q => showQ q
  | Str s => showString s
  | Arr [] => "[]"
  | Arr items =>
      "[" +:+ nl
      +:+ joinLines (map (fun x => tabs (S ind) +:+ print (S ind) x) items)
      +:+ nl +:+ tabs ind +:+ "]"
  | Obj [] => "{}"
  | Obj members =>
      "{" +:+ nl
      +:+ joinLines (map (fun m => tabs (S ind) +:+ showString (fst m) +:+ ": "
                                   +:+ print (S ind) (snd m)) members)
      +:+ nl +:+ tabs ind +:+ "}"
  end.

(** *** Parsing *)

Definition isWs (c : ascii) : bool :=
  let n := nat_of_ascii c in
  ((n =? 32) || (n =? 9) || (n =? 10) || (n =? 13))%nat%bool.

Fixpoint skipWs (s : string) : string :=
  match s with
  | String c r => if isWs c then skipWs r else s
  | EmptyString => EmptyString
  end.

Definition hexVal (c : ascii) : option nat :=
  let n := nat_of_ascii c in
  if ((48 <=? n) && (n <=? 57))%nat%bool then Some (n - 48)%nat
  else if ((97 <=? n) && (n <=? 102))%nat%bool then Some (n - 87)%nat
  else if ((65 <=? n) && (n <=? 70))%nat%bool then Some (n - 55)%nat
  else None.

(** The characters of a string literal after its opening quote, and what
    follows the closing one. *)
Fixpoint parseString (s : string) : option (string * string) :=
  match s with
  | EmptyString => None
  | String c r =>
      let n := nat_of_ascii c in
      if (n =? 34)%nat then Some (EmptyString, r)
      else if (n =? 92)%nat then
        match r with
        | String e r' =>
            let k := nat_of_ascii e in
            let plain (x : nat) :=
              match parseString r' with
              | Some (t, rest) => Some (String (ascii_of_nat x) t, rest)
              | None => None
              end in
            if (k =? 34)%nat then plain 34%nat
            else if (k =? 92)%nat then plain 92%nat
            else if (k =? 47)%nat then plain 47%nat
            else if (k =? 98)%nat then plain 8%nat
            else if (k =? 102)%nat then plain 12%nat
            else if (k =? 110)%nat then plain 10%nat
            else if (k =? 114)%nat then plain 13%nat
            else if (k =? 116)%nat then plain 9%nat
            else if (k =? 117)%nat then
              match r' with
              | String "0" (String "0" (String h (String l r''))) =>
                  match hexVal h, hexVal l, parseString r'' with
                  | Some a, Some b, Some (t, rest) =>
                      Some (String (ascii_of_nat (16 * a + b)) t, rest)
                  | _, _, _ => None
                  end
              | _ => None
              end
            else None
        | EmptyString => None
        end
      else if (n <? 32)%nat then None
      else
        match parseString r with
        | Some (t, rest) => Some (String c t, rest)
        | None => None
        end
  end.

Definition parseNumber (s : string) : option (Q * string) :=
  let '(neg, s1) :=
    match s with
    | String "-"%char t => (true, t)
    | _ => (false, s)
    end in
  let '(ip, s2) := Js.spanDigits s1 in
  if Js.isEmpty ip then None
  else
    let '(fp, s3) :=
      match s2 with
      | String "."%char t => Js.spanDigits t
      | _ => (EmptyString, s2)
      end in
    let m := Js.parseInt (ip +:+ fp) in
    Some (Qred (Js.scale10 (if neg : bool then - m else m)
                           (- Z.of_nat (String.length fp))), s3).

(** What follows the character [c] when [s] starts with it. *)
Definition headIs (c : ascii) (s : string) : option string :=
  match s with
  | String a r => if Ascii.eqb a c then Some r else None
  | EmptyString => None
  end.

(** One level of each of the three parsers, the parsers of the level below
    being [membersP], [elementsP] and [valueP]. *)
Definition valueAt (membersP : string -> option (list (string * value) * string))
    (elementsP : string -> option (list value * string)) (s : string)
    : option (value * string) :=
  match skipWs s with
  | String c r =>
      if Ascii.eqb c "{" then
        match headIs "}" (skipWs r) with
        | Some r' => Some (Obj [], r')
        | None =>
            match membersP (skipWs r) with
            | Some (ms, rest) => Some (Obj ms, rest)
            | None => None
            end
        end
      else if Ascii.eqb c "[" then
        match headIs "]" (skipWs r) with
        | Some r' => Some (Arr [], r')
        | None =>
            match elementsP (skipWs r) with
            | Some (vs, rest) => Some (Arr vs, rest)
            | None => None
            end
        end
      else if Ascii.eqb c (ascii_of_nat 34) then
        match parseString r with
        | Some (t, rest) => Some (Str t, rest)
        | None => None
        end
      else
        match parseNumber (String c r) with
        | Some (q, rest) => Some (Num q, rest)
        | None => None
        end
  | EmptyString => None
  end.

Definition elementsAt (valueP : string -> option (value * string))
    (elementsP : string -> option (list value * string)) (s : string)
    : option (list value * string) :=
  match valueP s with
  | Some (v, r) =>
      match headIs "," (skipWs r), headIs "]" (skipWs r) with
      | Some r', _ =>
          match elementsP r' with
          | Some (vs, rest) => Some (v :: vs, rest)
          | None => None
          end
      | None, Some r' => Some ([v], r')
      | None, None => None
      end
  | None => None
  end.

Definition membersAt (valueP : string -> option (value * string))
    (membersP : string -> option (list (string * value) * string)) (s : string)
    : option (list (string * value) * string) :=
  match headIs (ascii_of_nat 34) (skipWs s) with
  | Some r =>
      match parseString r with
      | Some (key, r1) =>
          match headIs ":" (skipWs r1) with
          | Some r2 =>
              match valueP r2 with
              | Some (v, r3) =>
                  match headIs "," (skipWs r3), headIs "}" (skipWs r3) with
                  | Some r4, _ =>
                      match membersP r4 with
                      | Some (ms, rest) => Some ((key, v) :: ms, rest)
                      | None => None
                      end
                  | None, Some r4 => Some ([(key, v)], r4)
                  | None, None => None
                  end
              | None => None
              end
          | None => None
          end
      | None => None
      end
  | None => None
  end.

Fixpoint parseValue (fuel : nat) (s : string) {struct fuel} : option (value * string) :=
  match fuel with
  | O => None
  | S n => valueAt (parseMembers n) (parseElements n) s
  end
with parseElements (fuel : nat) (s : string) {struct fuel}
     : option (list value * string) :=
  match fuel with
  | O => None
  | S n => elementsAt (parseValue n) (parseElements n) s
  end
with parseMembers (fuel : nat) (s : string) {struct fuel}
     : option (list (string * value) * string) :=
  match fuel with
  | O => None
  | S n => membersAt (parseValue n) (parseMembers n) s
  end.

Definition parseDocument (s : string) : option value :=
  match parseValue (S (String.length s)) s with
  | Some (v, rest) => if Js.isEmpty (skipWs rest) then Some v else None
  | None => None
  end.

(** *** Documents which printing and parsing give back

    The documents whose numbers are integers, an induction principle for
    documents, and the fuel the parser needs for one. *)

#[local] Unset Elimination Schemes.
Inductive wf : value -> Prop :=
| wf_Num (z : Z) : wf (Num (inject_Z z))
| wf_Str (s : string) : wf (Str s)
| wf_Arr (items : list value) : Forall wf items -> wf (Arr items)
| wf_Obj (members : list (string * value)) :
    Forall (fun m => wf (snd m)) members -> wf (Obj members).
#[local] Set Elimination Schemes.

Fixpoint weight (v : value) : nat :=
  match v with
  | Arr items => S (fold_right (fun x acc => S (weight x) + acc)%nat O items)
  | Obj members => S (fold_right (fun m acc => S (weight (snd m)) + acc)%nat O members)
  | _ => 1%nat
  end.

Section ValueInduction.
Variable P : value -> Prop.
Hypothesis HNum : forall q, P (Num q).
Hypothesis HStr : forall s, P (Str s).
Hypothesis HArr : forall items, Forall P items -> P (Arr items).
Hypothesis HObj : forall members, Forall (fun m => P (snd m)) members -> P (Obj members).

Fixpoint value_induction (v : value) : P v :=
  match v with
  | Num q => HNum q
  | Str s => HStr s
  | Arr items =>
      HArr items
        ((fix go (l : list value) : Forall P l :=
            match l with
            | [] => @List.Forall_nil value P
            | x :: r => @List.Forall_cons value P x r (value_induction x) (go r)
            end) items)
  | Obj members =>
      HObj members
        ((fix go (l : list (string * value)) : Forall (fun m => P (snd m)) l :=
            match l with
            | [] => @List.Forall_nil (string * value) (fun m => P (snd m))
            | m :: r =>
                @List.Forall_cons (string * value) (fun m => P (snd m)) m r
                  (match m as m0 return P (snd m0) with
                   | (_, x) => value_induction x
                   end)
                  (go r)
            end) members)
  end.
End ValueInduction.

(** Where a run of digits, and where a number, can end; the characters a
    printed document can start with; and what the parser owes a document:
    with fuel for it, and before a text which does not prolong a number,
    the printed document parses back. *)
Definition digitFree (s : string) : Prop :=
  match s with String c _ => Js.isDigit c = false | EmptyString => True end.

Definition numberEnd (s : string) : Prop :=
  match s with
  | String c _ => Js.isDigit c = false /\ c <> "."%char
  | EmptyString => True
  end.

Definition isHead (c : ascii) : bool :=
  (Ascii.eqb c "{" || Ascii.eqb c "[" || Ascii.eqb c (ascii_of_nat 34)
   || Ascii.eqb c "-" || Js.isDigit c)%bool.

Definition parsesBack (v : value) : Prop :=
  forall ind rest n,
    (weight v <= n)%nat -> numberEnd rest ->
    parseValue n (print ind v +:+ rest) = Some (v, rest).

(** *** The two caches as documents *)

Definition entriesOf {V : Type} (c : gmap Z V) : list (Z * V) :=
  Js.Array_sort (fun a b => fst a <=? fst b) (map_to_list c).

Fixpoint field (key : string) (members : list (string * value)) : option value :=
  match members with
  | [] => None
  | (k, v) :: rest => if String.eqb k key then Some v else field key rest
  end.

Definition asInt (v : value) : option Z :=
  match v with
  | Num q => if (Qden q =? 1)%positive then Some (Qnum q) else None
  | _ => None
  end.

Definition asNum (v : value) : option Q :=
  match v with Num q => Some q | _ => None end.

Definition asStr (v : value) : option string :=
  match v with Str s => Some s | _ => None end.

(** A property name which is the decimal form of an integer. *)
Definition asKey (k : string) : option Z :=
  let '(neg, ds) :=
    match k with
    | String "-"%char t => (true, t)
    | _ => (false, k)
    end in
  let '(d, rest) := Js.spanDigits ds in
  if (Js.isEmpty d || negb (Js.isEmpty rest))%bool then None
  else Some (if neg : bool then - Js.parseInt d else Js.parseInt d).

Fixpoint allSome {A : Type} (l : list (option A)) : option (list A) :=
  match l with
  | [] => Some []
  | Some x :: r =>
      match allSome r with
      | Some xs => Some (x :: xs)
      | None => None
      end
  | None :: _ => None
  end.

Definition decodeObject {V : Type} (decode : value -> option V) (v : value)
    : option (gmap Z V) :=
  match v with
  | Obj members =>
      match allSome (map (fun m => match asKey (fst m), decode (snd m) with
                                   | Some k, Some x => Some (k, x)
                                   | _, _ => None
                                   end) members) with
      | Some kvs => Some (fold_left (fun c kv => <[fst kv := snd kv]> c) kvs ∅)
      | None => None
      end
  | _ => None
  end.

Definition encodeLink (l : ExpansionLink) : value :=
  Obj [("bggId", Num (inject_Z (link_bggId l))); ("name", Str (link_name l))].

Definition decodeLink (v : value) : option ExpansionLink :=
  match v with
  | Obj ms =>
      match field "bggId" ms, field "name" ms with
      | Some i, Some n =>
          match asInt i, asStr n with
          | Some id, Some nm => Some (mkLink id nm)
          | _, _ => None
          end
      | _, _ => None
      end
  | _ => None
  end.

Definition decodeLinkList (v : value) : option (list ExpansionLink) :=
  match v with
  | Arr items => allSome (map decodeLink items)
  | _ => None
  end.

Definition stringifyLinks (c : gmap Z (list ExpansionLink)) : string :=
  print 0 (Obj (map (fun e => (showZ (fst e), Arr (map encodeLink (snd e))))
                    (entriesOf c))).

Definition parseLinks (raw : string) : option (gmap Z (list ExpansionLink)) :=
  match parseDocument raw with
  | Some v => decodeObject decodeLinkList v
  | None => None
  end.

Definition encodeBox (b : BoxDimensions) : value :=
  Obj [("width", Num (b_width b)); ("length", Num (b_length b));
       ("depth", Num (b_depth b)); ("volume", Num (b_volume b))].

Definition decodeBox (v : value) : option BoxDimensions :=
  match v with
  | Obj ms =>
      match field "width" ms, field "length" ms, field "depth" ms, field "volume" ms with
      | Some w, Some l, Some d, Some vol =>
          match asNum w, asNum l, asNum d, asNum vol with
          | Some w', Some l', Some d', Some vol' => Some (mkBox w' l' d' vol')
          | _, _, _, _ => None
          end
      | _, _, _, _ => None
      end
  | _ => None
  end.

Definition stringifyBoxes (c : gmap Z BoxDimensions) : string :=
  print 0 (Obj (map (fun e => (showZ (fst e), encodeBox (snd e))) (entriesOf c))).

Definition parseBoxes (raw : string) : option (gmap Z BoxDimensions) :=
  match parseDocument raw with
  | Some v => decodeObject decodeBox v
  | None => None
  end.

End Json.

(** ** Sample inputs *)

Module Sample.

(** The three items of the fallback example. *)
Definition carcassonne : Game :=
  mkGame 822 1 "Carcassonne" None 0 None None.
Definition hunters : Game :=
  mkGame 4390 2 "Carcassonne: Hunters and Gatherers" None 0 None None.
Definition catan : Game := mkGame 13 3 "Catan" None 0 None None.

Definition fallbackItems : list Game := [carcassonne; hunters; catan].

(** The mapping the fallback example expects of the matcher. *)
Definition fallbackExpected : gmap Z (list ExpansionLink) :=
  <[822 := []]> (<[4390 := [mkLink 822 "Carcassonne"]]> (<[13 := []]> ∅)).

(** An empty disk: no data directory, no cache file. *)
Definition noDisk : Fs.t := Fs.mk false None [].

(** A service which answers every request 202, and one which answers 500. *)
Definition alwaysBusy : nat -> FetchResult := fun _ => Response 202 "".
Definition alwaysBroken : nat -> FetchResult := fun _ => Response 500 "".

(** A byte-wise [localeCompare]. *)
Definition byteOrder (a b : string) : Z :=
  match String.compare a b with
  | Lt => -1
  | Eq => 0
  | Gt => 1
  end.

(** A clock: now, one year (365 days) and three years before, in
    milliseconds. *)
Definition now : Z := 1800000000000.
Definition day : Z := 86400000.
Definition oneYearAgo : Z := now - 365 * day.
Definition threeYearsAgo : Z := now - 3 * 365 * day.

(** The three items of the tiering example: never played and added five
    years ago; played twice, last four years ago, rated 2; played last
    month, rated 5. *)
Definition neverPlayed : Game :=
  mkGame 101 1 "Agricola" (Some (now - 5 * 365 * day)) 0 None None.
Definition staleOne : Game :=
  mkGame 102 2 "Brass" (Some (now - 6 * 365 * day)) 2
         (Some (now - 4 * 365 * day)) (Some 2%Q).
Definition recentlyPlayed : Game :=
  mkGame 103 3 "Concordia" (Some (now - 2 * 365 * day)) 7
         (Some (now - 30 * day)) (Some 5%Q).

Definition tieringItems : list Game := [recentlyPlayed; staleOne; neverPlayed].

(** Two copies of one game, as a collection lists them: one identifier,
    two collection entries, the second added last month. *)
Definition firstCopy : Game :=
  mkGame 822 11 "Carcassonne" (Some (now - 5 * 365 * day)) 0 None None.
Definition secondCopy : Game :=
  mkGame 822 12 "Carcassonne" (Some (now - 30 * day)) 0 None None.

Definition twoCopies : list Game := [firstCopy; secondCopy].

(** The inner text of a version variant of 0.25 by 0.25 by 1 inch. *)
Definition measure (tag value : string) : string :=
  "<" +:+ tag +:+ " value=" +:+ Js.quoted value +:+ "/>".



(** Two stores, in memory only. *)
Definition links : gmap Z (list ExpansionLink) :=
  <[13 := []]> (<[4390 := [mkLink 822 "Carcassonne"]]> ∅).

Definition boxes : gmap Z BoxDimensions :=
  <[13 := mkBox 11.7 11.7 3 410.67]> ∅.


Definition storedBoxes : Dimension.State :=
  Dimension.mkState boxes false 0 0 noDisk [] [].

(** The two coordinators just after a first start request. *)
Definition busyExpansion : Expansion.State :=
  Expansion.startBackgroundFetch Json.parseLinks [13; 822] None
    (Expansion.initial noDisk).

Definition busyDimension : Dimension.State :=
  Dimension.startBackgroundFetch Json.parseBoxes [13; 822]
    (Dimension.initial noDisk).

End Sample.


(** * The rest of the embedded code and what its properties are stated with *)

(** ** Text of ASCII characters

    On such text the case mapping, the white space and the lengths of the
    model (which knows the ASCII letters and counts bytes) are those of the
    language (which maps every cased letter and counts UTF-16 units). *)

Module Text.

Fixpoint isAscii (s : string) : bool :=
  match s with
  | EmptyString => true
  | String c r => ((nat_of_ascii c <? 128)%nat && isAscii r)%bool
  end.

End Text.

(** ** Runs of the two coordinators under any answers of the service *)

(** What the catalog service may be asked and how long a run may sleep:
    one to fifteen identifiers a request, and a rung of the backoff ladder
    or the pacing delay [pacing] a timer. *)
Definition requestOk (pacing : Z) (e : Effect) : Prop :=
  match e with
  | Fetch ids => (1 <= length ids <= 15)%nat
  | Delay ms => In ms (pacing :: Client.backoff)
  end.

(** The attempts of [for (attempt = 0; attempt <= backoff.length; ...)] at
    which a call of the client can be suspended. *)
Definition awaitOk (w : Await) : Prop :=
  match w with
  | AwaitFetch a => (a <= length Client.backoff)%nat
  | AwaitBackoff a => (a < length Client.backoff)%nat
  | AwaitPacing => True
  end.

(** How many wake-ups a call of the client can still take from where it
    is suspended. *)
Definition within (w : Await) : nat :=
  match w with
  | AwaitFetch a => 2 * (4 - a)
  | AwaitBackoff a => 2 * (4 - a) - 1
  | AwaitPacing => 0
  end.



(** A request which comes back refused (401) or not at all. *)
Definition refused (ev : Event) : Prop :=
  ev = EvFetch NetworkError \/ exists body, ev = EvFetch (Response 401 body).

(** An event which cuts run [r] of the expansion coordinator short: a
    request which does not come back, or one refused after the trial
    batch (a refused trial batch is the fallback of C1 and C10). *)
Definition cutsShort (r : Expansion.Run) (ev : Event) : Prop :=
  ev = EvFetch NetworkError
  \/ (exists body, ev = EvFetch (Response 401 body))
     /\ exists i, Expansion.run_phase r = Expansion.Remaining i.

(** *** What holds of every state the expansion coordinator reaches *)

Module ExpansionInv.
Import Expansion.

Definition runOk (r : Run) : Prop :=
  run_needed r <> []
  /\ awaitOk (run_await r)
  /\ match run_phase r with
     | Trial => run_await r <> AwaitPacing
     | Remaining i =>
         (i < length (remaining r))%nat
         /\ (run_await r = AwaitPacing -> (i + BATCH_SIZE < length (remaining r))%nat)
     end.

(** The identifiers of the batches a suspended run has completed. *)
Definition progressOf (r : Run) : Z :=
  match run_phase r, run_await r with
  | Trial, _ => 0
  | Remaining i, AwaitPacing => Z.of_nat (BATCH_SIZE + (i + BATCH_SIZE))
  | Remaining i, _ => Z.of_nat (BATCH_SIZE + i)
  end.

Definition base (st : State) : Prop :=
  0 <= fetchedCount st <= totalToFetch st
  /\ Forall (requestOk DELAY_BETWEEN_BATCHES_MS) (effects st).

Definition inv (st : State) : Prop :=
  base st
  /\ if fetchInProgress st
     then exists r, runs st = [r] /\ runOk r
                    /\ totalToFetch st = Z.of_nat (length (run_needed r))
                    /\ fetchedCount st = progressOf r
     else runs st = [].

End ExpansionInv.

(** *** The same for the dimension coordinator *)

Module DimensionInv.
Import Dimension.

Definition runOk (r : Run) : Prop :=
  run_needed r <> []
  /\ awaitOk (run_await r)
  /\ (run_i r < length (run_needed r))%nat
  /\ (run_await r = AwaitPacing -> (run_i r + BATCH_SIZE < length (run_needed r))%nat).

Definition progressOf (r : Run) : Z :=
  match run_await r with
  | AwaitPacing => Z.of_nat (run_i r + BATCH_SIZE)
  | _ => Z.of_nat (run_i r)
  end.

Definition base (st : State) : Prop :=
  0 <= fetchedCount st <= totalToFetch st
  /\ Forall (requestOk DELAY_BETWEEN_BATCHES_MS) (effects st).

Definition inv (st : State) : Prop :=
  base st
  /\ if fetchInProgress st
     then exists r, runs st = [r] /\ runOk r
                    /\ totalToFetch st = Z.of_nat (length (run_needed r))
                    /\ fetchedCount st = progressOf r
     else runs st = [].

End DimensionInv.

(** *** The outside world of a run

    [respond k] is what the request outstanding at the [k]-th wake-up of
    the run comes back with; a timer the run waits for fires.  [drive]
    wakes the only run up until it is over or [fuel] wake-ups are spent. *)

Module ExpansionEnv.
Import Expansion.

Definition wakeUp (respond : nat -> FetchResult) (k : nat) (r : Run) : Event :=
  match run_await r with
  | AwaitFetch _ => EvFetch (respond k)
  | _ => EvTimer
  end.

Section WithJson.
Variable JSON_stringify : gmap Z (list ExpansionLink) -> string.

Fixpoint drive (fuel : nat) (respond : nat -> FetchResult) (k : nat) (st : State)
    : State :=
  match fuel with
  | O => st
  | S fuel' =>
      match runs st with
      | [] => st
      | r :: _ =>
          match resume JSON_stringify 0 (wakeUp respond k r) st with
          | Some st' => drive fuel' respond (S k) st'
          | None => st
          end
      end
  end.
End WithJson.

(** A bound on the wake-ups run [r] can still take. *)
Definition measure (r : Run) : nat :=
  match run_phase r with
  | Trial => length (remaining r) + 10
  | Remaining i => length (remaining r) - i
  end + within (run_await r).

(** [st'] has no run left, or one with less before it than [r]. *)
Definition fewer (r : Run) (st' : State) : Prop :=
  runs st' = [] \/ exists r', runs st' = [r'] /\ (measure r' < measure r)%nat.

End ExpansionEnv.

Module DimensionEnv.
Import Dimension.

(** The identifiers of a start request which the loaded cache lacks. *)
Definition neededOf (cache : gmap Z BoxDimensions) (bggIds : list Z) : list Z :=
  List.filter (fun id => negb (bool_decide (is_Some (cache !! id)))) bggIds.

Definition wakeUp (respond : nat -> FetchResult) (k : nat) (r : Run) : Event :=
  match run_await r with
  | AwaitFetch _ => EvFetch (respond k)
  | _ => EvTimer
  end.

Section WithJson.
Variable JSON_stringify : gmap Z BoxDimensions -> string.

Fixpoint drive (fuel : nat) (respond : nat -> FetchResult) (k : nat) (st : State)
    : State :=
  match fuel with
  | O => st
  | S fuel' =>
      match runs st with
      | [] => st
      | r :: _ =>
          match resume JSON_stringify 0 (wakeUp respond k r) st with
          | Some st' => drive fuel' respond (S k) st'
          | None => st
          end
      end
  end.
End WithJson.

Definition measure (r : Run) : nat :=
  length (run_needed r) - run_i r + within (run_await r).

Definition fewer (r : Run) (st' : State) : Prop :=
  runs st' = [] \/ exists r', runs st' = [r'] /\ (measure r' < measure r)%nat.

End DimensionEnv.

(** Two coordinators of a fresh process, each just asked for games 13 and
    822, and a service which answers 200 with an empty body. *)
Module Started.

Definition expansion : Expansion.State :=
  Expansion.startBackgroundFetch Json.parseLinks [13; 822] None
    (Expansion.initial Sample.noDisk).

Definition dimension : Dimension.State :=
  Dimension.startBackgroundFetch Json.parseBoxes [13; 822]
    (Dimension.initial Sample.noDisk).


(** A service busy twice and then answering, and one busy four times and
    then failing. *)
Definition twiceBusy : nat -> FetchResult :=
  fun k => if (k <? 2)%nat then Response 202 "" else Response 200 "".

Definition busyThenBroken : nat -> FetchResult :=
  fun k => if (k <? 4)%nat then Response 202 "" else Response 500 "".

End Started.

(** ** What a flag of the heuristic matcher rests on *)

Module HeuristicSpec.
Import Heuristic.

(** [game] is flagged as an expansion of [base]: the two are games of
    [games] with different identifiers, and [base] is named as the text
    before the first separator of the name of [game], or has the same text
    before its own first separator. *)
Definition flagged (games : list Game) (game base : Game) : Prop :=
  In game games /\ In base games
  /\ bggId base <> bggId game
  /\ exists prefix,
       candidatePrefix (name game) = Some prefix
       /\ (Js.toLowerCase (name base) = prefix
           \/ candidatePrefix (name base) = Some prefix).

(** The two tables hold games of [games] under their keys. *)
Definition keyed (games : list Game) (t : Tables) : Prop :=
  (forall k g, nameToGame t !! k = Some g ->
               In g games /\ Js.toLowerCase (name g) = k)
  /\ Forall (fun e => Forall (fun g => In g games
                                       /\ candidatePrefix (name g) = Some (fst e))
                             (snd e))
            (prefixGroups t).

Definition sound (games : list Game) (result : gmap Z (list ExpansionLink)) : Prop :=
  forall id links, result !! id = Some links ->
    exists game base, bggId game = id /\ links = linkTo base /\ flagged games game base.

End HeuristicSpec.

(** ** The rule of the heuristic matcher, as its comment words it *)

Module HeuristicRule.
Import Heuristic.

(** The rule as the comment above [analyzeByNamePrefix] words it: the
    base of ["Game: Subtitle"] is the game named ["Game"] when the
    collection has one, and otherwise, when other games share the prefix,
    the one of them with the shortest name. *)

Definition hasPrefix (prefix : string) (g : Game) : bool :=
  match candidatePrefix (name g) with
  | Some p => String.eqb p prefix
  | None => false
  end.

(** The games with prefix [prefix], in the order of the collection. *)
Definition groupOf (games : list Game) (prefix : string) : list Game :=
  List.filter (hasPrefix prefix) games.

(** The game named [k], letter case apart: the last one, if several. *)
Definition named (games : list Game) (k : string) : option Game :=
  last (List.filter (fun g => String.eqb (Js.toLowerCase (name g)) k) games).

Definition byLength (a b : Game) : bool :=
  Z.of_nat (String.length (name a)) - Z.of_nat (String.length (name b)) <=? 0.

Definition baseOf (games : list Game) (g : Game) : option Game :=
  match candidatePrefix (name g) with
  | None => None
  | Some prefix =>
      let base :=
        match named games prefix with
        | Some bare => Some bare
        | None =>
            if (length (groupOf games prefix) <? 2)%nat then None
            else head (Js.Array_sort byLength (groupOf games prefix))
        end in
      match base with
      | Some b => if bggId g =? bggId b then None else Some b
      | None => None
      end
  end.

(** The group stored under [prefix] in the association list. *)
Fixpoint groupAt (prefix : string) (groups : list (string * list Game)) : list Game :=
  match groups with
  | [] => []
  | (p, gs) :: rest => if String.eqb p prefix then gs else groupAt prefix rest
  end.

(** The association list has one entry per key, none empty. *)
Definition tidy (groups : list (string * list Game)) : Prop :=
  List.NoDup (map fst groups) /\ Forall (fun e => snd e <> []) groups.

End HeuristicRule.

(** ** Application state ([src/lib/state.svelte.ts]) and the screens which
    change it *)

Module AppState.

Inductive Screen := setup | interview | review.

(** The decision on game [id] as the queue builder sees it. *)
Definition QueueDecision : Type := Decision.
Definition decided (id : Z) : QueueDecision := mkDecision id.

(** ['keep' | 'remove' | 'skip'] *)
Inductive Status := keep | remove | skip.

Definition Status_eqb (a b : Status) : bool :=
  match a, b with
  | keep, keep | remove, remove | skip, skip => true
  | _, _ => false
  end.

(** [Decision] of [types.ts], with all its fields. *)
Record Decision := mkDecision {
  dec_bggId : Z;
  dec_collId : Z;
  dec_gameName : string;
  dec_status : Status;
  dec_reasoning : string;
  dec_notes : string;
  dec_decidedAt : string
}.

(** What the queue builder reads of a decision. *)
Definition forQueue (d : Decision) : QueueDecision := decided (dec_bggId d).

Definition CUBIC_INCHES_PER_CUBIC_FOOT : Z := 1728.

(** The [$state] variables the modelled code reads or writes. *)
Record State := mkState {
  screen : Screen;
  games : list Game;
  decisions : list Decision;
  queue : list Game;
  currentIndex : nat;
  dimensions : gmap Z BoxDimensions;
  defaultVolume : Q;
  expansionOf : gmap Z (list ExpansionLink)
}.

(** *** Derived values *)

Definition currentGame (st : State) : option Game := queue st !! currentIndex st.

Definition reviewedCount (st : State) : Z := Z.of_nat (length (decisions st)).

Definition withStatus (s : Status) (st : State) : list Decision :=
  List.filter (fun d => Status_eqb (dec_status d) s) (decisions st).

Definition removeCount (st : State) : Z := Z.of_nat (length (withStatus remove st)).
Definition keepCount (st : State) : Z := Z.of_nat (length (withStatus keep st)).
Definition skipCount (st : State) : Z := Z.of_nat (length (withStatus skip st)).
Definition totalGames (st : State) : Z := Z.of_nat (length (games st)).
Definition effectiveTotal (st : State) : Z := totalGames st - skipCount st.
Definition needToRemove (st : State) : Z := Z.max 0 (effectiveTotal st - 400).
Definition remainingToGoal (st : State) : Z := Z.max 0 (needToRemove st - removeCount st).
Definition isGoalMet (st : State) : bool :=
  ((needToRemove st <=? removeCount st) && (0 <? needToRemove st))%bool.

(** [dimensions[d.bggId]?.volume ?? defaultVolume] *)
Definition volumeOf (st : State) (d : Decision) : Q :=
  match dimensions st !! dec_bggId d with
  | Some dims => b_volume dims
  | None => defaultVolume st
  end.

Definition removeVolumeInches (st : State) : Q :=
  fold_left (fun sum d => Binary64.fl (sum + volumeOf st d)%Q) (withStatus remove st) 0%Q.

Definition removeVolumeCuFt (st : State) : Q :=
  Binary64.fl
    (inject_Z
       (Js.Math_round
          (Binary64.fl
             (Binary64.fl (removeVolumeInches st / inject_Z CUBIC_INCHES_PER_CUBIC_FOOT)
              * 10)))
     / 10)%Q.

Definition covered (st : State) : list Game :=
  List.filter (fun g => bool_decide (is_Some (dimensions st !! bggId g))) (games st).

(** [Math.round((k / n) * 100)]: the quotient and the product are each
    rounded to binary64 before [Math.round] rounds to the integer. *)
Definition percent (k n : Z) : Z :=
  Js.Math_round (Binary64.fl (Binary64.fl (inject_Z k / inject_Z n) * 100))%Q.

Definition dimensionsCoverage (st : State) : Z :=
  if (0 <? length (games st))%nat
  then percent (Z.of_nat (length (covered st))) (Z.of_nat (length (games st)))
  else 0.

Definition collectionBggIds (st : State) : gset Z := list_to_set (map bggId (games st)).

Definition expansionCount (st : State) : Z :=
  Z.of_nat (length (List.filter
                      (Queue.isExpansionInCollection (games st) (expansionOf st))
                      (games st))).

(** *** Actions *)

Definition setQueue (q : list Game) (i : nat) (st : State) : State :=
  mkState (screen st) (games st) (decisions st) q i (dimensions st)
          (defaultVolume st) (expansionOf st).
Definition setDecisions (ds : list Decision) (st : State) : State :=
  mkState (screen st) (games st) ds (queue st) (currentIndex st) (dimensions st)
          (defaultVolume st) (expansionOf st).
Definition setScreen (s : Screen) (st : State) : State :=
  mkState s (games st) (decisions st) (queue st) (currentIndex st) (dimensions st)
          (defaultVolume st) (expansionOf st).

Section WithEnv.
(** The locale's comparison, the two dates [buildDefaultQueue] takes from
    the clock, and the draws of [Math.random]. *)
Variable localeCompare : string -> string -> Z.
Variable threeYearsAgo oneYearAgo : Z.
Variable draw : nat -> nat.

Definition buildQueue (sortMode : SortMode) (st : State) : State :=
  setQueue (Queue.buildQueue localeCompare (games st) (map forQueue (decisions st))
              (expansionOf st) threeYearsAgo oneYearAgo draw sortMode)
           0 st.
End WithEnv.

Definition advanceToNext (st : State) : State :=
  setQueue (queue st) (S (currentIndex st)) st.

(** [queue.findIndex((g) => g.bggId === bggId)], [None] for [-1]. *)
Fixpoint findIndex (id : Z) (q : list Game) : option nat :=
  match q with
  | [] => None
  | g :: rest =>
      if bggId g =? id then Some O
      else match findIndex id rest with
           | Some i => Some (S i)
           | None => None
           end
  end.

Definition goToGame (id : Z) (st : State) : State :=
  match findIndex id (queue st) with
  | Some idx => setQueue (queue st) idx st
  | None => st
  end.

End AppState.

(** ** The interview form ([src/lib/components/InterviewForm.svelte]) *)

Module InterviewForm.
Import AppState.

(** The form: the choice made, if any, and the two text fields. *)
Record Form := mkForm {
  choice : option Status;
  reasoning : string;
  notes : string
}.

Definition isValid (f : Form) : bool :=
  match choice f with
  | Some remove | Some skip => true
  | Some keep => (3 <=? String.length (Js.trim (reasoning f)))%nat
  | None => false
  end.

(** [handleSubmit]: the decision handed to [onsubmit], if any; [now] is
    [new Date().toISOString()]. *)
Definition handleSubmit (game : Game) (now : string) (f : Form) : option Decision :=
  if negb (isValid f) then None
  else
    match choice f with
    | None => None
    | Some c =>
        Some (mkDecision (bggId game) (collId game) (name game) c
                match c with
                | keep => Js.trim (reasoning f)
                | skip => if Js.isEmpty (Js.trim (notes f)) then "Skipped"
                          else Js.trim (notes f)
                | remove => ""
                end
                (Js.trim (notes f)) now)
    end.

End InterviewForm.

(** ** The page ([src/routes/+page.svelte]) and the review screen
    ([src/lib/components/ReviewScreen.svelte]) *)

Module Page.
Import AppState.

(** [decisions.findIndex((d) => d.bggId === decision.bggId)] and the
    assignment or the append which follows it. *)
Fixpoint upsert (decision : Decision) (ds : list Decision) : list Decision :=
  match ds with
  | [] => [decision]
  | d :: rest =>
      if dec_bggId d =? dec_bggId decision then decision :: rest
      else d :: upsert decision rest
  end.

(** [handleDecision], the request to the server apart. *)
Definition handleDecision (decision : Decision) (st : State) : State :=
  advanceToNext (setDecisions (upsert decision (decisions st)) st).

End Page.

Module ReviewScreen.
Import AppState.

Section WithEnv.
Variable localeCompare : string -> string -> Z.
Variable threeYearsAgo oneYearAgo : Z.
Variable draw : nat -> nat.

(** [reviseDecision], the request to the server apart. *)
Definition reviseDecision (decision : Decision) (st : State) : State :=
  let st1 := setDecisions
               (List.filter (fun d => negb (dec_bggId d =? dec_bggId decision))
                            (decisions st)) st in
  let st2 := buildQueue localeCompare threeYearsAgo oneYearAgo draw Default st1 in
  setScreen interview (goToGame (dec_bggId decision) st2).
End WithEnv.

End ReviewScreen.

(** A collection of 402 copies of one game with two decisions to remove,
    one game with its box measured, and a form filled in to keep a game. *)
Module AppSample.
Import AppState.

Definition removal (id : Z) : Decision :=
  mkDecision id 0 "Catan" remove "" "" "2026-01-01T00:00:00.000Z".

Definition overGoal : State :=
  mkState interview (repeat Sample.catan 402) [removal 13; removal 14]
          [] 0 ∅ 432 ∅.

Definition measured : State :=
  mkState interview [Sample.catan] [] [Sample.catan] 0 Sample.boxes 432 ∅.

Definition tiering : State :=
  mkState review Sample.tieringItems [removal (bggId Sample.staleOne)]
          [] 0 ∅ 432 ∅.

Definition keeping : InterviewForm.Form :=
  InterviewForm.mkForm (Some keep) "  plays well with two  " "".

End AppSample.


(** ** The decisions file ([src/lib/server/persistence.ts])

    The functions are [async]; each is modelled run to its end with no
    other request in between.  A rejected promise is [None]; the disk is
    passed along, so that what a function did before it failed stays done.
    [writeFile] and [mkdir] are taken not to fail. *)

Module Persistence.
Import AppState.

(** The directories which exist and the content of every file. *)
Record Disk := mkDisk {
  dirs : gset string;
  files : gmap string string
}.

(** An [async] function with a result of type [A]. *)
Definition Async (A : Type) : Type := Disk -> option A * Disk.

Definition resolve {A : Type} (a : A) : Async A := fun disk => (Some a, disk).
Definition reject {A : Type} : Async A := fun disk => (None, disk).
Definition await {A B : Type} (m : Async A) (f : A -> Async B) : Async B :=
  fun disk =>
    match m disk with
    | (Some a, disk') => f a disk'
    | (None, disk') => (None, disk')
    end.

Notation "'let!' x ':=' m 'in' f" := (await m (fun x => f))
  (at level 10, x name, m at level 100, f at level 200).
Notation "'do!' m 'in' f" := (await m (fun _ => f))
  (at level 10, m at level 100, f at level 200).

(** *** [fs] and [fs/promises] *)

Definition existsSync (path : string) (disk : Disk) : bool :=
  (bool_decide (path ∈ dirs disk) || bool_decide (is_Some (files disk !! path)))%bool.

Definition mkdir (path : string) : Async unit :=
  fun disk => (Some tt, mkDisk ({[path]} ∪ dirs disk) (files disk)).

Definition readFile (path : string) : Async string :=
  fun disk => (files disk !! path, disk).

Definition writeFile (path data : string) : Async unit :=
  fun disk => (Some tt, mkDisk (dirs disk) (<[path := data]> (files disk))).

Definition rename (oldPath newPath : string) : Async unit :=
  fun disk =>
    match files disk !! oldPath with
    | Some data =>
        (Some tt, mkDisk (dirs disk) (<[newPath := data]> (delete oldPath (files disk))))
    | None => (None, disk)
    end.

Section WithJson.

(** The working directory of the server, with no [/] at its end. *)
Variable cwd : string.

Definition DATA_DIR : string := cwd +:+ "/data".
Definition DECISIONS_FILE : string := DATA_DIR +:+ "/decisions.json".
Definition PENDING_DIR : string := DATA_DIR +:+ "/pending-writes".
Definition COMPLETED_DIR : string := DATA_DIR +:+ "/completed-writes".

(** [JSON.stringify(decisions, null, '\t')] and [JSON.parse(raw)]. *)
Variable JSON_stringify : list Decision -> string.
Variable JSON_parse : string -> option (list Decision).

Fixpoint ensureEach (l : list string) : Async unit :=
  match l with
  | [] => resolve tt
  | dir :: rest =>
      fun disk =>
        (do! (if existsSync dir disk then resolve tt else mkdir dir) in
         ensureEach rest) disk
  end.

Definition ensureDataDirs : Async unit :=
  ensureEach [DATA_DIR; PENDING_DIR; COMPLETED_DIR].

Definition loadDecisions : Async (list Decision) :=
  do! ensureDataDirs in
  fun disk =>
    if negb (existsSync DECISIONS_FILE disk) then resolve [] disk
    else (let! raw := readFile DECISIONS_FILE in
          match JSON_parse raw with
          | Some decisions => resolve decisions
          | None => reject
          end) disk.

(** [decisions.findIndex((d) => d.bggId === bggId)] *)
Fixpoint findIndex (id : Z) (ds : list Decision) : option nat :=
  match ds with
  | [] => None
  | d :: rest =>
      if dec_bggId d =? id then Some O
      else match findIndex id rest with
           | Some i => Some (S i)
           | None => None
           end
  end.

Definition saveDecision (decision : Decision) : Async unit :=
  do! ensureDataDirs in
  let! decisions := loadDecisions in
  let decisions' :=
    match findIndex (dec_bggId decision) decisions with
    | Some idx => <[idx := decision]> decisions
    | None => decisions ++ [decision]
    end in
  let tmp := DECISIONS_FILE +:+ ".tmp" in
  do! writeFile tmp (JSON_stringify decisions') in
  rename tmp DECISIONS_FILE.

Definition deleteDecision (id : Z) : Async unit :=
  do! ensureDataDirs in
  let! decisions := loadDecisions in
  let filtered := List.filter (fun d => negb (dec_bggId d =? id)) decisions in
  let tmp := DECISIONS_FILE +:+ ".tmp" in
  do! writeFile tmp (JSON_stringify filtered) in
  rename tmp DECISIONS_FILE.

(** The disk holds the decisions [l]: nothing at the path of the
    decisions file and [l] empty, or a file there which parses to [l]. *)
Definition holds (disk : Disk) (l : list Decision) : Prop :=
  (existsSync DECISIONS_FILE disk = false /\ l = [])
  \/ exists raw, files disk !! DECISIONS_FILE = Some raw /\ JSON_parse raw = Some l.

End WithJson.

End Persistence.

(** ** [parseInt] with one argument

    Leading white space, a sign, [0x] or [0X] for hexadecimal, then the
    digits; [None] is [NaN], the answer when there is no digit. *)

Module JsNumber.

Definition hexVal (c : ascii) : option Z :=
  let n := nat_of_ascii c in
  if Js.isDigit c then Some (Js.digitVal c)
  else if ((97 <=? n) && (n <=? 102))%nat then Some (Z.of_nat n - 87)
  else if ((65 <=? n) && (n <=? 70))%nat then Some (Z.of_nat n - 55)
  else None.

Fixpoint hexAcc (acc : option Z) (s : string) : option Z :=
  match s with
  | String c r =>
      match hexVal c with
      | Some v => hexAcc (Some (16 * default 0 acc + v)) r
      | None => acc
      end
  | EmptyString => acc
  end.

Definition decimal (s : string) : option Z :=
  let '(d, _) := Js.spanDigits s in
  if Js.isEmpty d then None else Some (Js.parseInt d).

(** The digits after the sign. *)
Definition unsigned (u : string) : option Z :=
  match u with
  | String "0"%char (String x r) =>
      if (Ascii.eqb x "x" || Ascii.eqb x "X")%bool then hexAcc None r
      else decimal u
  | _ => decimal u
  end.

Definition parseInt (s : string) : option Z :=
  let t := Js.trimStart s in
  match t with
  | String "-"%char r => option_map Z.opp (unsigned r)
  | String "+"%char r => unsigned r
  | _ => unsigned t
  end.

End JsNumber.

(** ** The routes of the decisions ([src/routes/api/decisions]) *)

Module DecisionRoutes.
Import AppState Persistence.

Inductive Response :=
| Ok                                  (* [{ ok: true }] *)
| Decisions (l : list Decision)       (* [{ decisions }] *)
| BadRequest.                         (* status 400 *)

Section WithJson.
Variable cwd : string.
Variable JSON_stringify : list Decision -> string.
Variable JSON_parse : string -> option (list Decision).
(** [request.json()] on the body of a request. *)
Variable request_json : string -> option Decision.

Definition GET : Async Response :=
  let! decisions := loadDecisions cwd JSON_parse in
  resolve (Decisions decisions).

Definition POST (body : string) : Async Response :=
  let! decision := (fun disk => (request_json body, disk)) in
  do! saveDecision cwd JSON_stringify JSON_parse decision in
  resolve Ok.

Definition DELETE (param : string) : Async Response :=
  match JsNumber.parseInt param with
  | None => resolve BadRequest
  | Some id =>
      do! deleteDecision cwd JSON_stringify JSON_parse id in
      resolve Ok
  end.

End WithJson.

(** The path parameter of [`/api/decisions/${decision.bggId}`]. *)
Definition deletePath (decision : Decision) : string :=
  Json.showZ (dec_bggId decision).

End DecisionRoutes.

(** ** A session: the page, the review screen and the server

    [onMount] asks for the decisions saved; [handleDecision] posts the
    decision and records it in the page; [reviseDecision] drops the
    decisions on the game from the page and asks the server to delete
    them.  Every request reaches the server and is served before the next
    one is sent. *)

Module Session.
Import AppState Persistence DecisionRoutes.

Inductive Action :=
| Decide (decision : Decision)
| Revise (decision : Decision).

Section WithEnv.
Variable cwd : string.
Variable JSON_stringify : list Decision -> string.
Variable JSON_parse : string -> option (list Decision).
(** [JSON.stringify(decision)], the body of the POST request. *)
Variable JSON_stringify_decision : Decision -> string.
Variable request_json : string -> option Decision.
Variable localeCompare : string -> string -> Z.
Variable threeYearsAgo oneYearAgo : Z.
Variable draw : nat -> nat.

(** [res.ok] and [data.decisions] of the answer to [fetch('/api/decisions')]. *)
Definition onMount (st : State) (disk : Disk) : State * Disk :=
  match GET cwd JSON_parse disk with
  | (Some (Decisions l), disk') => (setDecisions l st, disk')
  | (_, disk') => (st, disk')
  end.

Definition act (a : Action) (page : State * Disk) : State * Disk :=
  let '(st, disk) := page in
  match a with
  | Decide decision =>
      let disk' := snd (POST cwd JSON_stringify JSON_parse request_json
                          (JSON_stringify_decision decision) disk) in
      (Page.handleDecision decision st, disk')
  | Revise decision =>
      let st' := ReviewScreen.reviseDecision localeCompare threeYearsAgo oneYearAgo
                   draw decision st in
      (st', snd (DELETE cwd JSON_stringify JSON_parse (deletePath decision) disk))
  end.

Definition session (actions : list Action) (page : State * Disk) : State * Disk :=
  fold_left (fun p a => act a p) actions page.

End WithEnv.
End Session.

(** ** [JSON] on the decisions file *)

Module JsonDecisions.
Import AppState Json.

Definition statusName (s : Status) : string :=
  match s with keep => "keep" | remove => "remove" | skip => "skip" end.

Definition statusOf (s : string) : option Status :=
  if String.eqb s "keep" then Some keep
  else if String.eqb s "remove" then Some remove
  else if String.eqb s "skip" then Some skip
  else None.

Definition encodeDecision (d : Decision) : value :=
  Obj [("bggId", Num (inject_Z (dec_bggId d)));
       ("collId", Num (inject_Z (dec_collId d)));
       ("gameName", Str (dec_gameName d));
       ("status", Str (statusName (dec_status d)));
       ("reasoning", Str (dec_reasoning d));
       ("notes", Str (dec_notes d));
       ("decidedAt", Str (dec_decidedAt d))].

Definition intField (key : string) (ms : list (string * value)) : option Z :=
  match field key ms with Some v => asInt v | None => None end.
Definition strField (key : string) (ms : list (string * value)) : option string :=
  match field key ms with Some v => asStr v | None => None end.

Definition decodeDecision (v : value) : option Decision :=
  match v with
  | Obj ms =>
      match intField "bggId" ms, intField "collId" ms, strField "gameName" ms,
            strField "status" ms, strField "reasoning" ms, strField "notes" ms,
            strField "decidedAt" ms with
      | Some b, Some c, Some g, Some s, Some r, Some n, Some a =>
          match statusOf s with
          | Some st => Some (mkDecision b c g st r n a)
          | None => None
          end
      | _, _, _, _, _, _, _ => None
      end
  | _ => None
  end.

Definition stringifyDecision (d : Decision) : string :=
  print 0 (encodeDecision d).

Definition parseDecision (raw : string) : option Decision :=
  match parseDocument raw with
  | Some v => decodeDecision v
  | None => None
  end.

Definition stringifyDecisions (l : list Decision) : string :=
  print 0 (Arr (map encodeDecision l)).

Definition parseDecisions (raw : string) : option (list Decision) :=
  match parseDocument raw with
  | Some (Arr items) => allSome (map decodeDecision items)
  | _ => None
  end.

End JsonDecisions.

(** A disk with one decision saved, one with a decisions file which is no
    JSON, and the page which goes with the first. *)
Module DiskSample.
Import AppState Persistence.

Definition cwd : string := "/srv/app".

Definition kept : Decision :=
  mkDecision 13 3 "Catan" keep "plays well with two" "" "2026-01-01T00:00:00.000Z".

Definition saved : Disk :=
  mkDisk {[DATA_DIR cwd]}
         {[DECISIONS_FILE cwd := JsonDecisions.stringifyDecisions [AppSample.removal 13]]}.

Definition broken : Disk :=
  mkDisk {[DATA_DIR cwd]} {[DECISIONS_FILE cwd := "[{"]}.

Definition page : State :=
  mkState interview [Sample.catan] [AppSample.removal 13] [Sample.catan] 0 ∅ 432 ∅.

End DiskSample.


(** ** Texts a pattern cannot match in *)

Module Refusal.
Import Js.

(** [may r t km]: can [r], followed by what [km] stands for, match at the
    start of a text which begins with [t]?  The answer is [true] as soon as
    it depends on what comes after [t]. *)
Fixpoint mayLit (l t : string) (km : string -> bool) : bool :=
  match l, t with
  | EmptyString, _ => km t
  | String _ _, EmptyString => true
  | String a l', String b t' => if Ascii.eqb a b then mayLit l' t' km else false
  end.

Fixpoint mayStar (p : ascii -> bool) (km : string -> bool) (t : string) : bool :=
  match t with
  | EmptyString => true
  | String c r => (km t || (if p c then mayStar p km r else false))%bool
  end.

Fixpoint may (r : Re) (t : string) (km : string -> bool) : bool :=
  match r with
  | Lit l => mayLit l t km
  | PlusC p =>
      match t with
      | EmptyString => true
      | String c r' => if p c then mayStar p km r' else false
      end
  | StarC p => mayStar p km t
  | LazyC p => mayStar p km t
  | Cat a b => may a t (fun t' => may b t' km)
  | Group a => may a t km
  end.

(** No match of [r] starts inside [f], whatever follows [f]. *)
Fixpoint quiet (r : Re) (f : string) : bool :=
  match f with
  | EmptyString => true
  | String _ f' => (negb (may r f (fun _ => true)) && quiet r f')%bool
  end.

(** White space other than the ASCII one is written with bytes from 128
    on.  [widen r] lets every class of [r] hold these bytes too, so that a
    text quiet for [widen r] holds no match of [r], whichever white space is
    meant by it. *)
Definition high (c : ascii) : bool := (128 <=? nat_of_ascii c)%nat.

Fixpoint widen (r : Re) : Re :=
  match r with
  | Lit l => Lit l
  | PlusC p => PlusC (fun c => (p c || high c)%bool)
  | StarC p => StarC (fun c => (p c || high c)%bool)
  | LazyC p => LazyC (fun c => (p c || high c)%bool)
  | Cat a b => Cat (widen a) (widen b)
  | Group a => Group (widen a)
  end.

(** Every character of [s] is in the class [p]; the first one of [s], if
    any, is not. *)
Fixpoint allIn (p : ascii -> bool) (s : string) : bool :=
  match s with
  | EmptyString => true
  | String c r => (p c && allIn p r)%bool
  end.

Definition headNot (p : ascii -> bool) (s : string) : bool :=
  match s with
  | EmptyString => true
  | String c _ => negb (p c)
  end.

End Refusal.

(** ** The answer of the catalog to [/thing?id=...], as text

    What [parseExpansionXml] is written for: items of type [boardgame],
    each with its identifier and, among other elements, links of type
    [boardgameexpansion] with an identifier and a name. *)

Module ThingXml.
Import Js.

Definition digits (id : BinNums.positive) : string :=
  NilEmpty.string_of_uint (Pos.to_uint id).

(** A link up to the quote which closes its name, and the text up to the
    next link. *)
Record LinkElem := mkLinkElem {
  le_id : BinNums.positive;
  le_name : string;
  le_after : string
}.

(** An item with the text before its first link, and the text after its
    closing tag. *)
Record ItemElem := mkItemElem {
  ie_id : BinNums.positive;
  ie_before : string;
  ie_links : list LinkElem;
  ie_after : string
}.

Definition linkOpen (l : LinkElem) : string :=
  "<link" +:+ " " +:+ ("type=" +:+ quoted "boardgameexpansion") +:+ " "
  +:+ ("id=" +:+ dq) +:+ digits (le_id l) +:+ dq +:+ " " +:+ ("value=" +:+ dq)
  +:+ le_name l +:+ dq.

Fixpoint linksXml (links : list LinkElem) : string :=
  match links with
  | [] => ""
  | l :: rest => linkOpen l +:+ le_after l +:+ linksXml rest
  end.

Definition innerXml (it : ItemElem) : string :=
  ie_before it +:+ linksXml (ie_links it).

Definition itemOpen (it : ItemElem) : string :=
  "<item" +:+ " " +:+ ("type=" +:+ quoted "boardgame") +:+ " "
  +:+ ("id=" +:+ dq) +:+ digits (ie_id it) +:+ (dq +:+ ">").

Fixpoint itemsXml (items : list ItemElem) : string :=
  match items with
  | [] => ""
  | it :: rest =>
      itemOpen it +:+ innerXml it +:+ "</item>" +:+ ie_after it +:+ itemsXml rest
  end.

(** The data the text stands for. *)
Definition linkOf (l : LinkElem) : ExpansionLink :=
  mkLink (Z.pos (le_id l)) (le_name l).

Definition entryOf (it : ItemElem) : Z * list ExpansionLink :=
  (Z.pos (ie_id it), map linkOf (ie_links it)).

(** The text is laid out as the parser expects: no name holds a quote, no
    link starts in the text between two links, the inner text of an item
    holds no closing item tag, and no item starts between two items. *)
Definition linkOk (l : LinkElem) : bool :=
  (Refusal.allIn (notChar (ascii_of_nat 34)) (le_name l)
   && Refusal.quiet (Refusal.widen Expansion.linkRegex) (le_after l))%bool.

Definition itemOk (it : ItemElem) : bool :=
  (Refusal.quiet (Refusal.widen Expansion.linkRegex) (ie_before it)
   && forallb linkOk (ie_links it)
   && Refusal.quiet (Lit "</item>") (innerXml it)
   && Refusal.quiet (Refusal.widen Expansion.gameRegex) (ie_after it))%bool.

(** The identifiers are numbers which [parseInt] gives exactly: none is
    above [2^53]. *)
Definition MAX_EXACT : Z := 2 ^ 53.

Definition exactIds (it : ItemElem) : bool :=
  ((Z.pos (ie_id it) <=? MAX_EXACT)
   && forallb (fun l => Z.pos (le_id l) <=? MAX_EXACT) (ie_links it))%bool.

End ThingXml.

(** An answer with two games, the first with two links, and an item of
    another type between them. *)
Module XmlSample.
Import Js ThingXml.

Definition header : string :=
  "<?xml version=" +:+ quoted "1.0" +:+ " encoding=" +:+ quoted "utf-8" +:+ "?>"
  +:+ "<items termsofuse=" +:+ quoted "https://boardgamegeek.com/xmlapi/termsofuse"
  +:+ ">".

(** An item of another type, with a link of its own. *)
Definition seafarers : string :=
  "<item type=" +:+ quoted "boardgameexpansion" +:+ " id=" +:+ quoted "325" +:+ ">"
  +:+ "<link type=" +:+ quoted "boardgameexpansion" +:+ " id=" +:+ quoted "13"
  +:+ " value=" +:+ quoted "Catan" +:+ " inbound=" +:+ quoted "true" +:+ "/>"
  +:+ "</item>".

Definition catan : ItemElem :=
  mkItemElem 13
    ("<name type=" +:+ quoted "primary" +:+ " value=" +:+ quoted "Catan" +:+ "/>"
     +:+ "<link type=" +:+ quoted "boardgamecategory" +:+ " id=" +:+ quoted "1021"
     +:+ " value=" +:+ quoted "Economic" +:+ "/>")
    [mkLinkElem 325 "Catan: Seafarers" "/>"; mkLinkElem 2807 "Catan: Cities & Knights" "/>"]
    seafarers.

Definition carcassonne : ItemElem :=
  mkItemElem 822
    ("<name type=" +:+ quoted "primary" +:+ " value=" +:+ quoted "Carcassonne" +:+ "/>")
    []
    "</items>".

Definition answer : string := header +:+ itemsXml [catan; carcassonne].

End XmlSample.


(** ** Loading the collection ([handleLogin] of [src/routes/+page.svelte])

    The loop which asks the server for the collection, once the login has
    succeeded. *)

Module LoginPage.

(** What [/api/bgg/collection] answers: status 200 with [collData.games]
    (the empty list also for none), status 202, or another status with
    [collData.error] (the empty text for none). *)
Inductive Answer :=
| Games (games : list Game)
| Processing
| Other (status : Z) (error : string).

Inductive Event :=
| Ask (attempt : nat)
| Delay (ms : Z).

(** How the loop is left: by [return], by [throw], or at its end. *)
Inductive Outcome :=
| Loaded (games : list Game)
| Thrown (message : string)
| Ended.

Definition maxAttempts : nat := 8.
Definition backoffMs : list Z := [2000; 3000; 5000; 8000; 12000; 16000; 20000].

Definition emptyCollection : string :=
  "BGG returned an empty collection. The XML format may have changed, or your collection may be set to private.".
Definition stillProcessing : string :=
  "BGG is still processing your collection. Try again in a moment.".

Definition failure (status : Z) (error : string) : string :=
  if Js.isEmpty error
  then "Failed to fetch collection (HTTP " +:+ Json.showZ status +:+ ")"
  else error.

(** [left] is the number of values of [attempt] up to [maxAttempts]. *)
Fixpoint loop (left attempt : nat) (answer : nat -> Answer) : Outcome * list Event :=
  match left with
  | O => (Ended, [])
  | S left' =>
      match answer attempt with
      | Games games =>
          match games with
          | [] => (Thrown emptyCollection, [Ask attempt])
          | _ => (Loaded games, [Ask attempt])
          end
      | Processing =>
          if (attempt <? maxAttempts)%nat then
            let ms := nth (Nat.min (attempt - 1) (length backoffMs - 1)) backoffMs 0 in
            let '(outcome, events) := loop left' (S attempt) answer in
            (outcome, Ask attempt :: Delay ms :: events)
          else (Thrown stillProcessing, [Ask attempt])
      | Other status error => (Thrown (failure status error), [Ask attempt])
      end
  end.

Definition fetchCollection (answer : nat -> Answer) : Outcome * list Event :=
  loop maxAttempts 1 answer.

(** What the answer to the last request leads to. *)
Definition verdict (a : Answer) : Outcome :=
  match a with
  | Games [] => Thrown emptyCollection
  | Games games => Loaded games
  | Processing => Thrown stillProcessing
  | Other status error => Thrown (failure status error)
  end.

(** The requests up to the [n]-th with the waits between them. *)
Definition ladder (from n : nat) : list Event :=
  flat_map (fun i => [Ask i; Delay (nth (i - 1) backoffMs 0)]) (seq from (n - from))
  ++ [Ask n].

Fixpoint waited (events : list Event) : Z :=
  match events with
  | [] => 0
  | Delay ms :: rest => ms + waited rest
  | Ask _ :: rest => waited rest
  end.

End LoginPage.


(** ** The session cookies ([src/lib/server/bgg-api.ts])

    [sessionCookies] is the state of the module; [loginToBgg] is given
    here the response to its request. *)

Module BggApi.

(** [s.split(sep)] for a separator of one character. *)
Fixpoint split (sep : ascii) (s : string) : list string :=
  match s with
  | EmptyString => [EmptyString]
  | String c r =>
      if Ascii.eqb c sep then EmptyString :: split sep r
      else match split sep r with
           | piece :: rest => String c piece :: rest
           | [] => [String c EmptyString]
           end
  end.

(** [l.join(sep)] *)
Fixpoint join (sep : string) (l : list string) : string :=
  match l with
  | [] => EmptyString
  | [x] => x
  | x :: rest => x +:+ sep +:+ join sep rest
  end.

(** The response to the login request: its status, [getSetCookie()] where
    the method exists, and [get('set-cookie')]. *)
Record LoginResponse := mkLoginResponse {
  status : Z;
  getSetCookie : option (list string);
  set_cookie : option string
}.

Definition ok (res : LoginResponse) : bool :=
  ((200 <=? status res) && (status res <=? 299))%bool.

Definition cookieHeader (sessionCookies : list string) : string :=
  join "; " sessionCookies.

Definition hasCookies (sessionCookies : list string) : bool :=
  (0 <? length sessionCookies)%nat.

Definition isLoggedIn (sessionCookies : list string) : bool :=
  (0 <? length sessionCookies)%nat.

(** [.map((c) => c.split(';')[0].trim()).filter(Boolean)] *)
Definition extract (l : list string) : list string :=
  List.filter (fun c => negb (Js.isEmpty c))
              (map (fun c => Js.trim (hd "" (split ";" c))) l).

Inductive Outcome :=
| Resolved
| Rejected (message : string).

Definition loginToBgg (res : LoginResponse) (sessionCookies : list string)
    : Outcome * list string :=
  if (negb (ok res) && negb (status res =? 302))%bool
  then (Rejected "BGG login failed. Check your username and password.", sessionCookies)
  else
    let setCookies := default [] (getSetCookie res) in
    let stored :=
      match setCookies with
      | [] =>
          match set_cookie res with
          | Some raw =>
              if Js.isEmpty raw then None else Some (extract (split "," raw))
          | None => None
          end
      | _ => Some (extract setCookies)
      end in
    match stored with
    | None => (Rejected "BGG login returned no session cookies.", sessionCookies)
    | Some [] => (Rejected "BGG login returned no session cookies.", [])
    | Some cookies => (Resolved, cookies)
    end.

Definition logout (sessionCookies : list string) : list string := [].

(** A cookie as the [Cookie] header takes it: a text which is not empty,
    with no white space around it and no [;] in it. *)
Definition bare (c : string) : Prop :=
  c <> "" /\ Js.trim c = c /\ Refusal.allIn (Js.notChar ";") c = true.

(** A response with two cookies and their attributes. *)
Definition granted : LoginResponse :=
  mkLoginResponse 200
    (Some ["bggusername=meeple; Path=/; HttpOnly"; "SessionID=abc123; Path=/"]) None.

End BggApi.

(** * Properties *)

(** ** The stable sort *)

Section SortFacts.
Context {A : Type} (le : A -> A -> bool).

Lemma insertSorted_perm (x : A) (l : list A) :
  Permutation (Js.insertSorted le x l) (x :: l).
Proof.
  induction l as [|y r IH]; simpl.
  - reflexivity.
  - destruct (le x y).
    + reflexivity.
    + rewrite IH. apply perm_swap.
Qed.

Lemma Array_sort_perm (l : list A) : Permutation (Js.Array_sort le l) l.
Proof.
  induction l as [|x r IH]; simpl.
  - reflexivity.
  - rewrite insertSorted_perm. now rewrite IH.
Qed.

Lemma Array_sort_In (l : list A) (x : A) : In x (Js.Array_sort le l) <-> In x l.
Proof.
  split; apply Permutation_in; [|symmetry]; apply Array_sort_perm.
Qed.

(** A comparator never puts two elements each strictly before the other. *)
Hypothesis le_total : forall a b, le a b = false -> le b a = true.

Lemma insertSorted_sorted (x : A) (l : list A) :
  Sorted (fun a b => le a b = true) l ->
  Sorted (fun a b => le a b = true) (Js.insertSorted le x l).
Proof.
  induction l as [|y r IH]; simpl; intros Hs.
  - repeat constructor.
  - destruct (le x y) eqn:Hxy.
    + constructor; [assumption | constructor; assumption].
    + apply Sorted_inv in Hs as [Hr Hy].
      constructor; [apply IH; assumption |].
      destruct r as [|z r']; simpl.
      * constructor. apply le_total; assumption.
      * destruct (le x z); constructor.
        -- apply le_total; assumption.
        -- inversion Hy; assumption.
Qed.

Lemma Array_sort_sorted (l : list A) :
  Sorted (fun a b => le a b = true) (Js.Array_sort le l).
Proof.
  induction l as [|x r IH]; simpl.
  - constructor.
  - apply insertSorted_sorted; assumption.
Qed.
End SortFacts.

(** ** Heuristic matcher *)

Section HeuristicFacts.
Import Heuristic.

Lemma groupPush_members prefix g groups (P : Game -> Prop) :
  P g ->
  Forall (fun e => Forall P (snd e)) groups ->
  Forall (fun e => Forall P (snd e)) (groupPush prefix g groups).
Proof.
  intros Hg. induction groups as [|[p gs] rest IH]; simpl; intros Hall.
  - repeat constructor; assumption.
  - apply Forall_cons_iff in Hall as [Hgs Hrest]. simpl in Hgs.
    destruct (String.eqb p prefix).
    + constructor; [simpl | assumption].
      apply Forall_app; split; [assumption | repeat constructor; assumption].
    + constructor; [assumption | apply IH; assumption].
Qed.

(** Every game of the two tables has property [P] once every scanned
    game has. *)
Definition tablesOf (P : Game -> Prop) (t : Tables) : Prop :=
  (forall k g, nameToGame t !! k = Some g -> P g)
  /\ Forall (fun e => Forall P (snd e)) (prefixGroups t).

Lemma scanGame_tablesOf P t game :
  P game -> tablesOf P t -> tablesOf P (scanGame t game).
Proof.
  intros Hg [Hn Hp]. unfold scanGame.
  assert (Hn' : forall k g,
             <[Js.toLowerCase (name game) := game]> (nameToGame t) !! k = Some g -> P g).
  { intros k g. rewrite lookup_insert. case_decide; [|apply Hn].
    intros [= <-]. exact Hg. }
  destruct (candidatePrefix (name game)); split; simpl; try assumption.
  apply groupPush_members; assumption.
Qed.

Lemma buildTables_tablesOf P games :
  Forall P games -> tablesOf P (buildTables games).
Proof.
  unfold buildTables.
  assert (Hgen : forall t, tablesOf P t -> Forall P games ->
                           tablesOf P (fold_left scanGame games t)).
  { induction games as [|g r IH]; simpl; intros t Ht Hall; [assumption|].
    apply Forall_cons_iff in Hall as [Hg Hr]. apply IH; [|assumption].
    apply scanGame_tablesOf; assumption. }
  intros Hall. apply Hgen; [|assumption].
  split; simpl; [intros k g; rewrite lookup_empty; discriminate | constructor].
Qed.

(** Every list stored in a result is one link to a game with [P]. *)
Definition linksOf (P : Game -> Prop) (result : gmap Z (list ExpansionLink)) : Prop :=
  forall id links, result !! id = Some links ->
                   exists base, P base /\ links = linkTo base.

Lemma linksOf_insert P result id base :
  P base -> linksOf P result -> linksOf P (<[id := linkTo base]> result).
Proof.
  intros Hb Hr id' links. rewrite lookup_insert. case_decide; [|apply Hr].
  intros [= <-]. exists base. split; [assumption | reflexivity].
Qed.

Lemma flagOthers_linksOf P base groupGames result :
  P base -> linksOf P result -> linksOf P (flagOthers base groupGames result).
Proof.
  intros Hb. unfold flagOthers. revert result.
  induction groupGames as [|g r IH]; simpl; intros result Hr; [assumption|].
  apply IH. destruct (bggId g =? bggId base); [assumption|].
  apply linksOf_insert; assumption.
Qed.

Lemma visitGroup_linksOf P n2g result entry :
  (forall k g, n2g !! k = Some g -> P g) ->
  Forall P (snd entry) ->
  linksOf P result -> linksOf P (visitGroup n2g result entry).
Proof.
  intros Hn He Hr. destruct entry as [prefix groupGames]. simpl in *.
  destruct (length groupGames <? 2)%nat.
  - destruct (n2g !! prefix) as [bareBase|] eqn:Hb; [|assumption].
    destruct groupGames as [|g0 rest]; [assumption|].
    destruct (negb (bggId bareBase =? bggId g0)); [|assumption].
    apply linksOf_insert; [eapply Hn; eassumption | assumption].
  - destruct (n2g !! prefix) as [bareBase|] eqn:Hb.
    + apply flagOthers_linksOf; [eapply Hn; eassumption | assumption].
    + match goal with
      | |- context [head ?l] => destruct (head l) as [base|] eqn:Hh
      end; [|assumption].
      apply flagOthers_linksOf; [|assumption].
      apply head_Some_elem_of, list_elem_of_In, Array_sort_In in Hh.
      rewrite List.Forall_forall in He. apply He. assumption.
Qed.

Lemma analyzeByNamePrefix_linksOf P games :
  Forall P games -> linksOf P (analyzeByNamePrefix games).
Proof.
  intros Hall. unfold analyzeByNamePrefix.
  destruct (buildTables_tablesOf P games Hall) as [Hn Hp].
  set (t := buildTables games) in *.
  assert (Hgen : forall groups result,
             Forall (fun e => Forall P (snd e)) groups -> linksOf P result ->
             linksOf P (fold_left (visitGroup (nameToGame t)) groups result)).
  { induction groups as [|e r IH]; simpl; intros result Hg Hr; [assumption|].
    apply Forall_cons_iff in Hg as [He Hrest]. apply IH; [assumption|].
    apply visitGroup_linksOf; assumption. }
  apply Hgen; [assumption|].
  intros id links. rewrite lookup_empty. discriminate.
Qed.
End HeuristicFacts.

(** ** Regular expressions: what a match tells *)

Section RegexFacts.
Import Js.
#[local] Arguments String.append s1 s2 : simpl nomatch.

Lemma append_assoc (a b c : string) : (a +:+ b) +:+ c = a +:+ (b +:+ c).
Proof. induction a as [|x a IH]; simpl; [reflexivity | f_equal; exact IH]. Qed.

Lemma append_nil_r (a : string) : a +:+ "" = a.
Proof. induction a as [|x a IH]; simpl; [reflexivity | f_equal; exact IH]. Qed.

Lemma length_append (a b : string) :
  String.length (a +:+ b) = (String.length a + String.length b)%nat.
Proof. induction a as [|x a IH]; simpl; [reflexivity | f_equal; exact IH]. Qed.






Lemma stripPrefix_app (l rest : string) : stripPrefix l (l +:+ rest) = Some rest.
Proof.
  induction l as [|a l IH]; simpl; [reflexivity|].
  rewrite Ascii.eqb_refl. exact IH.
Qed.

Lemma substring_prefix (t rest : string) :
  String.substring 0 (String.length t) (t +:+ rest) = t.
Proof.
  induction t as [|c t IH]; simpl.
  - destruct rest; reflexivity.
  - rewrite IH. reflexivity.
Qed.

Lemma consumed_app (t rest : string) : consumed (t +:+ rest) rest = t.
Proof.
  unfold consumed. rewrite length_append.
  replace (String.length t + String.length rest - String.length rest)%nat
    with (String.length t) by lia.
  apply substring_prefix.
Qed.

Section Matching.
Context {X : Type}.



End Matching.


Section Extensionality.
Context {X : Type}.




End Extensionality.





End RegexFacts.

(** ** The model of JSON: parsing what was printed *)

Section JsonFacts.
Import Json.
#[local] Arguments String.append s1 s2 : simpl nomatch.

(** *** Numbers *)

Lemma digitsAcc_stop (acc : Z) (rest : string) :
  digitFree rest -> Js.digitsAcc acc rest = acc.
Proof. destruct rest as [|c r]; simpl; [reflexivity|]. intros ->. reflexivity. Qed.

Ltac digit_value :=
  repeat match goal with
         | |- context [Z.of_nat (nat_of_ascii ?c)] =>
             let v := eval vm_compute in (Z.of_nat (nat_of_ascii c)) in
             change (Z.of_nat (nat_of_ascii c)) with v
         end.

Lemma digitsAcc_uint_acc (d : Decimal.uint) :
  forall (acc : positive) (rest : string),
    Js.digitsAcc (Z.pos acc) (NilEmpty.string_of_uint d +:+ rest)
    = Js.digitsAcc (Z.pos (Pos.of_uint_acc d acc)) rest.
Proof.
  induction d; intros acc rest; simpl; try reflexivity;
    unfold Js.digitVal; rewrite <- IHd; f_equal; digit_value; lia.
Qed.

Lemma digitsAcc_uint (d : Decimal.uint) (rest : string) :
  Js.digitsAcc 0 (NilEmpty.string_of_uint d +:+ rest)
  = Js.digitsAcc (Z.of_N (Pos.of_uint d)) rest.
Proof.
  induction d; simpl; try reflexivity; try exact IHd;
    unfold Js.digitVal; digit_value;
    rewrite <- (digitsAcc_uint_acc d); reflexivity.
Qed.

Lemma spanDigits_uint (d : Decimal.uint) (rest : string) :
  digitFree rest ->
  Js.spanDigits (NilEmpty.string_of_uint d +:+ rest) = (NilEmpty.string_of_uint d, rest).
Proof.
  intros Hrest. induction d; simpl; try (rewrite IHd; reflexivity).
  destruct rest as [|c r]; simpl; [reflexivity|]. simpl in Hrest. rewrite Hrest. reflexivity.
Qed.

Lemma string_of_uint_pos (p : positive) :
  NilZero.string_of_uint (Pos.to_uint p) = NilEmpty.string_of_uint (Pos.to_uint p).
Proof.
  unfold NilZero.string_of_uint.
  destruct (Pos.to_uint p) eqn:Hd; try reflexivity.
  exfalso. exact (Unsigned.to_uint_nonnil p Hd).
Qed.

Lemma string_of_uint_nonempty (p : positive) :
  Js.isEmpty (NilEmpty.string_of_uint (Pos.to_uint p)) = false.
Proof.
  destruct (Pos.to_uint p) eqn:Hd; try reflexivity.
  exfalso. exact (Unsigned.to_uint_nonnil p Hd).
Qed.

Lemma parseInt_pos (p : positive) (rest : string) :
  digitFree rest ->
  Js.parseInt (NilEmpty.string_of_uint (Pos.to_uint p) +:+ rest) = Z.pos p.
Proof.
  intros Hrest. unfold Js.parseInt. rewrite digitsAcc_uint, Unsigned.of_to.
  apply digitsAcc_stop. exact Hrest.
Qed.

Lemma Qred_inject_Z (z : Z) : Qred (inject_Z z) = inject_Z z.
Proof. apply Qred_identity. simpl. apply Z.gcd_1_r. Qed.

Lemma numberEnd_digitFree s : numberEnd s -> digitFree s.
Proof. destruct s; simpl; tauto. Qed.

Lemma parseNumber_showZ (z : Z) (rest : string) :
  numberEnd rest ->
  parseNumber (showZ z +:+ rest) = Some (inject_Z z, rest).
Proof.
  intros Hrest. pose proof (numberEnd_digitFree rest Hrest) as Hd.
  assert (Hdot : match rest with
                 | String "."%char t => Js.spanDigits t
                 | _ => (EmptyString, rest)
                 end = (EmptyString, rest)).
  { destruct rest as [|c r]; [reflexivity|]. destruct Hrest as [_ Hc].
    destruct c as [[] [] [] [] [] [] [] []]; try reflexivity. contradiction. }
  unfold showZ, parseNumber. destruct z as [|p|p]; simpl Z.to_int.
  - simpl. destruct rest as [|c r]; simpl.
    + reflexivity.
    + simpl in Hd. rewrite Hd. simpl. rewrite Hdot. reflexivity.
  - simpl NilZero.string_of_int. rewrite string_of_uint_pos.
    assert (Hhd : match NilEmpty.string_of_uint (Pos.to_uint p) +:+ rest with
                  | String "-"%char t => (true, t)
                  | _ => (false, NilEmpty.string_of_uint (Pos.to_uint p) +:+ rest)
                  end = (false, NilEmpty.string_of_uint (Pos.to_uint p) +:+ rest)).
    { destruct (Pos.to_uint p) eqn:Hp; try reflexivity.
      exfalso. exact (Unsigned.to_uint_nonnil p Hp). }
    rewrite Hhd. rewrite spanDigits_uint by assumption.
    rewrite string_of_uint_nonempty. rewrite Hdot.
    rewrite (parseInt_pos p "") by exact I.
    change (- Z.of_nat (String.length "")) with 0.
    unfold Js.scale10. change (0 <=? 0) with true. change (10 ^ 0) with 1.
    cbv iota. rewrite Z.mul_1_r, Qred_inject_Z. reflexivity.
  - simpl NilZero.string_of_int. rewrite string_of_uint_pos. simpl.
    rewrite spanDigits_uint by assumption.
    rewrite string_of_uint_nonempty. rewrite Hdot.
    rewrite (parseInt_pos p "") by exact I.
    change (- Z.of_nat (String.length "")) with 0.
    unfold Js.scale10. change (0 <=? 0) with true. change (10 ^ 0) with 1.
    cbv iota. rewrite Z.mul_1_r, Qred_inject_Z. reflexivity.
Qed.


Lemma parseString_escape_quote (s rest : string) :
  parseString (escape s +:+ String (ascii_of_nat 34) rest) = Some (s, rest).
Proof.
  induction s as [|c s IH].
  - reflexivity.
  - cbn [escape]. rewrite append_assoc. simpl in IH.
    destruct c as [b0 b1 b2 b3 b4 b5 b6 b7].
    destruct b0, b1, b2, b3, b4, b5, b6, b7; simpl; rewrite IH; reflexivity.
Qed.

Lemma parseString_escape (s rest : string) :
  parseString (escape s +:+ Js.dq +:+ rest) = Some (s, rest).
Proof. apply parseString_escape_quote. Qed.

(** *** White space and first characters *)

Lemma skipWs_tabs (k : nat) (s : string) : skipWs (tabs k +:+ s) = skipWs s.
Proof. induction k as [|k IH]; [reflexivity | exact IH]. Qed.

Ltac by_char c :=
  destruct c as [b0 b1 b2 b3 b4 b5 b6 b7];
  destruct b0, b1, b2, b3, b4, b5, b6, b7; vm_compute;
  let H := fresh in intros H; (discriminate H || (repeat split; reflexivity)).

Lemma char_head (c : ascii) :
  isHead c = true ->
  isWs c = false /\ Ascii.eqb c "]" = false /\ Ascii.eqb c "}" = false.
Proof. by_char c. Qed.

Lemma char_number (c : ascii) :
  (Ascii.eqb c "-" || Js.isDigit c)%bool = true ->
  isWs c = false /\ Ascii.eqb c "{" = false /\ Ascii.eqb c "[" = false
  /\ Ascii.eqb c (ascii_of_nat 34) = false.
Proof. by_char c. Qed.

Lemma skipWs_head (c : ascii) (r : string) :
  isHead c = true -> skipWs (String c r) = String c r.
Proof. intros H. apply char_head in H as (Hws & _). simpl. rewrite Hws. reflexivity. Qed.

Lemma showZ_head (z : Z) (rest : string) :
  exists c r, showZ z +:+ rest = String c r
              /\ (Ascii.eqb c "-" || Js.isDigit c)%bool = true.
Proof.
  unfold showZ. destruct z as [|p|p]; simpl Z.to_int; simpl NilZero.string_of_int.
  - eexists _, _. split; reflexivity.
  - rewrite string_of_uint_pos.
    destruct (Pos.to_uint p) eqn:Hp;
      try (eexists _, _; split; reflexivity).
    exfalso. exact (Unsigned.to_uint_nonnil p Hp).
  - eexists _, _. split; reflexivity.
Qed.

Lemma valueAt_number pm pe (c : ascii) (r : string) :
  (Ascii.eqb c "-" || Js.isDigit c)%bool = true ->
  valueAt pm pe (String c r)
  = match parseNumber (String c r) with
    | Some (q, rest) => Some (Num q, rest)
    | None => None
    end.
Proof.
  intros H. apply char_number in H as (Hws & H1 & H2 & H3).
  unfold valueAt. cbn [skipWs]. rewrite Hws, H1, H2, H3. reflexivity.
Qed.

Lemma showQ_inject_Z (z : Z) : showQ (inject_Z z) = showZ z.
Proof.
  unfold showQ. cbn [Qnum Qden inject_Z]. rewrite Z.div_1_r, Z.mod_1_r.
  change (0 =? 0) with true. cbv iota. rewrite append_nil_r.
  destruct z as [|p|p]; try reflexivity.
Qed.

Lemma parseValue_ws (n : nat) (s s' : string) :
  skipWs s = skipWs s' -> parseValue n s = parseValue n s'.
Proof. destruct n; simpl; [reflexivity|]. unfold valueAt. intros ->. reflexivity. Qed.

Lemma parseElements_ws (n : nat) (s s' : string) :
  skipWs s = skipWs s' -> parseElements n s = parseElements n s'.
Proof.
  destruct n; simpl; [reflexivity|]. intros H. unfold elementsAt.
  rewrite (parseValue_ws n s s' H). reflexivity.
Qed.

Lemma parseMembers_ws (n : nat) (s s' : string) :
  skipWs s = skipWs s' -> parseMembers n s = parseMembers n s'.
Proof. destruct n; simpl; [reflexivity|]. unfold membersAt. intros ->. reflexivity. Qed.

Lemma skipWs_idem (s : string) : skipWs (skipWs s) = skipWs s.
Proof.
  induction s as [|c r IH]; simpl; [reflexivity|].
  destruct (isWs c) eqn:Hc; [exact IH|]. simpl. rewrite Hc. reflexivity.
Qed.

Lemma print_Arr_cons ind x r :
  print ind (Arr (x :: r))
  = "[" +:+ nl
    +:+ joinLines (map (fun y => tabs (S ind) +:+ print (S ind) y) (x :: r))
    +:+ nl +:+ tabs ind +:+ "]".
Proof. reflexivity. Qed.

Lemma print_Obj_cons ind m r :
  print ind (Obj (m :: r))
  = "{" +:+ nl
    +:+ joinLines (map (fun m => tabs (S ind) +:+ showString (fst m) +:+ ": "
                                 +:+ print (S ind) (snd m)) (m :: r))
    +:+ nl +:+ tabs ind +:+ "}".
Proof. reflexivity. Qed.

Lemma print_head (v : value) (ind : nat) (rest : string) :
  wf v -> exists c r, print ind v +:+ rest = String c r /\ isHead c = true.
Proof.
  intros Hwf. destruct v as [q | s | items | members].
  - inversion Hwf as [z Hz | | |]; subst. simpl print. rewrite showQ_inject_Z.
    destruct (showZ_head z rest) as (c & r & -> & Hc).
    exists c, r. split; [reflexivity|]. unfold isHead.
    apply orb_true_iff in Hc as [Hc|Hc]; rewrite Hc; rewrite ?orb_true_r; reflexivity.
  - eexists _, _. split; reflexivity.
  - destruct items; [|rewrite print_Arr_cons]; eexists _, _; split; reflexivity.
  - destruct members; [|rewrite print_Obj_cons]; eexists _, _; split; reflexivity.
Qed.

(** *** Printing, then parsing *)

Lemma parseValue_line (n ind : nat) (v : value) (tail : string) :
  parsesBack v -> (weight v <= n)%nat -> numberEnd tail ->
  parseValue n (tabs ind +:+ print ind v +:+ tail) = Some (v, tail).
Proof.
  intros Hv Hn Htail.
  rewrite (parseValue_ws n _ (print ind v +:+ tail)) by apply skipWs_tabs.
  apply Hv; assumption.
Qed.

Lemma skipWs_closing (ind : nat) (c : ascii) (rest : string) :
  isWs c = false ->
  skipWs (nl +:+ tabs ind +:+ String c "" +:+ rest) = String c rest.
Proof.
  intros Hc. change (skipWs (nl +:+ ?x)) with (skipWs x).
  rewrite skipWs_tabs. simpl. rewrite Hc. reflexivity.
Qed.

Lemma parse_elements (items : list value) :
  Forall parsesBack items -> items <> [] ->
  forall ind rest n,
    (fold_right (fun x acc => S (weight x) + acc) 0 items <= n)%nat ->
    parseElements n
      (joinLines (map (fun y => tabs (S ind) +:+ print (S ind) y) items)
       +:+ nl +:+ tabs ind +:+ "]" +:+ rest)
    = Some (items, rest).
Proof.
  induction items as [|x r IH]; intros Hall Hne ind rest n Hn; [contradiction|].
  apply List.Forall_cons_iff in Hall as [Hx Hr].
  cbn [fold_right] in Hn. destruct n as [|n]; [lia|].
  cbn [parseElements]. unfold elementsAt. cbn [map].
  destruct r as [|y r'].
  - cbn [map joinLines]. rewrite !append_assoc.
    rewrite parseValue_line; [| assumption | lia | split; [reflexivity | discriminate]].
    rewrite (skipWs_closing ind "]" rest) by reflexivity. reflexivity.
  - change (joinLines (?a :: map ?f (y :: r')))
      with (a +:+ "," +:+ nl +:+ joinLines (map f (y :: r'))).
    rewrite !append_assoc.
    rewrite parseValue_line; [| assumption | lia | split; [reflexivity | discriminate]].
    cbn [skipWs isWs]. change (headIs "," (skipWs ("," +:+ ?x))) with (Some x).
    cbv iota.
    rewrite (parseElements_ws n _ (joinLines (map (fun y0 => tabs (S ind) +:+ print (S ind) y0)
                                               (y :: r'))
                                   +:+ nl +:+ tabs ind +:+ "]" +:+ rest))
      by reflexivity.
    rewrite IH; [reflexivity | assumption | discriminate | ].
    cbn [fold_right] in *. lia.
Qed.

Lemma parse_members (members : list (string * value)) :
  Forall (fun m => parsesBack (snd m)) members -> members <> [] ->
  forall ind rest n,
    (fold_right (fun m acc => S (weight (snd m)) + acc) 0 members <= n)%nat ->
    parseMembers n
      (joinLines (map (fun m => tabs (S ind) +:+ showString (fst m) +:+ ": "
                                +:+ print (S ind) (snd m)) members)
       +:+ nl +:+ tabs ind +:+ "}" +:+ rest)
    = Some (members, rest).
Proof.
  induction members as [|[key x] r IH]; intros Hall Hne ind rest n Hn; [contradiction|].
  apply List.Forall_cons_iff in Hall as [Hx Hr]. cbn [snd] in Hx.
  cbn [fold_right snd] in Hn. destruct n as [|n]; [lia|].
  cbn [parseMembers]. unfold membersAt. cbn [map fst snd].
  assert (Hkey : forall tail,
             headIs (ascii_of_nat 34)
                    (skipWs (tabs (S ind) +:+ showString key +:+ ": " +:+ tail))
             = Some (escape key +:+ Js.dq +:+ ": " +:+ tail)).
  { intros tail. rewrite skipWs_tabs. unfold showString, Js.quoted.
    rewrite !append_assoc. reflexivity. }
  destruct r as [|m r'].
  - cbn [map joinLines]. rewrite !append_assoc. rewrite Hkey.
    rewrite parseString_escape.
    change (headIs ":" (skipWs (": " +:+ ?x))) with (Some (" " +:+ x)). cbv iota.
    rewrite (parseValue_ws n _ (print (S ind) x +:+ nl +:+ tabs ind +:+ "}" +:+ rest))
      by reflexivity.
    rewrite Hx; [| lia | split; [reflexivity | discriminate]].
    rewrite (skipWs_closing ind "}" rest) by reflexivity. reflexivity.
  - change (joinLines (?a :: map ?f (m :: r')))
      with (a +:+ "," +:+ nl +:+ joinLines (map f (m :: r'))).
    rewrite !append_assoc. rewrite Hkey.
    rewrite parseString_escape.
    change (headIs ":" (skipWs (": " +:+ ?x))) with (Some (" " +:+ x)). cbv iota.
    match goal with
    | |- context [parseValue n (" " +:+ ?t)] =>
        rewrite (parseValue_ws n (" " +:+ t) t) by reflexivity
    end.
    rewrite Hx; [| lia | split; [reflexivity | discriminate]].
    cbn [skipWs isWs]. change (headIs "," (skipWs ("," +:+ ?t))) with (Some t).
    cbv iota.
    match goal with
    | |- context [parseMembers n (nl +:+ ?t)] =>
        rewrite (parseMembers_ws n (nl +:+ t) t) by reflexivity
    end.
    rewrite IH; [reflexivity | assumption | discriminate | ].
    cbn [fold_right] in *. lia.
Qed.

Lemma parse_print_value (v : value) : wf v -> parsesBack v.
Proof.
  induction v as [q | s | items IH | members IH] using value_induction;
    intros Hwf ind rest n Hn Hrest.
  - inversion Hwf as [z Hz | | |]; subst. cbn [print]. rewrite showQ_inject_Z.
    destruct n as [|n]; [simpl in Hn; lia|]. cbn [parseValue].
    destruct (showZ_head z rest) as (c & r & Heq & Hc). rewrite Heq.
    rewrite valueAt_number by exact Hc. rewrite <- Heq.
    rewrite parseNumber_showZ by exact Hrest. reflexivity.
  - destruct n as [|n]; [simpl in Hn; lia|]. cbn [parseValue print].
    unfold showString, Js.quoted. rewrite !append_assoc.
    unfold valueAt.
    change (skipWs (Js.dq +:+ ?x)) with (String (ascii_of_nat 34) x).
    cbv iota.
    change (Ascii.eqb (ascii_of_nat 34) "{") with false.
    change (Ascii.eqb (ascii_of_nat 34) "[") with false.
    rewrite Ascii.eqb_refl. cbv iota.
    rewrite parseString_escape. reflexivity.
  - inversion Hwf as [ | | items' Hall | ]; subst.
    destruct n as [|n]; [simpl in Hn; lia|]. cbn [parseValue].
    destruct items as [|x r]; [reflexivity|].
    rewrite print_Arr_cons. rewrite !append_assoc. unfold valueAt.
    change (skipWs ("[" +:+ ?x)) with (String "[" x). cbv iota.
    change (Ascii.eqb "[" "{") with false. rewrite Ascii.eqb_refl. cbv iota.
    change (skipWs (nl +:+ ?x)) with (skipWs x).
    assert (Hparts : Forall parsesBack (x :: r)).
    { apply List.Forall_forall. intros y Hy.
      rewrite List.Forall_forall in IH, Hall. apply IH; [exact Hy | apply Hall; exact Hy]. }
    assert (Hskip : forall tail,
               skipWs (joinLines (map (fun y => tabs (S ind) +:+ print (S ind) y) (x :: r))
                       +:+ tail)
               = skipWs (print (S ind) x +:+
                         match r with
                         | [] => tail
                         | _ => "," +:+ nl
                                +:+ joinLines (map (fun y => tabs (S ind) +:+ print (S ind) y) r)
                                +:+ tail
                         end)).
    { intros tail. destruct r as [|y r']; cbn [map joinLines]; rewrite !append_assoc;
        apply skipWs_tabs. }
    apply List.Forall_cons_iff in Hall as [Hwx _].
    match goal with
    | |- context [headIs "]" (skipWs ?s)] =>
        assert (Hhead : headIs "]" (skipWs s) = None)
    end.
    { rewrite Hskip.
      destruct (print_head x (S ind)
                  match r with
                  | [] => nl +:+ tabs ind +:+ "]" +:+ rest
                  | _ => "," +:+ nl
                         +:+ joinLines (map (fun y => tabs (S ind) +:+ print (S ind) y) r)
                         +:+ nl +:+ tabs ind +:+ "]" +:+ rest
                  end Hwx) as (c & t & -> & Hc).
      rewrite skipWs_head by exact Hc. apply char_head in Hc as (_ & Hc & _).
      simpl. rewrite Hc. reflexivity. }
    rewrite Hhead.
    match goal with
    | |- context [parseElements n (skipWs ?s)] =>
        rewrite (parseElements_ws n (skipWs s) s) by apply skipWs_idem
    end.
    rewrite (parse_elements (x :: r) Hparts) ; [reflexivity | discriminate |].
    cbn [weight] in Hn. lia.
  - inversion Hwf as [ | | | members' Hall]; subst.
    destruct n as [|n]; [simpl in Hn; lia|]. cbn [parseValue].
    destruct members as [|[key x] r]; [reflexivity|].
    rewrite print_Obj_cons. rewrite !append_assoc. unfold valueAt.
    change (skipWs ("{" +:+ ?x)) with (String "{" x). cbv iota.
    rewrite Ascii.eqb_refl. cbv iota.
    change (skipWs (nl +:+ ?x)) with (skipWs x).
    assert (Hparts : Forall (fun m => parsesBack (snd m)) ((key, x) :: r)).
    { apply List.Forall_forall. intros y Hy.
      rewrite List.Forall_forall in IH, Hall. apply IH; [exact Hy | apply Hall; exact Hy]. }
    match goal with
    | |- context [headIs "}" (skipWs ?s)] =>
        assert (Hhead : headIs "}" (skipWs s) = None)
    end.
    { cbn [map fst snd]. destruct r as [|m r']; cbn [map joinLines];
        rewrite !append_assoc, skipWs_tabs; reflexivity. }
    rewrite Hhead.
    match goal with
    | |- context [parseMembers n (skipWs ?s)] =>
        rewrite (parseMembers_ws n (skipWs s) s) by apply skipWs_idem
    end.
    rewrite (parse_members ((key, x) :: r) Hparts); [reflexivity | discriminate |].
    cbn [weight] in Hn. lia.
Qed.

(** *** Enough fuel *)

Lemma length_tabs (k : nat) : String.length (tabs k) = k.
Proof. induction k as [|k IH]; simpl; [reflexivity | rewrite IH; reflexivity]. Qed.

Lemma length_joinLines (lines : list string) :
  (fold_right (fun l acc => String.length l + acc) 0 lines
   <= String.length (joinLines lines))%nat.
Proof.
  induction lines as [|l r IH]; [simpl; lia|].
  destruct r as [|l' r'].
  - simpl. lia.
  - change (joinLines (l :: l' :: r')) with (l +:+ "," +:+ nl +:+ joinLines (l' :: r')).
    rewrite !length_append. cbn [fold_right] in *. lia.
Qed.

Lemma sum_le_lengths {A : Type} (f : A -> nat) (g : A -> string) (l : list A) :
  Forall (fun x => (S (f x) <= String.length (g x))%nat) l ->
  (fold_right (fun x acc => S (f x) + acc) 0 l
   <= fold_right (fun s acc => String.length s + acc) 0 (map g l))%nat.
Proof.
  induction l as [|x r IH]; intros Hall; cbn [fold_right map]; [lia|].
  apply List.Forall_cons_iff in Hall as [Hx Hr]. specialize (IH Hr). lia.
Qed.

Lemma weight_le_length (v : value) :
  wf v -> forall ind, (weight v <= String.length (print ind v))%nat.
Proof.
  induction v as [q | s | items IH | members IH] using value_induction;
    intros Hwf ind.
  - inversion Hwf as [z Hz | | |]; subst. cbn [print weight]. rewrite showQ_inject_Z.
    destruct (showZ_head z "") as (c & r & Heq & _).
    rewrite append_nil_r in Heq. rewrite Heq. simpl. lia.
  - cbn [print weight]. unfold showString, Js.quoted. rewrite !length_append. simpl. lia.
  - inversion Hwf as [ | | items' Hall | ]; subst.
    destruct items as [|x r]; [simpl; lia|].
    rewrite print_Arr_cons. rewrite !length_append. cbn [weight].
    pose proof (length_joinLines
                  (map (fun y => tabs (S ind) +:+ print (S ind) y) (x :: r))) as Hj.
    pose proof (sum_le_lengths weight (fun y => tabs (S ind) +:+ print (S ind) y) (x :: r))
      as Hsum.
    assert (Hpre : Forall (fun y => (S (weight y)
                                     <= String.length (tabs (S ind) +:+ print (S ind) y))%nat)
                          (x :: r)).
    { apply List.Forall_forall. intros y Hy.
      rewrite List.Forall_forall in IH, Hall.
      pose proof (IH y Hy (Hall y Hy) (S ind)) as Hle.
      rewrite length_append, length_tabs. lia. }
    specialize (Hsum Hpre). unfold nl. cbn [String.length]. lia.
  - inversion Hwf as [ | | | members' Hall]; subst.
    destruct members as [|m r]; [simpl; lia|].
    rewrite print_Obj_cons. rewrite !length_append. cbn [weight].
    pose proof (length_joinLines
                  (map (fun m => tabs (S ind) +:+ showString (fst m) +:+ ": "
                                 +:+ print (S ind) (snd m)) (m :: r))) as Hj.
    pose proof (sum_le_lengths (fun m => weight (snd m))
                  (fun m => tabs (S ind) +:+ showString (fst m) +:+ ": "
                            +:+ print (S ind) (snd m)) (m :: r)) as Hsum.
    assert (Hpre : Forall (fun y => (S (weight (snd y))
                                     <= String.length
                                          (tabs (S ind) +:+ showString (fst y) +:+ ": "
                                           +:+ print (S ind) (snd y)))%nat)
                          (m :: r)).
    { apply List.Forall_forall. intros y Hy.
      rewrite List.Forall_forall in IH, Hall.
      pose proof (IH y Hy (Hall y Hy) (S ind)) as Hle.
      rewrite !length_append, length_tabs. lia. }
    specialize (Hsum Hpre). unfold nl. cbn [String.length]. lia.
Qed.

(** A well-formed document is what parsing its text gives. *)
Lemma parseDocument_print (v : value) : wf v -> parseDocument (print 0 v) = Some v.
Proof.
  intros Hwf. unfold parseDocument.
  rewrite <- (append_nil_r (print 0 v)) at 2.
  rewrite (parse_print_value v Hwf 0%nat "" (S (String.length (print 0 v)))).
  - reflexivity.
  - pose proof (weight_le_length v Hwf 0%nat). lia.
  - exact I.
Qed.

(** *** The expansion store as a document *)

Lemma allSome_map {A B : Type} (f : A -> option B) (g : B -> A) (l : list B) :
  (forall x, f (g x) = Some x) -> allSome (map f (map g l)) = Some l.
Proof.
  intros Hfg. induction l as [|x r IH]; simpl; [reflexivity|].
  rewrite Hfg, IH. reflexivity.
Qed.








End JsonFacts.

(** ** Rounding to binary64 *)

Section Binary64Facts.
Import Binary64.
Local Open Scope Q_scope.

Lemma pow2_pos (e : Z) : 0 < pow2 e.
Proof. apply Qpower_0_lt. reflexivity. Qed.

Lemma pow2_plus (a b : Z) : pow2 (a + b) == pow2 a * pow2 b.
Proof. apply Qpower_plus. discriminate. Qed.

Lemma pow2_le (a b : Z) : (a <= b)%Z -> pow2 a <= pow2 b.
Proof. intros H. apply Qpower_le_compat_l; [exact H|]. discriminate. Qed.

Lemma pow2_lt (a b : Z) : (a < b)%Z -> pow2 a < pow2 b.
Proof. intros H. apply Qpower_lt_compat_l; [exact H|]. reflexivity. Qed.

Lemma pow2_Z (n : Z) : (0 <= n)%Z -> pow2 n == inject_Z (2 ^ n).
Proof. intros H. unfold pow2. rewrite Zpower_Qpower by exact H. reflexivity. Qed.

Lemma pow2_minus (a b : Z) : pow2 (a - b) == pow2 a / pow2 b.
Proof. apply Qpower_minus. discriminate. Qed.

(** A positive integer between two powers of two. *)
Lemma log2_bounds (n : Z) :
  (0 < n)%Z -> pow2 (Z.log2 n) <= inject_Z n /\ inject_Z n < pow2 (Z.log2 n + 1).
Proof.
  intros H. pose proof (Z.log2_spec n H) as [Hlo Hhi].
  pose proof (Z.log2_nonneg n) as Hnn.
  rewrite !pow2_Z by lia. rewrite <- Zle_Qle, <- Zlt_Qlt.
  replace (Z.log2 n + 1)%Z with (Z.succ (Z.log2 n)) by lia. split; assumption.
Qed.

Lemma exponent_spec (x : Q) :
  0 < x -> pow2 (exponent x) <= x /\ x < pow2 (exponent x + 1).
Proof.
  intros Hx. destruct x as [a b].
  assert (Ha : (0 < a)%Z) by (unfold Qlt in Hx; cbn in Hx; lia).
  destruct (log2_bounds a Ha) as [Hal Hah].
  destruct (log2_bounds (Z.pos b) eq_refl) as [Hbl Hbh].
  assert (Hb : 0 < inject_Z (Z.pos b)) by reflexivity.
  assert (Hx' : a # b == inject_Z a / inject_Z (Z.pos b)) by apply Qmake_Qdiv.
  unfold exponent. cbn [Qnum Qden].
  set (e0 := (Z.log2 a - Z.log2 (Z.pos b))%Z).
  destruct (Qle_bool (pow2 e0) (a # b)) eqn:E.
  - apply Qle_bool_iff in E. split; [exact E|].
    rewrite Hx'. apply Qlt_shift_div_r; [exact Hb|].
    apply Qlt_le_trans with (pow2 (Z.log2 a + 1)); [exact Hah|].
    assert (Hp : pow2 (Z.log2 a + 1) == pow2 (e0 + 1) * pow2 (Z.log2 (Z.pos b))).
    { rewrite <- pow2_plus.
      replace (e0 + 1 + Z.log2 (Z.pos b))%Z with (Z.log2 a + 1)%Z by (unfold e0; lia).
      reflexivity. }
    rewrite Hp. apply Qmult_le_l; [apply pow2_pos|exact Hbl].
  - assert (E' : a # b < pow2 e0).
    { apply Qnot_le_lt. intros H. apply Qle_bool_iff in H. congruence. }
    replace (e0 - 1 + 1)%Z with e0 by lia. split; [|exact E'].
    rewrite Hx'. apply Qle_shift_div_l; [exact Hb|].
    apply Qle_trans with (pow2 (Z.log2 a)); [|exact Hal].
    assert (Hp : pow2 (Z.log2 a) == pow2 (e0 - 1) * pow2 (Z.log2 (Z.pos b) + 1)).
    { rewrite <- pow2_plus.
      replace (e0 - 1 + (Z.log2 (Z.pos b) + 1))%Z with (Z.log2 a) by (unfold e0; lia).
      reflexivity. }
    rewrite Hp. apply Qmult_le_l; [apply pow2_pos|].
    apply Qlt_le_weak. exact Hbh.
Qed.

Lemma exponent_unique (x : Q) (e : Z) :
  pow2 e <= x -> x < pow2 (e + 1) -> exponent x = e.
Proof.
  intros Hlo Hhi.
  assert (Hx : 0 < x) by (apply Qlt_le_trans with (pow2 e); [apply pow2_pos|exact Hlo]).
  destruct (exponent_spec x Hx) as [Hlo' Hhi'].
  destruct (Z.lt_trichotomy (exponent x) e) as [H|[H|H]]; [|exact H|]; exfalso.
  - assert (pow2 (exponent x + 1) <= pow2 e) by (apply pow2_le; lia).
    apply (Qlt_irrefl x). eapply Qlt_le_trans; [exact Hhi'|].
    eapply Qle_trans; eassumption.
  - assert (pow2 (e + 1) <= pow2 (exponent x)) by (apply pow2_le; lia).
    apply (Qlt_irrefl x). eapply Qlt_le_trans; [exact Hhi|].
    eapply Qle_trans; eassumption.
Qed.

Lemma nearestEven_comp (q q' : Q) : q == q' -> nearestEven q = nearestEven q'.
Proof.
  intros H. unfold nearestEven.
  rewrite (Qfloor_comp q q' H).
  assert (Hq : q - inject_Z (Qfloor q') == q' - inject_Z (Qfloor q'))
    by (rewrite H; reflexivity).
  rewrite (Qcompare_comp _ _ Hq _ _ (Qeq_refl (1 # 2))). reflexivity.
Qed.

Lemma nearestEven_Z (n : Z) : nearestEven (inject_Z n) = n.
Proof.
  unfold nearestEven. rewrite Qfloor_Z.
  assert (Hz : inject_Z n - inject_Z n == 0) by ring.
  rewrite (Qcompare_comp _ _ Hz _ _ (Qeq_refl (1 # 2))). reflexivity.
Qed.

Lemma nearestEven_le (q : Q) (n : Z) : q <= inject_Z n -> (nearestEven q <= n)%Z.
Proof.
  intros H. unfold nearestEven.
  pose proof (Qfloor_le q) as Hf.
  assert (Hfn : (Qfloor q <= n)%Z)
    by (rewrite Zle_Qle; eapply Qle_trans; eassumption).
  assert (Hup : 0 < q - inject_Z (Qfloor q) -> (Qfloor q + 1 <= n)%Z).
  { intros Hr. assert (Hlt : inject_Z (Qfloor q) < inject_Z n).
    { apply Qlt_le_trans with q; [|exact H]. apply Qlt_minus_iff. exact Hr. }
    rewrite <- Zlt_Qlt in Hlt. lia. }
  destruct (Qcompare (q - inject_Z (Qfloor q)) (1 # 2)) eqn:E.
  - destruct (Z.even (Qfloor q)); [exact Hfn|]. apply Hup.
    apply Qeq_alt in E. rewrite E. reflexivity.
  - exact Hfn.
  - apply Hup. apply Qgt_alt in E. eapply Qlt_trans; [|exact E]. reflexivity.
Qed.

Lemma nearestEven_nonneg (q : Q) : 0 <= q -> (0 <= nearestEven q)%Z.
Proof.
  intros H. unfold nearestEven.
  assert (Hf : (0 <= Qfloor q)%Z).
  { change 0%Z with (Qfloor 0). apply Qfloor_resp_le. exact H. }
  destruct (Qcompare (q - inject_Z (Qfloor q)) (1 # 2));
    [destruct (Z.even (Qfloor q))| |]; lia.
Qed.

(** The scaled value lies between [2^52] and [2^53]. *)
Lemma scaled_bounds (x : Q) :
  0 < x ->
  inject_Z (2 ^ 52) <= x / pow2 (exponent x - 52)
  /\ x / pow2 (exponent x - 52) < inject_Z (2 ^ 53).
Proof.
  intros Hx. destruct (exponent_spec x Hx) as [Hlo Hhi].
  pose proof (pow2_pos (exponent x - 52)) as Hu.
  split.
  - apply Qle_shift_div_l; [exact Hu|].
    rewrite <- pow2_Z by lia. rewrite <- pow2_plus.
    replace (52 + (exponent x - 52))%Z with (exponent x) by lia. exact Hlo.
  - apply Qlt_shift_div_r; [exact Hu|].
    rewrite <- pow2_Z by lia. rewrite <- pow2_plus.
    replace (53 + (exponent x - 52))%Z with (exponent x + 1)%Z by lia. exact Hhi.
Qed.

Lemma nearest_nonneg (x : Q) : 0 < x -> 0 <= nearest x.
Proof.
  intros Hx. unfold nearest. apply Qmult_le_0_compat.
  - change 0 with (inject_Z 0). rewrite <- Zle_Qle. apply nearestEven_nonneg.
    apply Qle_shift_div_l; [apply pow2_pos|].
    rewrite Qmult_0_l. apply Qlt_le_weak. exact Hx.
  - apply Qlt_le_weak. apply pow2_pos.
Qed.

(** Rounding does not pass a number of 53 bits: [M * 2^(e - 52)] with
    [2^e] at most and [2^(e+1)] above it. *)
Lemma nearest_le (x r : Q) (M e : Z) :
  0 < x -> x <= r ->
  r == inject_Z M * pow2 (e - 52) -> pow2 e <= r -> r < pow2 (e + 1) ->
  nearest x <= r.
Proof.
  intros Hx Hxr Hr Hlo Hhi.
  destruct (exponent_spec x Hx) as [Hlo' Hhi'].
  pose proof (pow2_pos (exponent x - 52)) as Hu.
  assert (He : (exponent x <= e)%Z).
  { destruct (Z.le_gt_cases (exponent x) e) as [H|H]; [exact H|]. exfalso.
    assert (pow2 (e + 1) <= pow2 (exponent x)) by (apply pow2_le; lia).
    apply (Qlt_irrefl r). eapply Qlt_le_trans; [exact Hhi|].
    eapply Qle_trans; [eassumption|]. eapply Qle_trans; eassumption. }
  unfold nearest.
  destruct (Z.eq_dec (exponent x) e) as [Heq|Hne].
  - rewrite Heq in *. rewrite Hr. apply Qmult_le_r; [apply pow2_pos|].
    rewrite <- Zle_Qle. apply nearestEven_le.
    apply Qle_shift_div_r; [apply pow2_pos|]. rewrite <- Hr. exact Hxr.
  - apply Qle_trans with (pow2 (exponent x + 1)).
    + assert (Hp : pow2 (exponent x + 1) == inject_Z (2 ^ 53) * pow2 (exponent x - 52)).
      { rewrite <- pow2_Z by lia. rewrite <- pow2_plus.
        replace (53 + (exponent x - 52))%Z with (exponent x + 1)%Z by lia. reflexivity. }
      rewrite Hp. apply Qmult_le_r; [exact Hu|].
      rewrite <- Zle_Qle. apply nearestEven_le.
      apply Qlt_le_weak. apply (proj2 (scaled_bounds x Hx)).
    + apply Qle_trans with (pow2 e); [apply pow2_le; lia | exact Hlo].
Qed.

(** A number of 53 bits is its own rounding. *)
Lemma nearest_exact (x : Q) (M e : Z) :
  x == inject_Z M * pow2 (e - 52) -> pow2 e <= x -> x < pow2 (e + 1) ->
  nearest x == x.
Proof.
  intros Hr Hlo Hhi. unfold nearest.
  rewrite (exponent_unique x e Hlo Hhi).
  rewrite (nearestEven_comp (x / pow2 (e - 52)) (inject_Z M)).
  - rewrite nearestEven_Z. symmetry. exact Hr.
  - rewrite Hr. field. apply Qnot_eq_sym. apply Qlt_not_eq. apply pow2_pos.
Qed.

Lemma fl_pos (x : Q) : 0 < x -> fl x == nearest x.
Proof.
  intros Hx. unfold fl. destruct x as [[|a|a] b]; try discriminate Hx.
  cbn [Qnum]. apply Qred_correct.
Qed.

Lemma fl_nonneg (x : Q) : 0 <= x -> 0 <= fl x.
Proof.
  intros Hx. destruct x as [[|a|a] b].
  - apply Qle_refl.
  - rewrite fl_pos by reflexivity. apply nearest_nonneg. reflexivity.
  - exfalso. apply (Hx eq_refl).
Qed.

Lemma fl_le (x r : Q) (M e : Z) :
  0 <= x -> x <= r ->
  r == inject_Z M * pow2 (e - 52) -> pow2 e <= r -> r < pow2 (e + 1) ->
  fl x <= r.
Proof.
  intros Hx Hxr Hr Hlo Hhi. destruct x as [[|a|a] b].
  - apply Qle_trans with (pow2 e); [|exact Hlo]. apply Qlt_le_weak. apply pow2_pos.
  - rewrite fl_pos by reflexivity.
    apply (nearest_le _ r M e); try assumption. reflexivity.
  - exfalso. apply (Hx eq_refl).
Qed.

Lemma fl_exact (x : Q) (M e : Z) :
  x == inject_Z M * pow2 (e - 52) -> pow2 e <= x -> x < pow2 (e + 1) ->
  fl x == x.
Proof.
  intros Hr Hlo Hhi.
  assert (Hx : 0 < x) by (apply Qlt_le_trans with (pow2 e); [apply pow2_pos|exact Hlo]).
  rewrite fl_pos by exact Hx. apply (nearest_exact x M e); assumption.
Qed.

End Binary64Facts.

(** ** C2: the heuristic matcher on the fallback example *)

(** C2, as stated, fails: on the three items of the example the result of
    [analyzeByNamePrefix] is not the expected three-key mapping, and an item
    of the input (Carcassonne) is not a key of it. *)
Lemma C2_counterexample :
  Heuristic.analyzeByNamePrefix Sample.fallbackItems <> Sample.fallbackExpected
  /\ ~ (forall g, In g Sample.fallbackItems ->
                  is_Some (Heuristic.analyzeByNamePrefix Sample.fallbackItems !! bggId g)).
Proof.
  split.
  - intros H. apply (f_equal (fun m => m !! 822)) in H. vm_compute in H. discriminate.
  - intros H. specialize (H Sample.carcassonne (or_introl eq_refl)).
    destruct H as [links H]. vm_compute in H. discriminate.
Qed.

(** C2 (amended): on the three items of the example [analyzeByNamePrefix]
    returns the one-key mapping from the expansion to its base; for any
    input, every list it stores is a single link to a game of the input, so
    that no item is ever mapped to the empty list; the expected three-key
    mapping is what the coordinator's merge makes of the result, which
    writes the empty list for the identifiers the matcher left out. *)
Theorem C2_matcher_lists_expansions_only :
  Heuristic.analyzeByNamePrefix Sample.fallbackItems
  = {[ 4390 := [mkLink 822 "Carcassonne"] ]}
  /\ (forall games id links,
         Heuristic.analyzeByNamePrefix games !! id = Some links ->
         exists base, In base games /\ links = [mkLink (bggId base) (name base)])
  /\ Expansion.expansionCache
       (Expansion.mergeNameMatches
          (Heuristic.analyzeByNamePrefix Sample.fallbackItems)
          (map bggId Sample.fallbackItems)
          (Expansion.initial Sample.noDisk))
     = Sample.fallbackExpected.
Proof.
  split; [vm_compute; reflexivity | split].
  - intros games id links H.
    apply (analyzeByNamePrefix_linksOf (fun g => In g games)) in H.
    + exact H.
    + apply List.Forall_forall. intros g Hg. exact Hg.
  - vm_compute. reflexivity.
Qed.

(** The link stored for the expansion of the example. *)
Lemma C2_witness :
  exists base, In base Sample.fallbackItems
               /\ [mkLink 822 "Carcassonne"] = [mkLink (bggId base) (name base)].
Proof.
  apply (proj1 (proj2 C2_matcher_lists_expansions_only) Sample.fallbackItems 4390
                [mkLink 822 "Carcassonne"]).
  vm_compute. reflexivity.
Defined.

(** ** C9: the status snapshot *)

(** C9, as stated, fails for the dimension dataset: its status has no
    [method] field. *)
Lemma C9_counterexample :
  ~ In "method" (map fst (Dimension.getFetchStatus (Dimension.initial Sample.noDisk))).
Proof. vm_compute. intuition discriminate. Qed.

(** C9 (amended): a status read of the expansion dataset returns the five
    fields [inProgress], [fetched], [total], [cached] and [method], a status
    read of the dimension dataset the four fields [inProgress], [fetched],
    [total] and [cached] (there is no [method]); each value is read from the
    coordinator's current state, [cached] being the number of keys of the
    cache. *)
Theorem C9_status_fields :
  (forall st : Expansion.State,
      Expansion.getFetchStatus st
      = [("inProgress", JBool (Expansion.fetchInProgress st));
         ("fetched", JNum (Expansion.fetchedCount st));
         ("total", JNum (Expansion.totalToFetch st));
         ("cached", JNum (Z.of_nat (size (Expansion.expansionCache st))));
         ("method", JStr (Expansion.methodName (Expansion.usedMethod st)))])
  /\ (forall st : Dimension.State,
         Dimension.getFetchStatus st
         = [("inProgress", JBool (Dimension.fetchInProgress st));
            ("fetched", JNum (Dimension.fetchedCount st));
            ("total", JNum (Dimension.totalToFetch st));
            ("cached", JNum (Z.of_nat (size (Dimension.dimensionCache st))))]).
Proof. split; intros st; reflexivity. Qed.

(** ** C5: what a flush does to the disk *)

(** C5 (the code at any store): a flush creates the data directory when it
    is missing and then writes the serialized store straight to the cache
    file with one [writeFileSync]; it writes no temporary file and renames
    nothing. *)
Theorem C5_flush_writes_in_place :
  (forall JSON_stringify (st : Expansion.State),
      Fs.log (Expansion.fs (Expansion.saveCache JSON_stringify st))
      = Fs.log (Expansion.fs st)
        ++ (if Fs.dataDir (Expansion.fs st) then [] else [Fs.MkdirSync Expansion.DATA_DIR])
        ++ [Fs.WriteFileSync Expansion.CACHE_PATH
              (JSON_stringify (Expansion.expansionCache st))])
  /\ (forall JSON_stringify (st : Dimension.State),
         Fs.log (Dimension.fs (Dimension.saveCache JSON_stringify st))
         = Fs.log (Dimension.fs st)
           ++ (if Fs.dataDir (Dimension.fs st) then [] else [Fs.MkdirSync Dimension.DATA_DIR])
           ++ [Fs.WriteFileSync Dimension.CACHE_PATH
                 (JSON_stringify (Dimension.dimensionCache st))]).
Proof.
  split; intros JSON_stringify st; destruct st as [? ? ? ? ? ? ?] || destruct st;
    simpl; unfold Fs.ensureDir;
    match goal with |- context [Fs.dataDir ?f] => destruct f as [[] ? ?] end;
    simpl; rewrite <- ?app_assoc; reflexivity.
Qed.

(** ** C4: the retry ladder of the catalog client *)

Section ClientFacts.
Context {R : Type} (parse : string -> R) (empty : R).

Lemma onResponse_202 attempt body :
  (attempt < 3)%nat ->
  Client.onResponse parse empty attempt 202 body
  = Client.Sleep (nth attempt Client.backoff 0).
Proof.
  intros H. unfold Client.onResponse. simpl.
  destruct (Nat.ltb_spec attempt 3); [reflexivity | lia].
Qed.

Lemma onResponse_other attempt status body :
  status <> 200 -> status <> 401 -> status <> 202 ->
  Client.onResponse parse empty attempt status body = Client.Return (Some empty).
Proof.
  intros H1 H2 H3. unfold Client.onResponse.
  destruct (Z.eqb_spec status 200); [contradiction|].
  destruct (Z.eqb_spec status 401); [contradiction|].
  destruct (Z.eqb_spec status 202); [contradiction|]. reflexivity.
Qed.

Lemma onResponse_sleep attempt status body ms :
  Client.onResponse parse empty attempt status body = Client.Sleep ms ->
  status = 202 /\ (attempt < 3)%nat /\ ms = nth attempt Client.backoff 0.
Proof.
  unfold Client.onResponse.
  destruct (status =? 200); [discriminate|].
  destruct (status =? 401); [discriminate|].
  destruct (Z.eqb_spec status 202) as [->|]; [|discriminate].
  destruct (attempt <? length Client.backoff)%nat eqn:Hlt; [|discriminate].
  apply Nat.ltb_lt in Hlt. simpl in Hlt. intros [= <-]. auto.
Qed.

(** The delays slept through from attempt [a] on are the next rungs of
    the ladder. *)
Lemma attempts_delays net n a :
  exists k, (k = 0 \/ a + k <= 3)%nat
            /\ snd (Client.attempts parse empty net n a)
               = take k (drop a Client.backoff).
Proof.
  revert a. induction n as [|n IH]; intros a; simpl.
  - exists 0%nat. split; [left; reflexivity | reflexivity].
  - destruct (net a) as [status body|]; [|exists 0%nat; split; [left|]; reflexivity].
    destruct (Client.onResponse parse empty a status body) as [r|ms] eqn:Hr.
    + exists 0%nat. split; [left|]; reflexivity.
    + apply onResponse_sleep in Hr as (_ & Ha & ->).
      destruct (IH (S a)) as (k & Hk & Hd).
      destruct (Client.attempts parse empty net n (S a)) as [o ds]. simpl in *.
      exists (S k). split; [right; lia|]. subst ds.
      destruct a as [|[|[|a]]]; try lia; reflexivity.
Qed.

(** Attempts [a], [a+1], ... all answered 202: the ladder is climbed to
    its end and the call returns the empty result. *)
Lemma attempts_all_202 net n a :
  (n + a = 4)%nat ->
  (forall j, (a <= j <= 3)%nat -> exists body, net j = Response 202 body) ->
  Client.attempts parse empty net n a
  = (Client.Returned (Some empty), drop a Client.backoff).
Proof.
  revert a. induction n as [|n IH]; intros a Hn Hall; simpl.
  - assert (a = 4)%nat as -> by lia. reflexivity.
  - destruct (Hall a) as [body Hb]; [lia|]. rewrite Hb.
    destruct (Nat.eq_dec a 3%nat) as [->|Hne].
    + reflexivity.
    + rewrite onResponse_202 by lia.
      rewrite IH; [| lia | intros j Hj; apply Hall; lia].
      destruct a as [|[|[|a]]]; try lia; reflexivity.
Qed.

(** [k] retries answered 202, then a status which is none of 200, 401
    and 202: the empty result at once, after the first [k] delays. *)
Lemma attempts_then_other net n a k status body :
  (a + k < n + a)%nat -> (a + k <= 3)%nat ->
  (forall j, (a <= j < a + k)%nat -> exists b, net j = Response 202 b) ->
  net (a + k)%nat = Response status body ->
  status <> 200 -> status <> 401 -> status <> 202 ->
  Client.attempts parse empty net n a
  = (Client.Returned (Some empty), take k (drop a Client.backoff)).
Proof.
  revert n a. induction k as [|k IH]; intros n a Hn Ha Hall Hk H1 H2 H3.
  - destruct n as [|n]; [lia|]. simpl. rewrite Nat.add_0_r in Hk. rewrite Hk.
    rewrite onResponse_other by assumption. rewrite take_0. reflexivity.
  - destruct n as [|n]; [lia|]. simpl.
    destruct (Hall a) as [b Hb]; [lia|]. rewrite Hb.
    rewrite onResponse_202 by lia.
    rewrite (IH n (S a)); try assumption; try lia.
    + destruct a as [|[|[|a]]]; try lia; reflexivity.
    + intros j Hj. apply Hall. lia.
    + rewrite <- Hk. f_equal. lia.
Qed.
End ClientFacts.

(** C4: whatever the batch and the answers of the service, the delays a
    call of the client sleeps through are the first [k] rungs of the ladder
    2 s, 4 s, 8 s for some [k <= 3] (one per retry); when all four attempts
    are answered 202 the call returns the empty result after the three
    delays; and when, after [k <= 3] retries, the answer has a status which
    is none of 200, 401 and 202, the call returns the empty result at once,
    with no further delay.  So for both clients. *)
Theorem C4_retry_ladder :
  forall (ids : list Z) (net : nat -> FetchResult),
    (exists k, (k <= 3)%nat
               /\ snd (Expansion.fetchBatchExpansions ids net) = take k [2000; 4000; 8000])
    /\ ((forall j, (j <= 3)%nat -> exists body, net j = Response 202 body) ->
        Expansion.fetchBatchExpansions ids net
        = (Client.Returned (Some ∅), [2000; 4000; 8000]))
    /\ (forall k status body,
           (k <= 3)%nat ->
           (forall j, (j < k)%nat -> exists b, net j = Response 202 b) ->
           net k = Response status body ->
           status <> 200 -> status <> 401 -> status <> 202 ->
           Expansion.fetchBatchExpansions ids net
           = (Client.Returned (Some ∅), take k [2000; 4000; 8000]))
    /\ (exists k, (k <= 3)%nat
                  /\ snd (Dimension.fetchBatchDimensions ids net) = take k [2000; 4000; 8000])
    /\ ((forall j, (j <= 3)%nat -> exists body, net j = Response 202 body) ->
        Dimension.fetchBatchDimensions ids net
        = (Client.Returned (Some ∅), [2000; 4000; 8000]))
    /\ (forall k status body,
           (k <= 3)%nat ->
           (forall j, (j < k)%nat -> exists b, net j = Response 202 b) ->
           net k = Response status body ->
           status <> 200 -> status <> 401 -> status <> 202 ->
           Dimension.fetchBatchDimensions ids net
           = (Client.Returned (Some ∅), take k [2000; 4000; 8000])).
Proof.
  intros ids net.
  unfold Expansion.fetchBatchExpansions, Dimension.fetchBatchDimensions, Client.fetchBatch.
  repeat split.
  - destruct (attempts_delays Expansion.parseExpansionXml ∅ net 4 0) as (k & Hk & Hd).
    exists k. split; [lia | exact Hd].
  - intros Hall. apply (attempts_all_202 Expansion.parseExpansionXml ∅ net 4 0); [reflexivity|].
    intros j Hj. apply Hall. lia.
  - intros k status body Hk Hall Hnet H1 H2 H3.
    apply (attempts_then_other Expansion.parseExpansionXml ∅ net 4 0 k status body);
      try assumption; try (simpl; lia).
    intros j Hj. apply Hall. lia.
  - destruct (attempts_delays Dimension.parseDimensionsXml ∅ net 4 0) as (k & Hk & Hd).
    exists k. split; [lia | exact Hd].
  - intros Hall. apply (attempts_all_202 Dimension.parseDimensionsXml ∅ net 4 0); [reflexivity|].
    intros j Hj. apply Hall. lia.
  - intros k status body Hk Hall Hnet H1 H2 H3.
    apply (attempts_then_other Dimension.parseDimensionsXml ∅ net 4 0 k status body);
      try assumption; try (simpl; lia).
    intros j Hj. apply Hall. lia.
Qed.

(** A service which always answers 202, and one which always answers 500. *)
Lemma C4_witness :
  Expansion.fetchBatchExpansions [13; 822] Sample.alwaysBusy
  = (Client.Returned (Some ∅), [2000; 4000; 8000])
  /\ Dimension.fetchBatchDimensions [13; 822] Sample.alwaysBroken
     = (Client.Returned (Some ∅), []).
Proof.
  split.
  - apply (proj1 (proj2 (C4_retry_ladder [13; 822] Sample.alwaysBusy))).
    intros j _. exists "". reflexivity.
  - apply (proj2 (proj2 (proj2 (proj2 (proj2 (C4_retry_ladder [13; 822] Sample.alwaysBroken)))))
             0%nat 500 ""); try lia; try reflexivity.
Defined.

(** ** C8: single flight *)

Section ExpansionFlight.
Import Expansion.
Variable JSON_stringify : gmap Z (list ExpansionLink) -> string.
Variable JSON_parse : string -> option (gmap Z (list ExpansionLink)).

Lemma loadCache_flight st :
  fetchInProgress (loadCache JSON_parse st) = fetchInProgress st
  /\ runs (loadCache JSON_parse st) = runs st.
Proof.
  unfold loadCache. destruct (Fs.cacheFile (fs st)); [|auto].
  destruct (JSON_parse s); auto.
Qed.

Lemma finish_flight st r :
  runs st = [r] -> singleFlight (finish JSON_stringify 0 st).
Proof. intros H. unfold singleFlight. simpl. rewrite H. reflexivity. Qed.

Lemma updateRun_flight st r r' :
  fetchInProgress st = true -> runs st = [r] -> singleFlight (updateRun 0 r' st).
Proof.
  intros Hp Hr. unfold singleFlight. simpl. rewrite Hp, Hr. eexists. reflexivity.
Qed.

Lemma loopHead_flight st r r' i :
  fetchInProgress st = true -> runs st = [r] ->
  singleFlight (loopHead JSON_stringify 0 r' i st).
Proof.
  intros Hp Hr. unfold loopHead. destruct (i <? length (remaining r'))%nat.
  - eapply updateRun_flight; simpl; eassumption.
  - eapply finish_flight; eassumption.
Qed.

Lemma onBatch_flight st r r' res :
  fetchInProgress st = true -> runs st = [r] ->
  singleFlight (onBatch JSON_stringify 0 r' res st).
Proof.
  intros Hp Hr. unfold onBatch.
  destruct (run_phase r') as [|i], res as [links|].
  - eapply loopHead_flight; simpl; eassumption.
  - destruct (run_games r') as [[|g gs]|];
      (eapply finish_flight; simpl; eassumption).
  - destruct (i + BATCH_SIZE <? length (remaining r'))%nat.
    + eapply updateRun_flight; simpl; eassumption.
    + eapply loopHead_flight; simpl; eassumption.
  - eapply finish_flight; eassumption.
Qed.

Lemma resume_flight st n ev st' :
  singleFlight st -> resume JSON_stringify n ev st = Some st' -> singleFlight st'.
Proof.
  unfold singleFlight at 1, resume. intros Hinv.
  destruct (fetchInProgress st) eqn:Hp.
  - destruct Hinv as [r Hr]. rewrite Hr.
    destruct n as [|n]; simpl; [|discriminate].
    destruct (run_await r) as [attempt|attempt|], ev as [[status body|]|];
      try discriminate.
    + destruct (Client.onResponse parseExpansionXml ∅ attempt status body);
        intros [= <-].
      * eapply onBatch_flight; eassumption.
      * eapply updateRun_flight; simpl; eassumption.
    + intros [= <-]. eapply finish_flight; eassumption.
    + match goal with |- (if ?c then _ else _) = _ -> _ => destruct c end; intros [= <-].
      * eapply updateRun_flight; simpl; eassumption.
      * eapply onBatch_flight; eassumption.
    + destruct (run_phase r); [discriminate|]. intros [= <-].
      eapply loopHead_flight; eassumption.
  - rewrite Hinv. rewrite lookup_nil. discriminate.
Qed.

Lemma start_busy bggIds games st :
  fetchInProgress st = true ->
  startBackgroundFetch JSON_parse bggIds games st = st.
Proof. intros H. unfold startBackgroundFetch. rewrite H. reflexivity. Qed.

Lemma start_flight bggIds games st :
  singleFlight st -> singleFlight (startBackgroundFetch JSON_parse bggIds games st).
Proof.
  intros Hinv. unfold startBackgroundFetch.
  destruct (fetchInProgress st) eqn:Hp; [assumption|].
  unfold singleFlight in Hinv. rewrite Hp in Hinv.
  destruct (loadCache_flight st) as [Hp' Hr'].
  match goal with |- context [(length ?l =? 0)%nat] => destruct (length l =? 0)%nat end.
  - unfold singleFlight. rewrite Hp', Hp, Hr'. assumption.
  - unfold singleFlight. simpl. rewrite Hr', Hinv. eexists. reflexivity.
Qed.

Lemma getCached_flight st :
  singleFlight st -> singleFlight (fst (getCachedExpansions JSON_parse st)).
Proof.
  intros Hinv. unfold getCachedExpansions. simpl.
  destruct (size (expansionCache st) =? 0)%nat; [|assumption].
  destruct (loadCache_flight st) as [Hp Hr].
  unfold singleFlight in *. rewrite Hp, Hr. assumption.
Qed.

Lemma reachable_flight st :
  reachable JSON_stringify JSON_parse st -> singleFlight st.
Proof.
  induction 1 as [disk | st inp st' _ IH Hstep].
  - reflexivity.
  - destruct inp as [bggIds games | | n ev]; simpl in Hstep.
    + injection Hstep as <-. apply start_flight; assumption.
    + injection Hstep as <-. apply getCached_flight; assumption.
    + eapply resume_flight; eassumption.
Qed.
End ExpansionFlight.

Section DimensionFlight.
Import Dimension.
Variable JSON_stringify : gmap Z BoxDimensions -> string.
Variable JSON_parse : string -> option (gmap Z BoxDimensions).

Lemma dim_loadCache_flight st :
  fetchInProgress (loadCache JSON_parse st) = fetchInProgress st
  /\ runs (loadCache JSON_parse st) = runs st.
Proof.
  unfold loadCache. destruct (Fs.cacheFile (fs st)); [|auto].
  destruct (JSON_parse s); auto.
Qed.

Lemma dim_finish_flight st r :
  runs st = [r] -> singleFlight (finish JSON_stringify 0 st).
Proof. intros H. unfold singleFlight. simpl. rewrite H. reflexivity. Qed.

Lemma dim_updateRun_flight st r r' :
  fetchInProgress st = true -> runs st = [r] -> singleFlight (updateRun 0 r' st).
Proof.
  intros Hp Hr. unfold singleFlight. simpl. rewrite Hp, Hr. eexists. reflexivity.
Qed.

Lemma dim_loopHead_flight st r needed i :
  fetchInProgress st = true -> runs st = [r] ->
  singleFlight (loopHead JSON_stringify 0 needed i st).
Proof.
  intros Hp Hr. unfold loopHead. destruct (i <? length needed)%nat.
  - eapply dim_updateRun_flight; simpl; eassumption.
  - eapply dim_finish_flight; eassumption.
Qed.

Lemma dim_onBatch_flight st r r' res :
  fetchInProgress st = true -> runs st = [r] ->
  singleFlight (onBatch JSON_stringify 0 r' res st).
Proof.
  intros Hp Hr. unfold onBatch. destruct res as [dims|].
  - destruct (run_i r' + BATCH_SIZE <? length (run_needed r'))%nat.
    + eapply dim_updateRun_flight; simpl; eassumption.
    + eapply dim_loopHead_flight; simpl; eassumption.
  - eapply dim_finish_flight; eassumption.
Qed.

Lemma dim_resume_flight st n ev st' :
  singleFlight st -> resume JSON_stringify n ev st = Some st' -> singleFlight st'.
Proof.
  unfold singleFlight at 1, resume. intros Hinv.
  destruct (fetchInProgress st) eqn:Hp.
  - destruct Hinv as [r Hr]. rewrite Hr.
    destruct n as [|n]; simpl; [|discriminate].
    destruct (run_await r) as [attempt|attempt|], ev as [[status body|]|];
      try discriminate.
    + destruct (Client.onResponse parseDimensionsXml ∅ attempt status body) as [res|ms];
        intros [= <-].
      * exact (dim_onBatch_flight st r r res Hp Hr).
      * eapply dim_updateRun_flight; simpl; eassumption.
    + intros [= <-]. eapply dim_finish_flight; eassumption.
    + match goal with |- (if ?c then _ else _) = _ -> _ => destruct c end; intros [= <-].
      * eapply dim_updateRun_flight; simpl; eassumption.
      * exact (dim_onBatch_flight st r r (Some ∅) Hp Hr).
    + intros [= <-]. eapply dim_loopHead_flight; eassumption.
  - rewrite Hinv. rewrite lookup_nil. discriminate.
Qed.

Lemma dim_start_busy bggIds st :
  fetchInProgress st = true -> startBackgroundFetch JSON_parse bggIds st = st.
Proof. intros H. unfold startBackgroundFetch. rewrite H. reflexivity. Qed.

Lemma dim_start_flight bggIds st :
  singleFlight st -> singleFlight (startBackgroundFetch JSON_parse bggIds st).
Proof.
  intros Hinv. unfold startBackgroundFetch.
  destruct (fetchInProgress st) eqn:Hp; [assumption|].
  unfold singleFlight in Hinv. rewrite Hp in Hinv.
  destruct (dim_loadCache_flight st) as [Hp' Hr'].
  match goal with |- context [(length ?l =? 0)%nat] => destruct (length l =? 0)%nat end.
  - unfold singleFlight. rewrite Hp', Hp, Hr'. assumption.
  - unfold singleFlight. simpl. rewrite Hr', Hinv. eexists. reflexivity.
Qed.

Lemma dim_getCached_flight st :
  singleFlight st -> singleFlight (fst (getCachedDimensions JSON_parse st)).
Proof.
  intros Hinv. unfold getCachedDimensions. simpl.
  destruct (size (dimensionCache st) =? 0)%nat; [|assumption].
  destruct (dim_loadCache_flight st) as [Hp Hr].
  unfold singleFlight in *. rewrite Hp, Hr. assumption.
Qed.

Lemma dim_reachable_flight st :
  reachable JSON_stringify JSON_parse st -> singleFlight st.
Proof.
  induction 1 as [disk | st inp st' _ IH Hstep].
  - reflexivity.
  - destruct inp as [bggIds | | n ev]; simpl in Hstep.
    + injection Hstep as <-. apply dim_start_flight; assumption.
    + injection Hstep as <-. apply dim_getCached_flight; assumption.
    + eapply dim_resume_flight; eassumption.
Qed.
End DimensionFlight.

(** C8: for the expansion dataset and for the dimension dataset, a start
    request made while the in-progress flag is up returns the state as it
    was: no run is added and [total], [fetched], the cache and the disk are
    untouched; and in every state the module can reach, whatever the order
    of start requests, cache reads and wake-ups of suspended runs, at most
    one run is active, the flag being up exactly when there is one. *)
Theorem C8_single_flight :
  (forall JSON_parse bggIds games (st : Expansion.State),
      Expansion.fetchInProgress st = true ->
      Expansion.startBackgroundFetch JSON_parse bggIds games st = st)
  /\ (forall JSON_stringify JSON_parse (st : Expansion.State),
         Expansion.reachable JSON_stringify JSON_parse st ->
         (length (Expansion.runs st) <= 1)%nat
         /\ (Expansion.fetchInProgress st = true <-> Expansion.runs st <> []))
  /\ (forall JSON_parse bggIds (st : Dimension.State),
         Dimension.fetchInProgress st = true ->
         Dimension.startBackgroundFetch JSON_parse bggIds st = st)
  /\ (forall JSON_stringify JSON_parse (st : Dimension.State),
         Dimension.reachable JSON_stringify JSON_parse st ->
         (length (Dimension.runs st) <= 1)%nat
         /\ (Dimension.fetchInProgress st = true <-> Dimension.runs st <> [])).
Proof.
  split; [|split; [|split]].
  - intros. apply start_busy; assumption.
  - intros JS JP st Hreach. apply reachable_flight in Hreach.
    unfold Expansion.singleFlight in Hreach.
    destruct (Expansion.fetchInProgress st).
    + destruct Hreach as [r ->]. simpl. split; [lia|]. split; [discriminate | reflexivity].
    + rewrite Hreach. simpl. split; [lia|]. split; [discriminate | congruence].
  - intros. apply dim_start_busy; assumption.
  - intros JS JP st Hreach. apply dim_reachable_flight in Hreach.
    unfold Dimension.singleFlight in Hreach.
    destruct (Dimension.fetchInProgress st).
    + destruct Hreach as [r ->]. simpl. split; [lia|]. split; [discriminate | reflexivity].
    + rewrite Hreach. simpl. split; [lia|]. split; [discriminate | congruence].
Qed.

(** ** Runs of the expansion coordinator whose trial batch is refused *)

Section ExpansionRuns.
Import Expansion.
Variable JSON_stringify : gmap Z (list ExpansionLink) -> string.
Variable JSON_parse : string -> option (gmap Z (list ExpansionLink)).

Lemma deliver_app evs1 evs2 st :
  deliver JSON_stringify (evs1 ++ evs2) st
  = match deliver JSON_stringify evs1 st with
    | Some st' => deliver JSON_stringify evs2 st'
    | None => None
    end.
Proof.
  revert st. induction evs1 as [|ev r IH]; intros st; simpl; [reflexivity|].
  destruct (resume JSON_stringify 0 ev st); [apply IH | reflexivity].
Qed.

(** Retries change nothing but the attempt the run waits for and the
    log of requests and timers. *)
Lemma deliver_retries bodies :
  forall c p f t m disk ids games needed ph a eff,
    (a + length bodies <= 3)%nat ->
    exists eff',
      deliver JSON_stringify (retries bodies)
        (mkState c p f t m disk [mkRun ids games needed ph (AwaitFetch a)] eff)
      = Some (mkState c p f t m disk
                [mkRun ids games needed ph (AwaitFetch (a + length bodies))] eff').
Proof.
  induction bodies as [|b r IH]; intros c p f t m disk ids games needed ph a eff Ha.
  - exists eff. simpl. rewrite Nat.add_0_r. reflexivity.
  - simpl in Ha.
    destruct (IH c p f t m disk ids games needed ph (S a)
                 ((eff ++ [Delay (nth a Client.backoff 0)])
                    ++ [Fetch (currentBatch (mkRun ids games needed ph (AwaitBackoff a)))]))
      as [eff' Heff]; [lia|].
    exists eff'. cbn [retries flat_map app deliver].
    unfold resume at 1. cbn [runs lookup list_lookup run_await].
    rewrite onResponse_202 by lia.
    unfold resume at 1. cbn [updateRun emit setRuns runs lookup list_lookup run_await
                             insert list_insert].
    destruct (Nat.leb_spec (S a) (length Client.backoff)) as [_|Hgt];
      [|simpl in Hgt; lia].
    unfold updateRun, emit, setRuns. simpl.
    replace (a + S (length r))%nat with (S a + length r)%nat by lia.
    exact Heff.
Qed.

Lemma resume_401 c p f t m disk r eff a body :
  run_await r = AwaitFetch a ->
  resume JSON_stringify 0 (EvFetch (Response 401 body)) (mkState c p f t m disk [r] eff)
  = Some (onBatch JSON_stringify 0 r None (mkState c p f t m disk [r] eff)).
Proof.
  intros Ha. unfold resume. cbn [runs lookup list_lookup]. rewrite Ha. reflexivity.
Qed.

(** The state a start request leaves when it starts a run. *)
Lemma start_idle bggIds games st :
  fetchInProgress st = false -> runs st = [] ->
  neededOf (expansionCache (loadCache JSON_parse st)) bggIds <> [] ->
  startBackgroundFetch JSON_parse bggIds games st
  = let st1 := loadCache JSON_parse st in
    let needed := neededOf (expansionCache st1) bggIds in
    mkState (expansionCache st1) true 0 (Z.of_nat (length needed)) (usedMethod st)
            (fs st) [mkRun bggIds games needed Trial (AwaitFetch 0)]
            (effects st ++ [Fetch (testBatch needed)]).
Proof.
  intros Hp Hr Hneeded. unfold startBackgroundFetch. rewrite Hp.
  fold (neededOf (expansionCache (loadCache JSON_parse st)) bggIds).
  destruct (neededOf (expansionCache (loadCache JSON_parse st)) bggIds) as [|x l] eqn:Hn;
    [contradiction|].
  cbn [length Nat.eqb].
  assert (Hl : usedMethod (loadCache JSON_parse st) = usedMethod st
               /\ fs (loadCache JSON_parse st) = fs st
               /\ runs (loadCache JSON_parse st) = runs st
               /\ effects (loadCache JSON_parse st) = effects st).
  { unfold loadCache. destruct (Fs.cacheFile (fs st)); [|auto].
    destruct (JSON_parse s); auto. }
  destruct Hl as (Hm & Hf & Hr' & He).
  unfold setRuns, emit, setTotal, setFetched, setInProgress. simpl.
  rewrite Hm, Hf, Hr', He, Hr. reflexivity.
Qed.

Lemma mergeNameMatches_keys (nameMatches c : gmap Z (list ExpansionLink))
    (bggIds : list Z) (id : Z) :
  In id bggIds \/ is_Some (c !! id) ->
  is_Some (fold_left (fun c id => <[id := default [] (nameMatches !! id)]> c)
                     bggIds c !! id).
Proof.
  revert c. induction bggIds as [|x r IH]; intros c H; simpl.
  - destruct H as [[]|H]; exact H.
  - apply IH. destruct (decide (x = id)) as [->|Hne].
    + right. rewrite lookup_insert_eq. eexists. reflexivity.
    + destruct H as [[H|H]|H]; [contradiction | left; exact H |].
      right. rewrite lookup_insert_ne by assumption. exact H.
Qed.
End ExpansionRuns.

(** C1: let a start request with a non-empty item list reach the idle
    expansion coordinator and start a run (some requested identifier is not
    cached), and let the trial batch be refused (401, after at most three
    answers 202).  Then the run ends: no run is left and the flag is down;
    the cache is the loaded one in which every requested identifier, in one
    pass, received the matcher's links or the empty list; every requested
    identifier is a key of it; the method is name-match; the cache file
    holds the serialized cache; and [fetched] equals [total]. *)
Theorem C1_unauthorized_trial_falls_back :
  forall JSON_stringify JSON_parse (st : Expansion.State) bggIds g gs bodies body,
    Expansion.fetchInProgress st = false ->
    Expansion.runs st = [] ->
    Expansion.neededOf
      (Expansion.expansionCache (Expansion.loadCache JSON_parse st)) bggIds <> [] ->
    (length bodies <= 3)%nat ->
    exists st',
      Expansion.deliver JSON_stringify (Expansion.unauthorizedTrial bodies body)
        (Expansion.startBackgroundFetch JSON_parse bggIds (Some (g :: gs)) st)
      = Some st'
      /\ Expansion.runs st' = []
      /\ Expansion.fetchInProgress st' = false
      /\ Expansion.usedMethod st' = Expansion.NameMatch
      /\ Expansion.expansionCache st'
         = fold_left
             (fun c id =>
                <[id := default [] (Heuristic.analyzeByNamePrefix (g :: gs) !! id)]> c)
             bggIds (Expansion.expansionCache (Expansion.loadCache JSON_parse st))
      /\ (forall id, In id bggIds -> is_Some (Expansion.expansionCache st' !! id))
      /\ Fs.cacheFile (Expansion.fs st')
         = Some (JSON_stringify (Expansion.expansionCache st'))
      /\ Expansion.fetchedCount st' = Expansion.totalToFetch st'.
Proof.
  intros JS JP st bggIds g gs bodies body Hp Hr Hneeded Hlen.
  rewrite (start_idle JP bggIds (Some (g :: gs)) st Hp Hr Hneeded). cbv zeta.
  unfold Expansion.unauthorizedTrial. rewrite deliver_app.
  match goal with
  | |- context [Expansion.mkState ?c ?p ?f ?t ?m ?d [Expansion.mkRun ?i ?ga ?n ?ph _] ?e] =>
      destruct (deliver_retries JS bodies c p f t m d i ga n ph 0%nat e Hlen) as [eff' ->]
  end.
  cbn [Expansion.deliver]. rewrite resume_401 with (a := (0 + length bodies)%nat) by reflexivity.
  eexists. split; [reflexivity|].
  cbn. repeat split.
  intros id Hid. apply mergeNameMatches_keys. left. exact Hid.
Qed.

(** C10: let a start request without an item list (or with an empty one)
    reach the idle expansion coordinator through the [POST] handler and
    start a run, and let the trial batch be refused (401, after at most
    three answers 202).  Then the run ends with the method it had before the
    request (['none'] in a process which has not synchronised yet) and with
    the cache as it was loaded, no entry added, yet with [fetched] set to
    [total]: the status read afterwards shows a run not in progress whose
    [fetched] equals its [total], the number of identifiers which were
    needed. *)
Theorem C10_no_items_no_coverage :
  forall JSON_stringify JSON_parse (st : Expansion.State) id ids games bodies body,
    Expansion.fetchInProgress st = false ->
    Expansion.runs st = [] ->
    games = None \/ games = Some [] ->
    Expansion.neededOf
      (Expansion.expansionCache (Expansion.loadCache JSON_parse st)) (id :: ids) <> [] ->
    (length bodies <= 3)%nat ->
    exists st',
      Expansion.deliver JSON_stringify (Expansion.unauthorizedTrial bodies body)
        (fst (Expansion.POST JSON_parse (Some (id :: ids)) games st))
      = Some st'
      /\ Expansion.runs st' = []
      /\ Expansion.usedMethod st' = Expansion.usedMethod st
      /\ Expansion.expansionCache st'
         = Expansion.expansionCache (Expansion.loadCache JSON_parse st)
      /\ Expansion.getFetchStatus st'
         = let total :=
             Z.of_nat (length (Expansion.neededOf
                                 (Expansion.expansionCache
                                    (Expansion.loadCache JSON_parse st)) (id :: ids))) in
           [("inProgress", JBool false);
            ("fetched", JNum total);
            ("total", JNum total);
            ("cached", JNum (Z.of_nat (size (Expansion.expansionCache
                                               (Expansion.loadCache JSON_parse st)))));
            ("method", JStr (Expansion.methodName (Expansion.usedMethod st)))].
Proof.
  intros JS JP st id ids games bodies body Hp Hr Hgames Hneeded Hlen.
  unfold Expansion.POST. cbn [fst].
  rewrite (start_idle JP (id :: ids) games st Hp Hr Hneeded). cbv zeta.
  unfold Expansion.unauthorizedTrial. rewrite deliver_app.
  match goal with
  | |- context [Expansion.mkState ?c ?p ?f ?t ?m ?d [Expansion.mkRun ?i ?ga ?n ?ph _] ?e] =>
      destruct (deliver_retries JS bodies c p f t m d i ga n ph 0%nat e Hlen) as [eff' ->]
  end.
  cbn [Expansion.deliver]. rewrite resume_401 with (a := (0 + length bodies)%nat) by reflexivity.
  eexists. split; [reflexivity|].
  destruct Hgames as [-> | ->]; cbn; repeat split.
Qed.

(** ** C7: flush, then load *)


(** ** C3: the default ordering *)

Lemma Sorted_weaken {A : Type} (R R' : A -> A -> Prop) (l : list A) :
  (forall a b, R a b -> R' a b) -> Sorted R l -> Sorted R' l.
Proof.
  intros Himp. induction 1 as [|x l Hs IH Hhd]; constructor; [assumption|].
  destruct Hhd; constructor. apply Himp. assumption.
Qed.

Lemma NoDup_map_filter {A B : Type} (f : A -> B) (P : A -> bool) (l : list A) :
  List.NoDup (map f l) -> List.NoDup (map f (List.filter P l)).
Proof.
  induction l as [|x r IH]; simpl; intros Hnd; [constructor|].
  apply List.NoDup_cons_iff in Hnd as [Hx Hr].
  destruct (P x); simpl; [|apply IH; assumption].
  apply List.NoDup_cons_iff. split; [|apply IH; assumption].
  intros Hin. apply Hx.
  apply in_map_iff in Hin as (y & Hy & Hin). apply in_map_iff.
  exists y. split; [assumption|]. apply filter_In in Hin. apply Hin.
Qed.

Lemma NoDup_map_inj_In {A B : Type} (f : A -> B) (l : list A) (a b : A) :
  List.NoDup (map f l) -> In a l -> In b l -> f a = f b -> a = b.
Proof.
  induction l as [|x r IH]; simpl; intros Hnd Ha Hb Hf; [contradiction|].
  apply List.NoDup_cons_iff in Hnd as [Hx Hr].
  destruct Ha as [<-|Ha], Hb as [<-|Hb].
  - reflexivity.
  - exfalso. apply Hx. apply in_map_iff. exists b. auto.
  - exfalso. apply Hx. apply in_map_iff. exists a. auto.
  - apply IH; assumption.
Qed.

Section QueueFacts.
Import Queue.
Variable localeCompare : string -> string -> Z.
Variable games : list Game.
Variable decisions : list Decision.
Variable expansionOf : gmap Z (list ExpansionLink).
Variable threeYearsAgo oneYearAgo : Z.

Lemma has_idSet_In (l : list Game) (id : Z) :
  has (idSet l) id = true <-> exists g, In g l /\ bggId g = id.
Proof.
  unfold has, idSet. rewrite bool_decide_eq_true, elem_of_list_to_set.
  rewrite list_elem_of_In, in_map_iff. split; intros (g & H1 & H2); exists g; auto.
Qed.

(** With distinct identifiers, membership of an identifier in the set
    made of the items of [l] which pass [P] is [P] itself. *)
Lemma has_idSet_filter (l l' : list Game) (P : Game -> bool) (g : Game) :
  List.NoDup (map bggId l) ->
  (forall x, In x l' <-> In x (List.filter P l)) ->
  In g l ->
  has (idSet l') (bggId g) = P g.
Proof.
  intros Hnd Hl' Hg.
  destruct (P g) eqn:HP.
  - apply has_idSet_In. exists g. split; [|reflexivity].
    apply Hl', filter_In. auto.
  - destruct (has (idSet l') (bggId g)) eqn:Hh; [|reflexivity].
    apply has_idSet_In in Hh as (g' & Hg' & Hid).
    apply Hl', filter_In in Hg' as [Hin HP'].
    assert (g' = g) as -> by (eapply NoDup_map_inj_In; eassumption).
    congruence.
Qed.

Lemma filter_ext_In (l : list Game) (P Q : Game -> bool) :
  (forall g, In g l -> P g = Q g) -> List.filter P l = List.filter Q l.
Proof.
  induction l as [|x r IH]; simpl; intros H; [reflexivity|].
  rewrite (H x) by auto. rewrite IH by auto. reflexivity.
Qed.

(** With distinct identifiers the source and the wording agree. *)
Lemma buildDefaultQueue_tiers (undecided : list Game) :
  List.NoDup (map bggId undecided) ->
  buildDefaultQueue localeCompare games expansionOf threeYearsAgo oneYearAgo undecided
  = Js.Array_sort byDateAdded
      (tier1 games expansionOf oneYearAgo undecided)
    ++ Js.Array_sort byRating
         (tier2 games expansionOf threeYearsAgo oneYearAgo undecided)
    ++ Js.Array_sort byLastPlayed
         (tier3 games expansionOf threeYearsAgo oneYearAgo undecided)
    ++ Js.Array_sort (byName localeCompare)
         (deferred games expansionOf oneYearAgo undecided).
Proof.
  intros Hnd. unfold buildDefaultQueue.
  (* the grace period *)
  assert (Hel : List.filter
                  (fun g => negb (has (idSet (List.filter
                     (fun g => match dateAdded g with
                               | None => false
                               | Some t => oneYearAgo <=? t
                               end) undecided)) (bggId g))) undecided
                = pastGrace oneYearAgo undecided).
  { apply filter_ext_In. intros g Hg. f_equal.
    apply (has_idSet_filter undecided); [assumption | reflexivity | assumption]. }
  rewrite Hel.
  assert (Hnd1 : List.NoDup (map bggId (pastGrace oneYearAgo undecided)))
    by (apply NoDup_map_filter; assumption).
  (* the expansions set apart *)
  assert (Hst : List.filter
                  (fun g => negb (has (idSet (Js.Array_sort (byName localeCompare)
                     (List.filter (isExpansionInCollection games expansionOf)
                                  (pastGrace oneYearAgo undecided)))) (bggId g)))
                  (pastGrace oneYearAgo undecided)
                = standaloneOf games expansionOf oneYearAgo undecided).
  { apply filter_ext_In. intros g Hg. f_equal.
    apply (has_idSet_filter (pastGrace oneYearAgo undecided));
      [assumption | intros x; apply Array_sort_In | assumption]. }
  rewrite Hst.
  assert (Hnd2 : List.NoDup (map bggId (standaloneOf games expansionOf oneYearAgo undecided)))
    by (apply NoDup_map_filter; assumption).
  set (standalone := standaloneOf games expansionOf oneYearAgo undecided) in *.
  assert (Hnp : forall g, In g standalone ->
                  has (idSet (Js.Array_sort byDateAdded
                         (List.filter (fun g => playCount g =? 0) standalone)))
                      (bggId g) = isNeverPlayed g).
  { intros g Hg. apply (has_idSet_filter standalone);
      [assumption | intros x; apply Array_sort_In | assumption]. }
  assert (H2 : List.filter
                 (fun g =>
                    if has (idSet (Js.Array_sort byDateAdded
                              (List.filter (fun g => playCount g =? 0) standalone)))
                           (bggId g)
                    then false
                    else if playCount g =? 0 then false
                         else match lastPlayed g with
                              | None => true
                              | Some t => t <? threeYearsAgo
                              end) standalone
               = List.filter (isStale threeYearsAgo) standalone).
  { apply filter_ext_In. intros g Hg. rewrite (Hnp g Hg).
    unfold isNeverPlayed, isStale. destruct (playCount g =? 0); reflexivity. }
  rewrite H2.
  assert (Hs : forall g, In g standalone ->
                 has (idSet (Js.Array_sort byRating
                        (List.filter (isStale threeYearsAgo) standalone)))
                     (bggId g) = isStale threeYearsAgo g).
  { intros g Hg. apply (has_idSet_filter standalone);
      [assumption | intros x; apply Array_sort_In | assumption]. }
  assert (H3 : List.filter
                 (fun g =>
                    (negb (has (idSet (Js.Array_sort byDateAdded
                                 (List.filter (fun g => playCount g =? 0) standalone)))
                               (bggId g))
                     && negb (has (idSet (Js.Array_sort byRating
                                    (List.filter (isStale threeYearsAgo) standalone)))
                                  (bggId g)))%bool) standalone
               = List.filter
                   (fun g => (negb (isNeverPlayed g)
                              && negb (isStale threeYearsAgo g))%bool) standalone).
  { apply filter_ext_In. intros g Hg. rewrite (Hnp g Hg), (Hs g Hg). reflexivity. }
  rewrite H3. reflexivity.
Qed.

Lemma byRating_total a b : byRating a b = false -> byRating b a = true.
Proof.
  unfold byRating, compareRatings. intros H.
  apply Qle_bool_iff. apply not_true_iff_false in H. rewrite Qle_bool_iff in H.
  apply Qnot_le_lt in H. 
  set (x := match userRating a with Some r => r | None => 0%Q end) in *.
  set (y := match userRating b with Some r => r | None => 0%Q end) in *.
  lra.
Qed.

Lemma byRating_le a b : byRating a b = true -> (ratingOf a <= ratingOf b)%Q.
Proof.
  unfold byRating, compareRatings, ratingOf. rewrite Qle_bool_iff. lra.
Qed.

(** No item of the last year is in the queue, whatever the identifiers. *)
Lemma buildDefaultQueue_grace (undecided : list Game) (g : Game) :
  In g undecided -> addedWithinLastYear oneYearAgo g = true ->
  ~ In g (buildDefaultQueue localeCompare games expansionOf threeYearsAgo
                            oneYearAgo undecided).
Proof.
  intros Hg Hrecent Hin. unfold buildDefaultQueue in Hin.
  assert (Hg' : has (idSet (List.filter
                              (fun g => match dateAdded g with
                                        | None => false
                                        | Some t => oneYearAgo <=? t
                                        end) undecided)) (bggId g) = true).
  { apply has_idSet_In. exists g. split; [|reflexivity]. apply filter_In. auto. }
  remember (List.filter
              (fun g => negb (has (idSet (List.filter
                 (fun g => match dateAdded g with
                           | None => false
                           | Some t => oneYearAgo <=? t
                           end) undecided)) (bggId g))) undecided) as eligible eqn:Hel.
  assert (Hin' : In g eligible).
  { repeat (apply in_app_or in Hin as [Hin|Hin]);
      apply Array_sort_In in Hin;
      repeat (apply filter_In in Hin as [Hin _]); exact Hin. }
  subst eligible. apply filter_In in Hin' as [_ Hx].
  rewrite Hg' in Hx. discriminate.
Qed.

Lemma buildDefaultQueue_tiered (undecided : list Game) :
  (forall a b, (localeCompare a b <=? 0) = false -> (localeCompare b a <=? 0) = true) ->
  List.NoDup (map bggId undecided) ->
  tiered localeCompare games expansionOf threeYearsAgo oneYearAgo undecided
    (buildDefaultQueue localeCompare games expansionOf threeYearsAgo oneYearAgo undecided).
Proof.
  intros Hcmp Hnd. split.
  - intros g Hg Hrecent. apply buildDefaultQueue_grace; assumption.
  - rewrite buildDefaultQueue_tiers by assumption.
    eexists _, _, _, _. split; [reflexivity|].
    repeat split; try apply Array_sort_perm.
    + eapply Sorted_weaken; [|apply Array_sort_sorted].
      * unfold byDateAdded, compareDates, timeOf. intros a b H.
        apply Z.leb_le in H. destruct (dateAdded a), (dateAdded b); lia.
      * unfold byDateAdded, compareDates. intros a b H.
        apply Z.leb_gt in H. apply Z.leb_le.
        destruct (dateAdded a), (dateAdded b); lia.
    + eapply Sorted_weaken; [|apply Array_sort_sorted].
      * apply byRating_le.
      * apply byRating_total.
    + eapply Sorted_weaken; [|apply Array_sort_sorted].
      * unfold byLastPlayed, compareDates, timeOf. intros a b H.
        apply Z.leb_le in H. destruct (lastPlayed a), (lastPlayed b); lia.
      * unfold byLastPlayed, compareDates. intros a b H.
        apply Z.leb_gt in H. apply Z.leb_le.
        destruct (lastPlayed a), (lastPlayed b); lia.
    + eapply Sorted_weaken; [|apply Array_sort_sorted].
      * unfold byName. intros a b H. apply Z.leb_le in H. exact H.
      * unfold byName. intros a b. apply Hcmp.
Qed.
End QueueFacts.

Lemma byteOrder_total (a b : string) :
  (Sample.byteOrder a b <=? 0) = false -> (Sample.byteOrder b a <=? 0) = true.
Proof.
  unfold Sample.byteOrder. rewrite (String.compare_antisym a b).
  destruct (String.compare b a); simpl; intros H; [discriminate | reflexivity | discriminate].
Qed.

(** C3, as stated, fails when two undecided items share an identifier: of
    the two copies of one game, the first added five years ago and never
    played, the second added last month, the queue holds neither, although
    the first is past the grace period and belongs to the first tier. *)
Lemma C3_counterexample :
  ~ Queue.tiered Sample.byteOrder Sample.twoCopies ∅
      Sample.threeYearsAgo Sample.oneYearAgo
      (Queue.undecidedGames Sample.twoCopies [])
      (Queue.buildQueue Sample.byteOrder Sample.twoCopies [] ∅
         Sample.threeYearsAgo Sample.oneYearAgo (fun _ => O) Default).
Proof.
  intros [_ (t1 & t2 & t3 & ex & Hq & Hp1 & _)].
  assert (Hqueue : Queue.buildQueue Sample.byteOrder Sample.twoCopies [] ∅
                     Sample.threeYearsAgo Sample.oneYearAgo (fun _ => O) Default = [])
    by (vm_compute; reflexivity).
  rewrite Hqueue in Hq.
  symmetry in Hq. apply app_eq_nil in Hq as [-> _].
  assert (Ht1 : Queue.tier1 Sample.twoCopies ∅ Sample.oneYearAgo
                  (Queue.undecidedGames Sample.twoCopies []) = [Sample.firstCopy])
    by (vm_compute; reflexivity).
  rewrite Ht1 in Hp1. apply Permutation_nil in Hp1. discriminate.
Qed.

(** C3 (amended): in default mode, provided the undecided items have
    pairwise distinct identifiers (and [localeCompare] never puts two names
    each strictly after the other), the queue built over the undecided items
    holds no item added within the last year and is: the never-played
    standalone items in ascending order of acquisition date, then the
    standalone items played but not within the last three years or with no
    last-played date, in ascending order of rating (no rating counting as
    0), then the other standalone items in ascending order of last-played
    date (no date counting as the epoch), then the expansions of owned games
    in ascending order of name. *)
Theorem C3_default_queue_tiers :
  forall localeCompare games decisions expansionOf threeYearsAgo oneYearAgo draw,
    (forall a b, (localeCompare a b <=? 0) = false -> (localeCompare b a <=? 0) = true) ->
    List.NoDup (map bggId (Queue.undecidedGames games decisions)) ->
    Queue.tiered localeCompare games expansionOf threeYearsAgo oneYearAgo
      (Queue.undecidedGames games decisions)
      (Queue.buildQueue localeCompare games decisions expansionOf
         threeYearsAgo oneYearAgo draw Default).
Proof.
  intros localeCompare games decisions expansionOf threeYearsAgo oneYearAgo draw Hcmp Hnd.
  unfold Queue.buildQueue. apply buildDefaultQueue_tiered; assumption.
Qed.

(** The three items of the tiering example, under the byte-wise order of
    names. *)
Lemma C3_witness :
  Queue.tiered Sample.byteOrder Sample.tieringItems ∅
    Sample.threeYearsAgo Sample.oneYearAgo
    (Queue.undecidedGames Sample.tieringItems [])
    (Queue.buildQueue Sample.byteOrder Sample.tieringItems [] ∅
       Sample.threeYearsAgo Sample.oneYearAgo (fun _ => O) Default).
Proof.
  apply C3_default_queue_tiers.
  - exact byteOrder_total.
  - vm_compute. repeat constructor; simpl; intuition discriminate.
Defined.

(** The tiering example: never played, four years stale, recently played. *)
Example tiering_example :
  Queue.buildQueue Sample.byteOrder Sample.tieringItems [] ∅
    Sample.threeYearsAgo Sample.oneYearAgo (fun _ => O) Default
  = [Sample.neverPlayed; Sample.staleOne; Sample.recentlyPlayed].
Proof. vm_compute. reflexivity. Qed.

(** ** The dimension parser on any payload *)

Section DimensionParser.
Import Js Dimension.




End DimensionParser.


(** ** The theorems at sample inputs *)

(** A start request for the three items of the fallback example on a fresh
    coordinator, a trial batch answered 202 and then 401. *)
Lemma C1_witness :
  exists st',
    Expansion.deliver Json.stringifyLinks (Expansion.unauthorizedTrial [""] "")
      (Expansion.startBackgroundFetch Json.parseLinks [822; 4390; 13]
         (Some Sample.fallbackItems) (Expansion.initial Sample.noDisk))
    = Some st'
    /\ Expansion.usedMethod st' = Expansion.NameMatch
    /\ Expansion.expansionCache st' = Sample.fallbackExpected
    /\ Fs.cacheFile (Expansion.fs st') = Some (Json.stringifyLinks Sample.fallbackExpected).
Proof.
  destruct (C1_unauthorized_trial_falls_back Json.stringifyLinks Json.parseLinks
              (Expansion.initial Sample.noDisk) [822; 4390; 13]
              Sample.carcassonne [Sample.hunters; Sample.catan] [""] "")
    as (st' & Hd & _ & _ & Hm & Hc & _ & Hf & _).
  - reflexivity.
  - reflexivity.
  - vm_compute. discriminate.
  - simpl. lia.
  - assert (Hc' : Expansion.expansionCache st' = Sample.fallbackExpected)
      by (rewrite Hc; vm_compute; reflexivity).
    exists st'. split; [exact Hd|]. split; [exact Hm|]. split; [exact Hc'|].
    rewrite Hf, Hc'. reflexivity.
Defined.

(** The same request without the item list, the trial batch answered 401. *)
Lemma C10_witness :
  exists st',
    Expansion.deliver Json.stringifyLinks (Expansion.unauthorizedTrial [] "")
      (fst (Expansion.POST Json.parseLinks (Some [822; 4390; 13]) None
              (Expansion.initial Sample.noDisk)))
    = Some st'
    /\ Expansion.usedMethod st' = Expansion.NoMethod
    /\ Expansion.expansionCache st' = ∅
    /\ Expansion.getFetchStatus st'
       = [("inProgress", JBool false); ("fetched", JNum 3); ("total", JNum 3);
          ("cached", JNum 0); ("method", JStr "none")].
Proof.
  destruct (C10_no_items_no_coverage Json.stringifyLinks Json.parseLinks
              (Expansion.initial Sample.noDisk) 822 [4390; 13] None [] "")
    as (st' & Hd & _ & Hm & Hc & Hs).
  - reflexivity.
  - reflexivity.
  - left. reflexivity.
  - vm_compute. discriminate.
  - simpl. lia.
  - exists st'. split; [exact Hd|]. split; [exact Hm|]. split; [exact Hc|]. exact Hs.
Defined.


(** A second start request on each coordinator while its run waits for
    the answer to its first batch. *)
Lemma C8_witness :
  Expansion.startBackgroundFetch Json.parseLinks [4390] None Sample.busyExpansion
  = Sample.busyExpansion
  /\ (length (Expansion.runs Sample.busyExpansion) <= 1)%nat
  /\ Dimension.startBackgroundFetch Json.parseBoxes [4390] Sample.busyDimension
     = Sample.busyDimension
  /\ (length (Dimension.runs Sample.busyDimension) <= 1)%nat.
Proof.
  destruct C8_single_flight as (He & Hre & Hd & Hrd).
  split; [apply He; reflexivity|].
  split.
  - apply (Hre Json.stringifyLinks Json.parseLinks).
    apply (Expansion.reach_step _ _ (Expansion.initial Sample.noDisk)
             (Expansion.InStart [13; 822] None));
      [apply Expansion.reach_initial | reflexivity].
  - split; [apply Hd; reflexivity|].
    apply (Hrd Json.stringifyBoxes Json.parseBoxes).
    apply (Dimension.reach_step _ _ (Dimension.initial Sample.noDisk)
             (Dimension.InStart [13; 822]));
      [apply Dimension.reach_initial | reflexivity].
Defined.


(** * More of the two coordinators

    ** What every reachable state satisfies *)
Lemma Forall_snoc {A : Type} (P : A -> Prop) (l : list A) (x : A) :
  Forall P l -> P x -> Forall P (l ++ [x]).
Proof.
  intros Hl Hx. apply Forall_app. split; [assumption|].
  constructor; [assumption | constructor].
Qed.

Section ExpansionInvFacts.
Import Expansion ExpansionInv.
Variable JSON_stringify : gmap Z (list ExpansionLink) -> string.
Variable JSON_parse : string -> option (gmap Z (list ExpansionLink)).

Ltac unf :=
  cbn [finish removeRun saveCache updateRun mergeEntries mergeNameMatches
       emit setRuns setFs setFetched setInProgress setMethod setCache setTotal
       fetchedCount totalToFetch effects runs fetchInProgress fs expansionCache
       usedMethod] in *.
Ltac proj := cbn [fetchedCount totalToFetch effects runs fetchInProgress fs expansionCache
                  usedMethod run_needed run_await run_phase run_bggIds run_games
                  take drop app insert list_insert length requestOk awaitOk
                  lookup list_lookup] in *.

Lemma finish_inv st r :
  base st -> runs st = [r] -> inv (finish JSON_stringify 0 st).
Proof.
  intros (Hf & He) Hr. unfold inv, base. unf. rewrite Hr. proj. auto.
Qed.

Lemma length_batchAt r i :
  (i < length (remaining r))%nat -> (1 <= length (batchAt r i) <= 15)%nat.
Proof.
  intros H. unfold batchAt, BATCH_SIZE. rewrite length_take, length_drop. lia.
Qed.

Lemma length_testBatch needed :
  needed <> [] -> (1 <= length (testBatch needed) <= 15)%nat.
Proof.
  intros H. unfold testBatch, BATCH_SIZE. rewrite length_take.
  destruct needed; [contradiction|]. cbn [length]. lia.
Qed.

Lemma length_remaining r :
  (0 < length (remaining r))%nat ->
  Z.of_nat (length (run_needed r)) = 15 + Z.of_nat (length (remaining r)).
Proof. unfold remaining, BATCH_SIZE. rewrite length_drop. lia. Qed.

Lemma loadCache_fields st :
  fetchInProgress (loadCache JSON_parse st) = fetchInProgress st
  /\ fetchedCount (loadCache JSON_parse st) = fetchedCount st
  /\ totalToFetch (loadCache JSON_parse st) = totalToFetch st
  /\ usedMethod (loadCache JSON_parse st) = usedMethod st
  /\ fs (loadCache JSON_parse st) = fs st
  /\ runs (loadCache JSON_parse st) = runs st
  /\ effects (loadCache JSON_parse st) = effects st.
Proof.
  unfold loadCache. destruct (Fs.cacheFile (fs st)); [|repeat split; reflexivity].
  destruct (JSON_parse s); repeat split; reflexivity.
Qed.

Lemma loadCache_inv st : inv st -> inv (loadCache JSON_parse st).
Proof.
  destruct (loadCache_fields st) as (Hp & Hf & Ht & _ & _ & Hr & He).
  unfold inv, base. rewrite Hp, Hf, Ht, Hr, He. tauto.
Qed.

Lemma loopHead_inv st r r0 i :
  base st -> fetchInProgress st = true -> runs st = [r0] ->
  run_needed r <> [] -> totalToFetch st = Z.of_nat (length (run_needed r)) ->
  ((i < length (remaining r))%nat -> fetchedCount st = Z.of_nat (BATCH_SIZE + i)) ->
  inv (loopHead JSON_stringify 0 r i st).
Proof.
  intros Hbase Hp Hr Hn Ht Hfi. unfold loopHead.
  destruct (Nat.ltb_spec i (length (remaining r))) as [Hlt|Hge].
  - destruct Hbase as (Hf & He). unfold inv, base. unf. rewrite Hp, Hr. proj.
    split; [split; [assumption|]|].
    + apply Forall_snoc; [assumption|]. proj. apply length_batchAt. assumption.
    + eexists. split; [reflexivity|]. split; [|split; [assumption|]].
      * unfold runOk. proj. repeat split; try assumption; try lia. discriminate.
      * unfold progressOf. proj. auto.
  - eapply finish_inv; eassumption.
Qed.

Lemma onBatch_inv st r res :
  inv st -> fetchInProgress st = true -> runs st = [r] -> runOk r ->
  totalToFetch st = Z.of_nat (length (run_needed r)) ->
  run_await r <> AwaitPacing ->
  inv (onBatch JSON_stringify 0 r res st).
Proof.
  intros Hinv Hp Hr (Hn & Hw & Hph) Ht Hnp. pose proof Hinv as ((Hf & He) & _).
  unfold onBatch. destruct (run_phase r) as [|i] eqn:Hphase, res as [links|].
  - pose proof (length_testBatch (run_needed r) Hn) as Hl.
    apply loopHead_inv with (r0 := r); unf; try assumption.
    + split; [|assumption]. unf. unfold testBatch, BATCH_SIZE in *.
      rewrite length_take in *. lia.
    + intros Hlt. apply length_remaining in Hlt.
      unfold testBatch, BATCH_SIZE in *. rewrite length_take in *. lia.
  - destruct (run_games r) as [[|g gs]|];
      (eapply finish_inv; [|unf; eassumption]); split; unf; try assumption; lia.
  - destruct Hph as [Hi Hpace].
    pose proof (length_remaining r ltac:(lia)) as Hlen.
    destruct (Nat.ltb_spec (i + BATCH_SIZE) (length (remaining r))) as [Hlt|Hge].
    + unfold inv, base. unf. rewrite Hp, Hr. proj. split; [split|].
      * unfold BATCH_SIZE in *. lia.
      * apply Forall_snoc; [assumption|]. cbn. auto.
      * eexists. split; [reflexivity|]. split; [|split; [assumption|]].
        -- unfold runOk. proj. split; [assumption|]. split; [exact I|].
           split; [assumption|]. intros _. assumption.
        -- unfold progressOf. proj. unfold BATCH_SIZE in *. lia.
    + apply loopHead_inv with (r0 := r); unf; try assumption.
      * split; [|assumption]. unf. unfold BATCH_SIZE in *. lia.
      * intros Hlt. lia.
  - eapply finish_inv; [split|]; eassumption.
Qed.

Lemma resume_inv st n ev st' :
  inv st -> resume JSON_stringify n ev st = Some st' -> inv st'.
Proof.
  intros Hinv. pose proof Hinv as ((Hf & He) & Hrun). unfold resume.
  destruct (fetchInProgress st) eqn:Hp.
  2:{ rewrite Hrun, lookup_nil. discriminate. }
  destruct Hrun as (r & Hr & Hok & Ht & Hpr). rewrite Hr.
  destruct n as [|n]; proj; [|discriminate].
  pose proof Hok as (Hn & Hw & Hph).
  destruct (run_await r) as [a|a|] eqn:Haw, ev as [[status body|]|]; try discriminate.
  - destruct (Client.onResponse parseExpansionXml ∅ a status body) as [res|ms] eqn:Hres;
      intros [= <-].
    + apply onBatch_inv; try assumption. congruence.
    + apply onResponse_sleep in Hres as (_ & Ha & ->).
      unfold inv, base. unf. rewrite Hp, Hr. proj. split; [split; [assumption|]|].
      * apply Forall_snoc; [assumption|]. proj.
        right. destruct a as [|[|[|a]]]; cbn; auto; lia.
      * eexists. split; [reflexivity|]. split; [|split; [assumption|]].
        -- unfold runOk. proj. split; [assumption|].
           split; [cbn [Client.backoff length]; lia|].
           destruct (run_phase r); [discriminate|]. destruct Hph.
           split; [assumption | discriminate].
        -- rewrite Hpr. unfold progressOf. rewrite Haw. proj.
           destruct (run_phase r); reflexivity.
  - intros [= <-]. eapply finish_inv; [split|]; eassumption.
  - cbn [awaitOk Client.backoff length] in Hw.
    destruct (Nat.leb_spec (S a) (length Client.backoff)) as [_|Hgt];
      [|cbn [length Client.backoff] in Hgt; lia].
    intros [= <-]. unfold inv, base. unf. rewrite Hp, Hr. proj.
    split; [split; [assumption|]|].
    + apply Forall_snoc; [assumption|]. proj.
      unfold currentBatch. destruct (run_phase r).
      * apply length_testBatch. assumption.
      * apply length_batchAt. tauto.
    + eexists. split; [reflexivity|]. split; [|split; [assumption|]].
      * unfold runOk. proj. split; [assumption|].
        split; [cbn [Client.backoff length]; lia|].
        destruct (run_phase r); [discriminate|]. destruct Hph.
        split; [assumption | discriminate].
      * rewrite Hpr. unfold progressOf. rewrite Haw. proj.
        destruct (run_phase r); reflexivity.
  - destruct (run_phase r) as [|i] eqn:Hphase; [discriminate|]. intros [= <-].
    apply loopHead_inv with (r0 := r); try assumption; [split; assumption|].
    intros _. rewrite Hpr. unfold progressOf. rewrite Hphase, Haw. reflexivity.
Qed.

Lemma start_inv bggIds games st :
  inv st -> inv (startBackgroundFetch JSON_parse bggIds games st).
Proof.
  intros Hinv. unfold startBackgroundFetch.
  destruct (fetchInProgress st) eqn:Hp; [assumption|].
  pose proof (loadCache_inv st Hinv) as Hinv1.
  destruct (loadCache_fields st) as (Hp1 & Hf1 & Ht1 & _ & _ & Hr1 & He1).
  set (st1 := loadCache JSON_parse st) in *.
  match goal with |- context [(length ?l =? 0)%nat] => set (needed := l) end.
  destruct (Nat.eqb_spec (length needed) 0) as [Hz|Hnz]; [assumption|].
  destruct Hinv1 as ((_ & He) & Hrun). rewrite Hp1, Hp in Hrun.
  assert (Hne : needed <> []).
  { intros Hnil. rewrite Hnil in Hnz. apply Hnz. reflexivity. }
  unfold inv, base. unf. rewrite Hrun. proj. split; [split; [lia|]|].
  - apply Forall_snoc; [assumption|]. proj. apply length_testBatch. assumption.
  - eexists. split; [reflexivity|]. split; [|split; reflexivity].
    unfold runOk. proj. split; [assumption|]. split; [lia | discriminate].
Qed.

Lemma reachable_inv st :
  reachable JSON_stringify JSON_parse st -> inv st.
Proof.
  induction 1 as [disk | st inp st' _ IH Hstep].
  - unfold inv, base. cbn. split; [split; [lia | constructor] | reflexivity].
  - destruct inp as [bggIds games | | n ev]; cbn [step] in Hstep.
    + injection Hstep as <-. apply start_inv; assumption.
    + injection Hstep as <-. cbn [getCachedExpansions fst].
      destruct (size (expansionCache st) =? 0)%nat; [apply loadCache_inv|]; assumption.
    + eapply resume_inv; eassumption.
Qed.

End ExpansionInvFacts.

Section DimensionInvFacts.
Import Dimension DimensionInv.
Variable JSON_stringify : gmap Z BoxDimensions -> string.
Variable JSON_parse : string -> option (gmap Z BoxDimensions).

Ltac unf :=
  cbn [finish removeRun saveCache updateRun mergeEntries
       emit setRuns setFs setFetched setInProgress setCache setTotal
       fetchedCount totalToFetch effects runs fetchInProgress fs dimensionCache] in *.
Ltac proj := cbn [fetchedCount totalToFetch effects runs fetchInProgress fs dimensionCache
                  run_needed run_await run_i
                  take drop app insert list_insert length requestOk awaitOk
                  lookup list_lookup] in *.

Lemma dim_finish_inv st r :
  base st -> runs st = [r] -> inv (finish JSON_stringify 0 st).
Proof.
  intros (Hf & He) Hr. unfold inv, base. unf. rewrite Hr. proj. auto.
Qed.

Lemma dim_length_batchAt needed i :
  (i < length needed)%nat -> (1 <= length (batchAt needed i) <= 15)%nat.
Proof.
  intros H. unfold batchAt, BATCH_SIZE. rewrite length_take, length_drop. lia.
Qed.

Lemma dim_loadCache_fields st :
  fetchInProgress (loadCache JSON_parse st) = fetchInProgress st
  /\ fetchedCount (loadCache JSON_parse st) = fetchedCount st
  /\ totalToFetch (loadCache JSON_parse st) = totalToFetch st
  /\ fs (loadCache JSON_parse st) = fs st
  /\ runs (loadCache JSON_parse st) = runs st
  /\ effects (loadCache JSON_parse st) = effects st.
Proof.
  unfold loadCache. destruct (Fs.cacheFile (fs st)); [|repeat split; reflexivity].
  destruct (JSON_parse s); repeat split; reflexivity.
Qed.

Lemma dim_loadCache_inv st : inv st -> inv (loadCache JSON_parse st).
Proof.
  destruct (dim_loadCache_fields st) as (Hp & Hf & Ht & _ & Hr & He).
  unfold inv, base. rewrite Hp, Hf, Ht, Hr, He. tauto.
Qed.

Lemma dim_loopHead_inv st needed r0 i :
  base st -> fetchInProgress st = true -> runs st = [r0] ->
  needed <> [] -> totalToFetch st = Z.of_nat (length needed) ->
  ((i < length needed)%nat -> fetchedCount st = Z.of_nat i) ->
  inv (loopHead JSON_stringify 0 needed i st).
Proof.
  intros Hbase Hp Hr Hn Ht Hfi. unfold loopHead.
  destruct (Nat.ltb_spec i (length needed)) as [Hlt|Hge].
  - destruct Hbase as (Hf & He). unfold inv, base. unf. rewrite Hp, Hr. proj.
    split; [split; [assumption|]|].
    + apply Forall_snoc; [assumption|]. proj. apply dim_length_batchAt. assumption.
    + eexists. split; [reflexivity|]. split; [|split; [assumption|]].
      * unfold runOk. proj. repeat split; try assumption; try lia. discriminate.
      * unfold progressOf. proj. auto.
  - eapply dim_finish_inv; eassumption.
Qed.

Lemma dim_onBatch_inv st r res :
  inv st -> fetchInProgress st = true -> runs st = [r] -> runOk r ->
  totalToFetch st = Z.of_nat (length (run_needed r)) ->
  inv (onBatch JSON_stringify 0 r res st).
Proof.
  intros Hinv Hp Hr (Hn & Hw & Hi & Hpace) Ht. pose proof Hinv as ((Hf & He) & _).
  unfold onBatch. destruct res as [dims|];
    [|eapply dim_finish_inv; [split|]; eassumption].
  destruct (Nat.ltb_spec (run_i r + BATCH_SIZE) (length (run_needed r))) as [Hlt|Hge].
  - unfold inv, base. unf. rewrite Hp, Hr. proj. split; [split|].
    + unfold BATCH_SIZE in *. lia.
    + apply Forall_snoc; [assumption|]. cbn. auto.
    + eexists. split; [reflexivity|]. split; [|split; [assumption|]].
      * unfold runOk. proj. repeat split; try assumption; try lia.
      * unfold progressOf. proj. unfold BATCH_SIZE in *. lia.
  - apply dim_loopHead_inv with (r0 := r); unf; try assumption.
    + split; [|assumption]. unf. unfold BATCH_SIZE in *. lia.
    + intros Hlt. lia.
Qed.

Lemma dim_resume_inv st n ev st' :
  inv st -> resume JSON_stringify n ev st = Some st' -> inv st'.
Proof.
  intros Hinv. pose proof Hinv as ((Hf & He) & Hrun). unfold resume.
  destruct (fetchInProgress st) eqn:Hp.
  2:{ rewrite Hrun, lookup_nil. discriminate. }
  destruct Hrun as (r & Hr & Hok & Ht & Hpr). rewrite Hr.
  destruct n as [|n]; proj; [|discriminate].
  pose proof Hok as (Hn & Hw & Hi & Hpace).
  destruct (run_await r) as [a|a|] eqn:Haw, ev as [[status body|]|]; try discriminate.
  - destruct (Client.onResponse parseDimensionsXml ∅ a status body) as [res|ms] eqn:Hres;
      intros [= <-].
    + apply dim_onBatch_inv; assumption.
    + apply onResponse_sleep in Hres as (_ & Ha & ->).
      unfold inv, base. unf. rewrite Hp, Hr. proj. split; [split; [assumption|]|].
      * apply Forall_snoc; [assumption|]. proj.
        right. destruct a as [|[|[|a]]]; cbn; auto; lia.
      * eexists. split; [reflexivity|]. split; [|split; [assumption|]].
        -- unfold runOk. proj.
           repeat split; try assumption; try discriminate;
             try (cbn [Client.backoff length]; lia).
        -- rewrite Hpr. unfold progressOf. rewrite Haw. reflexivity.
  - intros [= <-]. eapply dim_finish_inv; [split|]; eassumption.
  - cbn [awaitOk Client.backoff length] in Hw.
    destruct (Nat.leb_spec (S a) (length Client.backoff)) as [_|Hgt];
      [|cbn [length Client.backoff] in Hgt; lia].
    intros [= <-]. unfold inv, base. unf. rewrite Hp, Hr. proj.
    split; [split; [assumption|]|].
    + apply Forall_snoc; [assumption|]. proj. apply dim_length_batchAt. assumption.
    + eexists. split; [reflexivity|]. split; [|split; [assumption|]].
      * unfold runOk. proj.
        repeat split; try assumption; try discriminate;
          try (cbn [Client.backoff length]; lia).
      * rewrite Hpr. unfold progressOf. rewrite Haw. reflexivity.
  - intros [= <-]. apply dim_loopHead_inv with (r0 := r); try assumption;
      [split; assumption|].
    intros _. rewrite Hpr. unfold progressOf. rewrite Haw. reflexivity.
Qed.

Lemma dim_start_inv bggIds st :
  inv st -> inv (startBackgroundFetch JSON_parse bggIds st).
Proof.
  intros Hinv. unfold startBackgroundFetch.
  destruct (fetchInProgress st) eqn:Hp; [assumption|].
  pose proof (dim_loadCache_inv st Hinv) as Hinv1.
  destruct (dim_loadCache_fields st) as (Hp1 & Hf1 & Ht1 & _ & Hr1 & He1).
  set (st1 := loadCache JSON_parse st) in *.
  match goal with |- context [(length ?l =? 0)%nat] => set (needed := l) end.
  destruct (Nat.eqb_spec (length needed) 0) as [Hz|Hnz]; [assumption|].
  destruct Hinv1 as ((_ & He) & Hrun). rewrite Hp1, Hp in Hrun.
  assert (Hne : needed <> []).
  { intros Hnil. rewrite Hnil in Hnz. apply Hnz. reflexivity. }
  assert (0 < length needed)%nat by lia.
  unfold inv, base. unf. rewrite Hrun. proj. split; [split; [lia|]|].
  - apply Forall_snoc; [assumption|]. proj. apply dim_length_batchAt. assumption.
  - eexists. split; [reflexivity|]. split; [|split; reflexivity].
    unfold runOk. proj. repeat split; try assumption; try discriminate; try lia.
Qed.

Lemma dim_reachable_inv st :
  reachable JSON_stringify JSON_parse st -> inv st.
Proof.
  induction 1 as [disk | st inp st' _ IH Hstep].
  - unfold inv, base. cbn. split; [split; [lia | constructor] | reflexivity].
  - destruct inp as [bggIds | | n ev]; cbn [step] in Hstep.
    + injection Hstep as <-. apply dim_start_inv; assumption.
    + injection Hstep as <-. cbn [getCachedDimensions fst].
      destruct (size (dimensionCache st) =? 0)%nat; [apply dim_loadCache_inv|]; assumption.
    + eapply dim_resume_inv; eassumption.
Qed.

End DimensionInvFacts.

(** ** Every wake-up brings the end of the run nearer *)
Section ExpansionEnds.
Import Expansion ExpansionInv ExpansionEnv.
Variable JSON_stringify : gmap Z (list ExpansionLink) -> string.
Variable JSON_parse : string -> option (gmap Z (list ExpansionLink)).

Ltac unf :=
  cbn [finish removeRun saveCache updateRun mergeEntries mergeNameMatches
        emit setRuns setFs setFetched setInProgress setMethod setCache setTotal
        fetchedCount totalToFetch effects runs fetchInProgress fs expansionCache
        usedMethod].
Ltac proj := cbn [fetchedCount totalToFetch effects runs fetchInProgress fs expansionCache
                  usedMethod run_needed run_await run_phase run_bggIds run_games
                  take drop app insert list_insert length requestOk awaitOk
                  lookup list_lookup] in *.

Lemma finish_runs st r0 : runs st = [r0] -> runs (finish JSON_stringify 0 st) = [].
Proof. intros Hr. unf. rewrite Hr. reflexivity. Qed.

Lemma loopHead_fewer st r r0 i m :
  runs st = [r0] ->
  (length (remaining r) - i + 8 < m)%nat ->
  runs (loopHead JSON_stringify 0 r i st) = []
  \/ exists r', runs (loopHead JSON_stringify 0 r i st) = [r'] /\ (measure r' < m)%nat.
Proof.
  intros Hr Hm. unfold loopHead.
  destruct (i <? length (remaining r))%nat.
  - right. unf. rewrite Hr. proj. eexists. split; [reflexivity|].
    unfold measure, remaining. proj. cbn [within]. unfold remaining in Hm. lia.
  - left. eapply finish_runs; eassumption.
Qed.

Lemma onBatch_fewer st r res :
  runs st = [r] -> runOk r -> (exists a, run_await r = AwaitFetch a /\ (a <= 3)%nat) ->
  fewer r (onBatch JSON_stringify 0 r res st).
Proof.
  intros Hr (Hn & Hw & Hph) (a & Ha & Hle). unfold fewer, onBatch.
  destruct (run_phase r) as [|i] eqn:Hphase, res as [links|].
  - apply loopHead_fewer with (r0 := r).
    + unf. assumption.
    + unfold measure. rewrite Hphase, Ha. cbn [within]. lia.
  - left. destruct (run_games r) as [[|g gs]|]; unf; rewrite Hr; reflexivity.
  - destruct Hph as [Hi _].
    destruct (Nat.ltb_spec (i + BATCH_SIZE) (length (remaining r))) as [Hlt|Hge].
    + right. unf. rewrite Hr. proj. eexists. split; [reflexivity|].
      unfold measure. proj. rewrite Hphase, Ha. cbn [within]. unfold remaining. proj. lia.
    + unfold loopHead. destruct (Nat.ltb_spec (i + BATCH_SIZE) (length (remaining r))); [lia|].
      left. unf. rewrite Hr. reflexivity.
  - left. eapply finish_runs; eassumption.
Qed.

Lemma resume_fewer st r respond k :
  inv st -> runs st = [r] ->
  exists st', resume JSON_stringify 0 (wakeUp respond k r) st = Some st'
              /\ inv st' /\ fewer r st'.
Proof.
  intros Hinv Hr. pose proof Hinv as (_ & Hrun).
  destruct (fetchInProgress st) eqn:Hp; [|rewrite Hrun in Hr; discriminate].
  destruct Hrun as (r1 & Hr1 & Hok & Ht & Hpr). rewrite Hr in Hr1. injection Hr1 as <-.
  assert (Hsome : forall st', resume JSON_stringify 0 (wakeUp respond k r) st = Some st' ->
                              fewer r st' ->
                              exists st', resume JSON_stringify 0 (wakeUp respond k r) st
                                          = Some st' /\ inv st' /\ fewer r st').
  { intros st' Hres Hf. exists st'. split; [assumption|]. split; [|assumption].
    eapply resume_inv; eassumption. }
  pose proof Hok as (Hn & Hw & Hph).
  unfold resume in *. rewrite Hr in *. proj. unfold wakeUp in *.
  destruct (run_await r) as [a|a|] eqn:Haw; proj; cbn [Client.backoff length] in Hw.
  - destruct (respond k) as [status body|].
    + destruct (Client.onResponse parseExpansionXml ∅ a status body) as [res|ms] eqn:Hres.
      * eapply Hsome; [reflexivity|]. apply onBatch_fewer; try assumption. eauto.
      * eapply Hsome; [reflexivity|]. right. unf. rewrite Hr. proj.
        apply onResponse_sleep in Hres as (_ & Hlt & _).
        eexists. split; [reflexivity|]. unfold measure, remaining. proj. rewrite Haw.
        cbn [within]. destruct (run_phase r); lia.
    + eapply Hsome; [reflexivity|]. left. eapply finish_runs; eassumption.
  - destruct (Nat.leb_spec (S a) (length Client.backoff)) as [_|Hgt];
      [|cbn [length Client.backoff] in Hgt; lia].
    eapply Hsome; [reflexivity|]. right. unf. rewrite Hr. proj.
    eexists. split; [reflexivity|]. unfold measure, remaining. proj. rewrite Haw.
    cbn [within]. destruct (run_phase r); lia.
  - destruct (run_phase r) as [|i] eqn:Hphase; [congruence|].
    destruct Hph as [Hi Hpace]. specialize (Hpace eq_refl).
    eapply Hsome; [reflexivity|].
    apply loopHead_fewer with (r0 := r); [assumption|].
    unfold measure. rewrite Hphase, Haw. cbn [within]. unfold BATCH_SIZE in *. lia.
Qed.

Lemma drive_ends fuel : forall st r respond k,
  inv st -> runs st = [r] -> (measure r <= fuel)%nat ->
  runs (drive JSON_stringify fuel respond k st) = []
  /\ inv (drive JSON_stringify fuel respond k st).
Proof.
  induction fuel as [|fuel IH]; intros st r respond k Hinv Hr Hm.
  - exfalso. destruct (resume_fewer st r respond k Hinv Hr) as (st' & _ & _ & Hf).
    destruct Hinv as (_ & Hrun).
    destruct (fetchInProgress st); [|rewrite Hrun in Hr; discriminate].
    destruct Hrun as (r1 & Hr1 & (Hn & Hw & Hph) & _). rewrite Hr in Hr1. injection Hr1 as <-.
    unfold measure in Hm. destruct (run_await r) as [a|a|] eqn:Ha;
      cbn [within awaitOk Client.backoff length] in *; try lia.
    destruct (run_phase r); [congruence|]. destruct Hph as [_ Hp]. specialize (Hp eq_refl).
    unfold BATCH_SIZE in Hp. lia.
  - cbn [drive]. rewrite Hr.
    destruct (resume_fewer st r respond k Hinv Hr) as (st' & -> & Hinv' & Hf).
    destruct Hf as [Hnil | (r' & Hr' & Hlt)].
    + destruct fuel; cbn [drive]; [|rewrite Hnil]; auto.
    + eapply IH; [assumption | eassumption | lia].
Qed.

End ExpansionEnds.

Section DimensionEnds.
Import Dimension DimensionInv DimensionEnv.
Variable JSON_stringify : gmap Z BoxDimensions -> string.
Variable JSON_parse : string -> option (gmap Z BoxDimensions).

Ltac unf :=
  cbn [finish removeRun saveCache updateRun mergeEntries
       emit setRuns setFs setFetched setInProgress setCache setTotal
       fetchedCount totalToFetch effects runs fetchInProgress fs dimensionCache].
Ltac proj := cbn [fetchedCount totalToFetch effects runs fetchInProgress fs dimensionCache
                  run_needed run_await run_i
                  take drop app insert list_insert length requestOk awaitOk
                  lookup list_lookup] in *.

Lemma dim_finish_runs st r0 : runs st = [r0] -> runs (finish JSON_stringify 0 st) = [].
Proof. intros Hr. unf. rewrite Hr. reflexivity. Qed.

Lemma dim_loopHead_fewer st needed r0 i m :
  runs st = [r0] ->
  (length needed - i + 8 < m)%nat ->
  runs (loopHead JSON_stringify 0 needed i st) = []
  \/ exists r', runs (loopHead JSON_stringify 0 needed i st) = [r'] /\ (measure r' < m)%nat.
Proof.
  intros Hr Hm. unfold loopHead.
  destruct (i <? length needed)%nat.
  - right. unf. rewrite Hr. proj. eexists. split; [reflexivity|].
    unfold measure. proj. cbn [within]. lia.
  - left. eapply dim_finish_runs; eassumption.
Qed.

Lemma dim_onBatch_fewer st r res :
  runs st = [r] -> runOk r -> (exists a, run_await r = AwaitFetch a /\ (a <= 3)%nat) ->
  fewer r (onBatch JSON_stringify 0 r res st).
Proof.
  intros Hr (Hn & Hw & Hi & _) (a & Ha & Hle). unfold fewer, onBatch.
  destruct res as [dims|]; [|left; eapply dim_finish_runs; eassumption].
  destruct (Nat.ltb_spec (run_i r + BATCH_SIZE) (length (run_needed r))) as [Hlt|Hge].
  - right. unf. rewrite Hr. proj. eexists. split; [reflexivity|].
    unfold measure. proj. rewrite Ha. cbn [within]. lia.
  - unfold loopHead.
    destruct (Nat.ltb_spec (run_i r + BATCH_SIZE) (length (run_needed r))); [lia|].
    left. unf. rewrite Hr. reflexivity.
Qed.

Lemma dim_resume_fewer st r respond k :
  inv st -> runs st = [r] ->
  exists st', resume JSON_stringify 0 (wakeUp respond k r) st = Some st'
              /\ inv st' /\ fewer r st'.
Proof.
  intros Hinv Hr. pose proof Hinv as (_ & Hrun).
  destruct (fetchInProgress st) eqn:Hp; [|rewrite Hrun in Hr; discriminate].
  destruct Hrun as (r1 & Hr1 & Hok & Ht & Hpr). rewrite Hr in Hr1. injection Hr1 as <-.
  assert (Hsome : forall st', resume JSON_stringify 0 (wakeUp respond k r) st = Some st' ->
                              fewer r st' ->
                              exists st', resume JSON_stringify 0 (wakeUp respond k r) st
                                          = Some st' /\ inv st' /\ fewer r st').
  { intros st' Hres Hf. exists st'. split; [assumption|]. split; [|assumption].
    eapply dim_resume_inv; eassumption. }
  pose proof Hok as (Hn & Hw & Hi & Hpace).
  unfold resume in *. rewrite Hr in *. proj. unfold wakeUp in *.
  destruct (run_await r) as [a|a|] eqn:Haw; proj; cbn [Client.backoff length] in Hw.
  - destruct (respond k) as [status body|].
    + destruct (Client.onResponse parseDimensionsXml ∅ a status body) as [res|ms] eqn:Hres.
      * eapply Hsome; [reflexivity|]. apply dim_onBatch_fewer; try assumption. eauto.
      * eapply Hsome; [reflexivity|]. right. unf. rewrite Hr. proj.
        apply onResponse_sleep in Hres as (_ & Hlt & _).
        eexists. split; [reflexivity|]. unfold measure. proj. rewrite Haw.
        cbn [within]. lia.
    + eapply Hsome; [reflexivity|]. left. eapply dim_finish_runs; eassumption.
  - destruct (Nat.leb_spec (S a) (length Client.backoff)) as [_|Hgt];
      [|cbn [length Client.backoff] in Hgt; lia].
    eapply Hsome; [reflexivity|]. right. unf. rewrite Hr. proj.
    eexists. split; [reflexivity|]. unfold measure. proj. rewrite Haw.
    cbn [within]. lia.
  - specialize (Hpace eq_refl).
    eapply Hsome; [reflexivity|].
    apply dim_loopHead_fewer with (r0 := r); [assumption|].
    unfold measure. rewrite Haw. cbn [within]. unfold BATCH_SIZE in *. lia.
Qed.

Lemma dim_drive_ends fuel : forall st r respond k,
  inv st -> runs st = [r] -> (measure r <= fuel)%nat ->
  runs (drive JSON_stringify fuel respond k st) = []
  /\ inv (drive JSON_stringify fuel respond k st).
Proof.
  induction fuel as [|fuel IH]; intros st r respond k Hinv Hr Hm.
  - exfalso. destruct Hinv as (_ & Hrun).
    destruct (fetchInProgress st); [|rewrite Hrun in Hr; discriminate].
    destruct Hrun as (r1 & Hr1 & (Hn & Hw & Hi & Hp) & _). rewrite Hr in Hr1.
    injection Hr1 as <-.
    unfold measure in Hm. destruct (run_await r) as [a|a|] eqn:Ha;
      cbn [within awaitOk Client.backoff length] in *; try lia.
  - cbn [drive]. rewrite Hr.
    destruct (dim_resume_fewer st r respond k Hinv Hr) as (st' & -> & Hinv' & Hf).
    destruct Hf as [Hnil | (r' & Hr' & Hlt)].
    + destruct fuel; cbn [drive]; [|rewrite Hnil]; auto.
    + eapply IH; [assumption | eassumption | lia].
Qed.

End DimensionEnds.


Section DimensionCovers.
Import Dimension DimensionInv DimensionEnv.
Variable JSON_stringify : gmap Z BoxDimensions -> string.
Variable JSON_parse : string -> option (gmap Z BoxDimensions).

Ltac unf :=
  cbn [finish removeRun saveCache updateRun mergeEntries
       emit setRuns setFs setFetched setInProgress setCache setTotal
       fetchedCount totalToFetch effects runs fetchInProgress fs dimensionCache].
Ltac proj := cbn [fetchedCount totalToFetch effects runs fetchInProgress fs dimensionCache
                  run_needed run_await run_i
                  take drop app insert list_insert length requestOk awaitOk
                  lookup list_lookup] in *.







End DimensionCovers.

Section ExpansionCovers.
Import Expansion ExpansionInv ExpansionEnv.
Variable JSON_stringify : gmap Z (list ExpansionLink) -> string.
Variable JSON_parse : string -> option (gmap Z (list ExpansionLink)).

Ltac proj := cbn [fetchedCount totalToFetch effects runs fetchInProgress fs expansionCache
                  usedMethod run_needed run_await run_phase run_bggIds run_games
                  take drop app insert list_insert length requestOk awaitOk
                  lookup list_lookup] in *.









End ExpansionCovers.

Section DimensionStartFacts.
Import Dimension.
Variable JSON_parse : string -> option (gmap Z BoxDimensions).

End DimensionStartFacts.

Lemma reachable_started_expansion :
  Expansion.reachable Json.stringifyLinks Json.parseLinks Started.expansion.
Proof.
  apply (Expansion.reach_step _ _ (Expansion.initial Sample.noDisk)
           (Expansion.InStart [13; 822] None));
    [apply Expansion.reach_initial | reflexivity].
Qed.

Lemma reachable_started_dimension :
  Dimension.reachable Json.stringifyBoxes Json.parseBoxes Started.dimension.
Proof.
  apply (Dimension.reach_step _ _ (Dimension.initial Sample.noDisk)
           (Dimension.InStart [13; 822]));
    [apply Dimension.reach_initial | reflexivity].
Qed.

(** * Properties of the code beyond the stated claims

    X1: in every state either coordinator can reach, whatever the order
    of start requests, cache reads and wake-ups and whatever the service
    answers, [fetched] lies between 0 and [total]. *)
Theorem progress_within_total :
  (forall JSON_stringify JSON_parse (st : Expansion.State),
      Expansion.reachable JSON_stringify JSON_parse st ->
      0 <= Expansion.fetchedCount st <= Expansion.totalToFetch st)
  /\ (forall JSON_stringify JSON_parse (st : Dimension.State),
         Dimension.reachable JSON_stringify JSON_parse st ->
         0 <= Dimension.fetchedCount st <= Dimension.totalToFetch st).
Proof.
  split; intros JS JP st Hreach.
  - apply reachable_inv in Hreach. apply Hreach.
  - apply dim_reachable_inv in Hreach. apply Hreach.
Qed.

Lemma progress_within_total_witness :
  0 <= Expansion.fetchedCount Started.expansion
    <= Expansion.totalToFetch Started.expansion
  /\ 0 <= Dimension.fetchedCount Started.dimension
       <= Dimension.totalToFetch Started.dimension.
Proof.
  destruct progress_within_total as [He Hd]. split.
  - apply (He Json.stringifyLinks Json.parseLinks). exact reachable_started_expansion.
  - apply (Hd Json.stringifyBoxes Json.parseBoxes). exact reachable_started_dimension.
Defined.

(** X2: every request either coordinator ever issues asks for at least one
    and at most fifteen identifiers, and every timer it sets is a rung of
    the backoff ladder or the pacing delay between batches. *)
Theorem requests_are_batches :
  (forall JSON_stringify JSON_parse (st : Expansion.State),
      Expansion.reachable JSON_stringify JSON_parse st ->
      forall e, In e (Expansion.effects st) ->
                match e with
                | Fetch ids => (1 <= length ids <= 15)%nat
                | Delay ms => In ms [2500; 2000; 4000; 8000]
                end)
  /\ (forall JSON_stringify JSON_parse (st : Dimension.State),
         Dimension.reachable JSON_stringify JSON_parse st ->
         forall e, In e (Dimension.effects st) ->
                   match e with
                   | Fetch ids => (1 <= length ids <= 15)%nat
                   | Delay ms => In ms [2000; 4000; 8000]
                   end).
Proof.
  split; intros JS JP st Hreach e He.
  - apply reachable_inv in Hreach. destruct Hreach as ((_ & Hall) & _).
    rewrite List.Forall_forall in Hall. apply (Hall e He).
  - apply dim_reachable_inv in Hreach. destruct Hreach as ((_ & Hall) & _).
    rewrite List.Forall_forall in Hall. specialize (Hall e He).
    destruct e as [ids|ms]; [exact Hall|].
    cbn in Hall. cbn. tauto.
Qed.

Lemma requests_are_batches_witness :
  (1 <= length [13; 822] <= 15)%nat /\ (1 <= length [13; 822] <= 15)%nat.
Proof.
  destruct requests_are_batches as [He Hd]. split.
  - apply (He Json.stringifyLinks Json.parseLinks Started.expansion
              reachable_started_expansion (Fetch [13; 822])).
    vm_compute. left. reflexivity.
  - apply (Hd Json.stringifyBoxes Json.parseBoxes Started.dimension
              reachable_started_dimension (Fetch [13; 822])).
    vm_compute. left. reflexivity.
Defined.

(** X3: every run ends.  However the service answers, a run of the
    expansion coordinator is over after at most [total + 18] wake-ups (answers
    and timers), and one of the dimension coordinator after at most
    [total + 8]: no run is left and the in-progress flag is down. *)
Theorem runs_end :
  (forall JSON_stringify JSON_parse (st : Expansion.State) respond k fuel,
      Expansion.reachable JSON_stringify JSON_parse st ->
      (Z.to_nat (Expansion.totalToFetch st) + 18 <= fuel)%nat ->
      let st' := ExpansionEnv.drive JSON_stringify fuel respond k st in
      Expansion.runs st' = [] /\ Expansion.fetchInProgress st' = false)
  /\ (forall JSON_stringify JSON_parse (st : Dimension.State) respond k fuel,
         Dimension.reachable JSON_stringify JSON_parse st ->
         (Z.to_nat (Dimension.totalToFetch st) + 8 <= fuel)%nat ->
         let st' := DimensionEnv.drive JSON_stringify fuel respond k st in
         Dimension.runs st' = [] /\ Dimension.fetchInProgress st' = false).
Proof.
  split; intros JS JP st respond k fuel Hreach Hfuel st'.
  - apply reachable_inv in Hreach.
    assert (Hgoal : Expansion.runs st' = [] /\ ExpansionInv.inv st').
    { pose proof Hreach as (_ & Hrun).
      destruct (Expansion.fetchInProgress st) eqn:Hp.
      - destruct Hrun as (r & Hr & (Hn & Hw & Hph) & Ht & _).
        apply (drive_ends JS fuel st r respond k Hreach Hr).
        rewrite Ht, Nat2Z.id in Hfuel. unfold ExpansionEnv.measure, Expansion.remaining.
        rewrite length_drop.
        assert (within (Expansion.run_await r) <= 8)%nat
          by (destruct (Expansion.run_await r); cbn; lia).
        destruct (Expansion.run_phase r); lia.
      - subst st'. destruct fuel; cbn [ExpansionEnv.drive]; [|rewrite Hrun]; auto. }
    destruct Hgoal as [Hr (_ & Hrun)]. split; [assumption|].
    destruct (Expansion.fetchInProgress st'); [|reflexivity].
    destruct Hrun as (r & Hr' & _). congruence.
  - apply dim_reachable_inv in Hreach.
    assert (Hgoal : Dimension.runs st' = [] /\ DimensionInv.inv st').
    { pose proof Hreach as (_ & Hrun).
      destruct (Dimension.fetchInProgress st) eqn:Hp.
      - destruct Hrun as (r & Hr & (Hn & Hw & Hph) & Ht & _).
        apply (dim_drive_ends JS fuel st r respond k Hreach Hr).
        rewrite Ht, Nat2Z.id in Hfuel. unfold DimensionEnv.measure.
        assert (within (Dimension.run_await r) <= 8)%nat
          by (destruct (Dimension.run_await r); cbn; lia).
        lia.
      - subst st'. destruct fuel; cbn [DimensionEnv.drive]; [|rewrite Hrun]; auto. }
    destruct Hgoal as [Hr (_ & Hrun)]. split; [assumption|].
    destruct (Dimension.fetchInProgress st'); [|reflexivity].
    destruct Hrun as (r & Hr' & _). congruence.
Qed.

Lemma runs_end_witness :
  Expansion.runs (ExpansionEnv.drive Json.stringifyLinks 20 Sample.alwaysBusy 0
                    Started.expansion) = []
  /\ Dimension.runs (DimensionEnv.drive Json.stringifyBoxes 10 Sample.alwaysBroken 0
                       Started.dimension) = [].
Proof.
  destruct runs_end as [He Hd]. split.
  - apply (He Json.stringifyLinks Json.parseLinks Started.expansion Sample.alwaysBusy
              0%nat 20%nat reachable_started_expansion).
    vm_compute. lia.
  - apply (Hd Json.stringifyBoxes Json.parseBoxes Started.dimension Sample.alwaysBroken
              0%nat 10%nat reachable_started_dimension).
    vm_compute. lia.
Defined.





Section Interrupted.

Lemma onResponse_401 {R : Type} (parse : string -> R) (empty : R) a body :
  Client.onResponse parse empty a 401 body = Client.Return None.
Proof. reflexivity. Qed.

Lemma dim_resume_refused JS (st : Dimension.State) n ev st' :
  refused ev -> Dimension.resume JS n ev st = Some st' ->
  st' = Dimension.finish JS n st.
Proof.
  unfold Dimension.resume. intros Href.
  destruct (Dimension.runs st !! n) as [r|]; [|discriminate].
  destruct Href as [-> | [body ->]]; destruct (Dimension.run_await r); try discriminate.
  - intros [= <-]. reflexivity.
  - rewrite onResponse_401. intros [= <-]. reflexivity.
Qed.

End Interrupted.

(** X6: a request of the dimension coordinator which is refused (401) or
    does not come back ends the run at once: the cache and [fetched] stay as
    the completed batches left them, so that [fetched] is strictly below
    [total], the flag is down and the cache file holds the store. *)
Theorem dimension_interrupted_run :
  forall JSON_stringify JSON_parse (st : Dimension.State) n ev st',
    Dimension.reachable JSON_stringify JSON_parse st ->
    refused ev ->
    Dimension.resume JSON_stringify n ev st = Some st' ->
    Dimension.runs st' = []
    /\ Dimension.fetchInProgress st' = false
    /\ Dimension.dimensionCache st' = Dimension.dimensionCache st
    /\ Dimension.fetchedCount st' = Dimension.fetchedCount st
    /\ Dimension.totalToFetch st' = Dimension.totalToFetch st
    /\ Dimension.fetchedCount st' < Dimension.totalToFetch st'
    /\ Fs.cacheFile (Dimension.fs st')
       = Some (JSON_stringify (Dimension.dimensionCache st')).
Proof.
  intros JS JP st n ev st' Hreach Href Hres.
  pose proof (dim_resume_refused JS st n ev st' Href Hres) as ->.
  apply dim_reachable_inv in Hreach. destruct Hreach as (_ & Hrun).
  unfold Dimension.resume in Hres.
  destruct (Dimension.fetchInProgress st).
  2:{ rewrite Hrun, lookup_nil in Hres. discriminate. }
  destruct Hrun as (r & Hr & (Hn & Hw & Hi & Hpace) & Ht & Hpr).
  rewrite Hr in Hres. destruct n as [|n]; [|discriminate].
  cbn [lookup list_lookup] in Hres.
  cbn [Dimension.finish Dimension.removeRun Dimension.saveCache Dimension.setRuns
       Dimension.setFs Dimension.setInProgress Dimension.runs Dimension.fetchInProgress
       Dimension.dimensionCache Dimension.fetchedCount Dimension.totalToFetch
       Dimension.fs Fs.writeFileSync Fs.cacheFile].
  rewrite Hr. repeat split.
  rewrite Hpr, Ht. unfold DimensionInv.progressOf.
  destruct (Dimension.run_await r); try lia.
  destruct Href as [-> | [body ->]]; discriminate.
Qed.

Lemma dimension_interrupted_run_witness :
  Dimension.fetchedCount (Dimension.finish Json.stringifyBoxes 0 Started.dimension)
  < Dimension.totalToFetch (Dimension.finish Json.stringifyBoxes 0 Started.dimension).
Proof.
  apply (dimension_interrupted_run Json.stringifyBoxes Json.parseBoxes Started.dimension
           0%nat (EvFetch (Response 401 ""))).
  - exact reachable_started_dimension.
  - right. eexists. reflexivity.
  - reflexivity.
Defined.

(** X7: the same for the expansion coordinator when a request does not come
    back, or is refused after the trial batch: the method, the cache and
    [fetched] stay as they were, [fetched] strictly below [total]. *)
Theorem expansion_interrupted_run :
  forall JSON_stringify JSON_parse (st : Expansion.State) n r ev st',
    Expansion.reachable JSON_stringify JSON_parse st ->
    Expansion.runs st !! n = Some r ->
    cutsShort r ev ->
    Expansion.resume JSON_stringify n ev st = Some st' ->
    Expansion.runs st' = []
    /\ Expansion.fetchInProgress st' = false
    /\ Expansion.expansionCache st' = Expansion.expansionCache st
    /\ Expansion.usedMethod st' = Expansion.usedMethod st
    /\ Expansion.fetchedCount st' = Expansion.fetchedCount st
    /\ Expansion.totalToFetch st' = Expansion.totalToFetch st
    /\ Expansion.fetchedCount st' < Expansion.totalToFetch st'
    /\ Fs.cacheFile (Expansion.fs st')
       = Some (JSON_stringify (Expansion.expansionCache st')).
Proof.
  intros JS JP st n r ev st' Hreach Hn Hcut Hres.
  apply reachable_inv in Hreach. destruct Hreach as (_ & Hrun).
  destruct (Expansion.fetchInProgress st).
  2:{ rewrite Hrun, lookup_nil in Hn. discriminate. }
  destruct Hrun as (r0 & Hr & (Hne & Hw & Hph) & Ht & Hpr).
  rewrite Hr in Hn. destruct n as [|n]; [|discriminate].
  injection Hn as ->.
  assert (Hfin : st' = Expansion.finish JS 0 st
                 /\ exists a, Expansion.run_await r = AwaitFetch a).
  { unfold Expansion.resume in Hres. rewrite Hr in Hres. cbn [lookup list_lookup] in Hres.
    destruct Hcut as [-> | [[body ->] [i Hi]]];
      destruct (Expansion.run_await r) as [a| |]; try discriminate.
    - injection Hres as <-. eauto.
    - rewrite onResponse_401 in Hres. unfold Expansion.onBatch in Hres.
      rewrite Hi in Hres. injection Hres as <-. eauto. }
  destruct Hfin as [-> [a Ha]].
  cbn [Expansion.finish Expansion.removeRun Expansion.saveCache Expansion.setRuns
       Expansion.setFs Expansion.setInProgress Expansion.runs Expansion.fetchInProgress
       Expansion.expansionCache Expansion.fetchedCount Expansion.totalToFetch
       Expansion.usedMethod Expansion.fs Fs.writeFileSync Fs.cacheFile].
  rewrite Hr. repeat split.
  rewrite Hpr, Ht. unfold ExpansionInv.progressOf. rewrite Ha.
  destruct (Expansion.run_phase r) as [|i].
  - destruct (Expansion.run_needed r); [contradiction | cbn [length]; lia].
  - destruct Hph as [Hi _]. pose proof (length_remaining r ltac:(lia)).
    unfold Expansion.BATCH_SIZE. lia.
Qed.

Lemma expansion_interrupted_run_witness :
  Expansion.fetchedCount (Expansion.finish Json.stringifyLinks 0 Started.expansion)
  < Expansion.totalToFetch (Expansion.finish Json.stringifyLinks 0 Started.expansion).
Proof.
  apply (expansion_interrupted_run Json.stringifyLinks Json.parseLinks Started.expansion
           0%nat (Expansion.mkRun [13; 822] None [13; 822] Expansion.Trial (AwaitFetch 0))
           (EvFetch NetworkError)).
  - exact reachable_started_expansion.
  - reflexivity.
  - left. reflexivity.
  - reflexivity.
Defined.

(** X8: the end of a run, however it comes (the last batch, a refusal, a
    request which does not come back), leaves the in-progress flag down and
    the cache file holding the serialized store, for both coordinators. *)
Theorem run_end_flushes :
  (forall JSON_stringify (st : Expansion.State) n ev st',
      Expansion.resume JSON_stringify n ev st = Some st' ->
      (length (Expansion.runs st') < length (Expansion.runs st))%nat ->
      Expansion.fetchInProgress st' = false
      /\ Fs.cacheFile (Expansion.fs st')
         = Some (JSON_stringify (Expansion.expansionCache st')))
  /\ (forall JSON_stringify (st : Dimension.State) n ev st',
         Dimension.resume JSON_stringify n ev st = Some st' ->
         (length (Dimension.runs st') < length (Dimension.runs st))%nat ->
         Dimension.fetchInProgress st' = false
         /\ Fs.cacheFile (Dimension.fs st')
            = Some (JSON_stringify (Dimension.dimensionCache st'))).
Proof.
  split.
  - intros JS st n ev st' Hres Hlen.
    assert (Hkeep : forall r' s, length (Expansion.runs (Expansion.updateRun n r' s))
                                 = length (Expansion.runs s)).
    { intros r' s. cbn [Expansion.updateRun Expansion.setRuns Expansion.runs].
      apply length_insert. }
    assert (Hfin : forall s, Expansion.fetchInProgress (Expansion.finish JS n s) = false
                             /\ Fs.cacheFile (Expansion.fs (Expansion.finish JS n s))
                                = Some (JS (Expansion.expansionCache
                                              (Expansion.finish JS n s)))).
    { intros s. split; reflexivity. }
    assert (Hloop : forall r i s,
               (length (Expansion.runs (Expansion.loopHead JS n r i s))
                < length (Expansion.runs st))%nat ->
               length (Expansion.runs s) = length (Expansion.runs st) ->
               Expansion.fetchInProgress (Expansion.loopHead JS n r i s) = false
               /\ Fs.cacheFile (Expansion.fs (Expansion.loopHead JS n r i s))
                  = Some (JS (Expansion.expansionCache (Expansion.loopHead JS n r i s)))).
    { intros r i s. unfold Expansion.loopHead.
      destruct (i <? length (Expansion.remaining r))%nat; [|intros; apply Hfin].
      rewrite Hkeep. cbn [Expansion.emit Expansion.runs]. lia. }
    assert (Hbatch : forall r res,
               (length (Expansion.runs (Expansion.onBatch JS n r res st))
                < length (Expansion.runs st))%nat ->
               Expansion.fetchInProgress (Expansion.onBatch JS n r res st) = false
               /\ Fs.cacheFile (Expansion.fs (Expansion.onBatch JS n r res st))
                  = Some (JS (Expansion.expansionCache (Expansion.onBatch JS n r res st)))).
    { intros r res. unfold Expansion.onBatch.
      destruct (Expansion.run_phase r) as [|i], res as [links|]; try (intros; apply Hfin).
      - intros H. apply Hloop; [assumption | reflexivity].
      - destruct (i + Expansion.BATCH_SIZE <? length (Expansion.remaining r))%nat.
        + rewrite Hkeep. cbn [Expansion.emit Expansion.runs Expansion.saveCache
                               Expansion.setFs Expansion.setFetched Expansion.mergeEntries
                               Expansion.setCache]. lia.
        + intros H. apply Hloop; [assumption | reflexivity]. }
    unfold Expansion.resume in Hres.
    destruct (Expansion.runs st !! n) as [r|]; [|discriminate].
    destruct (Expansion.run_await r) as [a|a|], ev as [[status body|]|]; try discriminate.
    + destruct (Client.onResponse Expansion.parseExpansionXml ∅ a status body) as [res|ms];
        injection Hres as <-.
      * apply Hbatch. assumption.
      * rewrite Hkeep in Hlen. cbn [Expansion.emit Expansion.runs] in Hlen. lia.
    + injection Hres as <-. apply Hfin.
    + destruct (S a <=? length Client.backoff)%nat; injection Hres as <-.
      * rewrite Hkeep in Hlen. cbn [Expansion.emit Expansion.runs] in Hlen. lia.
      * apply Hbatch. assumption.
    + destruct (Expansion.run_phase r) as [|i]; [discriminate|]. injection Hres as <-.
      apply Hloop; [assumption | reflexivity].
  - intros JS st n ev st' Hres Hlen.
    assert (Hkeep : forall r' s, length (Dimension.runs (Dimension.updateRun n r' s))
                                 = length (Dimension.runs s)).
    { intros r' s. cbn [Dimension.updateRun Dimension.setRuns Dimension.runs].
      apply length_insert. }
    assert (Hfin : forall s, Dimension.fetchInProgress (Dimension.finish JS n s) = false
                             /\ Fs.cacheFile (Dimension.fs (Dimension.finish JS n s))
                                = Some (JS (Dimension.dimensionCache
                                              (Dimension.finish JS n s)))).
    { intros s. split; reflexivity. }
    assert (Hloop : forall needed i s,
               (length (Dimension.runs (Dimension.loopHead JS n needed i s))
                < length (Dimension.runs st))%nat ->
               length (Dimension.runs s) = length (Dimension.runs st) ->
               Dimension.fetchInProgress (Dimension.loopHead JS n needed i s) = false
               /\ Fs.cacheFile (Dimension.fs (Dimension.loopHead JS n needed i s))
                  = Some (JS (Dimension.dimensionCache
                                (Dimension.loopHead JS n needed i s)))).
    { intros needed i s. unfold Dimension.loopHead.
      destruct (i <? length needed)%nat; [|intros; apply Hfin].
      rewrite Hkeep. cbn [Dimension.emit Dimension.runs]. lia. }
    assert (Hbatch : forall r res,
               (length (Dimension.runs (Dimension.onBatch JS n r res st))
                < length (Dimension.runs st))%nat ->
               Dimension.fetchInProgress (Dimension.onBatch JS n r res st) = false
               /\ Fs.cacheFile (Dimension.fs (Dimension.onBatch JS n r res st))
                  = Some (JS (Dimension.dimensionCache (Dimension.onBatch JS n r res st)))).
    { intros r res. unfold Dimension.onBatch.
      destruct res as [dims|]; try (intros; apply Hfin).
      destruct (Dimension.run_i r + Dimension.BATCH_SIZE
                <? length (Dimension.run_needed r))%nat.
      - rewrite Hkeep. cbn [Dimension.emit Dimension.runs Dimension.saveCache
                             Dimension.setFs Dimension.setFetched Dimension.mergeEntries
                             Dimension.setCache]. lia.
      - intros H. apply Hloop; [assumption | reflexivity]. }
    unfold Dimension.resume in Hres.
    destruct (Dimension.runs st !! n) as [r|]; [|discriminate].
    destruct (Dimension.run_await r) as [a|a|], ev as [[status body|]|]; try discriminate.
    + destruct (Client.onResponse Dimension.parseDimensionsXml ∅ a status body) as [res|ms];
        injection Hres as <-.
      * apply (Hbatch r res). exact Hlen.
      * rewrite Hkeep in Hlen. cbn [Dimension.emit Dimension.runs] in Hlen. lia.
    + injection Hres as <-. apply Hfin.
    + destruct (S a <=? length Client.backoff)%nat; injection Hres as <-.
      * rewrite Hkeep in Hlen. cbn [Dimension.emit Dimension.runs] in Hlen. lia.
      * apply (Hbatch r (Some ∅)). exact Hlen.
    + injection Hres as <-. apply Hloop; [assumption | reflexivity].
Qed.

Lemma run_end_flushes_witness :
  Fs.cacheFile (Expansion.fs (Expansion.finish Json.stringifyLinks 0 Started.expansion))
  = Some (Json.stringifyLinks
            (Expansion.expansionCache
               (Expansion.finish Json.stringifyLinks 0 Started.expansion)))
  /\ Fs.cacheFile (Dimension.fs (Dimension.finish Json.stringifyBoxes 0 Started.dimension))
     = Some (Json.stringifyBoxes
               (Dimension.dimensionCache
                  (Dimension.finish Json.stringifyBoxes 0 Started.dimension))).
Proof.
  destruct run_end_flushes as [He Hd]. split.
  - apply (He Json.stringifyLinks Started.expansion 0%nat (EvFetch NetworkError)).
    + reflexivity.
    + vm_compute. lia.
  - apply (Hd Json.stringifyBoxes Started.dimension 0%nat (EvFetch NetworkError)).
    + reflexivity.
    + vm_compute. lia.
Defined.

(** ** More of the catalog client *)


Section ClientMore.
Context {R : Type} (parse : string -> R) (empty : R).

(** [k] retries answered 202 and then an answer which ends the call. *)
Lemma attempts_then_return net n a k status body r :
  (a + k < n + a)%nat -> (a + k <= 3)%nat ->
  (forall j, (a <= j < a + k)%nat -> exists b, net j = Response 202 b) ->
  net (a + k)%nat = Response status body ->
  Client.onResponse parse empty (a + k) status body = Client.Return r ->
  Client.attempts parse empty net n a
  = (Client.Returned r, take k (drop a Client.backoff)).
Proof.
  revert n a. induction k as [|k IH]; intros n a Hn Ha Hall Hk Hret.
  - destruct n as [|n]; [lia|]. cbn [Client.attempts]. rewrite Nat.add_0_r in Hk, Hret.
    rewrite Hk, Hret. rewrite take_0. reflexivity.
  - destruct n as [|n]; [lia|]. cbn [Client.attempts].
    destruct (Hall a) as [b Hb]; [lia|]. rewrite Hb.
    rewrite onResponse_202 by lia.
    rewrite (IH n (S a)); try lia.
    + destruct a as [|[|[|a]]]; try lia; reflexivity.
    + intros j Hj. apply Hall. lia.
    + rewrite <- Hk. f_equal. lia.
    + rewrite <- Hret. f_equal. lia.
Qed.

Lemma attempts_then_rejected net n a k :
  (a + k < n + a)%nat -> (a + k <= 3)%nat ->
  (forall j, (a <= j < a + k)%nat -> exists b, net j = Response 202 b) ->
  net (a + k)%nat = NetworkError ->
  Client.attempts parse empty net n a
  = (Client.Rejected, take k (drop a Client.backoff)).
Proof.
  revert n a. induction k as [|k IH]; intros n a Hn Ha Hall Hk.
  - destruct n as [|n]; [lia|]. cbn [Client.attempts]. rewrite Nat.add_0_r in Hk.
    rewrite Hk. rewrite take_0. reflexivity.
  - destruct n as [|n]; [lia|]. cbn [Client.attempts].
    destruct (Hall a) as [b Hb]; [lia|]. rewrite Hb.
    rewrite onResponse_202 by lia.
    rewrite (IH n (S a)); try lia.
    + destruct a as [|[|[|a]]]; try lia; reflexivity.
    + intros j Hj. apply Hall. lia.
    + rewrite <- Hk. f_equal. lia.
Qed.

Lemma attempts_ext net net' n a :
  (forall j, (a <= j < a + n)%nat -> net j = net' j) ->
  Client.attempts parse empty net n a = Client.attempts parse empty net' n a.
Proof.
  revert a. induction n as [|n IH]; intros a Hext; [reflexivity|].
  cbn [Client.attempts]. rewrite <- (Hext a) by lia.
  destruct (net a) as [status body|]; [|reflexivity].
  destruct (Client.onResponse parse empty a status body); [reflexivity|].
  rewrite IH; [reflexivity|]. intros j Hj. apply Hext. lia.
Qed.
End ClientMore.

(** X9: a call of the catalog client ends with the first answer which is
    not a 202: after [k <= 3] retries, a 200 gives the parsed body, a 401
    gives [null] and a request which does not come back makes the call
    reject, each after the first [k] delays of the ladder and no more. *)
Theorem client_answer_after_retries :
  forall {R : Type} (parse : string -> R) (empty : R) ids net k,
    (k <= 3)%nat ->
    (forall j, (j < k)%nat -> exists b, net j = Response 202 b) ->
    (forall body, net k = Response 200 body ->
       Client.fetchBatch parse empty ids net
       = (Client.Returned (Some (parse body)), take k Client.backoff))
    /\ (forall body, net k = Response 401 body ->
          Client.fetchBatch parse empty ids net
          = (Client.Returned None, take k Client.backoff))
    /\ (net k = NetworkError ->
          Client.fetchBatch parse empty ids net
          = (Client.Rejected, take k Client.backoff)).
Proof.
  intros R parse empty ids net k Hk Hall.
  assert (Hall' : forall j, (0 <= j < 0 + k)%nat -> exists b, net j = Response 202 b)
    by (intros j Hj; apply Hall; lia).
  unfold Client.fetchBatch. repeat split.
  - intros body Hb.
    apply (attempts_then_return parse empty net 4 0 k 200 body); try assumption; try lia.
    reflexivity.
  - intros body Hb.
    apply (attempts_then_return parse empty net 4 0 k 401 body); try assumption; try lia.
    reflexivity.
  - intros Hb.
    apply (attempts_then_rejected parse empty net 4 0 k); try assumption; lia.
Qed.

(** X10: a call asks the service at most four times: its outcome and its
    delays depend on the first four answers only. *)
Theorem client_asks_at_most_four_times :
  forall {R : Type} (parse : string -> R) (empty : R) ids net net',
    (forall j, (j < 4)%nat -> net j = net' j) ->
    Client.fetchBatch parse empty ids net = Client.fetchBatch parse empty ids net'.
Proof.
  intros R parse empty ids net net' Hext. unfold Client.fetchBatch.
  apply attempts_ext. intros j Hj. apply Hext. cbn in Hj. lia.
Qed.

Lemma client_answer_after_retries_witness :
  Client.fetchBatch Expansion.parseExpansionXml ∅ [13] Started.twiceBusy
  = (Client.Returned (Some (Expansion.parseExpansionXml "")), [2000; 4000]).
Proof.
  apply (proj1 (client_answer_after_retries Expansion.parseExpansionXml ∅ [13]
                  Started.twiceBusy 2%nat ltac:(lia)
                  ltac:(intros [|[|j]] Hj; [eexists; reflexivity .. | lia]))
               "" eq_refl).
Defined.

Lemma client_asks_at_most_four_times_witness :
  Client.fetchBatch Dimension.parseDimensionsXml ∅ [13] Sample.alwaysBusy
  = Client.fetchBatch Dimension.parseDimensionsXml ∅ [13] Started.busyThenBroken.
Proof.
  apply client_asks_at_most_four_times.
  intros [|[|[|[|j]]]] Hj; try reflexivity. lia.
Defined.

(** ** More of the heuristic matcher *)

Section HeuristicSound.
Import Heuristic HeuristicSpec.
Variable games : list Game.

Lemma groupPush_keyed prefix g groups :
  In g games -> candidatePrefix (name g) = Some prefix ->
  Forall (fun e => Forall (fun g => In g games
                                    /\ candidatePrefix (name g) = Some (fst e)) (snd e))
         groups ->
  Forall (fun e => Forall (fun g => In g games
                                    /\ candidatePrefix (name g) = Some (fst e)) (snd e))
         (groupPush prefix g groups).
Proof.
  intros Hg Hp. induction groups as [|[p gs] rest IH]; cbn [groupPush]; intros Hall.
  - repeat constructor; assumption.
  - apply Forall_cons_iff in Hall as [Hgs Hrest]. cbn [fst snd] in Hgs.
    destruct (String.eqb_spec p prefix) as [->|Hne].
    + constructor; [cbn [fst snd] | assumption].
      apply Forall_app; split; [assumption | repeat constructor; assumption].
    + constructor; [assumption | apply IH; assumption].
Qed.

Lemma scanGame_keyed t game :
  In game games -> keyed games t -> keyed games (scanGame t game).
Proof.
  intros Hg [Hn Hp]. unfold scanGame.
  assert (Hn' : forall k g,
             <[Js.toLowerCase (name game) := game]> (nameToGame t) !! k = Some g ->
             In g games /\ Js.toLowerCase (name g) = k).
  { intros k g. rewrite lookup_insert. case_decide as Hk; [|apply Hn].
    intros [= <-]. split; [assumption | exact Hk]. }
  destruct (candidatePrefix (name game)) as [prefix|] eqn:Hc; split;
    cbn [nameToGame prefixGroups]; try assumption.
  apply groupPush_keyed; assumption.
Qed.

Lemma buildTables_keyed l :
  (forall g, In g l -> In g games) -> keyed games (buildTables l).
Proof.
  unfold buildTables.
  assert (Hgen : forall t, keyed games t -> (forall g, In g l -> In g games) ->
                           keyed games (fold_left scanGame l t)).
  { induction l as [|g r IH]; cbn [fold_left]; intros t Ht Hall; [assumption|].
    apply IH; [|intros g' Hg'; apply Hall; right; assumption].
    apply scanGame_keyed; [apply Hall; left; reflexivity | assumption]. }
  intros Hall. apply Hgen; [|assumption].
  split; cbn [nameToGame prefixGroups];
    [intros k g; rewrite lookup_empty; discriminate | constructor].
Qed.

Lemma flagged_intro game base prefix :
  In game games -> In base games -> bggId base <> bggId game ->
  candidatePrefix (name game) = Some prefix ->
  (Js.toLowerCase (name base) = prefix \/ candidatePrefix (name base) = Some prefix) ->
  flagged games game base.
Proof. intros. unfold flagged. eauto 10. Qed.

Lemma sound_insert result game base :
  flagged games game base -> sound games result ->
  sound games (<[bggId game := linkTo base]> result).
Proof.
  intros Hf Hr id links. rewrite lookup_insert. case_decide as Hk; [|apply Hr].
  intros [= <-]. exists game, base. auto.
Qed.

Lemma flagOthers_sound base groupGames result :
  (forall game, In game groupGames -> bggId game <> bggId base ->
                flagged games game base) ->
  sound games result -> sound games (flagOthers base groupGames result).
Proof.
  unfold flagOthers. revert result.
  induction groupGames as [|g r IH]; cbn [fold_left]; intros result Hall Hr; [assumption|].
  apply IH; [intros game Hin; apply Hall; right; assumption|].
  destruct (Z.eqb_spec (bggId g) (bggId base)) as [Heq|Hne]; [assumption|].
  apply sound_insert; [|assumption]. apply Hall; [left; reflexivity | assumption].
Qed.

Lemma visitGroup_sound n2g result entry :
  (forall k g, n2g !! k = Some g -> In g games /\ Js.toLowerCase (name g) = k) ->
  Forall (fun g => In g games /\ candidatePrefix (name g) = Some (fst entry)) (snd entry) ->
  sound games result -> sound games (visitGroup n2g result entry).
Proof.
  intros Hn He Hr. destruct entry as [prefix groupGames]. cbn [fst snd visitGroup] in *.
  rewrite List.Forall_forall in He.
  destruct (length groupGames <? 2)%nat.
  - destruct (n2g !! prefix) as [bareBase|] eqn:Hb; [|assumption].
    destruct groupGames as [|g0 rest]; [assumption|].
    destruct (Z.eqb_spec (bggId bareBase) (bggId g0)) as [Heq|Hne]; [assumption|].
    cbn [negb]. apply sound_insert; [|assumption].
    destruct (Hn _ _ Hb) as [Hin Hname].
    destruct (He g0 (or_introl eq_refl)) as [Hin0 Hp0].
    apply (flagged_intro g0 bareBase prefix); auto.
  - destruct (n2g !! prefix) as [bareBase|] eqn:Hb.
    + destruct (Hn _ _ Hb) as [Hin Hname].
      apply flagOthers_sound; [|assumption].
      intros game Hg Hne. destruct (He game Hg) as [Hing Hpg].
      apply (flagged_intro game bareBase prefix); auto.
    + match goal with
      | |- context [head ?l] => destruct (head l) as [base|] eqn:Hh
      end; [|assumption].
      apply head_Some_elem_of, list_elem_of_In, Array_sort_In in Hh.
      destruct (He base Hh) as [Hinb Hpb].
      apply flagOthers_sound; [|assumption].
      intros game Hg Hne. destruct (He game Hg) as [Hing Hpg].
      apply (flagged_intro game base prefix); auto.
Qed.

Lemma analyzeByNamePrefix_sound : sound games (analyzeByNamePrefix games).
Proof.
  unfold analyzeByNamePrefix.
  destruct (buildTables_keyed games (fun g H => H)) as [Hn Hp].
  set (t := buildTables games) in *.
  assert (Hgen : forall groups result,
             Forall (fun e => Forall (fun g => In g games
                                               /\ candidatePrefix (name g) = Some (fst e))
                                     (snd e)) groups ->
             sound games result ->
             sound games (fold_left (visitGroup (nameToGame t)) groups result)).
  { induction groups as [|e r IH]; cbn [fold_left]; intros result Hg Hr; [assumption|].
    apply Forall_cons_iff in Hg as [He Hrest]. apply IH; [assumption|].
    apply visitGroup_sound; assumption. }
  apply Hgen; [assumption|].
  intros id links. rewrite lookup_empty. discriminate.
Qed.

End HeuristicSound.

(** X11: on a collection whose names are ASCII text, every entry of the
    result of [analyzeByNamePrefix] rests on the names: its key is the
    identifier of a game of the input whose name has a separator with at
    least three characters before it; its value is one link, to a game of
    the input with another identifier which is named as that prefix (letter
    case apart) or whose own name starts with the same prefix before its
    separator. *)
Theorem heuristic_flags_are_founded :
  forall (games : list Game) id links,
    Forall (fun g => Text.isAscii (name g) = true) games ->
    Heuristic.analyzeByNamePrefix games !! id = Some links ->
    exists game base prefix,
      In game games /\ In base games
      /\ bggId game = id /\ bggId base <> id
      /\ links = [mkLink (bggId base) (name base)]
      /\ Heuristic.candidatePrefix (name game) = Some prefix
      /\ (Js.toLowerCase (name base) = prefix
          \/ Heuristic.candidatePrefix (name base) = Some prefix).
Proof.
  intros games id links _ H.
  destruct (analyzeByNamePrefix_sound games id links H)
    as (game & base & Hid & Hl & Hg & Hb & Hne & prefix & Hp & Hrel).
  exists game, base, prefix. subst id. repeat split; assumption.
Qed.

Lemma heuristic_flags_are_founded_witness :
  exists game base prefix,
    In game Sample.fallbackItems /\ In base Sample.fallbackItems
    /\ bggId game = 4390 /\ bggId base <> 4390
    /\ [mkLink 822 "Carcassonne"] = [mkLink (bggId base) (name base)]
    /\ Heuristic.candidatePrefix (name game) = Some prefix
    /\ (Js.toLowerCase (name base) = prefix
        \/ Heuristic.candidatePrefix (name base) = Some prefix).
Proof.
  apply (heuristic_flags_are_founded Sample.fallbackItems 4390 [mkLink 822 "Carcassonne"]).
  - repeat constructor.
  - vm_compute. reflexivity.
Defined.

Section HeuristicComplete.
Import Heuristic HeuristicSpec HeuristicRule.

Lemma groupPush_at prefix q g groups :
  groupAt prefix (groupPush q g groups)
  = if String.eqb q prefix then groupAt prefix groups ++ [g] else groupAt prefix groups.
Proof.
  induction groups as [|[p gs] rest IH]; cbn [groupPush groupAt].
  - destruct (String.eqb q prefix); reflexivity.
  - destruct (String.eqb_spec p q) as [->|Hpq]; cbn [groupAt].
    + destruct (String.eqb q prefix); reflexivity.
    + destruct (String.eqb_spec p prefix) as [->|Hpp].
      * destruct (String.eqb_spec q prefix) as [->|]; [contradiction | reflexivity].
      * exact IH.
Qed.

Lemma groupPush_keys q g groups :
  forall k, In k (map fst (groupPush q g groups)) <-> k = q \/ In k (map fst groups).
Proof.
  induction groups as [|[p gs] rest IH]; intros k; cbn [groupPush map fst In].
  - intuition congruence.
  - destruct (String.eqb_spec p q) as [->|Hpq]; cbn [map fst In].
    + intuition congruence.
    + rewrite IH. intuition congruence.
Qed.

Lemma groupPush_tidy q g groups : tidy groups -> tidy (groupPush q g groups).
Proof.
  intros [Hnd Hne]. split.
  - induction groups as [|[p gs] rest IH]; cbn [groupPush map fst].
    + constructor; [intros [] | constructor].
    + apply List.NoDup_cons_iff in Hnd as [Hp Hr].
      apply Forall_cons_iff in Hne as [_ Hne].
      destruct (String.eqb_spec p q) as [->|Hpq]; cbn [map fst].
      * constructor; assumption.
      * constructor; [|apply IH; assumption].
        rewrite groupPush_keys. intros [H|H]; [congruence | contradiction].
  - clear Hnd. induction groups as [|[p gs] rest IH]; cbn [groupPush].
    + repeat constructor. discriminate.
    + apply Forall_cons_iff in Hne as [Hgs Hne].
      destruct (String.eqb p q); constructor; cbn [snd] in *; auto.
      intros H. apply app_eq_nil in H as [_ H]. discriminate.
Qed.

Lemma tidy_entry groups p gs :
  tidy groups -> In (p, gs) groups -> groupAt p groups = gs /\ gs <> [].
Proof.
  intros [Hnd Hne] Hin. split.
  - induction groups as [|[p' gs'] rest IH]; [contradiction|].
    cbn [groupAt]. apply List.NoDup_cons_iff in Hnd as [Hp Hr].
    apply Forall_cons_iff in Hne as [_ Hne].
    destruct Hin as [[= -> ->]|Hin].
    + rewrite String.eqb_refl. reflexivity.
    + destruct (String.eqb_spec p' p) as [->|Hpp]; [|apply IH; assumption].
      exfalso. apply Hp. apply in_map_iff. exists (p, gs). auto.
  - rewrite List.Forall_forall in Hne. apply (Hne (p, gs) Hin).
Qed.

Lemma groupAt_entry groups p :
  groupAt p groups <> [] -> In (p, groupAt p groups) groups.
Proof.
  induction groups as [|[p' gs'] rest IH]; cbn [groupAt]; [contradiction|].
  destruct (String.eqb_spec p' p) as [->|Hpp]; [left; reflexivity|].
  intros H. right. apply IH. assumption.
Qed.

(** The tables after the first loop. *)
Lemma scan_tables (l : list Game) : forall t,
  tidy (prefixGroups t) ->
  let t' := fold_left scanGame l t in
  tidy (prefixGroups t')
  /\ (forall k, nameToGame t' !! k
                = match named l k with Some g => Some g | None => nameToGame t !! k end)
  /\ (forall p, groupAt p (prefixGroups t') = groupAt p (prefixGroups t) ++ groupOf l p).
Proof.
  induction l as [|g r IH]; intros t Ht; cbn [fold_left].
  - split; [assumption|]. split; [reflexivity|]. intros p. cbn. rewrite app_nil_r. reflexivity.
  - destruct (IH (scanGame t g)) as (Ht' & Hn & Hg).
    { unfold scanGame. destruct (candidatePrefix (name g)); cbn [prefixGroups];
        [apply groupPush_tidy|]; assumption. }
    split; [assumption|]. split.
    + intros k. rewrite Hn. unfold named. cbn [List.filter].
      destruct (String.eqb_spec (Js.toLowerCase (name g)) k) as [Hk|Hk].
      * destruct (List.filter _ r) as [|x xs] eqn:Hf.
        -- cbn. unfold scanGame.
           destruct (candidatePrefix (name g)); cbn [nameToGame];
             rewrite Hk; apply lookup_insert_eq.
        -- cbn [last]. destruct (last (x :: xs)) eqn:Hl; [reflexivity|].
           exfalso. revert Hl. clear. revert x.
           induction xs as [|y ys IHx]; intros x; cbn [last]; [discriminate | apply IHx].
      * destruct (last (List.filter _ r)); [reflexivity|].
        unfold scanGame. destruct (candidatePrefix (name g)); cbn [nameToGame];
          apply lookup_insert_ne; assumption.
    + intros p. rewrite Hg. unfold groupOf, hasPrefix. cbn [List.filter].
      unfold scanGame. destruct (candidatePrefix (name g)) as [q|]; cbn [prefixGroups].
      * rewrite groupPush_at. destruct (String.eqb q p); [|reflexivity].
        rewrite <- app_assoc. reflexivity.
      * reflexivity.
Qed.

Lemma buildTables_spec (games : list Game) :
  tidy (prefixGroups (buildTables games))
  /\ (forall k, nameToGame (buildTables games) !! k = named games k)
  /\ (forall p, groupAt p (prefixGroups (buildTables games)) = groupOf games p).
Proof.
  unfold buildTables.
  destruct (scan_tables games (mkTables ∅ [])) as (Ht & Hn & Hg).
  { split; [constructor | constructor]. }
  split; [assumption|]. split.
  - intros k. rewrite Hn. cbn [nameToGame]. rewrite lookup_empty.
    destruct (named games k); reflexivity.
  - intros p. rewrite Hg. reflexivity.
Qed.

(** What the second loop leaves under one key. *)
Lemma flagOthers_lookup base gs result id :
  flagOthers base gs result !! id
  = if existsb (fun x => (bggId x =? id) && negb (bggId x =? bggId base))%bool gs
    then Some (linkTo base) else result !! id.
Proof.
  unfold flagOthers. revert result.
  induction gs as [|x r IH]; intros result; cbn [fold_left existsb]; [reflexivity|].
  rewrite IH. destruct (existsb _ r); [rewrite orb_true_r; reflexivity|].
  rewrite orb_false_r.
  destruct (Z.eqb_spec (bggId x) (bggId base)) as [Hb|Hb]; cbn [negb].
  - rewrite andb_false_r. reflexivity.
  - rewrite andb_true_r. destruct (Z.eqb_spec (bggId x) id) as [<-|Hx].
    + apply lookup_insert_eq.
    + apply lookup_insert_ne. assumption.
Qed.

Lemma visitGroup_other n2g result entry id :
  (forall x, In x (snd entry) -> bggId x <> id) ->
  visitGroup n2g result entry !! id = result !! id.
Proof.
  intros Hno. destruct entry as [p gs]. cbn [snd visitGroup] in *.
  assert (Hex : forall base,
             existsb (fun x => (bggId x =? id) && negb (bggId x =? bggId base))%bool gs
             = false).
  { intros base. apply not_true_is_false. intros H. apply existsb_exists in H as (x & Hx & Hc).
    apply andb_true_iff in Hc as [Hc _]. apply Z.eqb_eq in Hc. apply (Hno x Hx Hc). }
  destruct (length gs <? 2)%nat.
  - destruct (n2g !! p) as [bare|]; [|reflexivity].
    destruct gs as [|g0 rest]; [reflexivity|].
    destruct (negb (bggId bare =? bggId g0)); [|reflexivity].
    apply lookup_insert_ne. apply Hno. left. reflexivity.
  - destruct (n2g !! p) as [bare|].
    + rewrite flagOthers_lookup, Hex. reflexivity.
    + destruct (head _) as [base|]; [|reflexivity].
      rewrite flagOthers_lookup, Hex. reflexivity.
Qed.

Lemma fold_visit_other n2g groups : forall result id,
  (forall e x, In e groups -> In x (snd e) -> bggId x <> id) ->
  fold_left (visitGroup n2g) groups result !! id = result !! id.
Proof.
  induction groups as [|e r IH]; intros result id Hno; cbn [fold_left]; [reflexivity|].
  rewrite IH by (intros e' x He'; apply Hno; right; assumption).
  apply visitGroup_other. intros x Hx. apply (Hno e x); [left; reflexivity | assumption].
Qed.


Lemma existsb_flag (gs : list Game) (g base : Game) :
  In g gs ->
  existsb (fun x => (bggId x =? bggId g) && negb (bggId x =? bggId base))%bool gs
  = negb (bggId g =? bggId base).
Proof.
  intros Hin. destruct (Z.eqb_spec (bggId g) (bggId base)) as [Heq|Hne]; cbn [negb].
  - apply not_true_is_false. intros H. apply existsb_exists in H as (x & _ & Hc).
    apply andb_true_iff in Hc as [H1 H2]. apply Z.eqb_eq in H1.
    apply negb_true_iff, Z.eqb_neq in H2. congruence.
  - apply existsb_exists. exists g. split; [assumption|].
    rewrite Z.eqb_refl. apply negb_true_iff, Z.eqb_neq. assumption.
Qed.

Lemma visitGroup_at n2g result p gs g :
  In g gs -> (length gs < 2 -> gs = [g])%nat -> result !! bggId g = None ->
  visitGroup n2g result (p, gs) !! bggId g
  = match match n2g !! p with
          | Some bare => Some bare
          | None => if (length gs <? 2)%nat then None
                    else head (Js.Array_sort byLength gs)
          end with
    | Some b => if bggId g =? bggId b then None else Some (linkTo b)
    | None => None
    end.
Proof.
  intros Hin Hone Hres. cbn [visitGroup].
  destruct (Nat.ltb_spec (length gs) 2) as [Hlt|Hge].
  - rewrite (Hone Hlt). destruct (n2g !! p) as [bare|]; [|assumption].
    rewrite (Z.eqb_sym (bggId bare) (bggId g)).
    destruct (bggId g =? bggId bare); cbn [negb]; [assumption | apply lookup_insert_eq].
  - destruct (n2g !! p) as [bare|].
    + rewrite flagOthers_lookup, existsb_flag by assumption.
      destruct (bggId g =? bggId bare); cbn [negb]; [assumption | reflexivity].
    + fold byLength. destruct (head (Js.Array_sort byLength gs)) as [base|]; [|assumption].
      rewrite flagOthers_lookup, existsb_flag by assumption.
      destruct (bggId g =? bggId base); cbn [negb]; [assumption | reflexivity].
Qed.

Lemma hasPrefix_self g p : candidatePrefix (name g) = Some p -> hasPrefix p g = true.
Proof. intros H. unfold hasPrefix. rewrite H. apply String.eqb_refl. Qed.

Lemma analyzeByNamePrefix_rule (games : list Game) (g : Game) :
  List.NoDup (map bggId games) -> In g games ->
  analyzeByNamePrefix games !! bggId g
  = match baseOf games g with Some b => Some (linkTo b) | None => None end.
Proof.
  intros Hnd Hg. unfold baseOf.
  destruct (candidatePrefix (name g)) as [p|] eqn:Hp.
  2:{ destruct (analyzeByNamePrefix games !! bggId g) as [links|] eqn:Hl; [|reflexivity].
      exfalso.
      destruct (analyzeByNamePrefix_sound games _ _ Hl)
        as (game & base & Hid & _ & Hin & _ & _ & prefix & Hpre & _).
      assert (game = g) as -> by (eapply NoDup_map_inj_In; eassumption).
      congruence. }
  destruct (buildTables_spec games) as (Htidy & Hn & Hgr).
  destruct (buildTables_keyed games games (fun x H => H)) as [_ Hkeyed].
  unfold analyzeByNamePrefix. set (t := buildTables games) in *.
  assert (Hmember : In g (groupOf games p)).
  { apply filter_In. split; [assumption | apply hasPrefix_self; assumption]. }
  assert (Hentry : In (p, groupOf games p) (prefixGroups t)).
  { rewrite <- Hgr. apply groupAt_entry. rewrite Hgr. intros H. rewrite H in Hmember.
    contradiction. }
  destruct (in_split _ _ Hentry) as (pre & post & Hsplit).
  assert (Hother : forall e x, In e (pre ++ post) -> In x (snd e) -> bggId x <> bggId g).
  { intros [q xs] x He Hx Hid. cbn [snd] in Hx.
    assert (Hin : In (q, xs) (prefixGroups t)).
    { rewrite Hsplit. apply in_app_or in He as [He|He]; apply in_or_app;
        [left | right; right]; assumption. }
    rewrite List.Forall_forall in Hkeyed. specialize (Hkeyed _ Hin).
    rewrite List.Forall_forall in Hkeyed. destruct (Hkeyed x Hx) as [Hxin Hxp].
    cbn [fst] in Hxp.
    assert (x = g) as -> by (eapply NoDup_map_inj_In; eassumption).
    assert (q = p) as -> by congruence.
    destruct Htidy as [Hkeys _]. rewrite Hsplit, map_app in Hkeys. cbn [map fst] in Hkeys.
    apply NoDup_remove_2 in Hkeys. apply Hkeys.
    rewrite <- map_app. apply in_map_iff. exists (p, xs). auto. }
  rewrite Hsplit, fold_left_app. cbn [fold_left].
  rewrite fold_visit_other
    by (intros e x He; apply Hother; apply in_or_app; right; assumption).
  rewrite visitGroup_at.
  - rewrite Hn.
    destruct (match named games p with
              | Some bare => Some bare
              | None => if (length (groupOf games p) <? 2)%nat then None
                        else head (Js.Array_sort byLength (groupOf games p))
              end) as [b|]; [|reflexivity].
    destruct (bggId g =? bggId b); reflexivity.
  - assumption.
  - intros Hlt. destruct (groupOf games p) as [|x [|y r]]; cbn [length] in Hlt; try lia.
    + contradiction.
    + destruct Hmember as [->|[]]. reflexivity.
  - rewrite fold_visit_other
      by (intros e x He; apply Hother; apply in_or_app; left; assumption).
    apply lookup_empty.
Qed.

End HeuristicComplete.

(** X21: on a collection whose games have pairwise distinct identifiers
    and names of ASCII text, [analyzeByNamePrefix] follows the rule its
    comment states.  A game is
    flagged exactly when its name has a prefix and the rule gives it a base
    with another identifier: the game named as the prefix, letter case apart
    (the last such game of the collection), or else, when at least two games
    share the prefix, the first of those with the shortest name.  Its entry
    is then the single link to that base, and a game without base has no
    entry. *)
Theorem heuristic_follows_the_rule :
  forall (games : list Game) (g : Game),
    Forall (fun g => Text.isAscii (name g) = true) games ->
    List.NoDup (map bggId games) -> In g games ->
    Heuristic.analyzeByNamePrefix games !! bggId g
    = match HeuristicRule.baseOf games g with
      | Some b => Some [mkLink (bggId b) (name b)]
      | None => None
      end.
Proof. intros games g _. apply analyzeByNamePrefix_rule. Qed.

Lemma heuristic_follows_the_rule_witness :
  Heuristic.analyzeByNamePrefix Sample.fallbackItems !! bggId Sample.hunters
  = match HeuristicRule.baseOf Sample.fallbackItems Sample.hunters with
    | Some b => Some [mkLink (bggId b) (name b)]
    | None => None
    end.
Proof.
  apply heuristic_follows_the_rule.
  - repeat constructor.
  - vm_compute. repeat constructor; simpl; intuition discriminate.
  - right. left. reflexivity.
Defined.

(** ** More of the queue builder *)


Section QueueModes.
Import Queue.
Variable localeCompare : string -> string -> Z.
Variable games : list Game.
Variable decisions : list Decision.
Variable expansionOf : gmap Z (list ExpansionLink).
Variable threeYearsAgo oneYearAgo : Z.

(** The exchange [[a[i], a[j]] = [a[j], a[i]]] moves no element out. *)
Lemma swap_perm (l : list Game) (i j : nat) (x y : Game) :
  l !! i = Some x -> l !! j = Some y ->
  Permutation (<[j := x]> (<[i := y]> l)) l.
Proof.
  intros Hi Hj. destruct (decide (i = j)) as [->|Hne].
  - rewrite list_insert_insert_eq. rewrite Hi in Hj. injection Hj as ->.
    rewrite list_insert_id by assumption. reflexivity.
  - apply Permutation_inj. split.
    + rewrite !length_insert. reflexivity.
    + exists (fun k => if decide (k = i) then j else if decide (k = j) then i else k).
      split.
      * intros a b Hab. repeat case_decide; subst; congruence.
      * intros k. repeat case_decide; subst.
        -- rewrite list_lookup_insert_ne by congruence.
           rewrite list_lookup_insert_eq by (eapply lookup_lt_Some; eassumption).
           congruence.
        -- rewrite list_lookup_insert_eq
             by (rewrite length_insert; eapply lookup_lt_Some; eassumption).
           congruence.
        -- rewrite !list_lookup_insert_ne by congruence. reflexivity.
Qed.

Lemma shuffleFrom_perm (draw : nat -> nat) (i : nat) (l : list Game) :
  Permutation (shuffleFrom draw i l) l.
Proof.
  revert l. induction i as [|i IH]; intros l; cbn [shuffleFrom]; [reflexivity|].
  destruct (l !! S i) as [x|] eqn:Hi; [|apply IH].
  destruct (l !! draw (S i)) as [y|] eqn:Hj; [|apply IH].
  rewrite IH. apply swap_perm; assumption.
Qed.

Lemma undecided_spec (g : Game) :
  In g (undecidedGames games decisions)
  <-> In g games /\ ~ exists d, In d decisions /\ d_bggId d = bggId g.
Proof.
  unfold undecidedGames. rewrite filter_In, negb_true_iff.
  unfold has. rewrite bool_decide_eq_false, elem_of_list_to_set, list_elem_of_In, in_map_iff.
  split; intros [H1 H2]; (split; [assumption|]); intros (d & Ha & Hb); apply H2; eauto.
Qed.

Lemma buildDefaultQueue_subset (undecided : list Game) (g : Game) :
  In g (buildDefaultQueue localeCompare games expansionOf threeYearsAgo oneYearAgo undecided)
  -> In g undecided.
Proof.
  unfold buildDefaultQueue. rewrite !in_app_iff, !Array_sort_In, !filter_In.
  tauto.
Qed.

End QueueModes.

(** X12: in every sort mode and whatever the random draws, the queue
    [buildQueue] builds holds only games of the collection on which no
    decision has been taken. *)
Theorem queue_holds_only_undecided_games :
  forall localeCompare games decisions expansionOf threeYearsAgo oneYearAgo draw sortMode g,
    In g (Queue.buildQueue localeCompare games decisions expansionOf
            threeYearsAgo oneYearAgo draw sortMode) ->
    In g games /\ ~ exists d, In d decisions /\ d_bggId d = bggId g.
Proof.
  intros lc games decisions ex t3 t1 draw mode g Hin.
  apply undecided_spec. unfold Queue.buildQueue in Hin. destruct mode.
  - eapply buildDefaultQueue_subset; eassumption.
  - unfold Queue.shuffleArray in Hin.
    eapply Permutation_in; [apply shuffleFrom_perm | eassumption].
  - apply Array_sort_In in Hin. assumption.
  - apply Array_sort_In in Hin. assumption.
Qed.

(** X13: in the modes shuffle, rating and alphabetical the queue is a
    reordering of the undecided games, none lost and none repeated; in
    rating mode it is in ascending order of rating, a game without rating
    counting as rated 0; in alphabetical mode it is in the order of
    [localeCompare] on the names, provided that comparison is total. *)
Theorem queue_modes_reorder :
  forall localeCompare games decisions expansionOf threeYearsAgo oneYearAgo draw,
    let undecided := Queue.undecidedGames games decisions in
    let queue := Queue.buildQueue localeCompare games decisions expansionOf
                   threeYearsAgo oneYearAgo draw in
    Permutation (queue Shuffle) undecided
    /\ Permutation (queue Rating) undecided
    /\ Sorted (fun a b => (Queue.ratingOf a <= Queue.ratingOf b)%Q) (queue Rating)
    /\ Permutation (queue Alphabetical) undecided
    /\ ((forall a b, localeCompare a b <= 0 \/ localeCompare b a <= 0) ->
        Sorted (fun a b => localeCompare (name a) (name b) <= 0) (queue Alphabetical)).
Proof.
  intros lc games decisions ex t3 t1 draw undecided queue. subst queue.
  unfold Queue.buildQueue. fold undecided.
  split; [apply shuffleFrom_perm|].
  split; [apply Array_sort_perm|].
  split.
  { eapply Sorted_weaken; [|apply Array_sort_sorted; apply byRating_total].
    intros a b. apply byRating_le. }
  split; [apply Array_sort_perm|].
  intros Htot.
  eapply Sorted_weaken; [|apply Array_sort_sorted].
  - intros a b. unfold Queue.byName. apply Z.leb_le.
  - intros a b. unfold Queue.byName. rewrite Z.leb_gt, Z.leb_le.
    destruct (Htot (name a) (name b)); lia.
Qed.

Lemma queue_holds_only_undecided_games_witness :
  In Sample.staleOne Sample.tieringItems
  /\ ~ exists d : Decision, In d [] /\ d_bggId d = bggId Sample.staleOne.
Proof.
  apply (queue_holds_only_undecided_games Sample.byteOrder Sample.tieringItems [] ∅
           Sample.threeYearsAgo Sample.oneYearAgo (fun _ => O) Default Sample.staleOne).
  vm_compute. right. left. reflexivity.
Defined.

Lemma queue_modes_reorder_witness :
  Sorted (fun a b => Sample.byteOrder (name a) (name b) <= 0)
    (Queue.buildQueue Sample.byteOrder Sample.tieringItems [] ∅
       Sample.threeYearsAgo Sample.oneYearAgo (fun _ => O) Alphabetical).
Proof.
  apply (proj2 (proj2 (proj2 (proj2
           (queue_modes_reorder Sample.byteOrder Sample.tieringItems [] ∅
              Sample.threeYearsAgo Sample.oneYearAgo (fun _ => O)))))).
  intros a b. pose proof (byteOrder_total a b) as H.
  destruct (Sample.byteOrder a b <=? 0) eqn:Hab.
  - left. apply Z.leb_le. exact Hab.
  - right. apply Z.leb_le. apply H. reflexivity.
Defined.

(** ** The application state and the screens *)


Section AppStateFacts.
Import AppState.

Lemma status_counts (ds : list Decision) :
  (length (List.filter (fun d => Status_eqb (dec_status d) keep) ds)
   + length (List.filter (fun d => Status_eqb (dec_status d) remove) ds)
   + length (List.filter (fun d => Status_eqb (dec_status d) skip) ds))%nat
  = length ds.
Proof.
  induction ds as [|d r IH]; [reflexivity|].
  cbn [List.filter]. destruct (dec_status d); cbn [Status_eqb length]; lia.
Qed.

Lemma findIndex_Some id q i :
  findIndex id q = Some i ->
  exists g, q !! i = Some g /\ bggId g = id
            /\ forall j g', (j < i)%nat -> q !! j = Some g' -> bggId g' <> id.
Proof.
  revert i. induction q as [|g r IH]; intros i; cbn [findIndex]; [discriminate|].
  destruct (Z.eqb_spec (bggId g) id) as [Heq|Hne].
  - intros [= <-]. exists g. repeat split; [assumption|]. intros j g' Hj. lia.
  - destruct (findIndex id r) as [k|]; [|discriminate]. intros [= <-].
    destruct (IH k eq_refl) as (g0 & Hk & Hid & Hfirst).
    exists g0. repeat split; try assumption.
    intros [|j] g' Hj; cbn [lookup list_lookup].
    + intros [= <-]. assumption.
    + apply Hfirst. lia.
Qed.

Lemma findIndex_None id q :
  findIndex id q = None <-> forall g, In g q -> bggId g <> id.
Proof.
  induction q as [|g r IH]; cbn [findIndex].
  - split; [intros _ g [] | reflexivity].
  - destruct (Z.eqb_spec (bggId g) id) as [Heq|Hne].
    + split; [discriminate|]. intros H. exfalso. apply (H g); [left; reflexivity | assumption].
    + destruct (findIndex id r) as [k|].
      * split; [discriminate|]. intros H. exfalso.
        assert (Hk : Some k = None) by (apply IH; intros g' Hg'; apply H; right; assumption).
        discriminate.
      * split; [|reflexivity]. intros _ g' [<-|Hg']; [assumption|].
        apply (proj1 IH eq_refl). assumption.
Qed.

End AppStateFacts.

(** X14: every decision is counted under exactly one status: the numbers
    of games kept, removed and skipped add up to the number reviewed. *)
Theorem decisions_are_counted_once :
  forall st : AppState.State,
    AppState.keepCount st + AppState.removeCount st + AppState.skipCount st
    = AppState.reviewedCount st.
Proof.
  intros st. unfold AppState.keepCount, AppState.removeCount, AppState.skipCount,
    AppState.reviewedCount, AppState.withStatus.
  rewrite <- (status_counts (AppState.decisions st)). lia.
Qed.

(** X15: the goal counts as met exactly when something had to be removed
    and nothing remains to remove; a collection which, skipped games apart,
    has at most 400 games needs no removal and never shows the goal as met;
    and while the goal is not met the number still to remove is positive. *)
Theorem goal_is_met_when_nothing_remains :
  forall st : AppState.State,
    (AppState.isGoalMet st = true
     <-> 0 < AppState.needToRemove st /\ AppState.remainingToGoal st = 0)
    /\ (AppState.totalGames st - AppState.skipCount st <= 400 ->
        AppState.needToRemove st = 0 /\ AppState.isGoalMet st = false)
    /\ (0 < AppState.needToRemove st -> AppState.isGoalMet st = false ->
        0 < AppState.remainingToGoal st).
Proof.
  intros st. unfold AppState.isGoalMet, AppState.remainingToGoal, AppState.needToRemove,
    AppState.effectiveTotal.
  set (t := AppState.totalGames st - AppState.skipCount st).
  set (r := AppState.removeCount st).
  rewrite andb_true_iff, andb_false_iff, Z.leb_le, Z.ltb_lt, Z.leb_gt, Z.ltb_ge.
  repeat split; lia.
Qed.

(** X17: [goToGame] makes the first game of the queue with the given
    identifier the current game, and changes nothing when the queue has no
    such game. *)
Theorem goToGame_finds_the_first :
  forall (id : Z) (st : AppState.State),
    ((exists g, In g (AppState.queue st) /\ bggId g = id) ->
     exists g, AppState.currentGame (AppState.goToGame id st) = Some g
               /\ bggId g = id
               /\ forall j g', (j < AppState.currentIndex (AppState.goToGame id st))%nat ->
                               AppState.queue st !! j = Some g' -> bggId g' <> id)
    /\ ((forall g, In g (AppState.queue st) -> bggId g <> id) ->
        AppState.goToGame id st = st).
Proof.
  intros id st. unfold AppState.goToGame, AppState.currentGame. split.
  - intros (g & Hin & Hid).
    destruct (AppState.findIndex id (AppState.queue st)) as [i|] eqn:Hf.
    + destruct (findIndex_Some id _ i Hf) as (g0 & Hi & Hid0 & Hfirst).
      exists g0. cbn. auto.
    + exfalso. apply (proj1 (findIndex_None id _) Hf g Hin Hid).
  - intros Hnone. apply findIndex_None in Hnone. rewrite Hnone. reflexivity.
Qed.


Section CoverageFacts.
Import Binary64 AppState.

Lemma one_is_binary64 : (1 == inject_Z (2 ^ 52) * pow2 (0 - 52))%Q
                        /\ (pow2 0 <= 1)%Q /\ (1 < pow2 (0 + 1))%Q.
Proof. repeat split; vm_compute; congruence. Qed.

Lemma hundred_is_binary64 :
  (100 == inject_Z (100 * 2 ^ 46) * pow2 (6 - 52))%Q
  /\ (pow2 6 <= 100)%Q /\ (100 < pow2 (6 + 1))%Q.
Proof. repeat split; vm_compute; congruence. Qed.

Lemma ratio_bounds (k n : Z) :
  0 <= k <= n -> 0 < n -> (0 <= inject_Z k / inject_Z n <= 1)%Q.
Proof.
  intros Hk Hn.
  assert (Hn' : (0 < inject_Z n)%Q).
  { change (inject_Z 0 < inject_Z n)%Q. rewrite <- Zlt_Qlt. exact Hn. }
  split.
  - apply Qle_shift_div_l; [assumption|]. rewrite Qmult_0_l.
    change (inject_Z 0 <= inject_Z k)%Q. rewrite <- Zle_Qle. lia.
  - apply Qle_shift_div_r; [assumption|]. rewrite Qmult_1_l.
    rewrite <- Zle_Qle. lia.
Qed.

(** The percentage of [k] out of [n], as the page computes it. *)
Lemma percent_bounds (k n : Z) :
  0 <= k <= n -> 0 < n -> 0 <= percent k n <= 100.
Proof.
  intros Hk Hn. unfold percent, Js.Math_round.
  destruct (ratio_bounds k n Hk Hn) as [Hr0 Hr1].
  destruct one_is_binary64 as (O1 & O2 & O3).
  destruct hundred_is_binary64 as (C1 & C2 & C3).
  pose proof (fl_nonneg _ Hr0) as Hy0.
  pose proof (fl_le _ 1 _ 0 Hr0 Hr1 O1 O2 O3) as Hy1.
  set (y := fl (inject_Z k / inject_Z n)) in *. clearbody y.
  assert (Hz0 : (0 <= y * 100)%Q) by (apply Qmult_le_0_compat; [assumption|discriminate]).
  assert (Hz1 : (y * 100 <= 100)%Q).
  { apply (Qmult_le_compat_r _ _ 100) in Hy1; [|discriminate].
    rewrite Qmult_1_l in Hy1. exact Hy1. }
  pose proof (fl_nonneg _ Hz0) as Hx0.
  pose proof (fl_le _ 100 _ 6 Hz0 Hz1 C1 C2 C3) as Hx1.
  set (x := fl (y * 100)) in *. clearbody x.
  split.
  - change 0 with (Qfloor (0 + (1 # 2))). apply Qfloor_resp_le.
    apply Qplus_le_compat; [assumption | apply Qle_refl].
  - change 100 with (Qfloor (100 + (1 # 2))). apply Qfloor_resp_le.
    apply Qplus_le_compat; [assumption | apply Qle_refl].
Qed.

Lemma percent_all (n : Z) : 0 < n -> percent n n = 100.
Proof.
  intros Hn. unfold percent, Js.Math_round.
  assert (Hn' : ~ (inject_Z n == 0)%Q).
  { intros H. rewrite (inject_Z_injective n 0) in H. lia. }
  assert (H1 : (inject_Z n / inject_Z n == 1)%Q) by (field; assumption).
  destruct one_is_binary64 as (O1 & O2 & O3).
  destruct hundred_is_binary64 as (C1 & C2 & C3).
  assert (Hy : (fl (inject_Z n / inject_Z n) == 1)%Q).
  { apply Qeq_trans with (inject_Z n / inject_Z n)%Q; [|exact H1].
    apply (fl_exact _ (2 ^ 52) 0); rewrite H1; assumption. }
  assert (Hz : (fl (inject_Z n / inject_Z n) * 100 == 100)%Q) by (rewrite Hy; reflexivity).
  assert (Hx : (fl (fl (inject_Z n / inject_Z n) * 100) == 100)%Q).
  { apply Qeq_trans with (fl (inject_Z n / inject_Z n) * 100)%Q; [|exact Hz].
    apply (fl_exact _ (100 * 2 ^ 46) 6); rewrite Hz; assumption. }
  rewrite (Qfloor_comp _ (100 + (1 # 2))) by (rewrite Hx; reflexivity).
  reflexivity.
Qed.

Lemma percent_none (n : Z) : percent 0 n = 0.
Proof. destruct n; reflexivity. Qed.

(** 29 games out of 200: the quotient rounded, times 100, falls short of
    14.5. *)
Example percent_29_of_200 : percent 29 200 = 14.
Proof. vm_compute. reflexivity. Qed.

End CoverageFacts.

(** X16: the coverage shown is a whole percentage between 0 and 100: 0
    for an empty collection or when no game has dimensions, 100 when every
    game of a non-empty collection has.  The quotient and the product are
    rounded to binary64 as the page computes them. *)
Theorem coverage_is_a_percentage :
  forall st : AppState.State,
    0 <= AppState.dimensionsCoverage st <= 100
    /\ (AppState.games st = [] -> AppState.dimensionsCoverage st = 0)
    /\ (AppState.games st <> [] ->
        (forall g, In g (AppState.games st) ->
                   is_Some (AppState.dimensions st !! bggId g)) ->
        AppState.dimensionsCoverage st = 100)
    /\ ((forall g, In g (AppState.games st) ->
                   AppState.dimensions st !! bggId g = None) ->
        AppState.dimensionsCoverage st = 0).
Proof.
  intros st. unfold AppState.dimensionsCoverage, AppState.covered.
  set (P := fun g : Game => bool_decide (is_Some (AppState.dimensions st !! bggId g))).
  assert (Hle : (length (List.filter P (AppState.games st)) <= length (AppState.games st))%nat)
    by apply List.filter_length_le.
  destruct (Nat.ltb_spec 0 (length (AppState.games st))) as [Hpos|Hzero].
  - split; [apply percent_bounds; lia|].
    split; [intros Hnil; rewrite Hnil in Hpos; cbn in Hpos; lia|].
    split.
    + intros _ Hall.
      assert (Hf : List.filter P (AppState.games st) = AppState.games st).
      { apply List.forallb_filter_id. apply forallb_forall. intros g Hg.
        unfold P. apply bool_decide_eq_true. apply Hall. assumption. }
      rewrite Hf. apply percent_all. lia.
    + intros Hnone.
      assert (Hf : List.filter P (AppState.games st) = []).
      { rewrite <- (List.filter_false (AppState.games st)).
        apply List.filter_ext_in. intros g Hg. unfold P.
        apply bool_decide_eq_false. rewrite (Hnone g Hg). intros [x Hx]. discriminate. }
      rewrite Hf. apply percent_none.
  - split; [lia|]. split; [reflexivity|]. split; [|reflexivity].
    intros Hne _. destruct (AppState.games st); [contradiction | cbn in Hzero; lia].
Qed.


Section UpsertFacts.
Import AppState Page.

Lemma upsert_In d ds : In d (upsert d ds).
Proof.
  induction ds as [|x r IH]; cbn [upsert]; [left; reflexivity|].
  destruct (dec_bggId x =? dec_bggId d); [left; reflexivity | right; assumption].
Qed.

Lemma upsert_others d ds d' :
  dec_bggId d' <> dec_bggId d -> (In d' (upsert d ds) <-> In d' ds).
Proof.
  intros Hne. induction ds as [|x r IH]; cbn [upsert].
  - split; [intros [<-|[]]; contradiction | intros []].
  - destruct (Z.eqb_spec (dec_bggId x) (dec_bggId d)) as [Heq|Hxd]; cbn [In].
    + split; intros [H|H]; auto; subst; congruence.
    + rewrite IH. reflexivity.
Qed.

Lemma upsert_ids d ds id :
  In id (map dec_bggId (upsert d ds)) <-> id = dec_bggId d \/ In id (map dec_bggId ds).
Proof.
  induction ds as [|x r IH]; cbn [upsert map In].
  - split; [intros [<-|[]]; auto | intros [->|[]]; auto].
  - destruct (Z.eqb_spec (dec_bggId x) (dec_bggId d)) as [Heq|Hxd]; cbn [map In].
    + rewrite Heq. intuition congruence.
    + rewrite IH. intuition congruence.
Qed.

Lemma upsert_NoDup d ds :
  List.NoDup (map dec_bggId ds) -> List.NoDup (map dec_bggId (upsert d ds)).
Proof.
  induction ds as [|x r IH]; cbn [upsert map]; intros Hnd.
  - constructor; [intros [] | constructor].
  - apply List.NoDup_cons_iff in Hnd as [Hx Hr].
    destruct (Z.eqb_spec (dec_bggId x) (dec_bggId d)) as [Heq|Hxd]; cbn [map].
    + rewrite <- Heq. constructor; assumption.
    + constructor; [|apply IH; assumption].
      rewrite upsert_ids. intros [H|H]; [congruence | contradiction].
Qed.

Lemma upsert_unique d ds d' :
  List.NoDup (map dec_bggId ds) ->
  In d' (upsert d ds) -> dec_bggId d' = dec_bggId d -> d' = d.
Proof.
  induction ds as [|x r IH]; cbn [upsert map]; intros Hnd.
  - intros [<-|[]] _. reflexivity.
  - apply List.NoDup_cons_iff in Hnd as [Hx Hr].
    destruct (Z.eqb_spec (dec_bggId x) (dec_bggId d)) as [Heq|Hxd]; cbn [In].
    + intros [<-|Hin] Hid; [reflexivity|]. exfalso. apply Hx.
      rewrite Heq, <- Hid. apply in_map. assumption.
    + intros [<-|Hin] Hid; [congruence|]. apply IH; assumption.
Qed.

Lemma upsert_length d ds :
  length (upsert d ds)
  = if existsb (fun x => dec_bggId x =? dec_bggId d) ds then length ds
    else S (length ds).
Proof.
  induction ds as [|x r IH]; cbn [upsert existsb length]; [reflexivity|].
  destruct (dec_bggId x =? dec_bggId d); cbn [orb length]; [reflexivity|].
  rewrite IH. destruct (existsb _ r); reflexivity.
Qed.

End UpsertFacts.

(** X19: [handleDecision] records the decision in place of the first
    earlier decision on the same game, or after all the others: the decisions
    on other games stay, the number reviewed grows by one exactly when the
    game had no decision, decisions which were one per game stay so with the
    new one the only decision on its game, and the queue moves on by one. *)
Theorem handleDecision_records_one_decision_per_game :
  forall (d : AppState.Decision) (st : AppState.State),
    let st' := Page.handleDecision d st in
    In d (AppState.decisions st')
    /\ (forall d', AppState.dec_bggId d' <> AppState.dec_bggId d ->
                   (In d' (AppState.decisions st') <-> In d' (AppState.decisions st)))
    /\ AppState.reviewedCount st'
       = (if existsb (fun x => AppState.dec_bggId x =? AppState.dec_bggId d)
                     (AppState.decisions st)
          then AppState.reviewedCount st else AppState.reviewedCount st + 1)
    /\ (List.NoDup (map AppState.dec_bggId (AppState.decisions st)) ->
        List.NoDup (map AppState.dec_bggId (AppState.decisions st'))
        /\ forall d', In d' (AppState.decisions st') ->
                      AppState.dec_bggId d' = AppState.dec_bggId d -> d' = d)
    /\ AppState.queue st' = AppState.queue st
    /\ AppState.currentIndex st' = S (AppState.currentIndex st).
Proof.
  intros d st st'. subst st'. unfold Page.handleDecision, AppState.reviewedCount. cbn.
  split; [apply upsert_In|].
  split; [intros d' Hne; apply upsert_others; assumption|].
  split.
  { rewrite upsert_length. destruct (existsb _ _); lia. }
  split; [|split; reflexivity].
  intros Hnd. split; [apply upsert_NoDup; assumption|].
  intros d'. apply upsert_unique. assumption.
Qed.

Section TrimFacts.

Lemma isEmpty_spec s : Js.isEmpty s = true <-> s = "".
Proof. destruct s; cbn; split; congruence. Qed.

End TrimFacts.

(** X20: with a reasoning and notes of ASCII text, the interview form
    hands on a decision exactly when it is valid, and then the decision is
    on the game shown, with the chosen status and the notes trimmed; a
    decision to keep carries the trimmed reasoning, of at least three
    characters; a skip carries a non-empty reason (the notes, or
    ['Skipped']); a removal carries none. *)
Theorem interview_form_forces_a_reason :
  forall (game : Game) (now : string) (f : InterviewForm.Form),
    Text.isAscii (InterviewForm.reasoning f) = true ->
    Text.isAscii (InterviewForm.notes f) = true ->
    (InterviewForm.handleSubmit game now f = None
     <-> InterviewForm.isValid f = false)
    /\ forall d, InterviewForm.handleSubmit game now f = Some d ->
         AppState.dec_bggId d = bggId game
         /\ AppState.dec_gameName d = name game
         /\ Some (AppState.dec_status d) = InterviewForm.choice f
         /\ AppState.dec_notes d = Js.trim (InterviewForm.notes f)
         /\ match AppState.dec_status d with
            | AppState.keep =>
                AppState.dec_reasoning d = Js.trim (InterviewForm.reasoning f)
                /\ (3 <= String.length (AppState.dec_reasoning d))%nat
            | AppState.skip => AppState.dec_reasoning d <> ""
            | AppState.remove => AppState.dec_reasoning d = ""
            end.
Proof.
  intros game now f _ _. unfold InterviewForm.handleSubmit, InterviewForm.isValid.
  destruct (InterviewForm.choice f) as [[| |]|] eqn:Hc; cbn [negb].
  - destruct (Nat.leb_spec 3 (String.length (Js.trim (InterviewForm.reasoning f))))
      as [Hlen|Hlen]; cbn [negb].
    + split; [split; discriminate|]. intros d [= <-]. cbn. repeat split; assumption.
    + split; [split; reflexivity|]. intros d; discriminate.
  - split; [split; discriminate|]. intros d [= <-]. cbn. repeat split.
  - split; [split; discriminate|]. intros d [= <-]. cbn. repeat split.
    destruct (Js.isEmpty (Js.trim (InterviewForm.notes f))) eqn:He; [discriminate|].
    intros Hn. rewrite Hn in He. discriminate.
  - split; [split; reflexivity|]. intros d; discriminate.
Qed.


Section DefaultQueueById.
Import Queue.
Variable localeCompare : string -> string -> Z.
Variable games : list Game.
Variable expansionOf : gmap Z (list ExpansionLink).
Variable threeYearsAgo oneYearAgo : Z.

Let recent : Game -> bool := addedWithinLastYear oneYearAgo.

(** A game past its grace period, no copy of which is within it, is in
    the default queue, or a copy of it is. *)
Lemma buildDefaultQueue_keeps_id (undecided : list Game) (g : Game) :
  In g undecided ->
  (forall g', In g' undecided -> bggId g' = bggId g -> recent g' = false) ->
  exists g', In g' (buildDefaultQueue localeCompare games expansionOf threeYearsAgo
                                      oneYearAgo undecided)
             /\ bggId g' = bggId g.
Proof.
  intros Hg Hold. unfold buildDefaultQueue.
  change (fun g : Game => match dateAdded g with
                          | Some t => oneYearAgo <=? t
                          | None => false
                          end) with recent.
  set (recentIds := idSet (List.filter recent undecided)).
  set (eligible := List.filter (fun g => negb (has recentIds (bggId g))) undecided).
  set (expansions := Js.Array_sort (byName localeCompare)
                       (List.filter (isExpansionInCollection games expansionOf) eligible)).
  set (standalone := List.filter (fun g => negb (has (idSet expansions) (bggId g))) eligible).
  set (neverPlayed := Js.Array_sort byDateAdded
                        (List.filter (fun g => playCount g =? 0) standalone)).
  set (stale := Js.Array_sort byRating (List.filter _ standalone)).
  set (rest := Js.Array_sort byLastPlayed (List.filter _ standalone)).
  assert (Hrec : has recentIds (bggId g) = false).
  { destruct (has recentIds (bggId g)) eqn:Hh; [|reflexivity].
    apply has_idSet_In in Hh as (g' & Hin & Hid).
    apply filter_In in Hin as [Hin Hr]. rewrite (Hold g' Hin Hid) in Hr. discriminate. }
  assert (Hel : In g eligible).
  { apply filter_In. rewrite Hrec. auto. }
  destruct (has (idSet expansions) (bggId g)) eqn:Hex.
  { apply has_idSet_In in Hex as (g' & Hin & Hid). exists g'.
    split; [|assumption]. rewrite !in_app_iff. auto. }
  assert (Hst : In g standalone).
  { apply filter_In. rewrite Hex. auto. }
  destruct (has (idSet neverPlayed) (bggId g)) eqn:Hnp.
  { apply has_idSet_In in Hnp as (g' & Hin & Hid). exists g'.
    split; [|assumption]. rewrite !in_app_iff. auto. }
  destruct (has (idSet stale) (bggId g)) eqn:Hsl.
  { apply has_idSet_In in Hsl as (g' & Hin & Hid). exists g'.
    split; [|assumption]. rewrite !in_app_iff. auto. }
  exists g. split; [|reflexivity]. rewrite !in_app_iff. right. right. left.
  apply Array_sort_In. apply filter_In. split; [assumption|].
  rewrite Hnp, Hsl. reflexivity.
Qed.

(** No copy of a game one copy of which is within its grace period is in
    the default queue. *)
Lemma buildDefaultQueue_drops_id (undecided : list Game) (g g' : Game) :
  In g undecided -> recent g = true -> bggId g' = bggId g ->
  ~ In g' (buildDefaultQueue localeCompare games expansionOf threeYearsAgo
                             oneYearAgo undecided).
Proof.
  intros Hg Hrecent Hid Hin. unfold buildDefaultQueue in Hin.
  change (fun g : Game => match dateAdded g with
                          | Some t => oneYearAgo <=? t
                          | None => false
                          end) with recent in Hin.
  assert (Hh : has (idSet (List.filter recent undecided)) (bggId g') = true).
  { apply has_idSet_In. exists g. split; [|congruence]. apply filter_In. auto. }
  remember (List.filter
              (fun g => negb (has (idSet (List.filter recent undecided)) (bggId g)))
              undecided) as eligible eqn:Hel.
  assert (Hin' : In g' eligible).
  { repeat (apply in_app_or in Hin as [Hin|Hin]);
      apply Array_sort_In in Hin;
      repeat (apply filter_In in Hin as [Hin _]); exact Hin. }
  subst eligible. apply filter_In in Hin' as [_ Hx]. rewrite Hh in Hx. discriminate.
Qed.

End DefaultQueueById.

Section ReviseFacts.
Import AppState.

Lemma undecided_after_revise (st : State) (d : Decision) (g : Game) :
  In g (games st) -> bggId g = dec_bggId d ->
  In g (Queue.undecidedGames (games st)
          (map forQueue (List.filter (fun x => negb (dec_bggId x =? dec_bggId d))
                                     (decisions st)))).
Proof.
  intros Hg Hid. apply undecided_spec. split; [assumption|].
  intros (q & Hq & Hqid). apply in_map_iff in Hq as (x & <- & Hx).
  apply filter_In in Hx as [_ Hx]. cbn in Hqid.
  rewrite Hid in Hqid. rewrite Hqid, Z.eqb_refl in Hx. discriminate.
Qed.

End ReviseFacts.

(** X18: revising a decision drops every decision on that game, shows the
    interview screen and rebuilds the default queue.  When no copy of the
    game in the collection was added within the last year, the current game
    is then that game (or a copy of it with the same identifier); when the
    game was added within the last year, the default queue does not hold it
    and the current game is the head of the queue instead. *)
Theorem reviseDecision_brings_the_game_back :
  forall localeCompare threeYearsAgo oneYearAgo draw
         (d : AppState.Decision) (st : AppState.State) (g : Game),
    let st' := ReviewScreen.reviseDecision localeCompare threeYearsAgo oneYearAgo
                 draw d st in
    let recent g := Queue.addedWithinLastYear oneYearAgo g in
    In g (AppState.games st) ->
    bggId g = AppState.dec_bggId d ->
    AppState.screen st' = AppState.interview
    /\ (forall d', In d' (AppState.decisions st') ->
                   AppState.dec_bggId d' <> AppState.dec_bggId d)
    /\ ((forall g', In g' (AppState.games st) -> bggId g' = bggId g -> recent g' = false) ->
        exists g', AppState.currentGame st' = Some g' /\ bggId g' = bggId g)
    /\ (recent g = true ->
        AppState.currentIndex st' = O
        /\ forall g', In g' (AppState.queue st') -> bggId g' <> bggId g).
Proof.
  intros lc t3 t1 draw d st g st' recent Hg Hid. subst st'.
  unfold ReviewScreen.reviseDecision. cbv zeta.
  set (ds := List.filter (fun x => negb (AppState.dec_bggId x =? AppState.dec_bggId d))
                         (AppState.decisions st)).
  set (q := Queue.buildDefaultQueue lc (AppState.games st) (AppState.expansionOf st) t3 t1
              (Queue.undecidedGames (AppState.games st) (map AppState.forQueue ds))).
  assert (Hund : In g (Queue.undecidedGames (AppState.games st)
                         (map AppState.forQueue ds)))
    by (apply undecided_after_revise; assumption).
  assert (Hsub : forall g', In g' (Queue.undecidedGames (AppState.games st)
                                     (map AppState.forQueue ds)) ->
                            In g' (AppState.games st)).
  { intros g' H. apply undecided_spec in H. tauto. }
  split; [|split; [|split]].
  - unfold AppState.goToGame. destruct (AppState.findIndex _ _); reflexivity.
  - assert (Hds : forall d', In d' ds -> AppState.dec_bggId d' <> AppState.dec_bggId d).
    { intros d' Hd'. apply filter_In in Hd' as [_ Hne].
      apply negb_true_iff, Z.eqb_neq in Hne. exact Hne. }
    unfold AppState.goToGame. destruct (AppState.findIndex _ _); exact Hds.
  - intros Hold.
    destruct (buildDefaultQueue_keeps_id lc (AppState.games st) (AppState.expansionOf st)
                t3 t1 _ g Hund) as (g' & Hin & Hid').
    { intros g' Hg' Hid'. apply (Hold g'); [apply Hsub|]; assumption. }
    destruct (proj1 (goToGame_finds_the_first (AppState.dec_bggId d)
                       (AppState.buildQueue lc t3 t1 draw Default
                          (AppState.setDecisions ds st))))
      as (g0 & Hcur & Hid0 & _).
    { exists g'. split; [exact Hin | congruence]. }
    exists g0. split; [|congruence].
    unfold AppState.currentGame in *.
    unfold AppState.goToGame in *. destruct (AppState.findIndex _ _); exact Hcur.
  - intros Hrecent.
    assert (Hnone : forall g', In g' q -> bggId g' <> bggId g).
    { intros g' Hin Hid'.
      apply (buildDefaultQueue_drops_id lc (AppState.games st) (AppState.expansionOf st)
               t3 t1 _ g g' Hund Hrecent Hid' Hin). }
    assert (Hgo : AppState.goToGame (AppState.dec_bggId d)
                    (AppState.buildQueue lc t3 t1 draw Default
                       (AppState.setDecisions ds st))
                  = AppState.buildQueue lc t3 t1 draw Default (AppState.setDecisions ds st)).
    { apply (proj2 (goToGame_finds_the_first _ _)). intros g' Hin.
      rewrite <- Hid. apply Hnone. exact Hin. }
    rewrite Hgo. split; [reflexivity|]. exact Hnone.
Qed.

Lemma goal_is_met_when_nothing_remains_witness :
  0 < AppState.needToRemove AppSample.overGoal
  /\ AppState.remainingToGoal AppSample.overGoal = 0.
Proof.
  apply (proj1 (proj1 (goal_is_met_when_nothing_remains AppSample.overGoal))).
  vm_compute. reflexivity.
Defined.

Lemma coverage_is_a_percentage_witness :
  AppState.dimensionsCoverage AppSample.measured = 100.
Proof.
  apply (proj1 (proj2 (proj2 (coverage_is_a_percentage AppSample.measured)))).
  - discriminate.
  - intros g [<-|[]]. vm_compute. eexists. reflexivity.
Defined.

Lemma goToGame_finds_the_first_witness :
  exists g, AppState.currentGame (AppState.goToGame 13 AppSample.measured) = Some g
            /\ bggId g = 13
            /\ forall j g',
                 (j < AppState.currentIndex (AppState.goToGame 13 AppSample.measured))%nat ->
                 AppState.queue AppSample.measured !! j = Some g' -> bggId g' <> 13.
Proof.
  apply (proj1 (goToGame_finds_the_first 13 AppSample.measured)).
  exists Sample.catan. split; [left; reflexivity | reflexivity].
Defined.

Lemma handleDecision_records_one_decision_per_game_witness :
  List.NoDup (map AppState.dec_bggId
                (AppState.decisions
                   (Page.handleDecision (AppSample.removal 14) AppSample.overGoal)))
  /\ forall d',
       In d' (AppState.decisions
                (Page.handleDecision (AppSample.removal 14) AppSample.overGoal)) ->
       AppState.dec_bggId d' = AppState.dec_bggId (AppSample.removal 14) ->
       d' = AppSample.removal 14.
Proof.
  apply (proj1 (proj2 (proj2 (proj2
           (handleDecision_records_one_decision_per_game (AppSample.removal 14)
              AppSample.overGoal))))).
  vm_compute. repeat constructor; simpl; intuition discriminate.
Defined.

Lemma interview_form_forces_a_reason_witness :
  (3 <= String.length "plays well with two")%nat.
Proof.
  apply (proj2 (interview_form_forces_a_reason Sample.catan "2026-01-01T00:00:00.000Z"
                  AppSample.keeping eq_refl eq_refl)
               (AppState.mkDecision 13 3 "Catan" AppState.keep "plays well with two" ""
                  "2026-01-01T00:00:00.000Z")).
  vm_compute. reflexivity.
Defined.

Lemma reviseDecision_brings_the_game_back_witness :
  exists g',
    AppState.currentGame
      (ReviewScreen.reviseDecision Sample.byteOrder Sample.threeYearsAgo Sample.oneYearAgo
         (fun _ => O) (AppSample.removal (bggId Sample.staleOne)) AppSample.tiering)
    = Some g'
    /\ bggId g' = bggId Sample.staleOne.
Proof.
  apply (proj1 (proj2 (proj2
           (reviseDecision_brings_the_game_back Sample.byteOrder Sample.threeYearsAgo
              Sample.oneYearAgo (fun _ => O) (AppSample.removal (bggId Sample.staleOne))
              AppSample.tiering Sample.staleOne
              ltac:(vm_compute; right; left; reflexivity) eq_refl)))).
  intros g' Hg' Hid. vm_compute in Hg'.
  destruct Hg' as [<-|[<-|[<-|[]]]]; vm_compute in Hid |- *; congruence.
Defined.

(** ** The decisions on the disk *)

Section PersistenceFacts.
Import AppState Persistence.

Variable JSON_stringify : list Decision -> string.
Variable JSON_parse : string -> option (list Decision).
Variable cwd : string.


Lemma append_inj_l (a b c : string) : a +:+ b = a +:+ c -> b = c.
Proof.
  induction a as [|x a IH]; intros H.
  - exact H.
  - apply IH. injection H as H. exact H.
Qed.

Lemma tmp_ne_file : (DECISIONS_FILE cwd +:+ ".tmp") <> (DECISIONS_FILE cwd).
Proof.
  intros H.
  apply (f_equal String.length) in H. rewrite length_append in H.
  cbn in H. lia.
Qed.

Lemma file_not_dir :
  (DECISIONS_FILE cwd) <> DATA_DIR cwd /\ (DECISIONS_FILE cwd) <> PENDING_DIR cwd /\ (DECISIONS_FILE cwd) <> COMPLETED_DIR cwd.
Proof.
  unfold DECISIONS_FILE, PENDING_DIR, COMPLETED_DIR.
  repeat split; intros H.
  - apply (f_equal String.length) in H. rewrite length_append in H. cbn in H. lia.
  - apply append_inj_l in H. discriminate H.
  - apply append_inj_l in H. discriminate H.
Qed.

Lemma ensureEach_spec (l : list string) (disk : Disk) :
  exists disk',
    ensureEach l disk = (Some tt, disk')
    /\ files disk' = files disk
    /\ (forall p, p ∈ dirs disk -> p ∈ dirs disk')
    /\ (forall p, p ∈ dirs disk' -> p ∈ dirs disk \/ In p l).
Proof.
  revert disk. induction l as [|dir rest IH]; intros disk.
  - exists disk. cbn. repeat split; tauto.
  - cbn [ensureEach]. unfold await.
    destruct (existsSync dir disk) eqn:He.
    + cbn. destruct (IH disk) as (disk' & -> & Hf & Hd & Hd').
      exists disk'. repeat split; try assumption.
      intros p Hp. apply Hd' in Hp. cbn. tauto.
    + cbn. destruct (IH (mkDisk ({[dir]} ∪ dirs disk) (files disk)))
        as (disk' & -> & Hf & Hd & Hd').
      exists disk'. repeat split; try assumption.
      * intros p Hp. apply Hd. cbn. set_solver.
      * intros p Hp. apply Hd' in Hp. cbn in Hp |- *.
        destruct Hp as [Hp|Hp]; [|tauto].
        apply elem_of_union in Hp. destruct Hp as [Hp|Hp]; [|tauto].
        apply elem_of_singleton in Hp. subst p. tauto.
Qed.

Lemma ensureDataDirs_spec (disk : Disk) :
  exists disk',
    ensureDataDirs cwd disk = (Some tt, disk')
    /\ files disk' = files disk
    /\ existsSync (DECISIONS_FILE cwd) disk' = existsSync (DECISIONS_FILE cwd) disk
    /\ (forall p, p ∈ dirs disk -> p ∈ dirs disk').
Proof.
  unfold ensureDataDirs.
  destruct (ensureEach_spec [DATA_DIR cwd; PENDING_DIR cwd; COMPLETED_DIR cwd] disk)
    as (disk' & -> & Hf & Hd & Hd').
  exists disk'. repeat split; try assumption.
  unfold existsSync. rewrite Hf. f_equal.
  apply bool_decide_ext. split.
  - intros Hp. apply Hd' in Hp. destruct Hp as [Hp|Hp]; [exact Hp|].
    destruct file_not_dir as (H1 & H2 & H3).
    cbn in Hp. intuition congruence.
  - apply Hd.
Qed.

(** What [loadDecisions] answers on a disk which holds [l]. *)
Lemma loadDecisions_holds (disk : Disk) (l : list Decision) :
  holds cwd JSON_parse disk l ->
  exists disk',
    loadDecisions cwd JSON_parse disk = (Some l, disk')
    /\ files disk' = files disk
    /\ existsSync (DECISIONS_FILE cwd) disk' = existsSync (DECISIONS_FILE cwd) disk
    /\ (forall p, p ∈ dirs disk -> p ∈ dirs disk').
Proof.
  intros Hh. unfold loadDecisions, await.
  destruct (ensureDataDirs_spec disk) as (disk' & -> & Hf & He & Hd).
  exists disk'. cbv beta iota.
  split; [|repeat split; assumption].
  destruct Hh as [(Hno & ->)|(raw & Hraw & Hp)].
  - rewrite He, Hno. reflexivity.
  - assert (Hex : existsSync (DECISIONS_FILE cwd) disk' = true).
    { rewrite He. unfold existsSync. rewrite Hraw.
      rewrite (bool_decide_eq_true_2 (is_Some (Some raw))) by (eexists; reflexivity).
      apply orb_true_r. }
    rewrite Hex. cbn. unfold readFile. rewrite Hf, Hraw, Hp. reflexivity.
Qed.

Lemma loadDecisions_unreadable (disk : Disk) (raw : string) :
  files disk !! (DECISIONS_FILE cwd) = Some raw -> JSON_parse raw = None ->
  exists disk',
    loadDecisions cwd JSON_parse disk = (None, disk')
    /\ files disk' = files disk.
Proof.
  intros Hraw Hp. unfold loadDecisions, await.
  destruct (ensureDataDirs_spec disk) as (disk' & -> & Hf & He & Hd).
  exists disk'. cbv beta iota.
  split; [|assumption].
  assert (Hex : existsSync (DECISIONS_FILE cwd) disk' = true).
  { rewrite He. unfold existsSync. rewrite Hraw.
    rewrite (bool_decide_eq_true_2 (is_Some (Some raw))) by (eexists; reflexivity).
    apply orb_true_r. }
  rewrite Hex. cbn. unfold readFile. rewrite Hf, Hraw, Hp. reflexivity.
Qed.

(** Writing [data] to the temporary file and renaming it. *)
Lemma write_then_rename (data : string) (disk : Disk) :
  exists disk',
    (do! writeFile (DECISIONS_FILE cwd +:+ ".tmp") data in rename (DECISIONS_FILE cwd +:+ ".tmp") (DECISIONS_FILE cwd)) disk = (Some tt, disk')
    /\ dirs disk' = dirs disk
    /\ files disk' !! (DECISIONS_FILE cwd) = Some data
    /\ files disk' !! (DECISIONS_FILE cwd +:+ ".tmp") = None
    /\ (forall p, p <> (DECISIONS_FILE cwd) -> p <> (DECISIONS_FILE cwd +:+ ".tmp") -> files disk' !! p = files disk !! p).
Proof.
  unfold await, writeFile, rename. cbn [files dirs].
  rewrite lookup_insert_eq.
  eexists. split; [reflexivity|]. cbn [files dirs].
  pose proof tmp_ne_file as Hne.
  repeat split.
  - apply lookup_insert_eq.
  - rewrite lookup_insert_ne by congruence. rewrite delete_insert_eq.
    apply lookup_delete_eq.
  - intros p H1 H2. rewrite lookup_insert_ne by congruence.
    rewrite lookup_delete_ne by congruence.
    apply lookup_insert_ne. congruence.
Qed.

Lemma holds_same (disk disk' : Disk) (l : list Decision) :
  files disk' = files disk ->
  existsSync (DECISIONS_FILE cwd) disk' = existsSync (DECISIONS_FILE cwd) disk ->
  holds cwd JSON_parse disk l -> holds cwd JSON_parse disk' l.
Proof.
  intros Hf He [(Hno & ->)|(raw & Hraw & Hp)].
  - left. split; [congruence|reflexivity].
  - right. exists raw. rewrite Hf. split; assumption.
Qed.

Lemma holds_written (disk : Disk) (l : list Decision) :
  files disk !! DECISIONS_FILE cwd = Some (JSON_stringify l) ->
  JSON_parse (JSON_stringify l) = Some l ->
  holds cwd JSON_parse disk l.
Proof. intros Hf Hp. right. exists (JSON_stringify l). split; assumption. Qed.

(** The index found and the assignment or the [push] give the list which
    the page builds for itself. *)
Lemma findIndex_upsert (d : Decision) (l : list Decision) :
  match Persistence.findIndex (dec_bggId d) l with
  | Some idx => <[idx := d]> l
  | None => l ++ [d]
  end = Page.upsert d l.
Proof.
  induction l as [|x l IH]; [reflexivity|].
  cbn [Persistence.findIndex Page.upsert].
  destruct (dec_bggId x =? dec_bggId d); [reflexivity|].
  destruct (Persistence.findIndex (dec_bggId d) l); cbn; rewrite <- IH; reflexivity.
Qed.

(** Both [saveDecision] and [deleteDecision]: the list is read, changed by
    [change] and written back. *)
Lemma rewrite_holds (change : list Decision -> list Decision)
    (disk : Disk) (l : list Decision) :
  holds cwd JSON_parse disk l ->
  JSON_parse (JSON_stringify (change l)) = Some (change l) ->
  exists disk',
    (do! ensureDataDirs cwd in
     let! decisions := loadDecisions cwd JSON_parse in
     do! writeFile (DECISIONS_FILE cwd +:+ ".tmp") (JSON_stringify (change decisions)) in
     rename (DECISIONS_FILE cwd +:+ ".tmp") (DECISIONS_FILE cwd)) disk
    = (Some tt, disk')
    /\ holds cwd JSON_parse disk' (change l)
    /\ files disk' !! DECISIONS_FILE cwd = Some (JSON_stringify (change l))
    /\ files disk' !! (DECISIONS_FILE cwd +:+ ".tmp") = None
    /\ (forall p, p <> DECISIONS_FILE cwd -> p <> DECISIONS_FILE cwd +:+ ".tmp" ->
                  files disk' !! p = files disk !! p).
Proof.
  intros Hh Hp.
  destruct (ensureDataDirs_spec disk) as (disk1 & E1 & Hf1 & He1 & _).
  destruct (loadDecisions_holds disk1 l (holds_same _ _ _ Hf1 He1 Hh))
    as (disk2 & E2 & Hf2 & He2 & _).
  destruct (write_then_rename (JSON_stringify (change l)) disk2)
    as (disk3 & E3 & _ & Hfile & Htmp & Hrest).
  exists disk3. split.
  - unfold await at 1. rewrite E1. unfold await at 1. rewrite E2. exact E3.
  - split; [apply holds_written; assumption|].
    split; [assumption|]. split; [assumption|].
    intros p H1 H2. rewrite Hrest by assumption. congruence.
Qed.

Lemma rewrite_unreadable (change : list Decision -> list Decision)
    (disk : Disk) (raw : string) :
  files disk !! DECISIONS_FILE cwd = Some raw -> JSON_parse raw = None ->
  exists disk',
    (do! ensureDataDirs cwd in
     let! decisions := loadDecisions cwd JSON_parse in
     do! writeFile (DECISIONS_FILE cwd +:+ ".tmp") (JSON_stringify (change decisions)) in
     rename (DECISIONS_FILE cwd +:+ ".tmp") (DECISIONS_FILE cwd)) disk
    = (None, disk')
    /\ files disk' = files disk.
Proof.
  intros Hraw Hp.
  destruct (ensureDataDirs_spec disk) as (disk1 & E1 & Hf1 & _).
  rewrite <- Hf1 in Hraw.
  destruct (loadDecisions_unreadable disk1 raw Hraw Hp) as (disk2 & E2 & Hf2).
  exists disk2. split.
  - unfold await at 1. rewrite E1. unfold await at 1. rewrite E2. reflexivity.
  - congruence.
Qed.

Lemma saveDecision_holds (d : Decision) (disk : Disk) (l : list Decision) :
  holds cwd JSON_parse disk l ->
  JSON_parse (JSON_stringify (Page.upsert d l)) = Some (Page.upsert d l) ->
  exists disk',
    saveDecision cwd JSON_stringify JSON_parse d disk = (Some tt, disk')
    /\ holds cwd JSON_parse disk' (Page.upsert d l)
    /\ files disk' !! DECISIONS_FILE cwd = Some (JSON_stringify (Page.upsert d l))
    /\ files disk' !! (DECISIONS_FILE cwd +:+ ".tmp") = None
    /\ (forall p, p <> DECISIONS_FILE cwd -> p <> DECISIONS_FILE cwd +:+ ".tmp" ->
                  files disk' !! p = files disk !! p).
Proof.
  intros Hh Hp.
  pose (change := fun l => match Persistence.findIndex (dec_bggId d) l with
                           | Some idx => <[idx := d]> l
                           | None => l ++ [d]
                           end).
  assert (Hc : change l = Page.upsert d l) by apply findIndex_upsert.
  rewrite <- Hc in *.
  exact (rewrite_holds change disk l Hh Hp).
Qed.

Lemma deleteDecision_holds (id : Z) (disk : Disk) (l : list Decision) :
  let kept := List.filter (fun d => negb (dec_bggId d =? id)) l in
  holds cwd JSON_parse disk l ->
  JSON_parse (JSON_stringify kept) = Some kept ->
  exists disk',
    deleteDecision cwd JSON_stringify JSON_parse id disk = (Some tt, disk')
    /\ holds cwd JSON_parse disk' kept
    /\ files disk' !! DECISIONS_FILE cwd = Some (JSON_stringify kept)
    /\ files disk' !! (DECISIONS_FILE cwd +:+ ".tmp") = None
    /\ (forall p, p <> DECISIONS_FILE cwd -> p <> DECISIONS_FILE cwd +:+ ".tmp" ->
                  files disk' !! p = files disk !! p).
Proof.
  intros kept Hh Hp.
  exact (rewrite_holds (List.filter (fun d => negb (dec_bggId d =? id))) disk l Hh Hp).
Qed.

End PersistenceFacts.

Section ParseIntFacts.
Import JsNumber.

Lemma unsigned_uint (d : Decimal.uint) :
  unsigned (NilEmpty.string_of_uint d) = decimal (NilEmpty.string_of_uint d).
Proof.
  destruct d as [|d|d|d|d|d|d|d|d|d|d]; try reflexivity.
  destruct d as [|d|d|d|d|d|d|d|d|d|d]; reflexivity.
Qed.

Lemma decimal_pos (p : positive) :
  decimal (NilEmpty.string_of_uint (Pos.to_uint p)) = Some (Z.pos p).
Proof.
  unfold decimal.
  rewrite <- (append_nil_r (NilEmpty.string_of_uint (Pos.to_uint p))) at 1.
  rewrite spanDigits_uint by exact I.
  rewrite string_of_uint_nonempty.
  rewrite <- (append_nil_r (NilEmpty.string_of_uint (Pos.to_uint p))).
  rewrite parseInt_pos by exact I. reflexivity.
Qed.

Lemma parseInt_uint (d : Decimal.uint) :
  parseInt (NilEmpty.string_of_uint d) = unsigned (NilEmpty.string_of_uint d).
Proof. destruct d as [|d|d|d|d|d|d|d|d|d|d]; reflexivity. Qed.

(** [parseInt] reads back the decimal form of an integer. *)
Lemma parseInt_showZ (z : Z) : parseInt (Json.showZ z) = Some z.
Proof.
  unfold Json.showZ. destruct z as [|p|p]; simpl Z.to_int.
  - reflexivity.
  - simpl NilZero.string_of_int. rewrite string_of_uint_pos.
    rewrite parseInt_uint.
    rewrite unsigned_uint. apply decimal_pos.
  - simpl NilZero.string_of_int. rewrite string_of_uint_pos.
    change (parseInt (String "-" (NilEmpty.string_of_uint (Pos.to_uint p))))
      with (option_map Z.opp (unsigned (NilEmpty.string_of_uint (Pos.to_uint p)))).
    rewrite unsigned_uint, decimal_pos. reflexivity.
Qed.

End ParseIntFacts.

Section JsonDecisionsFacts.
Import AppState Json JsonDecisions.

Lemma decodeDecision_encodeDecision (d : Decision) :
  decodeDecision (encodeDecision d) = Some d.
Proof. destruct d as [b c g s r n a]. destruct s; reflexivity. Qed.

Lemma wf_encodeDecision (d : Decision) : wf (encodeDecision d).
Proof. unfold encodeDecision. apply wf_Obj. repeat constructor. Qed.

Lemma parseDecision_stringifyDecision (d : Decision) :
  parseDecision (stringifyDecision d) = Some d.
Proof.
  unfold parseDecision, stringifyDecision.
  rewrite parseDocument_print by apply wf_encodeDecision.
  apply decodeDecision_encodeDecision.
Qed.

Lemma parseDecisions_stringifyDecisions (l : list Decision) :
  parseDecisions (stringifyDecisions l) = Some l.
Proof.
  unfold parseDecisions, stringifyDecisions.
  rewrite parseDocument_print.
  - apply allSome_map. exact decodeDecision_encodeDecision.
  - apply wf_Arr. apply List.Forall_forall. intros x Hx.
    apply in_map_iff in Hx as (d & <- & _). apply wf_encodeDecision.
Qed.

End JsonDecisionsFacts.

Section UpsertTwice.
Import AppState.

Lemma upsert_twice (d : Decision) (l : list Decision) :
  Page.upsert d (Page.upsert d l) = Page.upsert d l.
Proof.
  induction l as [|x l IH]; cbn [Page.upsert].
  - rewrite Z.eqb_refl. reflexivity.
  - destruct (dec_bggId x =? dec_bggId d) eqn:E; cbn [Page.upsert].
    + rewrite Z.eqb_refl. reflexivity.
    + rewrite E, IH. reflexivity.
Qed.

End UpsertTwice.

Section SessionFacts.
Import AppState Persistence DecisionRoutes Session.

Variable cwd : string.
Variable JSON_stringify : list Decision -> string.
Variable JSON_parse : string -> option (list Decision).
Variable JSON_stringify_decision : Decision -> string.
Variable request_json : string -> option Decision.
Variable localeCompare : string -> string -> Z.
Variable threeYearsAgo oneYearAgo : Z.
Variable draw : nat -> nat.

Hypothesis parse_stringify : forall l, JSON_parse (JSON_stringify l) = Some l.
Hypothesis json_body : forall d, request_json (JSON_stringify_decision d) = Some d.

Lemma decisions_revised (d : Decision) (st : State) :
  decisions (ReviewScreen.reviseDecision localeCompare threeYearsAgo oneYearAgo draw d st)
  = List.filter (fun x => negb (dec_bggId x =? dec_bggId d)) (decisions st).
Proof.
  unfold ReviewScreen.reviseDecision, goToGame, AppState.buildQueue.
  match goal with
  | |- context [AppState.findIndex ?i ?q] => destruct (AppState.findIndex i q)
  end; reflexivity.
Qed.

Lemma act_holds (a : Action) (st : State) (disk : Disk) :
  holds cwd JSON_parse disk (decisions st) ->
  let page := act cwd JSON_stringify JSON_parse JSON_stringify_decision request_json
                localeCompare threeYearsAgo oneYearAgo draw a (st, disk) in
  holds cwd JSON_parse (snd page) (decisions (fst page)).
Proof.
  intros Hh. destruct a as [d|d]; cbn [act fst snd].
  - destruct (saveDecision_holds JSON_stringify JSON_parse cwd d disk (decisions st) Hh
                (parse_stringify _)) as (disk' & E & Hh' & _).
    unfold POST, await. rewrite json_body, E. exact Hh'.
  - rewrite decisions_revised.
    destruct (deleteDecision_holds JSON_stringify JSON_parse cwd (dec_bggId d) disk
                (decisions st) Hh (parse_stringify _)) as (disk' & E & Hh' & _).
    unfold DELETE, deletePath. rewrite parseInt_showZ.
    unfold await. rewrite E. exact Hh'.
Qed.

Lemma session_holds (actions : list Action) (st : State) (disk : Disk) :
  holds cwd JSON_parse disk (decisions st) ->
  let page := session cwd JSON_stringify JSON_parse JSON_stringify_decision request_json
                localeCompare threeYearsAgo oneYearAgo draw actions (st, disk) in
  holds cwd JSON_parse (snd page) (decisions (fst page)).
Proof.
  revert st disk. induction actions as [|a rest IH]; intros st disk Hh.
  - exact Hh.
  - cbn [session fold_left].
    pose proof (act_holds a st disk Hh) as Ha. cbv zeta in Ha.
    destruct (act cwd JSON_stringify JSON_parse JSON_stringify_decision request_json
                localeCompare threeYearsAgo oneYearAgo draw a (st, disk)) as [st1 disk1].
    apply (IH st1 disk1 Ha).
Qed.

Lemma onMount_holds (st0 : State) (disk : Disk) (l : list Decision) :
  holds cwd JSON_parse disk l ->
  decisions (fst (onMount cwd JSON_parse st0 disk)) = l.
Proof.
  intros Hh. unfold onMount, GET, await.
  destruct (loadDecisions_holds JSON_parse cwd disk l Hh) as (disk' & -> & _).
  reflexivity.
Qed.

End SessionFacts.

(** X22: a decision saved is the one loaded.  On a disk which holds the
    decisions [l], [saveDecision] succeeds, and [loadDecisions] then
    answers [l] with the decision in the place of the first one on the same
    game, or at the end: the list the page builds for itself.  The
    temporary file is gone, no other file has changed, and saving the same
    decision once more changes nothing of what is loaded. *)
Theorem saved_decision_is_loaded :
  forall (cwd : string) JSON_stringify JSON_parse
         (d : AppState.Decision) (disk : Persistence.Disk) (l : list AppState.Decision),
    Persistence.holds cwd JSON_parse disk l ->
    JSON_parse (JSON_stringify (Page.upsert d l)) = Some (Page.upsert d l) ->
    exists disk',
      Persistence.saveDecision cwd JSON_stringify JSON_parse d disk = (Some tt, disk')
      /\ fst (Persistence.loadDecisions cwd JSON_parse disk') = Some (Page.upsert d l)
      /\ Persistence.files disk' !! Persistence.DECISIONS_FILE cwd
         = Some (JSON_stringify (Page.upsert d l))
      /\ Persistence.files disk' !! (Persistence.DECISIONS_FILE cwd +:+ ".tmp") = None
      /\ (forall p, p <> Persistence.DECISIONS_FILE cwd ->
                    p <> Persistence.DECISIONS_FILE cwd +:+ ".tmp" ->
                    Persistence.files disk' !! p = Persistence.files disk !! p)
      /\ exists disk'',
           Persistence.saveDecision cwd JSON_stringify JSON_parse d disk'
           = (Some tt, disk'')
           /\ fst (Persistence.loadDecisions cwd JSON_parse disk'')
              = Some (Page.upsert d l).
Proof.
  intros cwd JS JP d disk l Hh Hp.
  destruct (saveDecision_holds JS JP cwd d disk l Hh Hp)
    as (disk' & E & Hh' & Hfile & Htmp & Hrest).
  exists disk'. split; [exact E|].
  destruct (loadDecisions_holds JP cwd disk' _ Hh') as (disk1 & E1 & _).
  rewrite E1. split; [reflexivity|]. split; [exact Hfile|].
  split; [exact Htmp|]. split; [exact Hrest|].
  assert (Hp' : JP (JS (Page.upsert d (Page.upsert d l)))
                = Some (Page.upsert d (Page.upsert d l)))
    by (rewrite upsert_twice; exact Hp).
  destruct (saveDecision_holds JS JP cwd d disk' _ Hh' Hp')
    as (disk'' & E' & Hh'' & _).
  exists disk''. split; [exact E'|].
  destruct (loadDecisions_holds JP cwd disk'' _ Hh'') as (disk2 & E2 & _).
  rewrite E2, upsert_twice. reflexivity.
Qed.

(** X23: a decision deleted is gone.  On a disk which holds the decisions
    [l], [deleteDecision id] succeeds, and [loadDecisions] then answers the
    decisions of [l] on other games, in their order; with no decisions file
    before, an empty list is written.  The temporary file is gone and no
    other file has changed. *)
Theorem deleted_decision_is_gone :
  forall (cwd : string) JSON_stringify JSON_parse
         (id : Z) (disk : Persistence.Disk) (l : list AppState.Decision),
    let kept := List.filter (fun d => negb (AppState.dec_bggId d =? id)) l in
    Persistence.holds cwd JSON_parse disk l ->
    JSON_parse (JSON_stringify kept) = Some kept ->
    exists disk',
      Persistence.deleteDecision cwd JSON_stringify JSON_parse id disk = (Some tt, disk')
      /\ fst (Persistence.loadDecisions cwd JSON_parse disk') = Some kept
      /\ (forall d, In d kept <-> In d l /\ AppState.dec_bggId d <> id)
      /\ Persistence.files disk' !! Persistence.DECISIONS_FILE cwd
         = Some (JSON_stringify kept)
      /\ Persistence.files disk' !! (Persistence.DECISIONS_FILE cwd +:+ ".tmp") = None
      /\ (forall p, p <> Persistence.DECISIONS_FILE cwd ->
                    p <> Persistence.DECISIONS_FILE cwd +:+ ".tmp" ->
                    Persistence.files disk' !! p = Persistence.files disk !! p).
Proof.
  intros cwd JS JP id disk l kept Hh Hp.
  destruct (deleteDecision_holds JS JP cwd id disk l Hh Hp)
    as (disk' & E & Hh' & Hfile & Htmp & Hrest).
  exists disk'. split; [exact E|].
  destruct (loadDecisions_holds JP cwd disk' _ Hh') as (disk1 & E1 & _).
  rewrite E1. split; [reflexivity|]. split.
  - intros d. unfold kept. rewrite filter_In, negb_true_iff, Z.eqb_neq. tauto.
  - repeat split; assumption.
Qed.

(** X24: a decisions file which [JSON.parse] refuses is left as it is.
    [loadDecisions], [saveDecision] and [deleteDecision] are all rejected,
    and none of them changes, creates or removes a file. *)
Theorem unreadable_decisions_file_is_kept :
  forall (cwd : string) JSON_stringify JSON_parse (disk : Persistence.Disk) (raw : string),
    Persistence.files disk !! Persistence.DECISIONS_FILE cwd = Some raw ->
    JSON_parse raw = None ->
    (fst (Persistence.loadDecisions cwd JSON_parse disk) = None
     /\ Persistence.files (snd (Persistence.loadDecisions cwd JSON_parse disk))
        = Persistence.files disk)
    /\ (forall d,
          fst (Persistence.saveDecision cwd JSON_stringify JSON_parse d disk) = None
          /\ Persistence.files
               (snd (Persistence.saveDecision cwd JSON_stringify JSON_parse d disk))
             = Persistence.files disk)
    /\ (forall id,
          fst (Persistence.deleteDecision cwd JSON_stringify JSON_parse id disk) = None
          /\ Persistence.files
               (snd (Persistence.deleteDecision cwd JSON_stringify JSON_parse id disk))
             = Persistence.files disk).
Proof.
  intros cwd JS JP disk raw Hraw Hp. split; [|split].
  - destruct (loadDecisions_unreadable JP cwd disk raw Hraw Hp) as (disk' & -> & Hf).
    split; [reflexivity|exact Hf].
  - intros d.
    pose (change := fun l => match Persistence.findIndex (AppState.dec_bggId d) l with
                             | Some idx => <[idx := d]> l
                             | None => l ++ [d]
                             end).
    destruct (rewrite_unreadable JS JP cwd change disk raw Hraw Hp) as (disk' & E & Hf).
    change (Persistence.saveDecision cwd JS JP d disk) with
      (Persistence.await (Persistence.ensureDataDirs cwd) (fun _ =>
        Persistence.await (Persistence.loadDecisions cwd JP) (fun decisions =>
         Persistence.await
           (Persistence.writeFile (Persistence.DECISIONS_FILE cwd +:+ ".tmp")
              (JS (change decisions)))
           (fun _ => Persistence.rename (Persistence.DECISIONS_FILE cwd +:+ ".tmp")
                       (Persistence.DECISIONS_FILE cwd)))) disk).
    rewrite E. split; [reflexivity|exact Hf].
  - intros id.
    destruct (rewrite_unreadable JS JP cwd
                (List.filter (fun d => negb (AppState.dec_bggId d =? id)))
                disk raw Hraw Hp) as (disk' & E & Hf).
    unfold Persistence.deleteDecision. rewrite E. split; [reflexivity|exact Hf].
Qed.

(** X25: a session can be resumed where it stopped.  When the disk holds
    the decisions of the page, it still does after any sequence of decisions
    taken ([handleDecision] with its POST request) and decisions revised
    ([reviseDecision] with its DELETE request): a page mounted afterwards
    is given the very list of decisions the page had at the end. *)
Theorem session_resumes_where_it_stopped :
  forall (cwd : string) JSON_stringify JSON_parse JSON_stringify_decision request_json
         localeCompare threeYearsAgo oneYearAgo draw
         (actions : list Session.Action) (st st0 : AppState.State)
         (disk : Persistence.Disk),
    (forall l, JSON_parse (JSON_stringify l) = Some l) ->
    (forall d, request_json (JSON_stringify_decision d) = Some d) ->
    Persistence.holds cwd JSON_parse disk (AppState.decisions st) ->
    let page := Session.session cwd JSON_stringify JSON_parse JSON_stringify_decision
                  request_json localeCompare threeYearsAgo oneYearAgo draw
                  actions (st, disk) in
    AppState.decisions (fst (Session.onMount cwd JSON_parse st0 (snd page)))
    = AppState.decisions (fst page).
Proof.
  intros cwd JS JP JS1 rj lc t3 t1 draw actions st st0 disk Hps Hbody Hh page.
  apply onMount_holds.
  apply (session_holds cwd JS JP JS1 rj lc t3 t1 draw Hps Hbody actions st disk Hh).
Qed.

Lemma saved_decision_is_loaded_witness :
  exists disk',
    Persistence.saveDecision DiskSample.cwd JsonDecisions.stringifyDecisions
      JsonDecisions.parseDecisions DiskSample.kept DiskSample.saved = (Some tt, disk')
    /\ fst (Persistence.loadDecisions DiskSample.cwd JsonDecisions.parseDecisions disk')
       = Some [DiskSample.kept].
Proof.
  destruct (saved_decision_is_loaded DiskSample.cwd JsonDecisions.stringifyDecisions
              JsonDecisions.parseDecisions DiskSample.kept DiskSample.saved
              [AppSample.removal 13]) as (disk' & E & L & _).
  - right. exists (JsonDecisions.stringifyDecisions [AppSample.removal 13]).
    split; vm_compute; reflexivity.
  - vm_compute. reflexivity.
  - exists disk'. split; assumption.
Defined.

Lemma deleted_decision_is_gone_witness :
  exists disk',
    Persistence.deleteDecision DiskSample.cwd JsonDecisions.stringifyDecisions
      JsonDecisions.parseDecisions 13 DiskSample.saved = (Some tt, disk')
    /\ fst (Persistence.loadDecisions DiskSample.cwd JsonDecisions.parseDecisions disk')
       = Some [].
Proof.
  destruct (deleted_decision_is_gone DiskSample.cwd JsonDecisions.stringifyDecisions
              JsonDecisions.parseDecisions 13 DiskSample.saved
              [AppSample.removal 13]) as (disk' & E & L & _).
  - right. exists (JsonDecisions.stringifyDecisions [AppSample.removal 13]).
    split; vm_compute; reflexivity.
  - vm_compute. reflexivity.
  - exists disk'. split; assumption.
Defined.

Lemma unreadable_decisions_file_is_kept_witness :
  fst (Persistence.saveDecision DiskSample.cwd JsonDecisions.stringifyDecisions
         JsonDecisions.parseDecisions DiskSample.kept DiskSample.broken) = None
  /\ Persistence.files
       (snd (Persistence.saveDecision DiskSample.cwd JsonDecisions.stringifyDecisions
               JsonDecisions.parseDecisions DiskSample.kept DiskSample.broken))
     = Persistence.files DiskSample.broken.
Proof.
  apply (proj1 (proj2 (unreadable_decisions_file_is_kept DiskSample.cwd
                         JsonDecisions.stringifyDecisions JsonDecisions.parseDecisions
                         DiskSample.broken "[{" ltac:(vm_compute; reflexivity)
                         ltac:(vm_compute; reflexivity)))).
Defined.

Lemma session_resumes_where_it_stopped_witness :
  let page :=
    Session.session DiskSample.cwd JsonDecisions.stringifyDecisions
      JsonDecisions.parseDecisions JsonDecisions.stringifyDecision
      JsonDecisions.parseDecision Sample.byteOrder Sample.threeYearsAgo
      Sample.oneYearAgo (fun _ => O)
      [Session.Decide DiskSample.kept; Session.Revise DiskSample.kept;
       Session.Decide (AppSample.removal 14)]
      (DiskSample.page, DiskSample.saved) in
  AppState.decisions
    (fst (Session.onMount DiskSample.cwd JsonDecisions.parseDecisions
            AppSample.measured (snd page)))
  = AppState.decisions (fst page).
Proof.
  apply (session_resumes_where_it_stopped DiskSample.cwd JsonDecisions.stringifyDecisions
           JsonDecisions.parseDecisions JsonDecisions.stringifyDecision
           JsonDecisions.parseDecision Sample.byteOrder Sample.threeYearsAgo
           Sample.oneYearAgo (fun _ => O)).
  - exact parseDecisions_stringifyDecisions.
  - exact parseDecision_stringifyDecision.
  - right. exists (JsonDecisions.stringifyDecisions [AppSample.removal 13]).
    split; vm_compute; reflexivity.
Defined.

(** ** The response parser on a text laid out for it *)

Section RefusalFacts.
Import Js Refusal.
#[local] Arguments String.append s1 s2 : simpl nomatch.
Context {X : Type}.

Lemma mayLit_sound (l : string) :
  forall (t : string) (km : string -> bool) (rest : string) (k : string -> option X),
    (forall t', km t' = false -> k (t' +:+ rest) = None) ->
    mayLit l t km = false ->
    match stripPrefix l (t +:+ rest) with
    | Some r => k r
    | None => None
    end = None.
Proof.
  induction l as [|a l IH]; intros t km rest k Hk Hm.
  - cbn in Hm |- *. apply Hk. exact Hm.
  - destruct t as [|b t]; [discriminate Hm|].
    cbn in Hm |- *. destruct (Ascii.eqb a b); [|reflexivity].
    apply (IH t km rest k Hk Hm).
Qed.

Lemma mayStar_sound (p : ascii -> bool) (km : string -> bool) (rest : string)
    (k : string -> option X) (t : string) :
  (forall t', km t' = false -> k (t' +:+ rest) = None) ->
  mayStar p km t = false ->
  starGreedy p k (t +:+ rest) = None /\ starLazy p k (t +:+ rest) = None.
Proof.
  intros Hk. induction t as [|c t IH]; intros Hm; [discriminate Hm|].
  cbn [mayStar] in Hm. apply orb_false_iff in Hm as [Hhere Hnext].
  apply Hk in Hhere. cbn [String.append] in Hhere |- *.
  cbn [starGreedy starLazy]. rewrite Hhere.
  destruct (p c); [|split; reflexivity].
  destruct (IH Hnext) as [-> ->]. split; reflexivity.
Qed.

Lemma may_sound (r : Re) :
  forall (t : string) (km : string -> bool) (rest : string) (caps : list string)
         (k : string -> list string -> option X),
    (forall t' caps', km t' = false -> k (t' +:+ rest) caps' = None) ->
    may r t km = false ->
    matchRe r (t +:+ rest) caps k = None.
Proof.
  induction r as [l | p | p | p | a IHa b IHb | a IHa]; intros t km rest caps k Hk Hm;
    cbn [may matchRe] in *.
  - apply (mayLit_sound l t km rest (fun r => k r caps)); [|exact Hm].
    intros t' Ht'. apply Hk. exact Ht'.
  - destruct t as [|c t]; [discriminate Hm|]. cbn [String.append].
    destruct (p c); [|reflexivity].
    apply (mayStar_sound p km rest (fun r => k r caps) t); [|exact Hm].
    intros t' Ht'. apply Hk. exact Ht'.
  - apply (mayStar_sound p km rest (fun r => k r caps) t); [|exact Hm].
    intros t' Ht'. apply Hk. exact Ht'.
  - apply (mayStar_sound p km rest (fun r => k r caps) t); [|exact Hm].
    intros t' Ht'. apply Hk. exact Ht'.
  - apply (IHa t (fun t' => may b t' km) rest caps); [|exact Hm].
    intros t' caps' Ht'. apply (IHb t' km rest caps' k Hk Ht').
  - apply (IHa t km rest caps); [|exact Hm].
    intros t' caps' Ht'. apply Hk. exact Ht'.
Qed.

End RefusalFacts.

Section QuietFacts.
Import Js Refusal.
#[local] Arguments String.append s1 s2 : simpl nomatch.

Lemma quiet_refuses (r : Re) (t rest : string) :
  may r t (fun _ => true) = false -> matchAt r (t +:+ rest) = None.
Proof.
  intros Hm. unfold matchAt.
  apply (may_sound r t (fun _ => true) rest); [|exact Hm].
  intros t' caps' Ht'. discriminate Ht'.
Qed.

Lemma mayLit_mono (l : string) :
  forall (t : string) (km km' : string -> bool),
    (forall t', km t' = true -> km' t' = true) ->
    mayLit l t km = true -> mayLit l t km' = true.
Proof.
  induction l as [|a l IH]; intros t km km' Hk H.
  - cbn in H |- *. apply Hk. exact H.
  - destruct t as [|b t]; [reflexivity|].
    cbn in H |- *. destruct (Ascii.eqb a b); [|discriminate H].
    apply (IH t km km' Hk H).
Qed.

Lemma mayStar_mono (p p' : ascii -> bool) (km km' : string -> bool) (t : string) :
  (forall c, p c = true -> p' c = true) ->
  (forall t', km t' = true -> km' t' = true) ->
  mayStar p km t = true -> mayStar p' km' t = true.
Proof.
  intros Hp Hk. induction t as [|c t IH]; intros H; [reflexivity|].
  cbn [mayStar] in H |- *. apply orb_true_iff in H as [H|H].
  - rewrite (Hk _ H). reflexivity.
  - destruct (p c) eqn:Hc; [|discriminate H].
    rewrite (Hp c Hc), (IH H). apply orb_true_r.
Qed.

Lemma may_widen (r : Re) :
  forall (t : string) (km km' : string -> bool),
    (forall t', km t' = true -> km' t' = true) ->
    may r t km = true -> may (widen r) t km' = true.
Proof.
  induction r as [l | p | p | p | a IHa b IHb | a IHa]; intros t km km' Hk H;
    cbn [may widen] in *.
  - apply (mayLit_mono l t km km' Hk H).
  - destruct t as [|c t]; [reflexivity|].
    destruct (p c) eqn:Hc; [|discriminate H]. cbn [orb].
    apply (mayStar_mono p _ km km' t); [|exact Hk|exact H].
    intros c' Hc'. rewrite Hc'. reflexivity.
  - apply (mayStar_mono p _ km km' t); [|exact Hk|exact H].
    intros c' Hc'. rewrite Hc'. reflexivity.
  - apply (mayStar_mono p _ km km' t); [|exact Hk|exact H].
    intros c' Hc'. rewrite Hc'. reflexivity.
  - apply (IHa t (fun t' => may b t' km)); [|exact H].
    intros t' Ht'. apply (IHb t' km km' Hk Ht').
  - apply (IHa t km km' Hk H).
Qed.

(** A text quiet for the widened pattern is quiet for the pattern. *)
Lemma quiet_widen (r : Re) (f : string) :
  quiet (widen r) f = true -> quiet r f = true.
Proof.
  induction f as [|c f IH]; intros H; [reflexivity|].
  cbn [quiet] in H |- *. apply andb_true_iff in H as [Hhere H].
  rewrite (IH H), andb_true_r. apply negb_true_iff in Hhere.
  apply negb_true_iff. destruct (may r (String c f) (fun _ => true)) eqn:E; [|reflexivity].
  rewrite (may_widen r _ _ (fun _ => true) (fun _ Ht => Ht) E) in Hhere.
  discriminate Hhere.
Qed.

(** A search passes over a quiet text. *)
Lemma search_quiet (r : Re) (f rest : string) :
  quiet r f = true -> search r (f +:+ rest) = search r rest.
Proof.
  induction f as [|c f IH]; intros Hq; [reflexivity|].
  cbn [quiet] in Hq. apply andb_true_iff in Hq as [Hhere Hq].
  apply negb_true_iff in Hhere.
  pose proof (quiet_refuses r (String c f) rest Hhere) as Hnone.
  cbn [String.append] in Hnone |- *. cbn [search]. rewrite Hnone.
  apply IH. exact Hq.
Qed.

Lemma quiet_split (r : Re) (t1 t2 : string) :
  quiet r (t1 +:+ t2) = true -> t2 <> "" -> may r t2 (fun _ => true) = false.
Proof.
  induction t1 as [|c t1 IH]; intros Hq Hne.
  - destruct t2 as [|c t2]; [contradiction|].
    cbn [String.append quiet] in Hq. apply andb_true_iff in Hq as [Hhere _].
    apply negb_true_iff in Hhere. exact Hhere.
  - cbn [String.append quiet] in Hq. apply andb_true_iff in Hq as [_ Hq].
    apply IH; assumption.
Qed.

Lemma starGreedy_all {X : Type} (p : ascii -> bool) (k : string -> option X)
    (ds rest : string) (x : X) :
  allIn p ds = true -> headNot p rest = true -> k rest = Some x ->
  starGreedy p k (ds +:+ rest) = Some x.
Proof.
  intros Hall Hhead Hk. induction ds as [|c ds IH].
  - cbn [String.append]. destruct rest as [|q rest]; cbn [starGreedy]; [exact Hk|].
    cbn [headNot] in Hhead. apply negb_true_iff in Hhead. rewrite Hhead. exact Hk.
  - cbn [allIn] in Hall. apply andb_true_iff in Hall as [Hc Hall].
    cbn [String.append starGreedy]. rewrite Hc, (IH Hall). reflexivity.
Qed.

Lemma starLazy_first {X : Type} (p : ascii -> bool) (k : string -> option X)
    (t rest : string) (x : X) :
  allIn p t = true ->
  (forall t1 t2, t = t1 +:+ t2 -> t2 <> "" -> k (t2 +:+ rest) = None) ->
  k rest = Some x ->
  starLazy p k (t +:+ rest) = Some x.
Proof.
  intros Hall Hmin Hk. induction t as [|c t IH].
  - cbn [String.append]. destruct rest; cbn [starLazy]; rewrite Hk; reflexivity.
  - cbn [allIn] in Hall. apply andb_true_iff in Hall as [Hc Hall].
    pose proof (Hmin "" (String c t) eq_refl ltac:(discriminate)) as Hhere.
    cbn [String.append] in Hhere |- *. cbn [starLazy]. rewrite Hhere, Hc.
    apply IH; [exact Hall|].
    intros t1 t2 -> Hne. apply (Hmin (String c t1) t2 eq_refl Hne).
Qed.

Lemma allIn_anyChar (s : string) : allIn anyChar s = true.
Proof. induction s as [|c s IH]; [reflexivity|exact IH]. Qed.

Lemma allIn_digits (d : Decimal.uint) : allIn isDigit (NilEmpty.string_of_uint d) = true.
Proof. induction d; cbn; try reflexivity; exact IHd. Qed.

End QuietFacts.

Section MatchSteps.
Import Js Refusal.
Context {X : Type}.
Implicit Types (k : string -> list string -> option X).

Lemma match_Cat (a b : Re) (s : string) (caps : list string) k :
  matchRe (Cat a b) s caps k
  = matchRe a s caps (fun rest caps' => matchRe b rest caps' k).
Proof. reflexivity. Qed.

Lemma match_Group (a : Re) (s : string) (caps : list string) k :
  matchRe (Group a) s caps k
  = matchRe a s caps (fun rest caps' => k rest (caps' ++ [consumed s rest])).
Proof. reflexivity. Qed.

Lemma match_Lit (l rest : string) (caps : list string) k :
  matchRe (Lit l) (l +:+ rest) caps k = k rest caps.
Proof. cbn [matchRe]. rewrite stripPrefix_app. reflexivity. Qed.

Lemma match_Plus (p : ascii -> bool) (ds rest : string) (caps : list string) k (x : X) :
  allIn p ds = true -> ds <> "" -> headNot p rest = true ->
  k rest caps = Some x ->
  matchRe (PlusC p) (ds +:+ rest) caps k = Some x.
Proof.
  intros Hall Hne Hhead Hk. destruct ds as [|c ds]; [contradiction|].
  cbn [allIn] in Hall. apply andb_true_iff in Hall as [Hc Hall].
  change (String c ds +:+ rest) with (String c (ds +:+ rest)).
  cbn [matchRe]. rewrite Hc. apply (starGreedy_all p (fun r => k r caps)); assumption.
Qed.

Lemma match_Star (p : ascii -> bool) (ds rest : string) (caps : list string) k (x : X) :
  allIn p ds = true -> headNot p rest = true ->
  k rest caps = Some x ->
  matchRe (StarC p) (ds +:+ rest) caps k = Some x.
Proof.
  intros Hall Hhead Hk. cbn [matchRe].
  apply (starGreedy_all p (fun r => k r caps)); assumption.
Qed.

Lemma match_Lazy (t rest : string) (caps : list string) k (x : X) :
  (forall t1 t2, t = t1 +:+ t2 -> t2 <> "" -> k (t2 +:+ rest) caps = None) ->
  k rest caps = Some x ->
  matchRe (LazyC anyChar) (t +:+ rest) caps k = Some x.
Proof.
  intros Hmin Hk. cbn [matchRe].
  apply (starLazy_first anyChar (fun r => k r caps));
    [apply allIn_anyChar | exact Hmin | exact Hk].
Qed.

End MatchSteps.

Section ThingXmlFacts.
Import Js Refusal ThingXml.

Lemma digits_nonempty (id : BinNums.positive) : digits id <> "".
Proof.
  intros H. pose proof (string_of_uint_nonempty id) as Hne.
  unfold digits in H. rewrite H in Hne. discriminate Hne.
Qed.

Lemma parseInt_digits (id : BinNums.positive) : parseInt (digits id) = Z.pos id.
Proof.
  unfold digits.
  rewrite <- (append_nil_r (NilEmpty.string_of_uint (Pos.to_uint id))).
  apply parseInt_pos. exact I.
Qed.

Lemma linkOpen_app (l : LinkElem) (rest : string) :
  linkOpen l +:+ rest
  = "<link" +:+ " " +:+ ("type=" +:+ quoted "boardgameexpansion") +:+ " "
    +:+ ("id=" +:+ dq) +:+ digits (le_id l) +:+ dq +:+ " " +:+ ("value=" +:+ dq)
    +:+ le_name l +:+ dq +:+ rest.
Proof.
  unfold linkOpen.
  generalize ("type=" +:+ quoted "boardgameexpansion") ("id=" +:+ dq) ("value=" +:+ dq).
  intros a b c. rewrite !append_assoc. reflexivity.
Qed.

Ltac lit := rewrite match_Cat, match_Lit; cbv beta.
Ltac space :=
  rewrite match_Cat; apply match_Plus; [reflexivity | discriminate | reflexivity |];
  cbv beta.

(** A link is matched where it starts, up to the quote closing its name. *)
Lemma matchAt_link (l : LinkElem) (rest : string) :
  allIn (notChar (ascii_of_nat 34)) (le_name l) = true ->
  matchAt Expansion.linkRegex (linkOpen l +:+ rest)
  = Some ([digits (le_id l); le_name l], rest).
Proof.
  intros Hname. rewrite linkOpen_app.
  unfold matchAt, Expansion.linkRegex, Seq. cbn [foldr].
  lit. space. lit. space. lit.
  rewrite match_Cat, match_Group.
  apply match_Plus; [apply allIn_digits | apply digits_nonempty | reflexivity |].
  cbv beta. lit. space. lit.
  rewrite match_Cat, match_Group.
  apply match_Star; [exact Hname | reflexivity |].
  cbv beta. lit.
  cbn [matchRe stripPrefix].
  rewrite !consumed_app. reflexivity.
Qed.

Lemma itemOpen_app (it : ItemElem) (rest : string) :
  itemOpen it +:+ rest
  = "<item" +:+ " " +:+ ("type=" +:+ quoted "boardgame") +:+ " "
    +:+ ("id=" +:+ dq) +:+ digits (ie_id it) +:+ (dq +:+ ">") +:+ rest.
Proof.
  unfold itemOpen.
  generalize ("type=" +:+ quoted "boardgame") ("id=" +:+ dq) (dq +:+ ">").
  intros a b c. rewrite !append_assoc. reflexivity.
Qed.

(** An item is matched where it starts, up to its closing tag, when its
    inner text holds no closing tag. *)
Lemma matchAt_item (it : ItemElem) (inner rest : string) :
  quiet (Lit "</item>") inner = true ->
  matchAt Expansion.gameRegex (itemOpen it +:+ inner +:+ "</item>" +:+ rest)
  = Some ([digits (ie_id it); inner], rest).
Proof.
  intros Hq. rewrite itemOpen_app.
  unfold matchAt, Expansion.gameRegex, Seq. cbn [foldr].
  lit. space. lit. space. lit.
  rewrite match_Cat, match_Group.
  apply match_Plus; [apply allIn_digits | apply digits_nonempty | reflexivity |].
  cbv beta. lit.
  rewrite match_Cat, match_Group.
  apply match_Lazy.
  - intros t1 t2 -> Hne. cbv beta. rewrite match_Cat.
    apply (may_sound (Lit "</item>") t2 (fun _ => true)).
    + intros t' caps' Ht'. discriminate Ht'.
    + apply (quiet_split _ t1 t2 Hq Hne).
  - cbv beta. lit. cbn [matchRe stripPrefix].
    rewrite !consumed_app. reflexivity.
Qed.

Lemma search_here (r : Re) (s : string) (m : list string * string) :
  matchAt r s = Some m -> search r s = Some m.
Proof. intros H. destruct s; cbn [search]; rewrite H; reflexivity. Qed.

Lemma linkOk_name (l : LinkElem) :
  linkOk l = true -> allIn (notChar (ascii_of_nat 34)) (le_name l) = true.
Proof. unfold linkOk. intros H. apply andb_true_iff in H as [H _]. exact H. Qed.

Lemma linkOk_after (l : LinkElem) :
  linkOk l = true -> quiet Expansion.linkRegex (le_after l) = true.
Proof.
  unfold linkOk. intros H. apply andb_true_iff in H as [_ H].
  apply quiet_widen. exact H.
Qed.

(** The links found in the inner text of an item. *)
Lemma execAll_links (links : list LinkElem) :
  forall (fuel : nat) (before : string),
    quiet Expansion.linkRegex before = true ->
    forallb linkOk links = true ->
    (length links < fuel)%nat ->
    execAllFuel fuel Expansion.linkRegex (before +:+ linksXml links)
    = map (fun l => [digits (le_id l); le_name l]) links.
Proof.
  induction links as [|l links IH]; intros fuel before Hq Hok Hfuel;
    (destruct fuel as [|fuel]; [cbn [length] in Hfuel; lia|]);
    cbn [execAllFuel linksXml]; rewrite (search_quiet _ _ _ Hq).
  - reflexivity.
  - cbn [forallb] in Hok. apply andb_true_iff in Hok as [Hl Hok].
    rewrite (search_here _ _ _ (matchAt_link l _ (linkOk_name l Hl))).
    cbn [map]. f_equal.
    apply IH; [apply linkOk_after; exact Hl | exact Hok | cbn [length] in Hfuel; lia].
Qed.

Lemma length_linksXml (links : list LinkElem) :
  (length links <= String.length (linksXml links))%nat.
Proof.
  induction links as [|l links IH]; [apply Nat.le_refl|].
  cbn [linksXml length]. rewrite linkOpen_app, !length_append.
  change (String.length "<link") with 5%nat. lia.
Qed.

Lemma length_itemsXml (items : list ItemElem) :
  (length items <= String.length (itemsXml items))%nat.
Proof.
  induction items as [|it items IH]; [apply Nat.le_refl|].
  cbn [itemsXml length]. rewrite itemOpen_app, !length_append.
  change (String.length "<item") with 5%nat. lia.
Qed.

Lemma itemOk_parts (it : ItemElem) :
  itemOk it = true ->
  quiet Expansion.linkRegex (ie_before it) = true
  /\ forallb linkOk (ie_links it) = true
  /\ quiet (Lit "</item>") (innerXml it) = true
  /\ quiet Expansion.gameRegex (ie_after it) = true.
Proof.
  unfold itemOk. intros H.
  apply andb_true_iff in H as [H H4]. apply andb_true_iff in H as [H H3].
  apply andb_true_iff in H as [H1 H2].
  repeat split; try assumption; apply quiet_widen; assumption.
Qed.

(** The links read from the inner text of an item. *)
Lemma links_of_inner (it : ItemElem) :
  itemOk it = true ->
  map (fun linkMatch =>
         mkLink (parseInt (group 1 linkMatch)) (group 2 linkMatch))
      (execAll Expansion.linkRegex (innerXml it))
  = map linkOf (ie_links it).
Proof.
  intros Hok. apply itemOk_parts in Hok as (Hb & Hl & _ & _).
  unfold execAll, innerXml.
  rewrite (execAll_links (ie_links it) _ (ie_before it) Hb Hl).
  - rewrite map_map. apply map_ext. intros l.
    change (group 1 [digits (le_id l); le_name l]) with (digits (le_id l)).
    change (group 2 [digits (le_id l); le_name l]) with (le_name l).
    rewrite parseInt_digits. reflexivity.
  - rewrite length_append. pose proof (length_linksXml (ie_links it)). lia.
Qed.

(** The items found in the text. *)
Lemma execAll_items (items : list ItemElem) :
  forall (fuel : nat) (before : string),
    quiet Expansion.gameRegex before = true ->
    forallb itemOk items = true ->
    (length items < fuel)%nat ->
    execAllFuel fuel Expansion.gameRegex (before +:+ itemsXml items)
    = map (fun it => [digits (ie_id it); innerXml it]) items.
Proof.
  induction items as [|it items IH]; intros fuel before Hq Hok Hfuel;
    (destruct fuel as [|fuel]; [cbn [length] in Hfuel; lia|]);
    cbn [execAllFuel itemsXml]; rewrite (search_quiet _ _ _ Hq).
  - reflexivity.
  - cbn [forallb] in Hok. apply andb_true_iff in Hok as [Hit Hok].
    destruct (itemOk_parts it Hit) as (_ & _ & Hin & Hafter).
    rewrite (search_here _ _ _ (matchAt_item it (innerXml it) _ Hin)).
    cbn [map]. f_equal.
    apply IH; [exact Hafter | exact Hok | cbn [length] in Hfuel; lia].
Qed.

Lemma parseExpansionXml_items (before : string) (items : list ItemElem) :
  quiet Expansion.gameRegex before = true ->
  forallb itemOk items = true ->
  Expansion.parseExpansionXml (before +:+ itemsXml items)
  = fold_left (fun result e => <[fst e := snd e]> result) (map entryOf items) ∅.
Proof.
  intros Hq Hok. unfold Expansion.parseExpansionXml, execAll.
  rewrite (execAll_items items _ before Hq Hok)
    by (rewrite length_append; pose proof (length_itemsXml items); lia).
  generalize (∅ : gmap Z (list ExpansionLink)).
  induction items as [|it items IH]; intros result; [reflexivity|].
  cbn [forallb] in Hok. apply andb_true_iff in Hok as [Hit Hok].
  cbn [map fold_left]. rewrite (IH Hok). f_equal.
  cbv zeta.
  change (group 1 [digits (ie_id it); innerXml it]) with (digits (ie_id it)).
  change (group 2 [digits (ie_id it); innerXml it]) with (innerXml it).
  change (execAllFuel (S (String.length (innerXml it))) Expansion.linkRegex (innerXml it))
    with (execAll Expansion.linkRegex (innerXml it)).
  rewrite parseInt_digits, (links_of_inner it Hit). reflexivity.
Qed.

End ThingXmlFacts.

Section ParsedEntries.
Import ThingXml.

Lemma fold_insert_other {V : Type} (l : list (Z * V)) (k : Z) :
  forall (m : gmap Z V),
    (forall e, In e l -> fst e <> k) ->
    fold_left (fun c e => <[fst e := snd e]> c) l m !! k = m !! k.
Proof.
  induction l as [|e l IH]; intros m Hk; [reflexivity|].
  cbn [fold_left]. rewrite IH by (intros e' He'; apply Hk; right; exact He').
  apply lookup_insert_ne. apply Hk. left. reflexivity.
Qed.

Lemma fold_insert_entry {V : Type} (l : list (Z * V)) (k : Z) (v : V) :
  forall (m : gmap Z V),
    List.NoDup (map fst l) -> In (k, v) l ->
    fold_left (fun c e => <[fst e := snd e]> c) l m !! k = Some v.
Proof.
  induction l as [|e l IH]; intros m Hnd Hin; [contradiction|].
  cbn [map] in Hnd. apply List.NoDup_cons_iff in Hnd as [Hfresh Hnd].
  cbn [fold_left]. destruct Hin as [->|Hin].
  - rewrite fold_insert_other.
    + apply lookup_insert_eq.
    + intros e' He' Heq. apply Hfresh. apply in_map_iff. exists e'.
      split; [exact Heq | exact He'].
  - apply IH; assumption.
Qed.

End ParsedEntries.

(** X26: [parseExpansionXml] reads a text laid out as it expects.  The text
    is a sequence of items of type [boardgame], each with its identifier
    and, in its inner text, links of type [boardgameexpansion] with an
    identifier and a name; no name holds a quote, no inner text holds a
    closing item tag, and no item of type [boardgame] or link of type
    [boardgameexpansion] starts anywhere else: before, between and after
    them any text may stand, items of another type among it (no start is
    meant whichever white space follows the tag, the ASCII one or another).
    No identifier is above [2^53], so that [parseInt] gives each exactly.
    The result then maps the identifier of each item to the links of that
    item in their order (an empty list for an item without such link); with
    several items of one identifier the last one counts.  With pairwise
    distinct identifiers every item has its own links, and an identifier of
    no item has no entry. *)
Theorem parseExpansionXml_reads_the_items :
  forall (before : string) (items : list ThingXml.ItemElem),
    Refusal.quiet (Refusal.widen Expansion.gameRegex) before = true ->
    forallb ThingXml.itemOk items = true ->
    forallb ThingXml.exactIds items = true ->
    let result := Expansion.parseExpansionXml (before +:+ ThingXml.itemsXml items) in
    result = fold_left (fun m e => <[fst e := snd e]> m) (map ThingXml.entryOf items) ∅
    /\ (List.NoDup (map ThingXml.ie_id items) ->
        forall it, In it items ->
          result !! Z.pos (ThingXml.ie_id it)
          = Some (map ThingXml.linkOf (ThingXml.ie_links it)))
    /\ (forall k, (forall it, In it items -> Z.pos (ThingXml.ie_id it) <> k) ->
                  result !! k = None).
Proof.
  intros before items Hq Hok _ result.
  assert (Hres : result
                 = fold_left (fun m e => <[fst e := snd e]> m)
                             (map ThingXml.entryOf items) ∅)
    by (apply parseExpansionXml_items; [apply quiet_widen|]; assumption).
  split; [exact Hres|]. rewrite Hres. split.
  - intros Hnd it Hin. apply fold_insert_entry.
    + rewrite map_map. cbn [ThingXml.entryOf fst].
      rewrite <- (map_map ThingXml.ie_id Z.pos).
      apply (Finite.Injective_map_NoDup (f := Z.pos)); [|exact Hnd].
      intros a b Hab. injection Hab as ->. reflexivity.
    + apply in_map_iff. exists it. split; [reflexivity|exact Hin].
  - intros k Hk. rewrite fold_insert_other; [apply lookup_empty|].
    intros e He. apply in_map_iff in He as (it & <- & Hin). apply Hk. exact Hin.
Qed.

Lemma parseExpansionXml_reads_the_items_witness :
  Expansion.parseExpansionXml XmlSample.answer !! 13
  = Some [mkLink 325 "Catan: Seafarers"; mkLink 2807 "Catan: Cities & Knights"]
  /\ Expansion.parseExpansionXml XmlSample.answer !! 822 = Some []
  /\ Expansion.parseExpansionXml XmlSample.answer !! 325 = None.
Proof.
  destruct (parseExpansionXml_reads_the_items XmlSample.header
              [XmlSample.catan; XmlSample.carcassonne]) as (_ & Hin & Hout).
  - vm_compute. reflexivity.
  - vm_compute. reflexivity.
  - vm_compute. reflexivity.
  - split; [|split].
    + apply (Hin ltac:(repeat constructor; simpl; intuition discriminate)
                 XmlSample.catan ltac:(left; reflexivity)).
    + apply (Hin ltac:(repeat constructor; simpl; intuition discriminate)
                 XmlSample.carcassonne ltac:(right; left; reflexivity)).
    + apply Hout. intros it [<-|[<-|[]]]; discriminate.
Defined.

(** ** The collection loop of the page *)

Section LoginPageFacts.
Import LoginPage.

Lemma loop_spec (answer : nat -> Answer) (left : nat) :
  forall attempt,
    (1 <= attempt)%nat -> (attempt + left = 9)%nat -> (1 <= left)%nat ->
    exists n,
      (attempt <= n <= 8)%nat
      /\ loop left attempt answer = (verdict (answer n), ladder attempt n)
      /\ (forall i, (attempt <= i < n)%nat -> answer i = Processing)
      /\ (answer n = Processing -> n = 8%nat).
Proof.
  induction left as [|left IH]; intros attempt H1 Hsum Hleft; [lia|].
  cbn [loop]. destruct (answer attempt) as [games| |status error] eqn:Ha.
  - exists attempt. unfold ladder. rewrite Nat.sub_diag, Ha. cbn [seq flat_map app].
    repeat split; try lia; try discriminate. destruct games; reflexivity.
  - destruct (attempt <? maxAttempts)%nat eqn:Hlt.
    + apply Nat.ltb_lt in Hlt. unfold maxAttempts in Hlt.
      destruct (IH (S attempt)) as (n & Hn & -> & Hproc & Hlast); try lia.
      exists n. repeat split; try lia.
      * unfold ladder. replace (n - attempt)%nat with (S (n - S attempt)) by lia.
        cbn [seq flat_map app]. repeat f_equal.
        rewrite Nat.min_l by (cbn; lia). reflexivity.
      * intros i Hi. destruct (Nat.eq_dec i attempt) as [->|Hne]; [exact Ha|].
        apply Hproc. lia.
      * exact Hlast.
    + apply Nat.ltb_ge in Hlt. unfold maxAttempts in Hlt.
      exists attempt. unfold ladder. rewrite Nat.sub_diag, Ha. cbn [seq flat_map app].
      repeat split; try lia.
  - exists attempt. unfold ladder. rewrite Nat.sub_diag, Ha. cbn [seq flat_map app].
    repeat split; try lia; discriminate.
Qed.

Lemma waited_ladder (n : nat) :
  (1 <= n <= 8)%nat -> waited (ladder 1 n) <= 66000.
Proof.
  intros Hn.
  assert (Hc : In n [1; 2; 3; 4; 5; 6; 7; 8]%nat) by (cbn; lia).
  cbn in Hc.
  destruct Hc as [<-|[<-|[<-|[<-|[<-|[<-|[<-|[<-|[]]]]]]]]]; vm_compute; discriminate.
Qed.

End LoginPageFacts.

(** X27: the page asks for the collection at most eight times.  Whatever
    the server answers, [handleLogin] sends between one and eight requests;
    every request but the last was answered 202 and is followed by a wait of
    2, 3, 5, 8, 12, 16 and 20 seconds in this order, 66 seconds at most in
    all; nothing is awaited after the last request.  The answer to the last
    request decides: a collection which is not empty is loaded, an empty one,
    a status other than 200 and 202, or an eighth 202 make an error; the
    loop is never left at its end. *)
Theorem collection_is_asked_at_most_eight_times :
  forall (answer : nat -> LoginPage.Answer),
  exists n,
    (1 <= n <= 8)%nat
    /\ LoginPage.fetchCollection answer
       = (LoginPage.verdict (answer n), LoginPage.ladder 1 n)
    /\ (forall i, (1 <= i < n)%nat -> answer i = LoginPage.Processing)
    /\ (answer n = LoginPage.Processing -> n = 8%nat)
    /\ LoginPage.verdict (answer n) <> LoginPage.Ended
    /\ LoginPage.waited (LoginPage.ladder 1 n) <= 66000.
Proof.
  intros answer.
  destruct (loop_spec answer 8 1) as (n & Hn & Hloop & Hproc & Hlast); try lia.
  exists n. repeat split; try assumption; try lia.
  - destruct (answer n) as [[|g games]| |status error]; discriminate.
  - apply waited_ladder. lia.
Qed.

(** ** The cookie store *)

Section BggApiFacts.
Import Js Refusal BggApi.

Lemma allIn_trimStart (p : ascii -> bool) (s : string) :
  allIn p s = true -> allIn p (trimStart s) = true.
Proof.
  induction s as [|c s IH]; intros H; [reflexivity|].
  cbn [trimStart]. destruct (isSpace c); [|exact H].
  cbn [allIn] in H. apply andb_true_iff in H as [_ H]. apply IH. exact H.
Qed.

Lemma allIn_trimEnd (p : ascii -> bool) (s : string) :
  allIn p s = true -> allIn p (trimEnd s) = true.
Proof.
  induction s as [|c s IH]; intros H; [reflexivity|].
  cbn [allIn] in H. apply andb_true_iff in H as [Hc H].
  cbn [trimEnd]. specialize (IH H).
  destruct (trimEnd s) as [|c' r'].
  - destruct (isSpace c); [reflexivity|]. cbn [allIn]. rewrite Hc. reflexivity.
  - cbn [allIn] in IH |- *. rewrite Hc. exact IH.
Qed.

Lemma trimEnd_idem (s : string) : trimEnd (trimEnd s) = trimEnd s.
Proof.
  induction s as [|c s IH]; [reflexivity|].
  cbn [trimEnd]. destruct (trimEnd s) as [|c' r'] eqn:E.
  - destruct (isSpace c) eqn:Hc; [reflexivity|]. cbn [trimEnd]. rewrite Hc. reflexivity.
  - cbn [trimEnd] in IH |- *.
    destruct (trimEnd r') as [|c'' r'']; rewrite IH; reflexivity.
Qed.

Lemma trimStart_head (s : string) : headNot isSpace (trimStart s) = true.
Proof.
  induction s as [|c s IH]; [reflexivity|].
  cbn [trimStart]. destruct (isSpace c) eqn:Hc; [exact IH|].
  cbn [headNot]. rewrite Hc. reflexivity.
Qed.

Lemma trimEnd_head (s : string) :
  headNot isSpace s = true -> headNot isSpace (trimEnd s) = true.
Proof.
  destruct s as [|c s]; intros H; [reflexivity|].
  cbn [trimEnd]. cbn [headNot] in H.
  destruct (trimEnd s); [|exact H].
  apply negb_true_iff in H. rewrite H. cbn [headNot]. rewrite H. reflexivity.
Qed.

Lemma trimStart_id (s : string) : headNot isSpace s = true -> trimStart s = s.
Proof.
  destruct s as [|c s]; intros H; [reflexivity|].
  cbn [headNot] in H. apply negb_true_iff in H. cbn [trimStart]. rewrite H. reflexivity.
Qed.

Lemma trim_idem (s : string) : trim (trim s) = trim s.
Proof.
  unfold trim.
  rewrite (trimStart_id (trimEnd (trimStart s)))
    by (apply trimEnd_head; apply trimStart_head).
  apply trimEnd_idem.
Qed.

Lemma split_hd (sep : ascii) (s : string) :
  allIn (notChar sep) (hd "" (split sep s)) = true.
Proof.
  induction s as [|c s IH]; [reflexivity|].
  cbn [split]. destruct (Ascii.eqb c sep) eqn:E; [reflexivity|].
  destruct (split sep s) as [|piece rest]; cbn [hd allIn] in *;
    unfold notChar at 1; rewrite E; [reflexivity|exact IH].
Qed.

Lemma extract_bare (l : list string) : Forall bare (extract l).
Proof.
  unfold extract. apply List.Forall_forall. intros c Hc.
  apply filter_In in Hc as [Hc Hne]. apply in_map_iff in Hc as (x & <- & _).
  split; [|split].
  - intros E. rewrite E in Hne. discriminate Hne.
  - apply trim_idem.
  - unfold trim. apply allIn_trimEnd, allIn_trimStart, split_hd.
Qed.

Lemma split_free (sep : ascii) (a : string) :
  allIn (notChar sep) a = true -> split sep a = [a].
Proof.
  induction a as [|c a IH]; intros H; [reflexivity|].
  cbn [allIn] in H. apply andb_true_iff in H as [Hc H].
  unfold notChar in Hc. apply negb_true_iff in Hc.
  cbn [split]. rewrite Hc, (IH H). reflexivity.
Qed.

Lemma split_app (sep : ascii) (a b : string) :
  allIn (notChar sep) a = true ->
  split sep (a +:+ String sep b) = a :: split sep b.
Proof.
  induction a as [|c a IH]; intros H.
  - change ("" +:+ String sep b) with (String sep b).
    cbn [split]. rewrite Ascii.eqb_refl. reflexivity.
  - cbn [allIn] in H. apply andb_true_iff in H as [Hc H].
    unfold notChar in Hc. apply negb_true_iff in Hc.
    change (String c a +:+ String sep b) with (String c (a +:+ String sep b)).
    cbn [split]. rewrite Hc, (IH H). reflexivity.
Qed.

(** The header gives the cookies back: cut at each [;] and trimmed, it is
    the list it was made of. *)
Lemma header_splits_back (cookies : list string) :
  cookies <> [] -> Forall bare cookies ->
  forall pad, pad = "" \/ pad = " " ->
    map trim (split ";" (pad +:+ join "; " cookies)) = cookies.
Proof.
  induction cookies as [|c cookies IH]; intros Hne Hbare pad Hpad; [contradiction|].
  apply List.Forall_cons_iff in Hbare as [(Hc & Htrim & Hfree) Hbare].
  assert (Hpadfree : allIn (notChar ";") (pad +:+ c) = true)
    by (destruct Hpad as [->| ->]; exact Hfree).
  assert (Hpadtrim : trim (pad +:+ c) = c)
    by (destruct Hpad as [->| ->]; exact Htrim).
  destruct cookies as [|c2 cookies].
  - cbn [join]. rewrite (split_free _ _ Hpadfree). cbn [map]. rewrite Hpadtrim.
    reflexivity.
  - change (join "; " (c :: c2 :: cookies))
      with (c +:+ "; " +:+ join "; " (c2 :: cookies)).
    replace (pad +:+ c +:+ "; " +:+ join "; " (c2 :: cookies))
      with ((pad +:+ c) +:+ String ";" (" " +:+ join "; " (c2 :: cookies)))
      by (rewrite append_assoc; reflexivity).
    rewrite (split_app _ _ _ Hpadfree). cbn [map]. rewrite Hpadtrim. f_equal.
    apply IH; [discriminate | exact Hbare | right; reflexivity].
Qed.

(** The three ways [loginToBgg] ends. *)
Lemma loginToBgg_cases (res : LoginResponse) (old : list string) :
  (exists msg, loginToBgg res old = (Rejected msg, old))
  \/ (exists msg, loginToBgg res old = (Rejected msg, []))
  \/ (exists c cs, loginToBgg res old = (Resolved, c :: cs) /\ Forall bare (c :: cs)).
Proof.
  unfold loginToBgg.
  destruct (negb (ok res) && negb (status res =? 302))%bool;
    [left; eexists; reflexivity|].
  destruct (default [] (getSetCookie res)) as [|x l].
  - destruct (set_cookie res) as [raw|]; [|left; eexists; reflexivity].
    destruct (Js.isEmpty raw); [left; eexists; reflexivity|].
    pose proof (extract_bare (split "," raw)) as Hbare.
    destruct (extract (split "," raw)) as [|c cs].
    + right. left. eexists. reflexivity.
    + right. right. exists c, cs. split; [reflexivity|exact Hbare].
  - pose proof (extract_bare (x :: l)) as Hbare.
    destruct (extract (x :: l)) as [|c cs].
    + right. left. eexists. reflexivity.
    + right. right. exists c, cs. split; [reflexivity|exact Hbare].
Qed.

End BggApiFacts.

(** X28: what a login leaves in the cookie store.  When [loginToBgg]
    succeeds the store is not empty and holds bare cookies only: each is a
    text which is not empty, with no white space around it and no [;] in it,
    so that the [Cookie] header, cut at each [;] and trimmed, gives the
    stored cookies back.  When the login is refused for its status, or for a
    response without cookie header, the store is left as it was; when the
    header held no cookie after trimming, the store is emptied. *)
Theorem login_stores_bare_cookies :
  forall (res : BggApi.LoginResponse) (old : list string),
    let outcome := fst (BggApi.loginToBgg res old) in
    let cookies := snd (BggApi.loginToBgg res old) in
    (outcome = BggApi.Resolved ->
       BggApi.hasCookies cookies = true
       /\ Forall BggApi.bare cookies
       /\ map Js.trim (BggApi.split ";" (BggApi.cookieHeader cookies)) = cookies)
    /\ (outcome <> BggApi.Resolved -> cookies = old \/ cookies = [])
    /\ (BggApi.ok res = false -> BggApi.status res <> 302 ->
        outcome <> BggApi.Resolved /\ cookies = old)
    /\ (Forall BggApi.bare old -> Forall BggApi.bare cookies).
Proof.
  intros res old outcome cookies. subst outcome cookies.
  split; [|split; [|split]].
  - destruct (loginToBgg_cases res old)
      as [(msg & ->)|[(msg & ->)|(c & cs & -> & Hbare)]]; try discriminate.
    intros _. cbn [fst snd]. split; [reflexivity|]. split; [exact Hbare|].
    apply (header_splits_back (c :: cs) ltac:(discriminate) Hbare "").
    left. reflexivity.
  - destruct (loginToBgg_cases res old)
      as [(msg & ->)|[(msg & ->)|(c & cs & -> & Hbare)]]; cbn [fst snd]; tauto.
  - intros Hok H302. unfold BggApi.loginToBgg. rewrite Hok.
    apply Z.eqb_neq in H302. rewrite H302. cbn [negb andb fst snd].
    split; [discriminate|reflexivity].
  - intros Hold.
    destruct (loginToBgg_cases res old)
      as [(msg & ->)|[(msg & ->)|(c & cs & -> & Hbare)]]; cbn [fst snd];
      [exact Hold | constructor | exact Hbare].
Qed.

Lemma login_stores_bare_cookies_witness :
  snd (BggApi.loginToBgg BggApi.granted []) = ["bggusername=meeple"; "SessionID=abc123"]
  /\ BggApi.cookieHeader (snd (BggApi.loginToBgg BggApi.granted []))
     = "bggusername=meeple; SessionID=abc123"
  /\ map Js.trim
       (BggApi.split ";"
          (BggApi.cookieHeader (snd (BggApi.loginToBgg BggApi.granted []))))
     = snd (BggApi.loginToBgg BggApi.granted []).
Proof.
  split; [reflexivity|]. split; [reflexivity|].
  apply (proj1 (login_stores_bare_cookies BggApi.granted [])).
  reflexivity.
Defined.
